(** * Permutohedral lattice (densecrf/permutohedral.h): embedding and properties

    The class [Permutohedral] of src/3rdparty/densecrf/permutohedral.h is
    embedded function by function.  Arrays are lists, an access outside an
    array (or through a NULL table) makes the embedded function return [None],
    [int] values are integers of [Z], and the sums and products of [int]
    that give the arrays their sizes or index an array of the caller return
    [None] outside the range of [int] (signed overflow is undefined); an
    index inside an array of such a size is within that range.  [short]
    stores wrap to 16 bits, and the [float] arithmetic is a parameter of the
    development: it is instantiated with IEEE binary32 (executable) and
    with the real numbers (exact).  What a run finds in memory that it does
    not initialise, the new arrays of scalars and the [short] past a stored
    key, is a parameter as well. *)

From Stdlib Require Import ZArith List Bool Lia.
From Stdlib Require Import Reals Lra.
From Stdlib Require Import Floats.SpecFloat.
Import ListNotations.
Open Scope Z_scope.

(** ** Fallible computations *)

Notation "x <- e ;; k" := (match e with Some x => k | None => None end)
  (at level 61, e at next level, right associativity).
Notation "' p <- e ;; k" := (match e with Some p => k | None => None end)
  (at level 61, p pattern, e at next level, right associativity).

(** ** Arrays *)

Definition len {A} (a : list A) : Z := Z.of_nat (length a).

(** [a[i]] as an rvalue. *)
Definition rd {A} (a : list A) (i : Z) : option A :=
  if i <? 0 then None else nth_error a (Z.to_nat i).

Fixpoint set_nth {A} (n : nat) (v : A) (a : list A) : list A :=
  match a with
  | [] => []
  | x :: t => match n with O => v :: t | S n' => x :: set_nth n' v t end
  end.

(** [a[i] = v]. *)
Definition wr {A} (a : list A) (i : Z) (v : A) : option (list A) :=
  if (0 <=? i) && (i <? len a) then Some (set_nth (Z.to_nat i) v a) else None.

(** [new T[n]]; [first i] is what cell [i] of the new array holds: for an
    [int], a [short] or a [float] the array is not initialised and the cell
    holds whatever the run finds there, for a class the value its default
    constructor gives. *)
Definition alloc {A} (n : Z) (first : Z -> A) : option (list A) :=
  if n <? 0 then None else Some (map (fun i => first (Z.of_nat i)) (seq 0 (Z.to_nat n))).

(** [memcpy( dst, src, n*sizeof(T) )]. *)
Definition memcpy {A} (dst src : list A) (n : Z) : option (list A) :=
  if (0 <=? n) && (n <=? len src) && (n <=? len dst)
  then Some (firstn (Z.to_nat n) src ++ skipn (Z.to_nat n) dst)
  else None.

(** ** Loops *)

Fixpoint iter_up {St} (n : nat) (i : Z) (body : Z -> St -> option St) (s : St) : option St :=
  match n with
  | O => Some s
  | S n' => s' <- body i s ;; iter_up n' (i + 1) body s'
  end.

(** [for( int i=lo; i<hi; i++ ) body] *)
Definition for_upto {St} (lo hi : Z) (body : Z -> St -> option St) (s : St) : option St :=
  iter_up (Z.to_nat (hi - lo)) lo body s.

Fixpoint iter_down {St} (n : nat) (i : Z) (body : Z -> St -> option St) (s : St) : option St :=
  match n with
  | O => Some s
  | S n' => s' <- body i s ;; iter_down n' (i - 1) body s'
  end.

(** [for( int j=hi; j>lo; j-- ) body] *)
Definition for_downto {St} (hi lo : Z) (body : Z -> St -> option St) (s : St) : option St :=
  iter_down (Z.to_nat (hi - lo)) hi body s.

(** ** Machine integers *)

(** A store into a [short]. *)
Definition to_short (z : Z) : Z := (z + 32768) mod 65536 - 32768.

(** [a + b] on [int]; signed overflow is undefined. *)
Definition int_add (a b : Z) : option Z :=
  let r := a + b in
  if (-2147483648 <=? r) && (r <=? 2147483647) then Some r else None.

(** [a - b] on [int] *)
Definition int_sub (a b : Z) : option Z :=
  let r := a - b in
  if (-2147483648 <=? r) && (r <=? 2147483647) then Some r else None.

(** [a * b] on [int] *)
Definition int_mul (a b : Z) : option Z :=
  let r := a * b in
  if (-2147483648 <=? r) && (r <=? 2147483647) then Some r else None.

(** [i*n + k] on [int] *)
Definition int_index (i n k : Z) : option Z :=
  m <- int_mul i n ;; int_add m k.

(** [a[i*n+k]] as an rvalue, in an array of the caller: nothing bounds its
    size, and the index is an [int]. *)
Definition rd_row {A} (a : list A) (i n k : Z) : option A :=
  idx <- int_index i n k ;; rd a idx.

(** [a[i*n+k] = v], in an array of the caller. *)
Definition wr_row {A} (a : list A) (i n k : Z) (v : A) : option (list A) :=
  idx <- int_index i n k ;; wr a idx v.

(** ** Arithmetic of [float] *)

Class FloatArith (F : Type) := {
  (** conversion of an [int] (also the integral literals [0], [1.f], [2.f], [3.f]) *)
  f_of_int : Z -> F;
  (** the literal [0.5f] *)
  f_half : F;
  f_add : F -> F -> F;
  f_sub : F -> F -> F;
  f_mul : F -> F -> F;
  f_div : F -> F -> F;
  (** [sqrtf] *)
  f_sqrt : F -> F;
  (** [powf( 2.f, e )] at an integral exponent [e] *)
  f_exp2 : Z -> F;
  (** [<] *)
  f_lt : F -> F -> bool;
  (** [(int)round( x )], undefined outside the range of [int] *)
  f_round : F -> option Z;
  (** conversion to [short], undefined outside the range of [short] *)
  f_to_short : F -> option Z
}.

(** *** IEEE binary32 *)

Module B32.
Definition prec : Z := 24.
Definition emax : Z := 128.

Definition of_int (z : Z) : spec_float := binary_normalize prec emax z 0 false.

(** magnitude of a finite number rounded to the nearest integer, halfway
    cases away from zero *)
Definition round_mag (m : positive) (e : Z) : Z :=
  match e with
  | Z0 => Zpos m
  | Zpos _ => Zpos m * 2 ^ e
  | Zneg p => (2 * Zpos m + 2 ^ Zpos p) / 2 ^ (Zpos p + 1)
  end.

(** magnitude of a finite number truncated to an integer *)
Definition trunc_mag (m : positive) (e : Z) : Z :=
  match e with
  | Z0 => Zpos m
  | Zpos _ => Zpos m * 2 ^ e
  | Zneg p => Zpos m / 2 ^ Zpos p
  end.

Definition round_int (x : spec_float) : option Z :=
  match x with
  | S754_zero _ => Some 0
  | S754_finite s m e =>
      let r := cond_Zopp s (round_mag m e) in
      if (-2147483648 <=? r) && (r <=? 2147483647) then Some r else None
  | _ => None
  end.

Definition trunc_short (x : spec_float) : option Z :=
  match x with
  | S754_zero _ => Some 0
  | S754_finite s m e =>
      let r := cond_Zopp s (trunc_mag m e) in
      if (-32768 <=? r) && (r <=? 32767) then Some r else None
  | _ => None
  end.

#[global] Instance arith : FloatArith spec_float := {
  f_of_int := of_int;
  f_half := S754_finite false 8388608 (-24);
  f_add := SFadd prec emax;
  f_sub := SFsub prec emax;
  f_mul := SFmul prec emax;
  f_div := SFdiv prec emax;
  f_sqrt := SFsqrt prec emax;
  f_exp2 := fun e => SFldexp prec emax (of_int 1) e;
  f_lt := SFltb;
  f_round := round_int;
  f_to_short := trunc_short
}.
End B32.

(** *** Real numbers: every operation exact *)

Module Exact.
(** nearest integer, halfway cases away from zero *)
Definition round_away (x : R) : Z :=
  if Rle_dec 0 x then Int_part (x + / 2) else - Int_part (- x + / 2).

(** truncation towards zero *)
Definition trunc (x : R) : Z :=
  if Rle_dec 0 x then Int_part x else - Int_part (- x).

Definition round_int (x : R) : option Z :=
  let r := round_away x in
  if (-2147483648 <=? r) && (r <=? 2147483647) then Some r else None.

Definition trunc_short (x : R) : option Z :=
  let r := trunc x in
  if (-32768 <=? r) && (r <=? 32767) then Some r else None.

#[global] Instance arith : FloatArith R := {
  f_of_int := IZR;
  f_half := (/ 2)%R;
  f_add := Rplus;
  f_sub := Rminus;
  f_mul := Rmult;
  f_div := Rdiv;
  f_sqrt := sqrt;
  f_exp2 := powerRZ 2;
  f_lt := fun x y => if Rlt_dec x y then true else false;
  f_round := round_int;
  f_to_short := trunc_short
}.
End Exact.

(** ** The key-indexed vertex store *)

(** Modelled from the spec: hashtable.h, included by permutohedral.h, is not
    among the sources.  Section 6 of the specification gives its contract:
    [find] returns the index of a key seen before, with [create] it gives an
    absent key the next index (0-based, dense) and stores it, without
    [create] it answers -1 for an absent key and allocates nothing; [size] is
    the number of distinct stored keys; [getKey] returns the key stored at an
    index.  A key is a sequence of [key_size_] 16-bit integers, the table
    reads that many entries of the array it is handed. *)
Record HashTable := { key_size_ : Z; keys_ : list (list Z) }.

Definition HashTable_new (key_size n_elements : Z) : HashTable :=
  {| key_size_ := key_size; keys_ := [] |}.

Definition size (h : HashTable) : Z := len (keys_ h).

Fixpoint key_index (k : list Z) (ks : list (list Z)) (i : Z) : option Z :=
  match ks with
  | [] => None
  | k' :: r => if list_eq_dec Z.eq_dec k k' then Some i else key_index k r (i + 1)
  end.

Definition find (h : HashTable) (k : list Z) (create : bool) : HashTable * Z :=
  let k := firstn (Z.to_nat (key_size_ h)) k in
  match key_index k (keys_ h) 0 with
  | Some i => (h, i)
  | None =>
      if create
      then ({| key_size_ := key_size_ h; keys_ := keys_ h ++ [k] |}, size h)
      else (h, -1)
  end.

Definition getKey (h : HashTable) (i : Z) : option (list Z) := rd (keys_ h) i.

(** ** The class *)

Record Neighbors := { n1 : Z; n2 : Z }.

(** [Neighbors( int n1=0, int n2=0 )] as the default constructor *)
Definition Neighbors_new : Neighbors := {| n1 := 0; n2 := 0 |}.

(** What a run finds in the arrays of scalars that [new] hands it:
    [fresh_int a i] is cell [i] of the [a]-th array of [int] or [short]
    that a function allocates, [fresh_float a i] the same for its arrays of
    [float]. *)
Class Fresh (F : Type) := {
  fresh_int : Z -> Z -> Z;
  fresh_float : Z -> Z -> F
}.

Section Code.
Context {F : Type} {FA : FloatArith F} {FM : Fresh F}.

Definition f_zero : F := f_of_int 0.
Definition f_one : F := f_of_int 1.

(** A table is [None] when its pointer is NULL. *)
Record Permutohedral := {
  offset_ : option (list Z);
  barycentric_ : option (list F);
  blur_neighbors_ : option (list Neighbors);
  N_ : Z;
  M_ : Z;
  d_ : Z
}.

(** [Permutohedral()] *)
Definition Permutohedral_new : Permutohedral :=
  {| offset_ := None; barycentric_ := None; blur_neighbors_ := None;
     N_ := 0; M_ := 0; d_ := 0 |}.

(** *** Copying *)

(** [(d_+1)*N_], the size the copies give every table *)
Definition copy_size (d N : Z) : option Z :=
  d1 <- int_add d 1 ;; int_mul d1 N.

(** [if (src){ dst = new T[n]; memcpy( dst, src, n*sizeof(T) ); }]; the
    size [n] is computed inside the branch. *)
Definition clone_table {A} (src : option (list A)) (size : option Z) (first : Z -> A)
  : option (option (list A)) :=
  match src with
  | None => Some None
  | Some s => n <- size ;; dst <- alloc n first ;; r <- memcpy dst s n ;; Some (Some r)
  end.

(** [Permutohedral( const Permutohedral& o )] *)
Definition Permutohedral_copy (o : Permutohedral) : option Permutohedral :=
  let N := N_ o in
  let M := M_ o in
  let d := d_ o in
  barycentric <- clone_table (barycentric_ o) (copy_size d N) (fresh_float 0) ;;
  offset <- clone_table (offset_ o) (copy_size d N) (fresh_int 0) ;;
  blur_neighbors <-
    clone_table (blur_neighbors_ o) (copy_size d N) (fun _ => Neighbors_new) ;;
  Some {| offset_ := offset; barycentric_ := barycentric;
          blur_neighbors_ := blur_neighbors; N_ := N; M_ := M; d_ := d |}.

(** [operator=]: the objects live in a store and are named by their
    position in it, so that [&o == this] can be asked. *)
Definition Permutohedral_assign (store : list Permutohedral) (this o : Z)
  : option (list Permutohedral) :=
  if o =? this then (_ <- rd store this ;; Some store)
  else
    _ <- rd store this ;;
    src <- rd store o ;;
    new <- Permutohedral_copy src ;;
    wr store this new.

(** *** init *)

(** lines 131-137: the canonical simplex *)
Definition canonical_simplex (d : Z) (canonical : list Z) : option (list Z) :=
  for_upto 0 (d + 1) (fun i canonical =>
    canonical <- for_upto 0 (d - i + 1) (fun j canonical =>
                   wr canonical (i * (d + 1) + j) (to_short i)) canonical ;;
    for_upto (d - i + 1) (d + 1) (fun j canonical =>
      wr canonical (i * (d + 1) + j) (to_short (i - (d + 1)))) canonical)
    canonical.

(** lines 139-143: the diagonal of E *)
Definition scale_factors (d : Z) (scale_factor : list F) : option (list F) :=
  let inv_std_dev := f_mul (f_sqrt (f_div (f_of_int 2) (f_of_int 3))) (f_of_int (d + 1)) in
  for_upto 0 d (fun i scale_factor =>
    wr scale_factor i
       (f_mul (f_div f_one
                 (f_sqrt (f_mul (f_add (f_of_int i) (f_of_int 2))
                                (f_add (f_of_int i) (f_of_int 1)))))
              inv_std_dev))
    scale_factor.

(** lines 147-157: elevation of feature [k]; [feature_size] is [d] *)
Definition elevate (d : Z) (feature scale_factor : list F) (k : Z) (elevated : list F)
  : option (list F) :=
  '(elevated, sm) <-
    for_downto d 0 (fun j '(elevated, sm) =>
      fj <- rd feature (k * d + (j - 1)) ;;
      sj <- rd scale_factor (j - 1) ;;
      let cf := f_mul fj sj in
      elevated <- wr elevated j (f_sub sm (f_mul (f_of_int j) cf)) ;;
      Some (elevated, f_add sm cf))
    (elevated, f_zero) ;;
  wr elevated 0 sm.

Definition down_factor (d : Z) : F := f_div f_one (f_of_int (d + 1)).
Definition up_factor (d : Z) : F := f_of_int (d + 1).

(** lines 159-167: the closest 0-colored lattice point and the sum of the
    rounded coordinates *)
Definition round_to_cell (d : Z) (elevated rem0 : list F) : option (list F * Z) :=
  for_upto 0 (d + 1) (fun i '(rem0, sum) =>
    e <- rd elevated i ;;
    rd_ <- f_round (f_mul (down_factor d) e) ;;
    rem0 <- wr rem0 i (f_mul (f_of_int rd_) (up_factor d)) ;;
    sum <- int_add sum rd_ ;;
    Some (rem0, sum))
  (rem0, 0).

(** lines 169-179: the rank of every coordinate.  [di] is a [double] holding
    a [float] difference, and the right-hand side of the comparison is a
    [float] difference, so the comparison is the one of [float]. *)
Definition rank_residuals (d : Z) (elevated rem0 : list F) (rank : list Z)
  : option (list Z) :=
  rank <- for_upto 0 (d + 1) (fun i rank => wr rank i 0) rank ;;
  for_upto 0 d (fun i rank =>
    ei <- rd elevated i ;;
    ri <- rd rem0 i ;;
    let di := f_sub ei ri in
    for_upto (i + 1) (d + 1) (fun j rank =>
      ej <- rd elevated j ;;
      rj <- rd rem0 j ;;
      if f_lt di (f_sub ej rj)
      then x <- rd rank i ;; wr rank i (to_short (x + 1))
      else x <- rd rank j ;; wr rank j (to_short (x + 1)))
    rank)
  rank.

(** lines 181-192: bring the point back onto the plane *)
Definition plane_correct (d sum : Z) (rank : list Z) (rem0 : list F)
  : option (list Z * list F) :=
  for_upto 0 (d + 1) (fun i '(rank, rem0) =>
    x <- rd rank i ;;
    y <- int_add x sum ;;
    rank <- wr rank i (to_short y) ;;
    x <- rd rank i ;;
    if x <? 0 then
      rank <- wr rank i (to_short (x + (d + 1))) ;;
      r <- rd rem0 i ;;
      rem0 <- wr rem0 i (f_add r (f_of_int (d + 1))) ;;
      Some (rank, rem0)
    else if x >? d then
      rank <- wr rank i (to_short (x - (d + 1))) ;;
      r <- rd rem0 i ;;
      rem0 <- wr rem0 i (f_sub r (f_of_int (d + 1))) ;;
      Some (rank, rem0)
    else Some (rank, rem0))
  (rank, rem0).

(** lines 194-203: the barycentric coordinates *)
Definition barycentric_coords (d : Z) (elevated rem0 : list F) (rank : list Z)
    (barycentric : list F) : option (list F) :=
  barycentric <- for_upto 0 (d + 2) (fun i barycentric => wr barycentric i f_zero)
                   barycentric ;;
  barycentric <-
    for_upto 0 (d + 1) (fun i barycentric =>
      e <- rd elevated i ;;
      r <- rd rem0 i ;;
      rk <- rd rank i ;;
      let v := f_mul (f_sub e r) (down_factor d) in
      x <- rd barycentric (d - rk) ;;
      barycentric <- wr barycentric (d - rk) (f_add x v) ;;
      y <- rd barycentric (d - rk + 1) ;;
      wr barycentric (d - rk + 1) (f_sub y v))
    barycentric ;;
  b0 <- rd barycentric 0 ;;
  bw <- rd barycentric (d + 1) ;;
  wr barycentric 0 (f_add b0 (f_add f_one bw)).

(** lines 205-211: the vertices of the simplex, their offsets and weights *)
Definition resolve_corners (d : Z) (canonical : list Z) (k : Z)
    (rem0 : list F) (rank : list Z) (barycentric : list F)
    (st : HashTable * list Z * list Z * list F)
  : option (HashTable * list Z * list Z * list F) :=
  for_upto 0 (d + 1) (fun remainder '(hash_table, key, offset, bary) =>
    key <- for_upto 0 d (fun i key =>
             r <- rd rem0 i ;;
             rk <- rd rank i ;;
             c <- rd canonical (remainder * (d + 1) + rk) ;;
             s <- f_to_short (f_add r (f_of_int c)) ;;
             wr key i s)
           key ;;
    let '(hash_table, o) := find hash_table key true in
    offset <- wr offset (k * (d + 1) + remainder) o ;;
    b <- rd barycentric remainder ;;
    bary <- wr bary (k * (d + 1) + remainder) b ;;
    Some (hash_table, key, offset, bary))
  st.

(** The arrays that live across the iterations of the loop over the
    points: the two tables under construction, the hash table and the
    local arrays of [init]. *)
Record Build := {
  s_hash_table : HashTable;
  s_offset : list Z;
  s_bary : list F;
  s_elevated : list F;
  s_rem0 : list F;
  s_barycentric : list F;
  s_rank : list Z;
  s_key : list Z
}.

(** lines 146-212: one iteration of the loop over the points *)
Definition locate (d : Z) (feature scale_factor : list F) (canonical : list Z)
    (k : Z) (st : Build) : option Build :=
  elevated <- elevate d feature scale_factor k (s_elevated st) ;;
  '(rem0, sum) <- round_to_cell d elevated (s_rem0 st) ;;
  rank <- rank_residuals d elevated rem0 (s_rank st) ;;
  '(rank, rem0) <- plane_correct d sum rank rem0 ;;
  barycentric <- barycentric_coords d elevated rem0 rank (s_barycentric st) ;;
  '(hash_table, key, offset, bary) <-
    resolve_corners d canonical k rem0 rank barycentric
      (s_hash_table st, s_key st, s_offset st, s_bary st) ;;
  Some {| s_hash_table := hash_table; s_offset := offset; s_bary := bary;
          s_elevated := elevated; s_rem0 := rem0; s_barycentric := barycentric;
          s_rank := rank; s_key := key |}.

(** lines 231-248: the neighbours of every lattice point along every axis.
    [getKey( i )] gives the [d] coordinates of vertex [i]; for [j = d] the
    source reads [key[j]] one past them, and [stray i] is the [short] found
    there. *)
Definition find_neighbors (stray : Z -> Z) (d M : Z) (hash_table : HashTable)
    (st : list Z * list Z * list Neighbors)
  : option (list Z * list Z * list Neighbors) :=
  for_upto 0 (d + 1) (fun j st =>
    for_upto 0 M (fun i '(n1_, n2_, blur_neighbors) =>
      key <- getKey hash_table i ;;
      '(n1_, n2_) <-
        for_upto 0 d (fun k '(n1_, n2_) =>
          x <- rd key k ;;
          n1_ <- wr n1_ k (to_short (x - 1)) ;;
          n2_ <- wr n2_ k (to_short (x + 1)) ;;
          Some (n1_, n2_))
        (n1_, n2_) ;;
      key_j <- (if j <? d then rd key j else Some (stray i)) ;;
      n1_ <- wr n1_ j (to_short (key_j + d)) ;;
      n2_ <- wr n2_ j (to_short (key_j - d)) ;;
      blur_neighbors <-
        wr blur_neighbors (j * M + i)
           {| n1 := snd (find hash_table n1_ false);
              n2 := snd (find hash_table n2_ false) |} ;;
      Some (n1_, n2_, blur_neighbors))
    st)
  st.

(** [void init ( const float* feature, int feature_size, int N )].  The
    sizes of the arrays are sums and products of [int] (lines 114-129 and
    229); the indices of the loops stay below them. *)
Definition init (stray : Z -> Z) (feature : list F) (feature_size N : Z)
  : option Permutohedral :=
  let d := feature_size in
  d1 <- int_add d 1 ;;
  n_elements <- int_mul N d1 ;;
  let hash_table := HashTable_new d n_elements in
  n_corners <- int_mul d1 N ;;
  offset <- alloc n_corners (fresh_int 0) ;;
  bary <- alloc n_corners (fresh_float 0) ;;
  scale_factor <- alloc d (fresh_float 1) ;;
  elevated <- alloc d1 (fresh_float 2) ;;
  rem0 <- alloc d1 (fresh_float 3) ;;
  d2 <- int_add d 2 ;;
  barycentric <- alloc d2 (fresh_float 4) ;;
  rank <- alloc d1 (fresh_int 1) ;;
  n_canonical <- int_mul d1 d1 ;;
  canonical <- alloc n_canonical (fresh_int 2) ;;
  key <- alloc d1 (fresh_int 3) ;;
  canonical <- canonical_simplex d canonical ;;
  scale_factor <- scale_factors d scale_factor ;;
  st <- for_upto 0 N (locate d feature scale_factor canonical)
          {| s_hash_table := hash_table; s_offset := offset; s_bary := bary;
             s_elevated := elevated; s_rem0 := rem0; s_barycentric := barycentric;
             s_rank := rank; s_key := key |} ;;
  let M := size (s_hash_table st) in
  n_neighbors <- int_mul d1 M ;;
  blur_neighbors <- alloc n_neighbors (fun _ => Neighbors_new) ;;
  n1_ <- alloc d1 (fresh_int 4) ;;
  n2_ <- alloc d1 (fresh_int 5) ;;
  '(_, _, blur_neighbors) <-
    find_neighbors stray d M (s_hash_table st) (n1_, n2_, blur_neighbors) ;;
  Some {| offset_ := Some (s_offset st); barycentric_ := Some (s_bary st);
          blur_neighbors_ := Some blur_neighbors; N_ := N; M_ := M; d_ := d |}.

(** *** compute *)

(** a table read; [None] also for a NULL table *)
Definition table {A} (t : option (list A)) (i : Z) : option A :=
  a <- t ;; rd a i.

(** lines 256-257: the default [-1] of a size stands for the rest of the
    points; [resolve_size] is the size the range gets, [resolved_size] the
    statement as it runs, with its difference of two [int]. *)
Definition resolve_size (N offset size : Z) : Z :=
  if size =? -1 then N - offset else size.

Definition resolved_size (N offset size : Z) : option Z :=
  if size =? -1 then int_sub N offset else Some size.

(** lines 263-264 *)
Definition zero_scratch (n : Z) (st : list F * list F) : option (list F * list F) :=
  for_upto 0 n (fun i '(values, new_values) =>
    new_values <- wr new_values i f_zero ;;
    values <- wr values i f_zero ;;
    Some (values, new_values))
  st.

(** lines 266-274: splatting.  The scratch buffers have [(M_+2)*value_size]
    entries, a size of type [int] (line 260), so that an index inside them
    is one; the arrays [in] and [out] are the caller's. *)
Definition splat (p : Permutohedral) (inp : list F) (value_size in_offset in_size : Z)
    (values : list F) : option (list F) :=
  for_upto 0 in_size (fun i values =>
    for_upto 0 (d_ p + 1) (fun j values =>
      o_ <- table (offset_ p) ((in_offset + i) * (d_ p + 1) + j) ;;
      let o := o_ + 1 in
      w <- table (barycentric_ p) ((in_offset + i) * (d_ p + 1) + j) ;;
      for_upto 0 value_size (fun k values =>
        v <- rd values (o * value_size + k) ;;
        x <- rd_row inp i value_size k ;;
        wr values (o * value_size + k) (f_add v (f_mul w x)))
      values)
    values)
  values.

(** lines 277-290: the blur along axis [j], which ends by swapping the two
    buffers *)
Definition blur_axis (p : Permutohedral) (value_size j : Z) (st : list F * list F)
  : option (list F * list F) :=
  '(values, new_values) <-
    for_upto 0 (M_ p) (fun i '(values, new_values) =>
      nb <- table (blur_neighbors_ p) (j * M_ p + i) ;;
      let n1_ := n1 nb + 1 in
      let n2_ := n2 nb + 1 in
      new_values <-
        for_upto 0 value_size (fun k new_values =>
          old <- rd values ((i + 1) * value_size + k) ;;
          a <- rd values (n1_ * value_size + k) ;;
          b <- rd values (n2_ * value_size + k) ;;
          wr new_values ((i + 1) * value_size + k)
             (f_add old (f_mul f_half (f_add a b))))
        new_values ;;
      Some (values, new_values))
    st ;;
  Some (new_values, values).

(** the passes along the axes [0 .. j-1] *)
Definition blur_passes (p : Permutohedral) (value_size j : Z) (st : list F * list F)
  : option (list F * list F) :=
  for_upto 0 j (blur_axis p value_size) st.

(** lines 276-291 *)
Definition blur (p : Permutohedral) (value_size : Z) (st : list F * list F)
  : option (list F * list F) :=
  blur_passes p value_size (d_ p + 1) st.

(** line 293 *)
Definition alpha (p : Permutohedral) : F :=
  f_div f_one (f_add f_one (f_exp2 (- d_ p))).

(** lines 295-305: slicing *)
Definition slice (p : Permutohedral) (values : list F) (value_size out_offset out_size : Z)
    (out : list F) : option (list F) :=
  for_upto 0 out_size (fun i out =>
    out <- for_upto 0 value_size (fun k out => wr_row out i value_size k f_zero) out ;;
    for_upto 0 (d_ p + 1) (fun j out =>
      o_ <- table (offset_ p) ((out_offset + i) * (d_ p + 1) + j) ;;
      let o := o_ + 1 in
      w <- table (barycentric_ p) ((out_offset + i) * (d_ p + 1) + j) ;;
      for_upto 0 value_size (fun k out =>
        x <- rd_row out i value_size k ;;
        v <- rd values (o * value_size + k) ;;
        wr_row out i value_size k (f_add x (f_mul (f_mul w v) (alpha p))))
      out)
    out)
  out.

(** lines 259-291: the scratch buffers after splatting and [j] blur passes *)
Definition blurred (p : Permutohedral) (inp : list F)
    (value_size in_offset in_size j : Z) : option (list F * list F) :=
  in_size <- resolved_size (N_ p) in_offset in_size ;;
  slots <- int_add (M_ p) 2 ;;
  n <- int_mul slots value_size ;;
  values <- alloc n (fresh_float 0) ;;
  new_values <- alloc n (fresh_float 1) ;;
  '(values, new_values) <- zero_scratch n (values, new_values) ;;
  values <- splat p inp value_size in_offset in_size values ;;
  blur_passes p value_size j (values, new_values).

(** [void compute ( float* out, const float* in, int value_size,
    int in_offset=0, int out_offset=0, int in_size = -1, int out_size = -1 ) const];
    the result is the array [out] after the call. *)
Definition compute (p : Permutohedral) (out inp : list F)
    (value_size in_offset out_offset in_size out_size : Z) : option (list F) :=
  out_size <- resolved_size (N_ p) out_offset out_size ;;
  '(values, _) <- blurred p inp value_size in_offset in_size (d_ p + 1) ;;
  slice p values value_size out_offset out_size out.
End Code.

Arguments Permutohedral F : clear implicits.
Arguments Build F : clear implicits.

(** * Vocabulary of the properties *)

(** Two runs of a loop from related states: they fail together or end in
    related states. *)
Definition both {St T} (R : St -> T -> Prop) (x : option St) (y : option T) : Prop :=
  match x, y with
  | Some a, Some b => R a b
  | None, None => True
  | _, _ => False
  end.

(** [row_update base val k a] is [a[base+k] = val k a[base+k]]. *)
Definition row_update {A} (base : Z) (val : Z -> A -> option A) (k : Z) (a : list A)
  : option (list A) :=
  x <- rd a (base + k) ;; v <- val k x ;; wr a (base + k) v.

(** Two arrays of the same size that hold the same entries at the indices
    from [lo] up to, not including, [hi]. *)
Definition alike {A} (lo hi : Z) (a b : list A) : Prop :=
  len a = len b /\ forall idx, lo <= idx < hi -> rd a idx = rd b idx.

(** The state of the loops over the axes and the vertices in two runs. *)
Definition same_axes (n : Z) (s t : list Z * list Z * list Neighbors) : Prop :=
  len (fst (fst s)) = len (fst (fst t)) /\
  len (snd (fst s)) = len (snd (fst t)) /\
  alike 0 n (snd s) (snd t).

(** All entries of an array of [d+1] integers lie between [lo] and [hi]. *)
Definition entries_within (d lo hi : Z) (a : list Z) : Prop :=
  len a = d + 1 /\
  forall i, 0 <= i <= d -> exists x, rd a i = Some x /\ lo <= x <= hi.

(** The number of comparisons that involve coordinate [x] among the pairs
    [(i', j')] with [i' < i]. *)
Definition pairs_before (d i x : Z) : Z :=
  (if x <? i then d - x else 0) + Z.min i x.

(** The [d+1] entries of point [k] in a table of [d+1] entries per point. *)
Definition segment {A} (d : Z) (a : list A) (k : Z) : list A :=
  firstn (Z.to_nat (d + 1)) (skipn (Z.to_nat (k * (d + 1))) a).

Definition Rsum (a : list R) : R := fold_right Rplus 0%R a.

(** [before rho j i]: coordinate [j] comes before coordinate [i] in the
    order in which the comparisons of lines 172-179 sort the residuals
    [rho]: the larger residual first, and of two equal residuals the one
    of the smaller index. *)
Definition before (rho : Z -> R) (j i : Z) : bool :=
  if Rlt_dec (rho i) (rho j) then true
  else if Rlt_dec (rho j) (rho i) then false
  else j <? i.

(** The number of [j] in [0 .. n-1] with [P j]. *)
Fixpoint count_below (P : Z -> bool) (n : nat) : Z :=
  match n with
  | O => 0
  | S m => count_below P m + (if P (Z.of_nat m) then 1 else 0)
  end.

(** The number of coordinates in [0 .. n-1] that come before [x]. *)
Definition ahead (rho : Z -> R) (n x : Z) : Z :=
  count_below (fun j => before rho j x) (Z.to_nat n).

(** [f 0 + ... + f (n-1)] *)
Fixpoint Rsum_below (f : Z -> R) (n : nat) : R :=
  match n with
  | O => 0%R
  | S m => (Rsum_below f m + f (Z.of_nat m))%R
  end.

(** What coordinate [i], of rank [rk i] and scaled residual [v i], adds to
    slot [s] of [barycentric] (lines 199-200). *)
Definition share (d : Z) (rk : Z -> Z) (v : Z -> R) (s i : Z) : R :=
  ((if d - rk i =? s then v i else 0) - (if d - rk i + 1 =? s then v i else 0))%R.

(** [elevated[i] - rem0[i]] *)
Definition residual (elevated rem0 : list R) (i : Z) : R :=
  (nth (Z.to_nat i) elevated 0 - nth (Z.to_nat i) rem0 0)%R.

(** [rank[i]] *)
Definition rank_at (rank : list Z) (i : Z) : Z := nth (Z.to_nat i) rank 0.

(** Three runs: they fail together or end in related states. *)
Definition all3 {S1 S2 S3} (R : S1 -> S2 -> S3 -> Prop)
    (x : option S1) (y : option S2) (z : option S3) : Prop :=
  match x, y, z with
  | Some a, Some b, Some c => R a b c
  | None, None, None => True
  | _, _, _ => False
  end.

(** [w] is [a*u + b*v], entry by entry. *)
Definition combines (a b : R) (u v w : list R) : Prop :=
  len u = len w /\ len v = len w /\
  forall i x y, rd u i = Some x -> rd v i = Some y -> rd w i = Some (a * x + b * y)%R.

(** The two scratch buffers of [compute] in three runs. *)
Definition combines2 (a b : R) (s1 s2 s3 : list R * list R) : Prop :=
  combines a b (fst s1) (fst s2) (fst s3) /\ combines a b (snd s1) (snd s2) (snd s3).

(** No entry of the array is negative. *)
Definition nonneg (a : list R) : Prop :=
  forall i x, rd a i = Some x -> (0 <= x)%R.

(** [b] holds channel [c] of the rows of [a]: [b[i] = a[i*value_size + c]]. *)
Definition channel_view {A} (value_size c : Z) (a b : list A) : Prop :=
  forall i, rd b i = rd a (i * value_size + c).

(** The two scratch buffers of [compute] and channel [c] of them. *)
Definition view2 {A} (value_size c : Z) (s t : list A * list A) : Prop :=
  channel_view value_size c (fst s) (fst t) /\ channel_view value_size c (snd s) (snd t).

(** A value of type [short]. *)
Definition is_short (x : Z) : Prop := -32768 <= x <= 32767.

(** The key that lines 238-243 build from the key [key] of a vertex for
    the axis [j]: every coordinate moves by [s] and coordinate [j] by
    [- s * d], where [s] is [-1] for [n1] and [1] for [n2]; [k] is the index
    of the first coordinate of [key]. *)
Fixpoint shift_key (d j s k : Z) (key : list Z) : list Z :=
  match key with
  | [] => []
  | x :: r => to_short (if k =? j then x - s * d else x + s) :: shift_key d j s (k + 1) r
  end.

(** What [find( key )] answers for a key of [key_size_] coordinates. *)
Definition lookup (h : HashTable) (key : list Z) : Z :=
  match key_index key (keys_ h) 0 with Some i => i | None => -1 end.

(** The keys of the table of [init]: pairwise distinct, each of [d]
    coordinates of type [short]. *)
Definition stored_keys_ok (d : Z) (h : HashTable) : Prop :=
  key_size_ h = d /\ NoDup (keys_ h) /\
  forall key, In key (keys_ h) -> len key = d /\ Forall is_short key.

(** [h'] holds the keys of [h], at the same indices, and maybe more. *)
Definition extends (h h' : HashTable) : Prop :=
  key_size_ h' = key_size_ h /\ exists more, keys_ h' = keys_ h ++ more.

(** [canonical[i*(d+1)+j]] as lines 132-137 leave it. *)
Definition canonical_entry (d i j : Z) : Z :=
  if j <=? d - i then to_short i else to_short (i - (d + 1)).

(** Cell [e] of the array, when there is one, holds at least [b]. *)
Definition cell_ge (e : Z) (b : R) (t : list R) : Prop :=
  forall y, rd t e = Some y -> (b <= y)%R.

(** An array of [n] entries, none negative, with at least [b] in cell [e]. *)
Definition raised (n e : Z) (b : R) (t : list R) : Prop :=
  len t = n /\ nonneg t /\ cell_ge e b t.

Section Vocabulary.
Context {F : Type} {FA : FloatArith F} {FM : Fresh F}.

(** The value the pass along axis [j] gives vertex [i] in channel [k], read
    off the buffer [old]. *)
Definition blur_value (p : Permutohedral F) (value_size j : Z) (old : list F) (i k : Z)
  : option F :=
  nb <- table (blur_neighbors_ p) (j * M_ p + i) ;;
  x <- rd old ((i + 1) * value_size + k) ;;
  a <- rd old ((n1 nb + 1) * value_size + k) ;;
  b <- rd old ((n2 nb + 1) * value_size + k) ;;
  Some (f_add x (f_mul f_half (f_add a b))).

(** The value slicing accumulates for point [pt] in channel [k] from the
    first [n] corners of its simplex. *)
Definition slice_partial (p : Permutohedral F) (values : list F) (value_size pt k n : Z)
  : option F :=
  for_upto 0 n (fun j x =>
    o_ <- table (offset_ p) (pt * (d_ p + 1) + j) ;;
    w <- table (barycentric_ p) (pt * (d_ p + 1) + j) ;;
    v <- rd values ((o_ + 1) * value_size + k) ;;
    Some (f_add x (f_mul (f_mul w v) (alpha p))))
  f_zero.

Definition slice_value (p : Permutohedral F) (values : list F) (value_size pt k : Z)
  : option F :=
  slice_partial p values value_size pt k (d_ p + 1).

(** The shape of a lattice as [init] leaves it. *)
Record built (p : Permutohedral F) : Prop := {
  built_d : 0 <= d_ p;
  built_N : 0 <= N_ p;
  built_M : 0 <= M_ p;
  built_offset :
    exists o, offset_ p = Some o /\ len o = (d_ p + 1) * N_ p /\
      forall i, 0 <= i < (d_ p + 1) * N_ p ->
        exists x, rd o i = Some x /\ 0 <= x < M_ p;
  built_barycentric :
    exists b, barycentric_ p = Some b /\ len b = (d_ p + 1) * N_ p;
  built_neighbors :
    exists nbs, blur_neighbors_ p = Some nbs /\ len nbs = (d_ p + 1) * M_ p /\
      forall i, 0 <= i < (d_ p + 1) * M_ p ->
        exists nb, rd nbs i = Some nb /\
                   -1 <= n1 nb < M_ p /\ -1 <= n2 nb < M_ p;
  (** the sizes [init] computes are of type [int] *)
  built_sizes :
    d_ p + 1 <= 2147483647 /\ M_ p + 2 <= 2147483647 /\
    (d_ p + 1) * N_ p <= 2147483647 /\ (d_ p + 1) * M_ p <= 2147483647
}.


(** The state of the loop over the corners of a simplex in two runs. *)
Definition same_corners (d n : Z) (s t : HashTable * list Z * list Z * list F) : Prop :=
  let '(h1, key1, offset1, bary1) := s in
  let '(h2, key2, offset2, bary2) := t in
  h1 = h2 /\ key_size_ h1 = d /\ len key1 = len key2 /\
  alike 0 n offset1 offset2 /\ alike 0 n bary1 bary2.

(** The state of the loop over the points in two runs: the same vertices,
    tables that are alike up to the point reached, and local arrays of the
    size [init] gives them. *)
Definition same_build (d k : Z) (s t : Build F) : Prop :=
  s_hash_table s = s_hash_table t /\ key_size_ (s_hash_table s) = d /\
  alike 0 (k * (d + 1)) (s_offset s) (s_offset t) /\
  alike 0 (k * (d + 1)) (s_bary s) (s_bary t) /\
  (len (s_elevated s) = d + 1 /\ len (s_elevated t) = d + 1) /\
  (len (s_rem0 s) = d + 1 /\ len (s_rem0 t) = d + 1) /\
  (len (s_barycentric s) = d + 2 /\ len (s_barycentric t) = d + 2) /\
  (len (s_rank s) = d + 1 /\ len (s_rank t) = d + 1) /\
  len (s_key s) = len (s_key t).


(** lines 207-208: the key of the corner [remainder], the [d] coordinates
    that [find] reads of the array [key]. *)
Definition corner_key (d : Z) (canonical : list Z) (rem0 : list F) (rank : list Z)
    (remainder : Z) (key : list Z) : option (list Z) :=
  key <- for_upto 0 d (fun i key =>
           r <- rd rem0 i ;;
           rk <- rd rank i ;;
           c <- rd canonical (remainder * (d + 1) + rk) ;;
           s <- f_to_short (f_add r (f_of_int c)) ;;
           wr key i s)
         key ;;
  Some (firstn (Z.to_nat d) key).

(** The stages of [locate] for point [k] on arrays of zeros: the key and
    the weight of the corner [remainder] of its simplex. *)
Definition corner (d : Z) (feature scale_factor : list F) (canonical : list Z)
    (k remainder : Z) : option (list Z * F) :=
  elevated <- elevate d feature scale_factor k (repeat f_zero (Z.to_nat (d + 1))) ;;
  '(rem0, sum) <- round_to_cell d elevated (repeat f_zero (Z.to_nat (d + 1))) ;;
  rank <- rank_residuals d elevated rem0 (repeat 0 (Z.to_nat (d + 1))) ;;
  '(rank, rem0) <- plane_correct d sum rank rem0 ;;
  barycentric <- barycentric_coords d elevated rem0 rank
                   (repeat f_zero (Z.to_nat (d + 2))) ;;
  key <- corner_key d canonical rem0 rank remainder (repeat 0 (Z.to_nat (d + 1))) ;;
  b <- rd barycentric remainder ;;
  Some (key, b).

(** The sizes of the local arrays of [init] in the loop over the points. *)
Definition local_sizes (d : Z) (t : Build F) : Prop :=
  len (s_elevated t) = d + 1 /\ len (s_rem0 t) = d + 1 /\
  len (s_barycentric t) = d + 2 /\ len (s_rank t) = d + 1 /\ len (s_key t) = d + 1.
End Vocabulary.

(** ** Concrete inputs in binary32 *)

Module Binary32.

Definition no_stray (i : Z) : Z := 0.

(** A run that finds zeros in the arrays it allocates. *)
#[global] Instance zeroed : Fresh spec_float := {
  fresh_int := fun _ _ => 0;
  fresh_float := fun _ _ => B32.of_int 0
}.

Definition zero : spec_float := B32.of_int 0.
Definition one : spec_float := B32.of_int 1.
(** [0.1f] *)
Definition tenth : spec_float := SFdiv B32.prec B32.emax (B32.of_int 1) (B32.of_int 10).

(** The lattice of the single one-dimensional feature point [0.0]. *)
Definition origin_lattice : Permutohedral spec_float :=
  {| offset_ := Some [0; 1];
     barycentric_ := Some [one; zero];
     blur_neighbors_ :=
       Some [{| n1 := 1; n2 := -1 |}; {| n1 := -1; n2 := 0 |};
             {| n1 := -1; n2 := 1 |}; {| n1 := 0; n2 := -1 |}];
     N_ := 1; M_ := 2; d_ := 1 |}.

(** The lattice of the two one-dimensional feature points [0.0] and [0.1]. *)
Definition pair_lattice : Permutohedral spec_float :=
  {| offset_ := Some [0; 1; 0; 1];
     barycentric_ :=
       Some [one; zero; S754_finite false 14839950 (-24); S754_finite false 15498128 (-27)];
     blur_neighbors_ :=
       Some [{| n1 := 1; n2 := -1 |}; {| n1 := -1; n2 := 0 |};
             {| n1 := -1; n2 := 1 |}; {| n1 := 0; n2 := -1 |}];
     N_ := 2; M_ := 2; d_ := 1 |}.

(** The lattice of the two one-dimensional feature points [0.0] and [0.0]. *)
Definition twin_lattice : Permutohedral spec_float :=
  {| offset_ := Some [0; 1; 0; 1];
     barycentric_ := Some [one; zero; one; zero];
     blur_neighbors_ :=
       Some [{| n1 := 1; n2 := -1 |}; {| n1 := -1; n2 := 0 |};
             {| n1 := -1; n2 := 1 |}; {| n1 := 0; n2 := -1 |}];
     N_ := 2; M_ := 2; d_ := 1 |}.
End Binary32.

(** ** Concrete inputs over the reals *)

Module ExactReal.

(** A run that finds zeros in the arrays it allocates. *)
#[global] Instance zeroed : Fresh R := {
  fresh_int := fun _ _ => 0;
  fresh_float := fun _ _ => 0%R
}.

(** The lattice of the single one-dimensional feature point [0.0]. *)
Definition origin_lattice : Permutohedral R :=
  {| offset_ := Some [0; 1];
     barycentric_ := Some [1%R; 0%R];
     blur_neighbors_ :=
       Some [{| n1 := 1; n2 := -1 |}; {| n1 := -1; n2 := 0 |};
             {| n1 := -1; n2 := 1 |}; {| n1 := 0; n2 := -1 |}];
     N_ := 1; M_ := 2; d_ := 1 |}.

(** A lattice of two points on the vertices of [origin_lattice], each
    with its weights. *)
Definition twin_lattice : Permutohedral R :=
  {| offset_ := Some [0; 1; 0; 1];
     barycentric_ := Some [1%R; 0%R; 1%R; 0%R];
     blur_neighbors_ :=
       Some [{| n1 := 1; n2 := -1 |}; {| n1 := -1; n2 := 0 |};
             {| n1 := -1; n2 := 1 |}; {| n1 := 0; n2 := -1 |}];
     N_ := 2; M_ := 2; d_ := 1 |}.

(** A scratch buffer of [origin_lattice], row by row: [f v k] is channel
    [k] of slot [v]. *)
Definition rows (value_size : Z) (b : list R) (f : Z -> Z -> R) : Prop :=
  forall v k, 0 <= v < 4 -> 0 <= k < value_size ->
    rd b (v * value_size + k) = Some (f v k).

(** Channel [k] of a value vector. *)
Definition channel (inp : list R) (k : Z) : R := nth (Z.to_nat k) inp 0%R.

(** The slots of the two neighbours of vertex [i] along axis [j]. *)
Definition origin_slots (j i : Z) : Z * Z :=
  if j =? 0 then (if i =? 0 then (2, 0) else (0, 1))
  else (if i =? 0 then (0, 2) else (1, 0)).
End ExactReal.

(** * Properties *)

(** ** Arrays *)

Lemma len_nonneg {A} (a : list A) : 0 <= len a.
Proof. unfold len. lia. Qed.

Lemma set_nth_length {A} (n : nat) (v : A) (a : list A) :
  length (set_nth n v a) = length a.
Proof.
  revert n. induction a as [|x t IH]; intros [|n]; simpl; auto.
Qed.

Lemma nth_error_set_nth_same {A} (n : nat) (v : A) (a : list A) :
  (n < length a)%nat -> nth_error (set_nth n v a) n = Some v.
Proof.
  revert n. induction a as [|x t IH]; intros [|n] Hn; simpl in *; try lia; auto.
  apply IH. lia.
Qed.

Lemma nth_error_set_nth_other {A} (n m : nat) (v : A) (a : list A) :
  n <> m -> nth_error (set_nth n v a) m = nth_error a m.
Proof.
  revert n m. induction a as [|x t IH]; intros [|n] [|m] Hnm; simpl; auto; try lia.
Qed.

Lemma rd_range {A} (a : list A) (i : Z) (x : A) :
  rd a i = Some x -> 0 <= i < len a.
Proof.
  unfold rd, len. destruct (Z.ltb_spec i 0); [discriminate|].
  intros Hn. assert (Hlt : (Z.to_nat i < length a)%nat).
  { apply nth_error_Some. congruence. }
  lia.
Qed.

Lemma rd_some {A} (a : list A) (i : Z) :
  0 <= i < len a -> exists x, rd a i = Some x.
Proof.
  unfold rd, len. intros Hi. destruct (Z.ltb_spec i 0); [lia|].
  destruct (nth_error a (Z.to_nat i)) eqn:E; eauto.
  apply nth_error_None in E. lia.
Qed.

Lemma rd_none {A} (a : list A) (i : Z) :
  len a <= i -> rd a i = None.
Proof.
  unfold rd, len. intros Hi. destruct (Z.ltb_spec i 0); auto.
  apply nth_error_None. lia.
Qed.

Lemma wr_some {A} (a : list A) (i : Z) (v : A) :
  0 <= i < len a -> exists a', wr a i v = Some a'.
Proof.
  unfold wr. intros Hi.
  destruct (Z.leb_spec 0 i); [|lia]. destruct (Z.ltb_spec i (len a)); [|lia].
  simpl. eauto.
Qed.

Lemma wr_range {A} (a a' : list A) (i : Z) (v : A) :
  wr a i v = Some a' -> 0 <= i < len a.
Proof.
  unfold wr. destruct (Z.leb_spec 0 i); destruct (Z.ltb_spec i (len a));
    simpl; intros; try discriminate; lia.
Qed.

Lemma wr_len {A} (a a' : list A) (i : Z) (v : A) :
  wr a i v = Some a' -> len a' = len a.
Proof.
  unfold wr. destruct (_ && _); [|discriminate].
  intros E. inversion E. unfold len. now rewrite set_nth_length.
Qed.

Lemma rd_wr_same {A} (a a' : list A) (i : Z) (v : A) :
  wr a i v = Some a' -> rd a' i = Some v.
Proof.
  intros E. pose proof (wr_range _ _ _ _ E) as Hi.
  unfold wr in E. destruct (_ && _); [|discriminate]. inversion E.
  unfold rd. destruct (Z.ltb_spec i 0); [lia|].
  apply nth_error_set_nth_same. unfold len in Hi. lia.
Qed.

Lemma rd_wr_other {A} (a a' : list A) (i j : Z) (v : A) :
  wr a i v = Some a' -> j <> i -> rd a' j = rd a j.
Proof.
  intros E Hj. pose proof (wr_range _ _ _ _ E) as Hi.
  unfold wr in E. destruct (_ && _); [|discriminate]. inversion E.
  unfold rd. destruct (Z.ltb_spec j 0); auto.
  apply nth_error_set_nth_other. lia.
Qed.

Lemma rd_ext {A} (a b : list A) :
  (forall i, rd a i = rd b i) -> a = b.
Proof.
  intros H. apply nth_error_ext. intros n.
  specialize (H (Z.of_nat n)). unfold rd in H.
  destruct (Z.ltb_spec (Z.of_nat n) 0); [lia|].
  now rewrite Nat2Z.id in H.
Qed.

Lemma rd_repeat {A} (x : A) (n : nat) (i : Z) :
  0 <= i < Z.of_nat n -> rd (repeat x n) i = Some x.
Proof.
  intros Hi. unfold rd. destruct (Z.ltb_spec i 0); [lia|].
  apply nth_error_repeat. lia.
Qed.

Lemma alloc_some {A} (n : Z) (first : Z -> A) :
  0 <= n -> exists a, alloc n first = Some a /\ len a = n.
Proof.
  intros Hn. unfold alloc. destruct (Z.ltb_spec n 0); [lia|].
  eexists. split; [reflexivity|]. unfold len. rewrite length_map, length_seq. lia.
Qed.

Lemma alloc_len {A} (n : Z) (first : Z -> A) (a : list A) :
  alloc n first = Some a -> len a = n /\ 0 <= n.
Proof.
  unfold alloc. destruct (Z.ltb_spec n 0); [discriminate|].
  intros E. inversion E. unfold len. rewrite length_map, length_seq. lia.
Qed.

(** ** Loops *)

Lemma for_upto_empty {St} (lo hi : Z) (body : Z -> St -> option St) (s : St) :
  hi <= lo -> for_upto lo hi body s = Some s.
Proof.
  intros H. unfold for_upto. replace (Z.to_nat (hi - lo)) with O by lia. reflexivity.
Qed.

Lemma iter_up_last {St} (n : nat) (i : Z) (body : Z -> St -> option St) (s : St) :
  iter_up (S n) i body s =
  (s' <- iter_up n i body s ;; body (i + Z.of_nat n) s').
Proof.
  revert i s. induction n as [|n IH]; intros i s.
  - simpl. rewrite Z.add_0_r. destruct (body i s); reflexivity.
  - change (iter_up (S (S n)) i body s)
      with (s' <- body i s ;; iter_up (S n) (i + 1) body s').
    change (iter_up (S n) i body s)
      with (s' <- body i s ;; iter_up n (i + 1) body s').
    destruct (body i s) as [s1|]; [|reflexivity].
    rewrite IH. replace (i + 1 + Z.of_nat n) with (i + Z.of_nat (S n)) by lia.
    reflexivity.
Qed.

Lemma for_upto_last {St} (lo hi : Z) (body : Z -> St -> option St) (s : St) :
  lo <= hi ->
  for_upto lo (hi + 1) body s = (s' <- for_upto lo hi body s ;; body hi s').
Proof.
  intros H. unfold for_upto.
  replace (Z.to_nat (hi + 1 - lo)) with (S (Z.to_nat (hi - lo))) by lia.
  rewrite iter_up_last. replace (lo + Z.of_nat (Z.to_nat (hi - lo))) with hi by lia.
  reflexivity.
Qed.

Lemma for_upto_one {St} (i : Z) (body : Z -> St -> option St) (s : St) :
  for_upto i (i + 1) body s = body i s.
Proof.
  rewrite for_upto_last by lia. rewrite for_upto_empty by lia. reflexivity.
Qed.

(** Total correctness of an ascending loop from an invariant. *)
Lemma for_upto_inv {St} (P : Z -> St -> Prop) (lo hi : Z)
    (body : Z -> St -> option St) (s : St) :
  lo <= hi -> P lo s ->
  (forall i t, lo <= i < hi -> P i t -> exists t', body i t = Some t' /\ P (i + 1) t') ->
  exists s', for_upto lo hi body s = Some s' /\ P hi s'.
Proof.
  intros Hle H0 Hstep. unfold for_upto.
  remember (Z.to_nat (hi - lo)) as n eqn:En.
  revert lo s Hle H0 Hstep En. induction n as [|n IH]; intros lo s Hle H0 Hstep En.
  - assert (hi = lo) by lia. subst hi. simpl. eauto.
  - destruct (Hstep lo s ltac:(lia) H0) as [t [Hb Ht]].
    simpl. rewrite Hb. apply IH; try lia; auto.
    intros i u Hi. apply Hstep. lia.
Qed.

(** Partial correctness of an ascending loop from an invariant. *)
Lemma for_upto_inv_some {St} (P : Z -> St -> Prop) (lo hi : Z)
    (body : Z -> St -> option St) (s s' : St) :
  for_upto lo hi body s = Some s' ->
  lo <= hi -> P lo s ->
  (forall i t t', lo <= i < hi -> P i t -> body i t = Some t' -> P (i + 1) t') ->
  P hi s'.
Proof.
  unfold for_upto. remember (Z.to_nat (hi - lo)) as n eqn:En.
  revert lo s En. induction n as [|n IH]; intros lo s En E Hle H0 Hstep.
  - assert (hi = lo) by lia. subst hi. simpl in E. inversion E. now subst.
  - simpl in E. destruct (body lo s) as [t|] eqn:Hb; [|discriminate].
    apply (IH (lo + 1) t); try lia; auto.
    + apply (Hstep lo s t); auto. lia.
    + intros i u u' Hi. apply Hstep. lia.
Qed.

Lemma for_downto_inv_some {St} (P : Z -> St -> Prop) (hi lo : Z)
    (body : Z -> St -> option St) (s s' : St) :
  for_downto hi lo body s = Some s' ->
  lo <= hi -> P hi s ->
  (forall i t t', lo < i <= hi -> P i t -> body i t = Some t' -> P (i - 1) t') ->
  P lo s'.
Proof.
  unfold for_downto. remember (Z.to_nat (hi - lo)) as n eqn:En.
  revert hi s En. induction n as [|n IH]; intros hi s En E Hle H0 Hstep.
  - assert (hi = lo) by lia. subst hi. simpl in E. inversion E. now subst.
  - simpl in E. destruct (body hi s) as [t|] eqn:Hb; [|discriminate].
    apply (IH (hi - 1) t); try lia; auto.
    + apply (Hstep hi s t); auto. lia.
    + intros i u u' Hi. apply Hstep. lia.
Qed.

Lemma for_downto_inv {St} (P : Z -> St -> Prop) (hi lo : Z)
    (body : Z -> St -> option St) (s : St) :
  lo <= hi -> P hi s ->
  (forall i t, lo < i <= hi -> P i t -> exists t', body i t = Some t' /\ P (i - 1) t') ->
  exists s', for_downto hi lo body s = Some s' /\ P lo s'.
Proof.
  intros Hle H0 Hstep. unfold for_downto.
  remember (Z.to_nat (hi - lo)) as n eqn:En.
  revert hi s Hle H0 Hstep En. induction n as [|n IH]; intros hi s Hle H0 Hstep En.
  - assert (hi = lo) by lia. subst hi. simpl. eauto.
  - destruct (Hstep hi s ltac:(lia) H0) as [t [Hb Ht]].
    simpl. rewrite Hb. apply IH; try lia; auto.
    intros i u Hi. apply Hstep. lia.
Qed.

Lemma rd_all_repeat {A} (a : list A) (x : A) (n : Z) :
  len a = n -> (forall k, 0 <= k < n -> rd a k = Some x) ->
  a = repeat x (Z.to_nat n).
Proof.
  intros Hl H. apply rd_ext. intros i.
  destruct (Z_lt_ge_dec i 0) as [Hneg|Hpos].
  - unfold rd. destruct (Z.ltb_spec i 0); [reflexivity|lia].
  - destruct (Z_lt_ge_dec i n) as [Hin|Hout].
    + rewrite H by lia. symmetry. apply rd_repeat. lia.
    + rewrite !rd_none; auto.
      * unfold len. rewrite repeat_length. lia.
      * lia.
Qed.

(** ** Loops whose bodies agree *)

Lemma for_upto_fails {St} (lo hi i : Z) (body : Z -> St -> option St) (s : St) :
  lo <= i < hi -> (forall t, body i t = None) -> for_upto lo hi body s = None.
Proof.
  intros Hi Hnone. unfold for_upto.
  remember (Z.to_nat (hi - lo)) as n eqn:En.
  revert lo s Hi En. induction n as [|n IH]; intros lo s Hi En; [lia|].
  simpl. destruct (Z.eq_dec lo i) as [->|Hne].
  - now rewrite Hnone.
  - destruct (body lo s) as [t|]; [|reflexivity]. apply IH; lia.
Qed.

Lemma for_upto_ext {St} (lo hi : Z) (body1 body2 : Z -> St -> option St) (s : St) :
  (forall i t, lo <= i < hi -> body1 i t = body2 i t) ->
  for_upto lo hi body1 s = for_upto lo hi body2 s.
Proof.
  unfold for_upto. remember (Z.to_nat (hi - lo)) as n eqn:En.
  revert lo s En. induction n as [|n IH]; intros lo s En H; simpl; auto.
  rewrite H by lia. destruct (body2 lo s) as [t|]; auto.
  apply IH; [lia|]. intros i u Hi. apply H. lia.
Qed.

(** A loop that returns, with a body that does less: the other body
    returns the same wherever the first returns. *)
Lemma for_upto_refines {St} (lo hi : Z) (body1 body2 : Z -> St -> option St) (s s' : St) :
  (forall i t t', lo <= i < hi -> body1 i t = Some t' -> body2 i t = Some t') ->
  for_upto lo hi body1 s = Some s' -> for_upto lo hi body2 s = Some s'.
Proof.
  unfold for_upto. remember (Z.to_nat (hi - lo)) as n eqn:En.
  revert lo s En. induction n as [|n IH]; intros lo s En H E; simpl in *; auto.
  destruct (body1 lo s) as [t|] eqn:Hb; [|discriminate].
  rewrite (H lo s t ltac:(lia) Hb). apply IH; auto; [lia|].
  intros i u u' Hi. apply H. lia.
Qed.

(** A loop that returns has run its body at every index. *)
Lemma for_upto_ran {St} (lo hi c : Z) (body : Z -> St -> option St) (s s' : St) :
  for_upto lo hi body s = Some s' -> lo <= c < hi ->
  exists t t', body c t = Some t'.
Proof.
  unfold for_upto. remember (Z.to_nat (hi - lo)) as n eqn:En.
  revert lo s En. induction n as [|n IH]; intros lo s En E Hc; [lia|].
  simpl in E. destruct (body lo s) as [t|] eqn:Hb; [|discriminate].
  destruct (Z.eq_dec lo c) as [->|Hne]; [eauto|].
  apply (IH (lo + 1) t); auto; lia.
Qed.

(** ** Machine integers *)

Lemma int_add_small (a b : Z) :
  -2147483648 <= a + b <= 2147483647 -> int_add a b = Some (a + b).
Proof.
  intros H. unfold int_add.
  destruct (Z.leb_spec (-2147483648) (a + b)); [|lia].
  destruct (Z.leb_spec (a + b) 2147483647); [|lia]. reflexivity.
Qed.

Lemma int_add_some (a b c : Z) : int_add a b = Some c -> c = a + b.
Proof.
  unfold int_add. destruct (_ && _); [|discriminate]. intros E. now inversion E.
Qed.

Lemma int_add_in (a b c : Z) :
  int_add a b = Some c -> -2147483648 <= a + b <= 2147483647.
Proof.
  unfold int_add.
  destruct (Z.leb_spec (-2147483648) (a + b)); [|discriminate].
  destruct (Z.leb_spec (a + b) 2147483647); [|discriminate]. lia.
Qed.

Lemma int_add_large (a b : Z) :
  ~ -2147483648 <= a + b <= 2147483647 -> int_add a b = None.
Proof.
  intros H. destruct (int_add a b) eqn:E; auto. apply int_add_in in E. lia.
Qed.

Lemma int_sub_small (a b : Z) :
  -2147483648 <= a - b <= 2147483647 -> int_sub a b = Some (a - b).
Proof.
  intros H. unfold int_sub.
  destruct (Z.leb_spec (-2147483648) (a - b)); [|lia].
  destruct (Z.leb_spec (a - b) 2147483647); [|lia]. reflexivity.
Qed.

Lemma int_sub_some (a b c : Z) : int_sub a b = Some c -> c = a - b.
Proof.
  unfold int_sub. destruct (_ && _); [|discriminate]. intros E. now inversion E.
Qed.

Lemma int_mul_small (a b : Z) :
  -2147483648 <= a * b <= 2147483647 -> int_mul a b = Some (a * b).
Proof.
  intros H. unfold int_mul.
  destruct (Z.leb_spec (-2147483648) (a * b)); [|lia].
  destruct (Z.leb_spec (a * b) 2147483647); [|lia]. reflexivity.
Qed.

Lemma int_mul_some (a b c : Z) : int_mul a b = Some c -> c = a * b.
Proof.
  unfold int_mul. destruct (_ && _); [|discriminate]. intros E. now inversion E.
Qed.

Lemma int_mul_in (a b c : Z) :
  int_mul a b = Some c -> -2147483648 <= a * b <= 2147483647.
Proof.
  unfold int_mul.
  destruct (Z.leb_spec (-2147483648) (a * b)); [|discriminate].
  destruct (Z.leb_spec (a * b) 2147483647); [|discriminate]. lia.
Qed.

Lemma int_mul_large (a b : Z) :
  ~ -2147483648 <= a * b <= 2147483647 -> int_mul a b = None.
Proof.
  intros H. destruct (int_mul a b) eqn:E; auto. apply int_mul_in in E. lia.
Qed.

Lemma int_index_some (i n k r : Z) : int_index i n k = Some r -> r = i * n + k.
Proof.
  unfold int_index. destruct (int_mul i n) as [m|] eqn:Em; [|discriminate].
  apply int_mul_some in Em. subst m. apply int_add_some.
Qed.

Lemma int_index_in (i n k r : Z) :
  int_index i n k = Some r -> -2147483648 <= i * n + k <= 2147483647.
Proof.
  unfold int_index. destruct (int_mul i n) as [m|] eqn:Em; [|discriminate].
  apply int_mul_some in Em. subst m. apply int_add_in.
Qed.

Lemma int_index_small (i n k : Z) :
  -2147483648 <= i * n <= 2147483647 ->
  -2147483648 <= i * n + k <= 2147483647 ->
  int_index i n k = Some (i * n + k).
Proof.
  intros H1 H2. unfold int_index. rewrite int_mul_small by auto.
  now apply int_add_small.
Qed.

(** The index of entry [k] of row [i], in an array of [rows] rows of [n]
    entries whose size is an [int]. *)
Lemma int_index_row (rows i n k : Z) :
  0 <= i < rows -> 0 <= k < n -> rows * n <= 2147483647 ->
  int_index i n k = Some (i * n + k).
Proof. intros Hi Hk Hr. apply int_index_small; nia. Qed.

(** Row [i] has an index of type [int] in the array of one channel
    when entry [c] of it has one with [n] channels. *)
Lemma int_index_channel (i n c r : Z) :
  0 <= i -> 0 <= c < n -> int_index i n c = Some r -> int_index i 1 0 = Some i.
Proof.
  intros Hi Hc E. unfold int_index in E.
  destruct (int_mul i n) as [m|] eqn:Em; [|discriminate].
  apply int_mul_in in Em.
  replace (Some i) with (Some (i * 1 + 0)) by (f_equal; lia).
  apply int_index_small; nia.
Qed.

Lemma rd_row_some {A} (a : list A) (i n k : Z) (x : A) :
  rd_row a i n k = Some x -> rd a (i * n + k) = Some x.
Proof.
  unfold rd_row. destruct (int_index i n k) as [idx|] eqn:E; [|discriminate].
  apply int_index_some in E. now subst idx.
Qed.

Lemma rd_row_row {A} (a : list A) (rows i n k : Z) :
  0 <= i < rows -> 0 <= k < n -> rows * n <= 2147483647 ->
  rd_row a i n k = rd a (i * n + k).
Proof. intros Hi Hk Hr. unfold rd_row. now rewrite (int_index_row rows). Qed.

Lemma wr_row_some {A} (a a' : list A) (i n k : Z) (v : A) :
  wr_row a i n k v = Some a' -> wr a (i * n + k) v = Some a'.
Proof.
  unfold wr_row. destruct (int_index i n k) as [idx|] eqn:E; [|discriminate].
  apply int_index_some in E. now subst idx.
Qed.

Lemma wr_row_row {A} (a : list A) (rows i n k : Z) (v : A) :
  0 <= i < rows -> 0 <= k < n -> rows * n <= 2147483647 ->
  wr_row a i n k v = wr a (i * n + k) v.
Proof. intros Hi Hk Hr. unfold wr_row. now rewrite (int_index_row rows). Qed.

Lemma resolved_size_some (N offset size r : Z) :
  resolved_size N offset size = Some r -> r = resolve_size N offset size.
Proof.
  unfold resolved_size, resolve_size. destruct (size =? -1).
  - apply int_sub_some.
  - intros E. now inversion E.
Qed.

Lemma resolved_size_small (N offset size : Z) :
  -2147483648 <= N - offset <= 2147483647 ->
  resolved_size N offset size = Some (resolve_size N offset size).
Proof.
  intros H. unfold resolved_size, resolve_size. destruct (size =? -1); auto.
  now apply int_sub_small.
Qed.

(** ** The functions with their sizes written out *)

Section Unfolded.
Context {F : Type} {FA : FloatArith F} {FM : Fresh F}.

Lemma blurred_unfold (p : Permutohedral F) (inp : list F)
    (value_size in_offset in_size j : Z) :
  blurred p inp value_size in_offset in_size j
  = (_ <- resolved_size (N_ p) in_offset in_size ;;
     _ <- int_add (M_ p) 2 ;;
     _ <- int_mul (M_ p + 2) value_size ;;
     values <- alloc ((M_ p + 2) * value_size) (fresh_float 0) ;;
     new_values <- alloc ((M_ p + 2) * value_size) (fresh_float 1) ;;
     '(values, new_values) <-
       zero_scratch ((M_ p + 2) * value_size) (values, new_values) ;;
     values <- splat p inp value_size in_offset
                 (resolve_size (N_ p) in_offset in_size) values ;;
     blur_passes p value_size j (values, new_values)).
Proof.
  unfold blurred.
  destruct (resolved_size _ _ _) as [s|] eqn:Es; [|reflexivity].
  apply resolved_size_some in Es. subst s.
  destruct (int_add (M_ p) 2) as [m|] eqn:Em; [|reflexivity].
  apply int_add_some in Em. subst m.
  destruct (int_mul _ _) as [n|] eqn:En; [|reflexivity].
  apply int_mul_some in En. subst n. reflexivity.
Qed.

Lemma compute_unfold (p : Permutohedral F) (out inp : list F)
    (value_size in_offset out_offset in_size out_size : Z) :
  compute p out inp value_size in_offset out_offset in_size out_size
  = (_ <- resolved_size (N_ p) out_offset out_size ;;
     '(values, _) <- blurred p inp value_size in_offset in_size (d_ p + 1) ;;
     slice p values value_size out_offset (resolve_size (N_ p) out_offset out_size) out).
Proof.
  unfold compute.
  destruct (resolved_size _ _ _) as [s|] eqn:Es; [|reflexivity].
  apply resolved_size_some in Es. now subst s.
Qed.

(** [init] with the sizes of lines 114-129 in front. *)
Lemma init_unfold (stray : Z -> Z) (feature : list F) (d N : Z) :
  init stray feature d N
  = (_ <- int_add d 1 ;;
     _ <- int_mul N (d + 1) ;;
     _ <- int_mul (d + 1) N ;;
     _ <- int_add d 2 ;;
     _ <- int_mul (d + 1) (d + 1) ;;
     offset <- alloc ((d + 1) * N) (fresh_int 0) ;;
     bary <- alloc ((d + 1) * N) (fresh_float 0) ;;
     scale_factor <- alloc d (fresh_float 1) ;;
     elevated <- alloc (d + 1) (fresh_float 2) ;;
     rem0 <- alloc (d + 1) (fresh_float 3) ;;
     barycentric <- alloc (d + 2) (fresh_float 4) ;;
     rank <- alloc (d + 1) (fresh_int 1) ;;
     canonical <- alloc ((d + 1) * (d + 1)) (fresh_int 2) ;;
     key <- alloc (d + 1) (fresh_int 3) ;;
     canonical <- canonical_simplex d canonical ;;
     scale_factor <- scale_factors d scale_factor ;;
     st <- for_upto 0 N (locate d feature scale_factor canonical)
             {| s_hash_table := HashTable_new d (N * (d + 1));
                s_offset := offset; s_bary := bary;
                s_elevated := elevated; s_rem0 := rem0; s_barycentric := barycentric;
                s_rank := rank; s_key := key |} ;;
     _ <- int_mul (d + 1) (size (s_hash_table st)) ;;
     blur_neighbors <- alloc ((d + 1) * size (s_hash_table st)) (fun _ => Neighbors_new) ;;
     n1_ <- alloc (d + 1) (fresh_int 4) ;;
     n2_ <- alloc (d + 1) (fresh_int 5) ;;
     '(_, _, blur_neighbors) <-
       find_neighbors stray d (size (s_hash_table st)) (s_hash_table st)
         (n1_, n2_, blur_neighbors) ;;
     Some {| offset_ := Some (s_offset st); barycentric_ := Some (s_bary st);
             blur_neighbors_ := Some blur_neighbors; N_ := N;
             M_ := size (s_hash_table st); d_ := d |}).
Proof.
  unfold init.
  destruct (int_add d 1) as [d1|] eqn:E1; [|reflexivity].
  apply int_add_some in E1. subst d1.
  destruct (int_mul N (d + 1)) as [n|] eqn:E2; [|reflexivity].
  apply int_mul_some in E2. subst n.
  destruct (int_mul (d + 1) N) as [n|] eqn:E3; [|reflexivity].
  apply int_mul_some in E3. subst n.
  destruct (int_add d 2) as [d2|] eqn:E4.
  2:{ repeat (destruct (alloc _ _); [|reflexivity]). reflexivity. }
  apply int_add_some in E4. subst d2.
  destruct (int_mul (d + 1) (d + 1)) as [n|] eqn:E5.
  2:{ repeat (destruct (alloc _ _); [|reflexivity]). reflexivity. }
  apply int_mul_some in E5. subst n.
  destruct (alloc _ (fresh_int 0)); [|reflexivity].
  destruct (alloc _ (fresh_float 0)); [|reflexivity].
  destruct (alloc _ (fresh_float 1)); [|reflexivity].
  destruct (alloc _ (fresh_float 2)); [|reflexivity].
  destruct (alloc _ (fresh_float 3)); [|reflexivity].
  destruct (alloc _ (fresh_float 4)); [|reflexivity].
  destruct (alloc _ (fresh_int 1)); [|reflexivity].
  destruct (alloc _ (fresh_int 2)); [|reflexivity].
  destruct (alloc _ (fresh_int 3)); [|reflexivity].
  destruct (canonical_simplex _ _); [|reflexivity].
  destruct (scale_factors _ _); [|reflexivity].
  destruct (for_upto _ _ _ _) as [st|]; [|reflexivity].
  cbv zeta.
  destruct (int_mul (d + 1) _) as [n|] eqn:E6; [|reflexivity].
  apply int_mul_some in E6. subst n. reflexivity.
Qed.

Lemma copy_size_some (d N n : Z) : copy_size d N = Some n -> n = (d + 1) * N.
Proof.
  unfold copy_size. destruct (int_add d 1) as [d1|] eqn:E; [|discriminate].
  apply int_add_some in E. subst d1. apply int_mul_some.
Qed.

Lemma copy_size_small (d N : Z) :
  0 <= d -> 0 <= N -> d + 1 <= 2147483647 -> (d + 1) * N <= 2147483647 ->
  copy_size d N = Some ((d + 1) * N).
Proof.
  intros Hd HN H1 H2. unfold copy_size.
  rewrite int_add_small by lia. apply int_mul_small. nia.
Qed.
(** What [splat] and [slice] return, they return with the indices of
    [in] and [out] as integers; and they are the same loops when the
    arrays have sizes of type [int]. *)
Lemma splat_some (p : Permutohedral F) (inp : list F)
    (value_size in_offset in_size : Z) (values values' : list F) :
  splat p inp value_size in_offset in_size values = Some values' ->
  for_upto 0 in_size (fun i values =>
    for_upto 0 (d_ p + 1) (fun j values =>
      o_ <- table (offset_ p) ((in_offset + i) * (d_ p + 1) + j) ;;
      let o := o_ + 1 in
      w <- table (barycentric_ p) ((in_offset + i) * (d_ p + 1) + j) ;;
      for_upto 0 value_size (fun k values =>
        v <- rd values (o * value_size + k) ;;
        x <- rd inp (i * value_size + k) ;;
        wr values (o * value_size + k) (f_add v (f_mul w x)))
      values)
    values)
  values = Some values'.
Proof.
  unfold splat. apply for_upto_refines. intros i t t' Hi.
  apply for_upto_refines. intros j u u' Hj.
  destruct (table (offset_ p) _) as [o_|]; [|discriminate].
  destruct (table (barycentric_ p) _) as [w|]; [|discriminate].
  apply for_upto_refines. intros k v v' Hk.
  destruct (rd v _) as [y|]; [|discriminate].
  destruct (rd_row inp i value_size k) as [x|] eqn:Ex; [|discriminate].
  now rewrite (rd_row_some _ _ _ _ _ Ex).
Qed.

Lemma splat_small (p : Permutohedral F) (inp : list F)
    (value_size in_offset in_size : Z) (values : list F) :
  in_size * value_size <= 2147483647 ->
  splat p inp value_size in_offset in_size values
  = for_upto 0 in_size (fun i values =>
      for_upto 0 (d_ p + 1) (fun j values =>
        o_ <- table (offset_ p) ((in_offset + i) * (d_ p + 1) + j) ;;
        let o := o_ + 1 in
        w <- table (barycentric_ p) ((in_offset + i) * (d_ p + 1) + j) ;;
        for_upto 0 value_size (fun k values =>
          v <- rd values (o * value_size + k) ;;
          x <- rd inp (i * value_size + k) ;;
          wr values (o * value_size + k) (f_add v (f_mul w x)))
        values)
      values)
    values.
Proof.
  intros Hfit. unfold splat. apply for_upto_ext. intros i t Hi.
  apply for_upto_ext. intros j u Hj.
  destruct (table (offset_ p) _) as [o_|]; [|reflexivity].
  destruct (table (barycentric_ p) _) as [w|]; [|reflexivity].
  apply for_upto_ext. intros k v Hk.
  now rewrite (rd_row_row _ in_size).
Qed.

Lemma slice_some (p : Permutohedral F) (values : list F)
    (value_size out_offset out_size : Z) (out out' : list F) :
  slice p values value_size out_offset out_size out = Some out' ->
  for_upto 0 out_size (fun i out =>
    out <- for_upto 0 value_size (fun k out => wr out (i * value_size + k) f_zero) out ;;
    for_upto 0 (d_ p + 1) (fun j out =>
      o_ <- table (offset_ p) ((out_offset + i) * (d_ p + 1) + j) ;;
      let o := o_ + 1 in
      w <- table (barycentric_ p) ((out_offset + i) * (d_ p + 1) + j) ;;
      for_upto 0 value_size (fun k out =>
        x <- rd out (i * value_size + k) ;;
        v <- rd values (o * value_size + k) ;;
        wr out (i * value_size + k) (f_add x (f_mul (f_mul w v) (alpha p))))
      out)
    out)
  out = Some out'.
Proof.
  unfold slice. apply for_upto_refines. intros i t t' Hi E.
  match type of E with
  | match ?a with _ => _ end = _ => destruct a as [t1|] eqn:E1; [|discriminate]
  end.
  rewrite (for_upto_refines 0 value_size
             (fun k out => wr_row out i value_size k f_zero)
             (fun k out => wr out (i * value_size + k) f_zero) t t1);
    [|intros k u u' Hk; apply wr_row_some|exact E1].
  revert E. apply for_upto_refines. intros j u u' Hj.
  destruct (table (offset_ p) _) as [o_|]; [|discriminate].
  destruct (table (barycentric_ p) _) as [w|]; [|discriminate].
  apply for_upto_refines. intros k v v' Hk.
  destruct (rd_row v i value_size k) as [x|] eqn:Ex; [|discriminate].
  rewrite (rd_row_some _ _ _ _ _ Ex).
  destruct (rd values _) as [y|]; [|discriminate].
  apply wr_row_some.
Qed.

Lemma slice_small (p : Permutohedral F) (values : list F)
    (value_size out_offset out_size : Z) (out : list F) :
  out_size * value_size <= 2147483647 ->
  slice p values value_size out_offset out_size out
  = for_upto 0 out_size (fun i out =>
      out <- for_upto 0 value_size (fun k out => wr out (i * value_size + k) f_zero)
               out ;;
      for_upto 0 (d_ p + 1) (fun j out =>
        o_ <- table (offset_ p) ((out_offset + i) * (d_ p + 1) + j) ;;
        let o := o_ + 1 in
        w <- table (barycentric_ p) ((out_offset + i) * (d_ p + 1) + j) ;;
        for_upto 0 value_size (fun k out =>
          x <- rd out (i * value_size + k) ;;
          v <- rd values (o * value_size + k) ;;
          wr out (i * value_size + k) (f_add x (f_mul (f_mul w v) (alpha p))))
        out)
      out)
    out.
Proof.
  intros Hfit. unfold slice. apply for_upto_ext. intros i t Hi.
  rewrite (for_upto_ext 0 value_size
             (fun k out => wr_row out i value_size k f_zero)
             (fun k out => wr out (i * value_size + k) f_zero));
    [|intros k u Hk; now apply (wr_row_row _ out_size)].
  destruct (for_upto 0 value_size _ t) as [t1|]; [|reflexivity].
  apply for_upto_ext. intros j u Hj.
  destruct (table (offset_ p) _) as [o_|]; [|reflexivity].
  destruct (table (barycentric_ p) _) as [w|]; [|reflexivity].
  apply for_upto_ext. intros k v Hk.
  rewrite (rd_row_row _ out_size) by auto.
  destruct (rd v _) as [x|]; [|reflexivity].
  destruct (rd values _) as [y|]; [|reflexivity].
  now apply (wr_row_row _ out_size).
Qed.
End Unfolded.

(** The sizes of a run that returns are of type [int]. *)
Ltac open_blurred E :=
  rewrite blurred_unfold in E;
  match type of E with
  | context [resolved_size ?a ?b ?c] =>
      destruct (resolved_size a b c) eqn:?; [|discriminate E]
  end;
  match type of E with
  | context [int_add ?a ?b] => destruct (int_add a b) eqn:?; [|discriminate E]
  end;
  match type of E with
  | context [int_mul ?a ?b] => destruct (int_mul a b) eqn:?; [|discriminate E]
  end.

(** The sizes that [init] computes before its loops. *)
Ltac open_init E :=
  rewrite init_unfold in E;
  match type of E with
  | context [int_add ?a 1] => destruct (int_add a 1) eqn:?; [|discriminate E]
  end;
  match type of E with
  | context [int_mul ?a (?b + 1)] =>
      destruct (int_mul a (b + 1)) eqn:?; [|discriminate E]
  end;
  match type of E with
  | context [int_mul (?b + 1) ?a] =>
      destruct (int_mul (b + 1) a) eqn:?; [|discriminate E]
  end;
  match type of E with
  | context [int_add ?a 2] => destruct (int_add a 2) eqn:?; [|discriminate E]
  end;
  match type of E with
  | context [int_mul (?b + 1) (?b + 1)] =>
      destruct (int_mul (b + 1) (b + 1)) eqn:?; [|discriminate E]
  end.

(** The size that [init] computes after the loop over the points. *)
Ltac open_neighbors E :=
  match type of E with
  | context [int_mul ?a (size ?h)] =>
      destruct (int_mul a (size h)) eqn:?; [|discriminate E]
  end.

(** An access to row [i] of an array of the caller, in runs that compute
    the same index: they stop together when it is not an [int]. *)
Ltac open_row :=
  unfold rd_row, wr_row;
  match goal with
  | |- context [int_index ?i ?n ?k] =>
      let E := fresh "Eidx" in
      let idx := fresh "idx" in
      destruct (int_index i n k) as [idx|] eqn:E;
      [apply int_index_some in E; subst idx|try exact I; try reflexivity]
  end.

Ltac open_compute E :=
  rewrite compute_unfold in E;
  match type of E with
  | context [resolved_size ?a ?b ?c] =>
      destruct (resolved_size a b c) eqn:?; [|discriminate E]
  end.

Ltac open_run E := open_compute E; open_blurred E.

(** ** compute: the scratch buffers *)

Section ScratchProps.
Context {F : Type} {FA : FloatArith F} {FM : Fresh F}.

Lemma zero_scratch_spec (n : Z) (values new_values : list F) :
  0 <= n -> len values = n -> len new_values = n ->
  zero_scratch n (values, new_values)
  = Some (repeat f_zero (Z.to_nat n), repeat f_zero (Z.to_nat n)).
Proof.
  intros Hn Hv Hnv. unfold zero_scratch.
  destruct (for_upto_inv
    (fun i (st : list F * list F) =>
       len (fst st) = n /\ len (snd st) = n /\
       forall k, 0 <= k < i ->
         rd (fst st) k = Some f_zero /\ rd (snd st) k = Some f_zero)
    0 n
    (fun i '(values, new_values) =>
       new_values <- wr new_values i f_zero ;;
       values <- wr values i f_zero ;;
       Some (values, new_values))
    (values, new_values)) as [[v nv] [E [Hlv [Hlnv Hz]]]]; auto.
  - simpl. repeat split; auto; lia.
  - intros i [v nv] Hi [Hlv [Hlnv Hz]]. simpl in *.
    destruct (wr_some nv i f_zero) as [nv' Hw1]; [lia|].
    destruct (wr_some v i f_zero) as [v' Hw2]; [lia|].
    rewrite Hw1, Hw2. eexists. split; [reflexivity|]. simpl.
    rewrite (wr_len _ _ _ _ Hw1), (wr_len _ _ _ _ Hw2).
    repeat split; auto.
    + destruct (Z.eq_dec k i) as [->|Hne].
      * apply (rd_wr_same _ _ _ _ Hw2).
      * rewrite (rd_wr_other _ _ _ _ _ Hw2) by auto. apply Hz. lia.
    + destruct (Z.eq_dec k i) as [->|Hne].
      * apply (rd_wr_same _ _ _ _ Hw1).
      * rewrite (rd_wr_other _ _ _ _ _ Hw1) by auto. apply Hz. lia.
  - rewrite E. simpl in *.
    rewrite (rd_all_repeat v f_zero n), (rd_all_repeat nv f_zero n); auto;
      intros k Hk; apply Hz; auto.
Qed.
End ScratchProps.

(** ** compute on an unbuilt lattice *)

Section Unbuilt.
Context {F : Type} {FA : FloatArith F} {FM : Fresh F}.

Lemma blur_unbuilt (value_size : Z) (st : list F * list F) :
  blur Permutohedral_new value_size st = Some (snd st, fst st).
Proof.
  unfold blur, blur_passes.
  change (d_ Permutohedral_new + 1) with (0 + 1).
  rewrite for_upto_one.
  unfold blur_axis.
  change (M_ Permutohedral_new) with 0.
  rewrite for_upto_empty by lia.
  destruct st. reflexivity.
Qed.

(** C10: on a default-constructed object and with the default ranges,
    for every [value_size] whose double is an [int], [in_size] and
    [out_size] resolve to 0, splatting leaves the scratch buffer as it is,
    the loop over the axes runs once ([j = 0 <= d_ = 0]) with an empty
    loop over the vertices, so that the blur updates no vertex and swaps
    the two buffers, slicing leaves [out] as it is, and the call returns
    with no element of [out] written, without reading any of the NULL
    tables. *)
Theorem compute_unbuilt_writes_nothing (out inp : list F) (value_size : Z) :
  0 <= value_size -> 2 * value_size <= 2147483647 ->
  resolved_size (N_ (@Permutohedral_new F)) 0 (-1) = Some 0 /\
  (forall values, splat Permutohedral_new inp value_size 0 0 values = Some values) /\
  d_ (@Permutohedral_new F) + 1 = 1 /\
  (forall st, blur Permutohedral_new value_size st = Some (snd st, fst st)) /\
  (forall values, slice Permutohedral_new values value_size 0 0 out = Some out) /\
  compute Permutohedral_new out inp value_size 0 0 (-1) (-1) = Some out.
Proof.
  intros Hvs Hfit. split; [reflexivity|].
  assert (Hsplat : forall values,
             splat Permutohedral_new inp value_size 0 0 values = Some values).
  { intros values. unfold splat. apply for_upto_empty. lia. }
  assert (Hslice : forall values,
             slice Permutohedral_new values value_size 0 0 out = Some out).
  { intros values. unfold slice. apply for_upto_empty. lia. }
  repeat split; auto using blur_unbuilt.
  rewrite compute_unfold, blurred_unfold.
  change (N_ Permutohedral_new) with 0.
  change (M_ Permutohedral_new) with 0.
  change (d_ Permutohedral_new + 1) with 1.
  change (resolved_size 0 0 (-1)) with (Some 0).
  change (resolve_size 0 0 (-1)) with 0.
  change (int_add 0 2) with (Some 2).
  change (0 + 2) with 2.
  rewrite int_mul_small by lia.
  destruct (alloc_some (2 * value_size) (fresh_float 0)) as [a [Ha Hl]]; [lia|].
  destruct (alloc_some (2 * value_size) (fresh_float 1)) as [b [Hb Hlb]]; [lia|].
  rewrite Ha, Hb. rewrite zero_scratch_spec by (auto; lia).
  rewrite Hsplat.
  change (blur_passes Permutohedral_new value_size 1)
    with (blur Permutohedral_new value_size).
  rewrite blur_unbuilt. apply Hslice.
Qed.

(** What [2*value_size] does past the range of [int]: the call is
    undefined. *)
Lemma compute_unbuilt_overflow (out inp : list F) (value_size : Z) :
  2147483647 < 2 * value_size ->
  compute Permutohedral_new out inp value_size 0 0 (-1) (-1) = None.
Proof.
  intros H. rewrite compute_unfold, blurred_unfold.
  change (N_ Permutohedral_new) with 0.
  change (M_ Permutohedral_new) with 0.
  change (resolved_size 0 0 (-1)) with (Some 0).
  change (int_add 0 2) with (Some 2).
  change (0 + 2) with 2.
  now rewrite int_mul_large by lia.
Qed.

End Unbuilt.

Lemma compute_unbuilt_witness :
  resolved_size (N_ (@Permutohedral_new spec_float)) 0 (-1) = Some 0 /\
  (forall values, splat (F:=spec_float) Permutohedral_new [] 2 0 0 values = Some values) /\
  d_ (@Permutohedral_new spec_float) + 1 = 1 /\
  (forall st, blur (F:=spec_float) Permutohedral_new 2 st = Some (snd st, fst st)) /\
  (forall values,
     slice (F:=spec_float) Permutohedral_new values 2 0 0 [B32.of_int 7; B32.of_int 9]
     = Some [B32.of_int 7; B32.of_int 9]) /\
  compute (F:=spec_float) Permutohedral_new [B32.of_int 7; B32.of_int 9] [] 2 0 0 (-1) (-1)
  = Some [B32.of_int 7; B32.of_int 9].
Proof.
  apply (compute_unbuilt_writes_nothing (F:=spec_float)
           [B32.of_int 7; B32.of_int 9] [] 2); lia.
Defined.

(** ** Loops that update one row of an array *)

Lemma wr_rd_none {A} (a : list A) (i : Z) (v : A) :
  rd a i = None -> wr a i v = None.
Proof.
  intros H. destruct (wr a i v) as [a'|] eqn:E; auto.
  apply wr_range in E. destruct (rd_some a i E) as [x Hx]. congruence.
Qed.

Lemma row_loop_some {A} (base n : Z) (body : Z -> list A -> option (list A))
    (val : Z -> A -> option A) (a a' : list A) :
  (forall k t, 0 <= k < n -> body k t = row_update base val k t) ->
  for_upto 0 n body a = Some a' ->
  len a' = len a /\
  (forall k, 0 <= k < n ->
     exists x v, rd a (base + k) = Some x /\ val k x = Some v /\ rd a' (base + k) = Some v) /\
  (forall idx, ~ (base <= idx < base + n) -> rd a' idx = rd a idx).
Proof.
  intros Hbody E.
  destruct (Z_le_gt_dec n 0) as [Hn|Hn].
  { rewrite for_upto_empty in E by lia. inversion E. subst a'.
    repeat split; auto. intros k Hk. lia. }
  pose proof (for_upto_inv_some
    (fun k t => len t = len a /\
       (forall k', 0 <= k' < k ->
          exists x v, rd a (base + k') = Some x /\ val k' x = Some v /\
                      rd t (base + k') = Some v) /\
       (forall idx, ~ (base <= idx < base + k) -> rd t idx = rd a idx))
    0 n body a a' E ltac:(lia)) as H.
  destruct H as [Hl [Hrow Hrest]].
  - repeat split; auto. intros k' Hk'. lia.
  - intros k t t' Hk [Hl [Hrow Hrest]] Hb.
    rewrite Hbody in Hb by lia. unfold row_update in Hb.
    destruct (rd t (base + k)) as [x|] eqn:Hx; [|discriminate].
    destruct (val k x) as [v|] eqn:Hv; [|discriminate].
    rewrite Hrest in Hx by lia.
    repeat split.
    + rewrite (wr_len _ _ _ _ Hb). exact Hl.
    + intros k' Hk'. destruct (Z.eq_dec k' k) as [->|Hne].
      * exists x, v. repeat split; auto. apply (rd_wr_same _ _ _ _ Hb).
      * destruct (Hrow k' ltac:(lia)) as [x' [v' [H1 [H2 H3]]]].
        exists x', v'. repeat split; auto.
        rewrite (rd_wr_other _ _ _ _ _ Hb) by lia. exact H3.
    + intros idx Hidx. rewrite (rd_wr_other _ _ _ _ _ Hb) by lia.
      apply Hrest. lia.
  - repeat split; auto.
Qed.

Lemma row_loop_total {A} (base n : Z) (body : Z -> list A -> option (list A))
    (val : Z -> A -> option A) (a : list A) :
  (forall k t, 0 <= k < n -> body k t = row_update base val k t) ->
  0 <= base -> base + n <= len a ->
  (forall k x, 0 <= k < n -> rd a (base + k) = Some x -> exists v, val k x = Some v) ->
  exists a', for_upto 0 n body a = Some a'.
Proof.
  intros Hbody Hb Hlen Hval.
  destruct (Z_le_gt_dec n 0) as [Hn|Hn].
  { rewrite for_upto_empty by lia. eauto. }
  destruct (for_upto_inv
    (fun k t => len t = len a /\
       (forall idx, ~ (base <= idx < base + k) -> rd t idx = rd a idx))
    0 n body a ltac:(lia)) as [a' [E _]].
  - split; auto.
  - intros k t Hk [Hl Hrest]. rewrite Hbody by lia. unfold row_update.
    destruct (rd_some t (base + k)) as [x Hx]; [lia|].
    rewrite Hx. rewrite Hrest in Hx by lia.
    destruct (Hval k x Hk Hx) as [v Hv]. rewrite Hv.
    destruct (wr_some t (base + k) v) as [t' Ht']; [lia|].
    exists t'. repeat split; auto.
    + rewrite (wr_len _ _ _ _ Ht'). exact Hl.
    + intros idx Hidx. rewrite (rd_wr_other _ _ _ _ _ Ht') by lia.
      apply Hrest. lia.
  - eauto.
Qed.

(** ** compute: the blur *)

Section BlurProps.
Context {F : Type} {FA : FloatArith F} {FM : Fresh F}.

Lemma blur_axis_spec (p : Permutohedral F) (value_size j : Z)
    (values new_values cur nxt : list F) :
  0 <= value_size ->
  blur_axis p value_size j (values, new_values) = Some (cur, nxt) ->
  nxt = values /\ len cur = len new_values /\
  (forall i k, 0 <= i < M_ p -> 0 <= k < value_size ->
     exists v, blur_value p value_size j values i k = Some v /\
               rd cur ((i + 1) * value_size + k) = Some v) /\
  (forall idx, ~ (value_size <= idx < (M_ p + 1) * value_size) ->
     rd cur idx = rd new_values idx).
Proof.
  intros Hvs E. unfold blur_axis in E.
  match type of E with
  | match for_upto ?lo ?hi ?body ?s with _ => _ end = _ =>
      destruct (for_upto lo hi body s) as [[v nv]|] eqn:Eloop; [|discriminate]
  end.
  inversion E. subst cur nxt. clear E.
  destruct (Z_le_gt_dec (M_ p) 0) as [HM|HM].
  { rewrite for_upto_empty in Eloop by lia. inversion Eloop. subst v nv.
    repeat split; auto. intros i k Hi. lia. }
  pose proof (for_upto_inv_some
    (fun i (t : list F * list F) =>
       fst t = values /\ len (snd t) = len new_values /\
       (forall i' k, 0 <= i' < i -> 0 <= k < value_size ->
          exists x, blur_value p value_size j values i' k = Some x /\
                    rd (snd t) ((i' + 1) * value_size + k) = Some x) /\
       (forall idx, ~ (value_size <= idx < (i + 1) * value_size) ->
          rd (snd t) idx = rd new_values idx))
    0 (M_ p) _ _ _ Eloop ltac:(lia)) as H.
  simpl in H. destruct H as [Hv [Hl [Hrow Hrest]]].
  - repeat split; auto. intros i' k Hi'. lia.
  - intros i [t1 t2] [u1 u2] Hi [Hv [Hl [Hrow Hrest]]] Hb. simpl in *. subst t1.
    destruct (table (blur_neighbors_ p) (j * M_ p + i)) as [nb|] eqn:Hnb; [|discriminate].
    match type of Hb with
    | match for_upto ?lo ?hi ?body ?s with _ => _ end = _ =>
        destruct (for_upto lo hi body s) as [t2'|] eqn:Erow; [|discriminate]
    end.
    inversion Hb. subst u1 u2. clear Hb.
    apply (row_loop_some ((i + 1) * value_size) value_size _
             (fun k _ =>
                old <- rd values ((i + 1) * value_size + k) ;;
                a <- rd values ((n1 nb + 1) * value_size + k) ;;
                b <- rd values ((n2 nb + 1) * value_size + k) ;;
                Some (f_add old (f_mul f_half (f_add a b))))) in Erow.
    + destruct Erow as [Hl' [Hrow' Hrest']].
      split; [reflexivity|]. split; [congruence|]. split.
      * intros i' k Hi' Hk. destruct (Z.eq_dec i' i) as [->|Hne].
        -- destruct (Hrow' k Hk) as [x [w [_ [Hval Hrd]]]].
           exists w. split; auto. unfold blur_value. rewrite Hnb. exact Hval.
        -- destruct (Hrow i' k ltac:(lia) Hk) as [x [Hx1 Hx2]].
           exists x. split; auto. rewrite Hrest'; auto. nia.
      * intros idx Hidx. rewrite Hrest' by nia. apply Hrest. nia.
    + intros k t Hk. unfold row_update.
      destruct (rd t ((i + 1) * value_size + k)) eqn:Ht.
      * destruct (rd values ((i + 1) * value_size + k)); auto.
        destruct (rd values ((n1 nb + 1) * value_size + k)); auto.
        destruct (rd values ((n2 nb + 1) * value_size + k)); auto.
      * destruct (rd values ((i + 1) * value_size + k)); auto.
        destruct (rd values ((n1 nb + 1) * value_size + k)); auto.
        destruct (rd values ((n2 nb + 1) * value_size + k)); auto.
        now apply wr_rd_none.
  - subst v. repeat split; auto.
Qed.
End BlurProps.

(** ** The vertex store *)

Lemma key_index_range (k : list Z) (ks : list (list Z)) (s i : Z) :
  key_index k ks s = Some i -> s <= i < s + len ks.
Proof.
  revert s. induction ks as [|k' r IH]; intros s; simpl; [discriminate|].
  unfold len in *. simpl length.
  destruct (list_eq_dec Z.eq_dec k k').
  - intros E. inversion E. lia.
  - intros E. apply IH in E. lia.
Qed.

Lemma find_create (h h' : HashTable) (k : list Z) (i : Z) :
  find h k true = (h', i) ->
  key_size_ h' = key_size_ h /\ size h <= size h' /\ 0 <= i < size h'.
Proof.
  unfold find, size.
  destruct (key_index _ (keys_ h) 0) as [i0|] eqn:E; intros H; inversion H; subst.
  - apply key_index_range in E. repeat split; auto; lia.
  - simpl. unfold len. rewrite length_app. simpl. repeat split; auto; lia.
Qed.

Lemma find_lookup (h : HashTable) (k : list Z) :
  fst (find h k false) = h /\ -1 <= snd (find h k false) < size h.
Proof.
  unfold find, size.
  destruct (key_index _ (keys_ h) 0) as [i0|] eqn:E; simpl.
  - apply key_index_range in E. split; auto. lia.
  - split; auto. pose proof (len_nonneg (keys_ h)). lia.
Qed.

(** A table of keys without coordinates holds one key at most. *)
Lemma find_no_coordinates (h h' : HashTable) (k : list Z) (i : Z) :
  key_size_ h = 0 -> keys_ h = [] \/ keys_ h = [[]] ->
  find h k true = (h', i) ->
  key_size_ h' = 0 /\ (keys_ h' = [] \/ keys_ h' = [[]]).
Proof.
  intros Hk Hs. unfold find, size. rewrite Hk. simpl.
  destruct Hs as [E | E]; rewrite E; simpl.
  - intros H. inversion H. simpl. auto.
  - destruct (list_eq_dec Z.eq_dec [] []) as [_|Hne]; [|congruence].
    intros H. inversion H. subst. auto.
Qed.

(** [find] reads only the first [key_size_] entries of the array. *)
Lemma find_prefix (h : HashTable) (k k' : list Z) (create : bool) :
  firstn (Z.to_nat (key_size_ h)) k = firstn (Z.to_nat (key_size_ h)) k' ->
  find h k create = find h k' create.
Proof.
  intros E. unfold find. now rewrite E.
Qed.

(** ** init: the simplex corners of one point *)

Section CornerProps.
Context {F : Type} {FA : FloatArith F} {FM : Fresh F}.

Lemma resolve_corners_spec (d : Z) (canonical : list Z) (k : Z)
    (rem0 : list F) (rank : list Z) (barycentric : list F)
    (h h' : HashTable) (key key' offset offset' : list Z) (bary bary' : list F) :
  0 <= d ->
  resolve_corners d canonical k rem0 rank barycentric (h, key, offset, bary)
  = Some (h', key', offset', bary') ->
  key_size_ h' = key_size_ h /\ size h <= size h' /\
  len offset' = len offset /\ len bary' = len bary /\
  (forall r, 0 <= r <= d ->
     exists o, rd offset' (k * (d + 1) + r) = Some o /\ 0 <= o < size h') /\
  (forall idx, ~ (k * (d + 1) <= idx < (k + 1) * (d + 1)) ->
     rd offset' idx = rd offset idx) /\
  (forall r, 0 <= r <= d ->
     exists b, rd barycentric r = Some b /\ rd bary' (k * (d + 1) + r) = Some b) /\
  (forall idx, ~ (k * (d + 1) <= idx < (k + 1) * (d + 1)) ->
     rd bary' idx = rd bary idx).
Proof.
  intros Hd E. unfold resolve_corners in E.
  pose proof (for_upto_inv_some
    (fun r (t : HashTable * list Z * list Z * list F) =>
       let '(h1, _, offset1, bary1) := t in
       key_size_ h1 = key_size_ h /\ size h <= size h1 /\
       len offset1 = len offset /\ len bary1 = len bary /\
       (forall r', 0 <= r' < r ->
          exists o, rd offset1 (k * (d + 1) + r') = Some o /\ 0 <= o < size h1) /\
       (forall idx, ~ (k * (d + 1) <= idx < k * (d + 1) + r) ->
          rd offset1 idx = rd offset idx) /\
       (forall r', 0 <= r' < r ->
          exists b, rd barycentric r' = Some b /\ rd bary1 (k * (d + 1) + r') = Some b) /\
       (forall idx, ~ (k * (d + 1) <= idx < k * (d + 1) + r) ->
          rd bary1 idx = rd bary idx))
    0 (d + 1) _ _ _ E ltac:(lia)) as H.
  simpl in H.
  destruct H as (H1 & H2 & H3 & H4 & H5 & H6 & H7 & H8).
  - repeat split; auto; try lia; intros; lia.
  - intros r [[[h1 key1] offset1] bary1] [[[h2 key2] offset2] bary2] Hr
      (H1 & H2 & H3 & H4 & H5 & H6 & H7 & H8) Hb.
    match type of Hb with
    | match for_upto ?lo ?hi ?body ?s with _ => _ end = _ =>
        destruct (for_upto lo hi body s) as [key3|]; [|discriminate]
    end.
    destruct (find h1 key3 true) as [h3 o] eqn:Hfind.
    destruct (wr offset1 (k * (d + 1) + r) o) as [offset3|] eqn:Hwo; [|discriminate].
    destruct (rd barycentric r) as [b|] eqn:Hrb; [|discriminate].
    destruct (wr bary1 (k * (d + 1) + r) b) as [bary3|] eqn:Hwb; [|discriminate].
    inversion Hb. subst h2 key2 offset2 bary2. clear Hb.
    apply find_create in Hfind. destruct Hfind as (Hks & Hsz & Ho).
    repeat split; try lia.
    + rewrite (wr_len _ _ _ _ Hwo). exact H3.
    + rewrite (wr_len _ _ _ _ Hwb). exact H4.
    + intros r' Hr'. destruct (Z.eq_dec r' r) as [->|Hne].
      * exists o. split; [apply (rd_wr_same _ _ _ _ Hwo)|lia].
      * destruct (H5 r' ltac:(lia)) as [o' [Ho1 Ho2]].
        exists o'. split; [|lia].
        rewrite (rd_wr_other _ _ _ _ _ Hwo) by lia. exact Ho1.
    + intros idx Hidx. rewrite (rd_wr_other _ _ _ _ _ Hwo) by lia.
      apply H6. lia.
    + intros r' Hr'. destruct (Z.eq_dec r' r) as [->|Hne].
      * exists b. split; [exact Hrb|apply (rd_wr_same _ _ _ _ Hwb)].
      * destruct (H7 r' ltac:(lia)) as [b' [Hb1 Hb2]].
        exists b'. split; [exact Hb1|].
        rewrite (rd_wr_other _ _ _ _ _ Hwb) by lia. exact Hb2.
    + intros idx Hidx. rewrite (rd_wr_other _ _ _ _ _ Hwb) by lia.
      apply H8. lia.
  - repeat split; auto.
    + intros r Hr. apply H5. lia.
    + intros idx Hidx. apply H6. lia.
    + intros r Hr. apply H7. lia.
    + intros idx Hidx. apply H8. lia.
Qed.
End CornerProps.

(** ** init: the neighbours *)

Lemma find_neighbors_spec (stray : Z -> Z) (d M : Z) (h : HashTable)
    (a b a' b' : list Z) (nbs nbs' : list Neighbors) :
  0 <= d -> 0 <= M ->
  find_neighbors stray d M h (a, b, nbs) = Some (a', b', nbs') ->
  len nbs' = len nbs /\
  forall idx, 0 <= idx < (d + 1) * M ->
    exists nb, rd nbs' idx = Some nb /\
               -1 <= n1 nb < size h /\ -1 <= n2 nb < size h.
Proof.
  intros Hd HM E. unfold find_neighbors in E.
  pose proof (for_upto_inv_some
    (fun j (t : list Z * list Z * list Neighbors) =>
       len (snd t) = len nbs /\
       forall idx, 0 <= idx < j * M ->
         exists nb, rd (snd t) idx = Some nb /\
                    -1 <= n1 nb < size h /\ -1 <= n2 nb < size h)
    0 (d + 1) _ _ _ E ltac:(lia)) as H.
  simpl in H. apply H; clear H E.
  - split; auto. intros idx Hidx. lia.
  - intros j t t' Hj [Hl Hdone] Hb.
    pose proof (for_upto_inv_some
      (fun i (u : list Z * list Z * list Neighbors) =>
         len (snd u) = len nbs /\
         forall idx, 0 <= idx < j * M + i ->
           exists nb, rd (snd u) idx = Some nb /\
                      -1 <= n1 nb < size h /\ -1 <= n2 nb < size h)
      0 M _ _ _ Hb HM) as H.
    simpl in H. replace ((j + 1) * M) with (j * M + M) by lia. apply H; clear H Hb.
    + split; auto. intros idx Hidx. apply Hdone. lia.
    + intros i [[a1 b1] nbs1] [[a2 b2] nbs2] Hi [Hl1 Hdone1] Hb. simpl in *.
      destruct (getKey h i) as [key|]; [|discriminate].
      match type of Hb with
      | match for_upto ?lo ?hi ?body ?s with _ => _ end = _ =>
          destruct (for_upto lo hi body s) as [[a3 b3]|]; [|discriminate]
      end.
      destruct (if j <? d then rd key j else Some (stray i)) as [key_j|]; [|discriminate].
      destruct (wr a3 j _) as [a4|]; [|discriminate].
      destruct (wr b3 j _) as [b4|]; [|discriminate].
      match type of Hb with
      | match wr nbs1 ?ix ?v with _ => _ end = _ =>
          destruct (wr nbs1 ix v) as [nbs3|] eqn:Hw; [|discriminate]
      end.
      inversion Hb. subst a2 b2 nbs2. clear Hb.
      split.
      * rewrite (wr_len _ _ _ _ Hw). exact Hl1.
      * intros idx Hidx. destruct (Z.eq_dec idx (j * M + i)) as [->|Hne].
        -- eexists. split; [apply (rd_wr_same _ _ _ _ Hw)|]. simpl.
           split; apply find_lookup.
        -- rewrite (rd_wr_other _ _ _ _ _ Hw) by auto. apply Hdone1. lia.
Qed.

(** ** init: the tables it builds *)

Section BuildProps.
Context {F : Type} {FA : FloatArith F} {FM : Fresh F}.

Lemma locate_stages (d : Z) (feature scale_factor : list F) (canonical : list Z)
    (k : Z) (st st' : Build F) :
  locate d feature scale_factor canonical k st = Some st' ->
  exists elevated rem0 sum rank rank' rem0' barycentric,
    elevate d feature scale_factor k (s_elevated st) = Some elevated /\
    round_to_cell d elevated (s_rem0 st) = Some (rem0, sum) /\
    rank_residuals d elevated rem0 (s_rank st) = Some rank /\
    plane_correct d sum rank rem0 = Some (rank', rem0') /\
    barycentric_coords d elevated rem0' rank' (s_barycentric st) = Some barycentric /\
    resolve_corners d canonical k rem0' rank' barycentric
      (s_hash_table st, s_key st, s_offset st, s_bary st)
    = Some (s_hash_table st', s_key st', s_offset st', s_bary st') /\
    s_elevated st' = elevated /\ s_rem0 st' = rem0' /\
    s_barycentric st' = barycentric /\ s_rank st' = rank'.
Proof.
  unfold locate. intros E.
  destruct (elevate _ _ _ _ _) as [el|] eqn:E1; [|discriminate].
  destruct (round_to_cell _ _ _) as [[r0 sum]|] eqn:E2; [|discriminate].
  destruct (rank_residuals _ _ _ _) as [rk|] eqn:E3; [|discriminate].
  destruct (plane_correct _ _ _ _) as [[rk' r0']|] eqn:E4; [|discriminate].
  destruct (barycentric_coords _ _ _ _ _) as [bc|] eqn:E5; [|discriminate].
  destruct (resolve_corners _ _ _ _ _ _ _) as [[[[h' key'] offset'] bary']|] eqn:E6;
    [|discriminate].
  inversion E. simpl.
  exists el, r0, sum, rk, rk', r0', bc. repeat split; auto.
Qed.

(** The loop over the points: the offsets written so far are indices of
    stored keys. *)
Lemma locate_all_spec (d N : Z) (feature scale_factor : list F) (canonical : list Z)
    (st st' : Build F) :
  0 <= d -> 0 <= N ->
  for_upto 0 N (locate d feature scale_factor canonical) st = Some st' ->
  key_size_ (s_hash_table st') = key_size_ (s_hash_table st) /\
  len (s_offset st') = len (s_offset st) /\
  len (s_bary st') = len (s_bary st) /\
  forall idx, 0 <= idx < N * (d + 1) ->
    exists o, rd (s_offset st') idx = Some o /\ 0 <= o < size (s_hash_table st').
Proof.
  intros Hd HN E.
  apply (for_upto_inv_some
    (fun k (t : Build F) =>
       key_size_ (s_hash_table t) = key_size_ (s_hash_table st) /\
       len (s_offset t) = len (s_offset st) /\
       len (s_bary t) = len (s_bary st) /\
       forall idx, 0 <= idx < k * (d + 1) ->
         exists o, rd (s_offset t) idx = Some o /\ 0 <= o < size (s_hash_table t))
    0 N _ _ _ E HN).
  - repeat split; auto. intros idx Hidx. lia.
  - intros k t t' Hk (H1 & H2 & H3 & H4) Hb.
    apply locate_stages in Hb.
    destruct Hb as (el & r0 & sum & rk & rk' & r0' & bc & _ & _ & _ & _ & _ & Hres & _).
    apply resolve_corners_spec in Hres; auto.
    destruct Hres as (R1 & R2 & R3 & R4 & R5 & R6 & _ & _).
    repeat split; try congruence.
    intros idx Hidx.
    destruct (Z_lt_ge_dec idx (k * (d + 1))) as [Hold|Hnew].
    + rewrite R6 by lia. destruct (H4 idx ltac:(lia)) as [o [Ho1 Ho2]].
      exists o. split; auto. lia.
    + replace idx with (k * (d + 1) + (idx - k * (d + 1))) by lia.
      apply R5. lia.
Qed.

(** Keys without coordinates: the loops of [init] store one at most. *)
Lemma resolve_corners_no_coordinates (canonical : list Z) (k : Z)
    (rem0 : list F) (rank : list Z) (barycentric : list F)
    (h h' : HashTable) (key key' offset offset' : list Z) (bary bary' : list F) :
  key_size_ h = 0 -> keys_ h = [] \/ keys_ h = [[]] ->
  resolve_corners 0 canonical k rem0 rank barycentric (h, key, offset, bary)
  = Some (h', key', offset', bary') ->
  key_size_ h' = 0 /\ (keys_ h' = [] \/ keys_ h' = [[]]).
Proof.
  intros Hk Hs E. unfold resolve_corners in E.
  apply (for_upto_inv_some
    (fun _ (t : HashTable * list Z * list Z * list F) =>
       key_size_ (fst (fst (fst t))) = 0 /\
       (keys_ (fst (fst (fst t))) = [] \/ keys_ (fst (fst (fst t))) = [[]]))
    0 (0 + 1) _ _ _ E ltac:(lia)).
  - simpl. auto.
  - intros r [[[h1 key1] offset1] bary1] [[[h2 key2] offset2] bary2] Hr [H1 H2] Hb.
    simpl in *.
    destruct (find h1 key1 true) as [h3 o] eqn:Ef.
    destruct (wr offset1 _ o); [|discriminate].
    destruct (rd barycentric r); [|discriminate].
    destruct (wr bary1 _ _); [|discriminate].
    inversion Hb. subst. exact (find_no_coordinates _ _ _ _ H1 H2 Ef).
Qed.

Lemma locate_all_no_coordinates (N : Z) (feature scale_factor : list F)
    (canonical : list Z) (st st' : Build F) :
  0 <= N ->
  key_size_ (s_hash_table st) = 0 -> keys_ (s_hash_table st) = [] ->
  for_upto 0 N (locate 0 feature scale_factor canonical) st = Some st' ->
  size (s_hash_table st') <= 1.
Proof.
  intros HN Hk Hs E.
  assert (H : key_size_ (s_hash_table st') = 0 /\
              (keys_ (s_hash_table st') = [] \/ keys_ (s_hash_table st') = [[]])).
  { apply (for_upto_inv_some
      (fun _ (t : Build F) =>
         key_size_ (s_hash_table t) = 0 /\
         (keys_ (s_hash_table t) = [] \/ keys_ (s_hash_table t) = [[]]))
      0 N _ _ _ E HN); auto.
    intros k t t' Hk' [H1 H2] Hb.
    apply locate_stages in Hb.
    destruct Hb as (el & r0 & sum & rk & rk' & r0' & bc & _ & _ & _ & _ & _ & Hres & _).
    exact (resolve_corners_no_coordinates _ _ _ _ _ _ _ _ _ _ _ _ _ H1 H2 Hres). }
  unfold size. destruct H as [_ [-> | ->]]; unfold len; simpl; lia.
Qed.

(** [init] leaves a well-shaped lattice. *)
Lemma init_built (stray : Z -> Z) (feature : list F) (feature_size N : Z)
    (p : Permutohedral F) :
  init stray feature feature_size N = Some p ->
  built p /\ d_ p = feature_size /\ N_ p = N.
Proof.
  rewrite init_unfold. intros E.
  destruct (int_add feature_size 1) eqn:G1; [|discriminate]. apply int_add_in in G1.
  destruct (int_mul N _) eqn:G2; [|discriminate]. clear G2.
  destruct (int_mul _ N) eqn:G3; [|discriminate]. apply int_mul_in in G3.
  destruct (int_add feature_size 2) eqn:G4; [|discriminate]. clear G4.
  destruct (int_mul _ (feature_size + 1)) eqn:G5; [|discriminate]. clear G5.
  destruct (alloc ((feature_size + 1) * N) (fresh_int 0)) as [offset|] eqn:A1;
    [|discriminate].
  destruct (alloc ((feature_size + 1) * N) (fresh_float 0)) as [bary|] eqn:A2;
    [|discriminate].
  destruct (alloc feature_size (fresh_float 1)) as [sf|] eqn:A3; [|discriminate].
  destruct (alloc (feature_size + 1) (fresh_float 2)) as [el|]; [|discriminate].
  destruct (alloc (feature_size + 1) (fresh_float 3)) as [r0|]; [|discriminate].
  destruct (alloc (feature_size + 2) (fresh_float 4)) as [bc|]; [|discriminate].
  destruct (alloc (feature_size + 1) (fresh_int 1)) as [rk|]; [|discriminate].
  destruct (alloc ((feature_size + 1) * (feature_size + 1)) (fresh_int 2)) as [cn|];
    [|discriminate].
  destruct (alloc (feature_size + 1) (fresh_int 3)) as [ky|]; [|discriminate].
  destruct (canonical_simplex feature_size cn) as [cn'|]; [|discriminate].
  destruct (scale_factors feature_size sf) as [sf'|]; [|discriminate].
  match type of E with
  | match for_upto ?lo ?hi ?body ?s with _ => _ end = _ =>
      destruct (for_upto lo hi body s) as [st|] eqn:Eloop; [|discriminate]
  end.
  destruct (int_mul _ (size _)) eqn:G6; [|discriminate]. apply int_mul_in in G6.
  destruct (alloc _ (fun _ => Neighbors_new)) as [nbs|] eqn:A8; [|discriminate].
  destruct (alloc (feature_size + 1) (fresh_int 4)) as [na|]; [|discriminate].
  destruct (alloc (feature_size + 1) (fresh_int 5)) as [nb|]; [|discriminate].
  destruct (find_neighbors _ _ _ _ _) as [[[a' b'] nbs']|] eqn:Enb; [|discriminate].
  inversion E. clear E. simpl.
  apply alloc_len in A1, A2, A3, A8. destruct A1 as [L1 P1], A2 as [L2 _], A3 as [_ Hd].
  destruct A8 as [L8 _].
  assert (HN : 0 <= N) by nia.
  pose proof (len_nonneg (keys_ (s_hash_table st))) as HM. fold (size (s_hash_table st)) in HM.
  assert (HM2 : size (s_hash_table st) + 2 <= 2147483647).
  { destruct (Z.eq_dec feature_size 0) as [->|Hpos]; [|nia].
    apply locate_all_no_coordinates in Eloop; auto. lia. }
  apply locate_all_spec in Eloop; auto. simpl in Eloop.
  destruct Eloop as (_ & Lo & Lb & Hoff).
  apply find_neighbors_spec in Enb; auto. destruct Enb as [Ln Hnb].
  split; [|auto]. constructor; simpl; auto.
  - exists (s_offset st). repeat split; [congruence|].
    intros i Hi. apply Hoff. lia.
  - exists (s_bary st). split; [reflexivity|congruence].
  - exists nbs'. repeat split; [congruence|exact Hnb].
  - lia.
Qed.
End BuildProps.

(** ** compute: the sentinel slot *)

Section SentinelProps.
Context {F : Type} {FA : FloatArith F} {FM : Fresh F}.

Lemma splat_row_update (inp : list F) (value_size i o : Z) (w : F) (k : Z) (t : list F) :
  (v <- rd t (o * value_size + k) ;;
   x <- rd inp (i * value_size + k) ;;
   wr t (o * value_size + k) (f_add v (f_mul w x)))
  = row_update (o * value_size)
      (fun k v => x <- rd inp (i * value_size + k) ;; Some (f_add v (f_mul w x))) k t.
Proof.
  unfold row_update. destruct (rd t (o * value_size + k)); auto.
  destruct (rd inp (i * value_size + k)); auto.
Qed.

(** Splatting writes no slot below the one of vertex 0. *)
Lemma splat_keeps_low_slots (p : Permutohedral F) (inp : list F)
    (value_size in_offset in_size : Z) (values values' : list F) :
  0 <= value_size ->
  (forall i o, table (offset_ p) i = Some o -> 0 <= o) ->
  splat p inp value_size in_offset in_size values = Some values' ->
  len values' = len values /\
  forall idx, idx < value_size -> rd values' idx = rd values idx.
Proof.
  intros Hvs Hoff E. apply splat_some in E.
  destruct (Z_le_gt_dec in_size 0) as [Hn|Hn].
  { rewrite for_upto_empty in E by lia. inversion E. auto. }
  apply (for_upto_inv_some
    (fun _ t => len t = len values /\
                forall idx, idx < value_size -> rd t idx = rd values idx)
    0 in_size _ _ _ E ltac:(lia)); [auto|].
  clear E. intros i t t' Hi Ht E.
  destruct (Z_le_gt_dec (d_ p + 1) 0) as [Hd|Hd].
  { rewrite for_upto_empty in E by lia. inversion E. subst. auto. }
  apply (for_upto_inv_some
    (fun _ t => len t = len values /\
                forall idx, idx < value_size -> rd t idx = rd values idx)
    0 (d_ p + 1) _ _ _ E ltac:(lia)); [auto|].
  clear E. intros j u u' Hj [Hl Hu] E.
  destruct (table (offset_ p) _) as [o_|] eqn:Ho; [|discriminate].
  destruct (table (barycentric_ p) _) as [w|]; [|discriminate].
  apply Hoff in Ho.
  apply (row_loop_some ((o_ + 1) * value_size) value_size _
           (fun k v => x <- rd inp (i * value_size + k) ;; Some (f_add v (f_mul w x))))
    in E.
  - destruct E as [Hl' [_ Hrest]]. split; [congruence|].
    intros idx Hidx. rewrite Hrest by nia. auto.
  - intros k a Hk. apply splat_row_update.
Qed.
End SentinelProps.

(** ** compute: slicing *)

Section SliceProps.
Context {F : Type} {FA : FloatArith F} {FM : Fresh F}.

Lemma slice_row_update (values : list F) (value_size i o : Z) (w a : F) (k : Z) (t : list F) :
  (x <- rd t (i * value_size + k) ;;
   v <- rd values (o * value_size + k) ;;
   wr t (i * value_size + k) (f_add x (f_mul (f_mul w v) a)))
  = row_update (i * value_size)
      (fun k x => v <- rd values (o * value_size + k) ;;
                  Some (f_add x (f_mul (f_mul w v) a))) k t.
Proof.
  unfold row_update. destruct (rd t (i * value_size + k)); auto.
  destruct (rd values (o * value_size + k)); auto.
Qed.

Lemma zero_row_update (base k : Z) (t : list F) :
  wr t (base + k) f_zero = row_update base (fun _ _ => Some f_zero) k t.
Proof.
  unfold row_update. destruct (rd t (base + k)) eqn:E; auto.
  now apply wr_rd_none.
Qed.

(** One point of the slicing loop. *)
Lemma slice_point_spec (p : Permutohedral F) (values : list F)
    (value_size out_offset i : Z) (out out' : list F) :
  0 <= value_size -> 0 <= d_ p + 1 ->
  (out1 <- for_upto 0 value_size
             (fun k out => wr out (i * value_size + k) f_zero) out ;;
   for_upto 0 (d_ p + 1) (fun j out =>
     o_ <- table (offset_ p) ((out_offset + i) * (d_ p + 1) + j) ;;
     let o := o_ + 1 in
     w <- table (barycentric_ p) ((out_offset + i) * (d_ p + 1) + j) ;;
     for_upto 0 value_size (fun k out =>
       x <- rd out (i * value_size + k) ;;
       v <- rd values (o * value_size + k) ;;
       wr out (i * value_size + k) (f_add x (f_mul (f_mul w v) (alpha p))))
     out)
   out1) = Some out' ->
  len out' = len out /\
  (forall k, 0 <= k < value_size ->
     exists v, slice_value p values value_size (out_offset + i) k = Some v /\
               rd out' (i * value_size + k) = Some v) /\
  (forall idx, ~ (i * value_size <= idx < (i + 1) * value_size) ->
     rd out' idx = rd out idx).
Proof.
  intros Hvs Hd E.
  match type of E with
  | match for_upto ?lo ?hi ?body ?s with _ => _ end = _ =>
      destruct (for_upto lo hi body s) as [out1|] eqn:Ez; [|discriminate]
  end.
  apply (row_loop_some (i * value_size) value_size _ (fun _ _ => Some f_zero)) in Ez;
    [|intros; apply zero_row_update].
  destruct Ez as (Hl1 & Hz & Hr1).
  pose proof (for_upto_inv_some
    (fun j t =>
       len t = len out /\
       (forall k, 0 <= k < value_size ->
          exists v, slice_partial p values value_size (out_offset + i) k j = Some v /\
                    rd t (i * value_size + k) = Some v) /\
       (forall idx, ~ (i * value_size <= idx < (i + 1) * value_size) ->
          rd t idx = rd out idx))
    0 (d_ p + 1) _ _ _ E Hd) as H.
  apply H; clear H E.
  - split; [congruence|]. split.
    + intros k Hk. exists f_zero. split.
      * unfold slice_partial. apply for_upto_empty. lia.
      * destruct (Hz k Hk) as (x & v & _ & Hv & Hrd). inversion Hv. subst v. exact Hrd.
    + intros idx Hidx. apply Hr1. lia.
  - intros j t t' Hj (Hl & Hrow & Hrest) E.
    destruct (table (offset_ p) _) as [o_|] eqn:Ho; [|discriminate].
    destruct (table (barycentric_ p) _) as [w|] eqn:Hw; [|discriminate].
    apply (row_loop_some (i * value_size) value_size _
             (fun k x => v <- rd values ((o_ + 1) * value_size + k) ;;
                         Some (f_add x (f_mul (f_mul w v) (alpha p))))) in E;
      [|intros; apply slice_row_update].
    destruct E as (Hl' & Hrow' & Hrest').
    split; [congruence|]. split.
    + intros k Hk. destruct (Hrow' k Hk) as (x & v & Hx & Hv & Hrd).
      exists v. split; auto.
      destruct (Hrow k Hk) as (x' & Hx1 & Hx2).
      assert (x' = x) by congruence. subst x'.
      unfold slice_partial in *. rewrite for_upto_last by lia.
      rewrite Hx1, Ho, Hw. exact Hv.
    + intros idx Hidx. rewrite Hrest' by lia. apply Hrest. exact Hidx.
Qed.

(** The slicing loop: the slots it writes and what it leaves alone. *)
Lemma slice_spec (p : Permutohedral F) (values : list F)
    (value_size out_offset out_size : Z) (out out' : list F) :
  0 <= value_size -> 0 <= d_ p + 1 ->
  slice p values value_size out_offset out_size out = Some out' ->
  len out' = len out /\
  (forall i k, 0 <= i < out_size -> 0 <= k < value_size ->
     exists v, slice_value p values value_size (out_offset + i) k = Some v /\
               rd out' (i * value_size + k) = Some v) /\
  (forall idx, ~ (0 <= idx < out_size * value_size) -> rd out' idx = rd out idx).
Proof.
  intros Hvs Hd E. apply slice_some in E.
  destruct (Z_le_gt_dec out_size 0) as [Hn|Hn].
  { rewrite for_upto_empty in E by lia. inversion E. subst out'.
    repeat split; auto. intros i k Hi. lia. }
  pose proof (for_upto_inv_some
    (fun i t =>
       len t = len out /\
       (forall i' k, 0 <= i' < i -> 0 <= k < value_size ->
          exists v, slice_value p values value_size (out_offset + i') k = Some v /\
                    rd t (i' * value_size + k) = Some v) /\
       (forall idx, ~ (0 <= idx < i * value_size) -> rd t idx = rd out idx))
    0 out_size _ _ _ E ltac:(lia)) as H.
  apply H; clear H E.
  - repeat split; auto. intros i' k Hi'. lia.
  - intros i t t' Hi (Hl & Hrow & Hrest) E.
    apply slice_point_spec in E; auto.
    destruct E as (Hl' & Hrow' & Hrest').
    split; [congruence|]. split.
    + intros i' k Hi' Hk. destruct (Z.eq_dec i' i) as [->|Hne].
      * apply Hrow'. exact Hk.
      * rewrite Hrest' by nia. apply Hrow; auto. lia.
    + intros idx Hidx. rewrite Hrest' by nia. apply Hrest. nia.
Qed.
End SliceProps.

(** ** compute is defined on built lattices *)

Section Totality.
Context {F : Type} {FA : FloatArith F} {FM : Fresh F}.

Lemma built_offset_at (p : Permutohedral F) (i : Z) :
  built p -> 0 <= i < (d_ p + 1) * N_ p ->
  exists o, table (offset_ p) i = Some o /\ 0 <= o < M_ p.
Proof.
  intros Hb Hi. destruct (built_offset p Hb) as (o & Ho & _ & Hro).
  unfold table. rewrite Ho. apply Hro. exact Hi.
Qed.

Lemma built_barycentric_at (p : Permutohedral F) (i : Z) :
  built p -> 0 <= i < (d_ p + 1) * N_ p ->
  exists w, table (barycentric_ p) i = Some w.
Proof.
  intros Hb Hi. destruct (built_barycentric p Hb) as (b & Hbb & Hl).
  unfold table. rewrite Hbb. apply rd_some. lia.
Qed.

Lemma built_neighbors_at (p : Permutohedral F) (i : Z) :
  built p -> 0 <= i < (d_ p + 1) * M_ p ->
  exists nb, table (blur_neighbors_ p) i = Some nb /\
             -1 <= n1 nb < M_ p /\ -1 <= n2 nb < M_ p.
Proof.
  intros Hb Hi. destruct (built_neighbors p Hb) as (nbs & Hn & _ & Hrn).
  unfold table. rewrite Hn. apply Hrn. exact Hi.
Qed.

Lemma splat_total (p : Permutohedral F) (inp : list F)
    (value_size in_offset in_size : Z) (values : list F) :
  built p -> 0 <= value_size ->
  0 <= in_offset -> in_offset + in_size <= N_ p ->
  in_size * value_size <= len inp ->
  in_size * value_size <= 2147483647 ->
  len values = (M_ p + 2) * value_size ->
  exists values', splat p inp value_size in_offset in_size values = Some values' /\
                  len values' = len values.
Proof.
  intros Hb Hvs Hio Hfit Hinp Hint Hl.
  pose proof (built_d p Hb) as Hd. pose proof (built_M p Hb) as HM.
  destruct (Z_le_gt_dec in_size 0) as [Hn|Hn].
  { unfold splat. rewrite for_upto_empty by lia. eauto. }
  rewrite splat_small by exact Hint.
  apply (for_upto_inv (fun _ t => len t = len values)); [lia|reflexivity|].
  intros i t Hi Ht.
  apply (for_upto_inv (fun _ u => len u = len values)); [lia|exact Ht|].
  intros j u Hj Hu.
  destruct (built_offset_at p ((in_offset + i) * (d_ p + 1) + j) Hb) as (o_ & Ho & Hor);
    [nia|].
  destruct (built_barycentric_at p ((in_offset + i) * (d_ p + 1) + j) Hb) as (w & Hw);
    [nia|].
  rewrite Ho, Hw.
  assert (Hbody : forall k a, 0 <= k < value_size ->
    (v <- rd a ((o_ + 1) * value_size + k) ;;
     x <- rd inp (i * value_size + k) ;;
     wr a ((o_ + 1) * value_size + k) (f_add v (f_mul w x)))
    = row_update ((o_ + 1) * value_size)
        (fun k v => x <- rd inp (i * value_size + k) ;; Some (f_add v (f_mul w x))) k a).
  { intros k a _. apply splat_row_update. }
  destruct (row_loop_total ((o_ + 1) * value_size) value_size _ _ u Hbody)
    as [u' Eu]; try nia.
  { intros k x Hk _. destruct (rd_some inp (i * value_size + k)) as [y Hy]; [nia|].
    rewrite Hy. eauto. }
  exists u'. split; [exact Eu|].
  apply (row_loop_some _ _ _ _ _ _ Hbody) in Eu. destruct Eu as [Hl' _]. congruence.
Qed.

Lemma blur_axis_total (p : Permutohedral F) (value_size j : Z)
    (values new_values : list F) :
  built p -> 0 <= value_size -> 0 <= j <= d_ p ->
  len values = (M_ p + 2) * value_size ->
  len new_values = (M_ p + 2) * value_size ->
  exists cur, blur_axis p value_size j (values, new_values) = Some (cur, values) /\
              len cur = (M_ p + 2) * value_size.
Proof.
  intros Hb Hvs Hj Hlv Hln.
  pose proof (built_M p Hb) as HM.
  unfold blur_axis.
  match goal with
  | |- context [for_upto 0 (M_ p) ?body ?s] =>
      destruct (for_upto_inv
        (fun _ (t : list F * list F) =>
           fst t = values /\ len (snd t) = (M_ p + 2) * value_size)
        0 (M_ p) body s HM) as ([v nv] & E & Hv & Hl)
  end.
  - split; auto.
  - intros i [t1 t2] Hi [Ht1 Ht2]. simpl in Ht1, Ht2. subst t1.
    destruct (built_neighbors_at p (j * M_ p + i) Hb) as (nb & Hnb & H1 & H2); [nia|].
    rewrite Hnb.
    assert (Hbody : forall k a, 0 <= k < value_size ->
      (old <- rd values ((i + 1) * value_size + k) ;;
       x <- rd values ((n1 nb + 1) * value_size + k) ;;
       y <- rd values ((n2 nb + 1) * value_size + k) ;;
       wr a ((i + 1) * value_size + k) (f_add old (f_mul f_half (f_add x y))))
      = row_update ((i + 1) * value_size)
          (fun k _ =>
             old <- rd values ((i + 1) * value_size + k) ;;
             x <- rd values ((n1 nb + 1) * value_size + k) ;;
             y <- rd values ((n2 nb + 1) * value_size + k) ;;
             Some (f_add old (f_mul f_half (f_add x y)))) k a).
    { intros k a _. unfold row_update.
      destruct (rd a ((i + 1) * value_size + k)) eqn:Ha;
        destruct (rd values ((i + 1) * value_size + k)); auto;
        destruct (rd values ((n1 nb + 1) * value_size + k)); auto;
        destruct (rd values ((n2 nb + 1) * value_size + k)); auto.
      now apply wr_rd_none. }
    destruct (row_loop_total ((i + 1) * value_size) value_size _ _ t2 Hbody)
      as [t2' Et]; try nia.
    { intros k x Hk _.
      destruct (rd_some values ((i + 1) * value_size + k)) as [a Ha]; [nia|].
      destruct (rd_some values ((n1 nb + 1) * value_size + k)) as [b Hb']; [nia|].
      destruct (rd_some values ((n2 nb + 1) * value_size + k)) as [c Hc]; [nia|].
      rewrite Ha, Hb', Hc. eauto. }
    rewrite Et. eexists. split; [reflexivity|]. simpl. split; auto.
    apply (row_loop_some _ _ _ _ _ _ Hbody) in Et. destruct Et as [Hl' _]. congruence.
  - rewrite E. simpl in Hv, Hl. subst v. exists nv. split; auto.
Qed.

Lemma blur_passes_total (p : Permutohedral F) (value_size j : Z)
    (values new_values : list F) :
  built p -> 0 <= value_size -> 0 <= j <= d_ p + 1 ->
  len values = (M_ p + 2) * value_size ->
  len new_values = (M_ p + 2) * value_size ->
  exists cur nxt, blur_passes p value_size j (values, new_values) = Some (cur, nxt) /\
                  len cur = (M_ p + 2) * value_size /\
                  len nxt = (M_ p + 2) * value_size.
Proof.
  intros Hb Hvs Hj Hlv Hln. unfold blur_passes.
  destruct (for_upto_inv
    (fun _ (t : list F * list F) =>
       len (fst t) = (M_ p + 2) * value_size /\ len (snd t) = (M_ p + 2) * value_size)
    0 j (blur_axis p value_size) (values, new_values) ltac:(lia))
    as ([cur nxt] & E & H1 & H2).
  - split; auto.
  - intros a [t1 t2] Ha [H1 H2]. simpl in H1, H2.
    destruct (blur_axis_total p value_size a t1 t2) as (cur & E & Hl); auto; try lia.
    exists (cur, t1). split; auto.
  - exists cur, nxt. auto.
Qed.

Lemma slice_total (p : Permutohedral F) (values : list F)
    (value_size out_offset out_size : Z) (out : list F) :
  built p -> 0 <= value_size ->
  0 <= out_offset -> out_offset + out_size <= N_ p ->
  out_size * value_size <= len out ->
  out_size * value_size <= 2147483647 ->
  len values = (M_ p + 2) * value_size ->
  exists out', slice p values value_size out_offset out_size out = Some out'.
Proof.
  intros Hb Hvs Hoo Hfit Hout Hint Hl.
  pose proof (built_d p Hb) as Hd. pose proof (built_M p Hb) as HM.
  destruct (Z_le_gt_dec out_size 0) as [Hn|Hn].
  { unfold slice. rewrite for_upto_empty by lia. eauto. }
  rewrite slice_small by exact Hint.
  match goal with
  | |- context [for_upto 0 out_size ?body out] =>
      destruct (for_upto_inv (fun _ t => len t = len out) 0 out_size body out
                  ltac:(lia) eq_refl) as (out' & E & _); [|eauto]
  end.
  intros i t Hi Ht.
  assert (Hz : forall k a, 0 <= k < value_size ->
            wr a (i * value_size + k) f_zero
            = row_update (i * value_size) (fun _ _ => Some f_zero) k a).
  { intros; apply zero_row_update. }
  destruct (row_loop_total (i * value_size) value_size _ _ t Hz) as [t1 Et1];
    try nia; eauto.
  rewrite Et1.
  apply (row_loop_some _ _ _ _ _ _ Hz) in Et1. destruct Et1 as [Hl1 _].
  apply (for_upto_inv (fun _ u => len u = len out)); [lia|congruence|].
  intros j u Hj Hu.
  destruct (built_offset_at p ((out_offset + i) * (d_ p + 1) + j) Hb) as (o_ & Ho & Hor);
    [nia|].
  destruct (built_barycentric_at p ((out_offset + i) * (d_ p + 1) + j) Hb) as (w & Hw);
    [nia|].
  rewrite Ho, Hw.
  assert (Hbody : forall k a, 0 <= k < value_size ->
    (x <- rd a (i * value_size + k) ;;
     v <- rd values ((o_ + 1) * value_size + k) ;;
     wr a (i * value_size + k) (f_add x (f_mul (f_mul w v) (alpha p))))
    = row_update (i * value_size)
        (fun k x => v <- rd values ((o_ + 1) * value_size + k) ;;
                    Some (f_add x (f_mul (f_mul w v) (alpha p)))) k a).
  { intros k a _. apply slice_row_update. }
  destruct (row_loop_total (i * value_size) value_size _ _ u Hbody) as [u' Eu];
    try nia.
  { intros k x Hk _.
    destruct (rd_some values ((o_ + 1) * value_size + k)) as [y Hy]; [nia|].
    rewrite Hy. eauto. }
  exists u'. split; [exact Eu|].
  apply (row_loop_some _ _ _ _ _ _ Hbody) in Eu. destruct Eu as [Hl' _]. congruence.
Qed.

(** The number of points of a built lattice is an [int]. *)
Lemma built_N_int (p : Permutohedral F) : built p -> N_ p <= 2147483647.
Proof.
  intros Hb. pose proof (built_d p Hb). pose proof (built_N p Hb).
  destruct (built_sizes p Hb) as (_ & _ & HdN & _). nia.
Qed.

(** The sizes that [compute] resolves the ranges to, for offsets among the
    points. *)
Lemma built_resolved_size (p : Permutohedral F) (offset size : Z) :
  built p -> 0 <= offset <= N_ p ->
  resolved_size (N_ p) offset size = Some (resolve_size (N_ p) offset size).
Proof.
  intros Hb Ho. pose proof (built_N_int p Hb). apply resolved_size_small. lia.
Qed.

(** On a built lattice, with ranges inside the points, arrays that hold
    the ranges and sizes of type [int], [compute] is defined. *)
Lemma blurred_total (p : Permutohedral F) (inp : list F)
    (value_size in_offset in_size j : Z) :
  built p -> 0 <= value_size ->
  (M_ p + 2) * value_size <= 2147483647 ->
  N_ p * value_size <= 2147483647 ->
  0 <= in_offset <= N_ p ->
  in_offset + resolve_size (N_ p) in_offset in_size <= N_ p ->
  resolve_size (N_ p) in_offset in_size * value_size <= len inp ->
  0 <= j <= d_ p + 1 ->
  exists values new_values,
    blurred p inp value_size in_offset in_size j = Some (values, new_values) /\
    len values = (M_ p + 2) * value_size /\
    len new_values = (M_ p + 2) * value_size.
Proof.
  intros Hb Hvs HintM HintN Hio Hin Hinp Hj.
  pose proof (built_d p Hb) as Hd. pose proof (built_M p Hb) as HM.
  destruct (built_sizes p Hb) as (_ & HM2 & _ & _).
  rewrite blurred_unfold, built_resolved_size by auto.
  rewrite int_add_small, int_mul_small by nia.
  destruct (alloc_some ((M_ p + 2) * value_size) (fresh_float 0)) as (a & Ha & Hla);
    [nia|].
  destruct (alloc_some ((M_ p + 2) * value_size) (fresh_float 1)) as (b & Hb' & Hlb);
    [nia|].
  rewrite Ha, Hb'. rewrite zero_scratch_spec by (auto; nia).
  set (zeros := repeat f_zero (Z.to_nat ((M_ p + 2) * value_size))).
  assert (Hz : len zeros = (M_ p + 2) * value_size).
  { unfold zeros, len. rewrite repeat_length. nia. }
  destruct (splat_total p inp value_size in_offset
              (resolve_size (N_ p) in_offset in_size) zeros) as (v1 & Es & Hl1);
    auto; try nia.
  rewrite Es.
  destruct (blur_passes_total p value_size j v1 zeros)
    as (cur & nxt & Eb & Hlc & Hln); auto; try lia.
  exists cur, nxt. auto.
Qed.

Lemma compute_total (p : Permutohedral F) (out inp : list F)
    (value_size in_offset out_offset in_size out_size : Z) :
  built p -> 0 <= value_size ->
  (M_ p + 2) * value_size <= 2147483647 ->
  N_ p * value_size <= 2147483647 ->
  0 <= in_offset <= N_ p ->
  in_offset + resolve_size (N_ p) in_offset in_size <= N_ p ->
  resolve_size (N_ p) in_offset in_size * value_size <= len inp ->
  0 <= out_offset <= N_ p ->
  out_offset + resolve_size (N_ p) out_offset out_size <= N_ p ->
  resolve_size (N_ p) out_offset out_size * value_size <= len out ->
  exists res, compute p out inp value_size in_offset out_offset in_size out_size
              = Some res.
Proof.
  intros Hb Hvs HintM HintN Hio Hin Hinp Hoo Hout Houtl.
  pose proof (built_d p Hb) as Hd.
  rewrite compute_unfold, built_resolved_size by auto.
  destruct (blurred_total p inp value_size in_offset in_size (d_ p + 1))
    as (values & scratch & Eb & Hlv & _); auto; try lia.
  rewrite Eb. apply slice_total; auto; try lia. nia.
Qed.
End Totality.

(** ** compute: one pass of the blur *)

Section BlurPass.
Context {F : Type} {FA : FloatArith F} {FM : Fresh F}.

(** C3: on a lattice built by [init], with ranges inside the points,
    arrays that hold them and sizes of type [int], [compute] returns, and
    it runs the [d+1] passes one after the other on the buffers that
    splatting leaves: [pass j] being the two buffers after [j] passes, the
    pass along axis [j] reads the first buffer of [pass j], gives every
    vertex [i] (slot [i+1]) the value [old[i] + 0.5 * (old[n1] + old[n2])]
    in every channel, where [n1] and [n2] are the slots of the two
    neighbours of [i] along [j] (the stored index plus one), and swaps the
    buffers: what it wrote is the first buffer of [pass (j+1)], read by the
    next pass, and [old] is the buffer to write into.  The output is sliced
    from the buffer that the last pass wrote. *)
Theorem blur_pass_updates_every_vertex (stray : Z -> Z) (feature : list F)
    (feature_size N : Z) (p : Permutohedral F) (out inp : list F)
    (value_size in_offset out_offset in_size out_size : Z) :
  init stray feature feature_size N = Some p ->
  0 <= value_size ->
  (M_ p + 2) * value_size <= 2147483647 -> N * value_size <= 2147483647 ->
  0 <= in_offset <= N ->
  in_offset + resolve_size N in_offset in_size <= N ->
  resolve_size N in_offset in_size * value_size <= len inp ->
  0 <= out_offset <= N ->
  out_offset + resolve_size N out_offset out_size <= N ->
  resolve_size N out_offset out_size * value_size <= len out ->
  exists (pass : Z -> list F * list F) (res : list F),
    (forall j, 0 <= j <= feature_size + 1 ->
       blurred p inp value_size in_offset in_size j = Some (pass j)) /\
    (forall j, 0 <= j <= feature_size ->
       snd (pass (j + 1)) = fst (pass j) /\
       forall i k, 0 <= i < M_ p -> 0 <= k < value_size ->
         exists nb x a b,
           table (blur_neighbors_ p) (j * M_ p + i) = Some nb /\
           rd (fst (pass j)) ((i + 1) * value_size + k) = Some x /\
           rd (fst (pass j)) ((n1 nb + 1) * value_size + k) = Some a /\
           rd (fst (pass j)) ((n2 nb + 1) * value_size + k) = Some b /\
           rd (fst (pass (j + 1))) ((i + 1) * value_size + k)
           = Some (f_add x (f_mul f_half (f_add a b)))) /\
    compute p out inp value_size in_offset out_offset in_size out_size = Some res /\
    slice p (fst (pass (feature_size + 1))) value_size out_offset
      (resolve_size N out_offset out_size) out = Some res.
Proof.
  intros Hinit Hvs HintM HintN Hio Hin Hinp Hoo Hout Houtl.
  apply init_built in Hinit. destruct Hinit as (Hb & Hd & HN). subst N feature_size.
  pose proof (built_d p Hb) as Hd0.
  destruct (compute_total p out inp value_size in_offset out_offset in_size out_size)
    as [res Er]; auto.
  exists (fun j => match blurred p inp value_size in_offset in_size j with
                   | Some st => st
                   | None => ([], [])
                   end), res.
  assert (Hpass : forall j, 0 <= j <= d_ p + 1 ->
            exists st, blurred p inp value_size in_offset in_size j = Some st).
  { intros j Hj.
    destruct (blurred_total p inp value_size in_offset in_size j)
      as (v & nv & E & _); eauto. }
  split; [|split; [|split; [exact Er|]]].
  - intros j Hj. destruct (Hpass j Hj) as [st ->]. reflexivity.
  - intros j Hj.
    destruct (Hpass j ltac:(lia)) as [[old spare] Eold].
    destruct (Hpass (j + 1) ltac:(lia)) as [[cur nxt] Ecur].
    rewrite Eold, Ecur. simpl.
    rewrite blurred_unfold in Eold, Ecur.
    destruct (resolved_size _ _ _); [|discriminate].
    destruct (int_add _ _); [|discriminate].
    destruct (int_mul _ _); [|discriminate].
    destruct (alloc _ (fresh_float 0)) as [v0|]; [|discriminate].
    destruct (alloc _ (fresh_float 1)) as [w0|]; [|discriminate].
    destruct (zero_scratch _ _) as [[v1 w1]|]; [|discriminate].
    destruct (splat _ _ _ _ _ _) as [v2|]; [|discriminate].
    unfold blur_passes in Ecur. rewrite for_upto_last in Ecur by lia.
    unfold blur_passes in Eold. rewrite Eold in Ecur.
    destruct (blur_axis_spec _ _ _ _ _ _ _ Hvs Ecur) as [Hswap [_ [Hrow _]]].
    split; [exact Hswap|].
    intros i k Hi Hk. destruct (Hrow i k Hi Hk) as [v [Hv Hrd]].
    unfold blur_value in Hv.
    destruct (table (blur_neighbors_ p) (j * M_ p + i)) as [nb|] eqn:E1; [|discriminate].
    destruct (rd old ((i + 1) * value_size + k)) as [x|] eqn:E2; [|discriminate].
    destruct (rd old ((n1 nb + 1) * value_size + k)) as [a|] eqn:E3; [|discriminate].
    destruct (rd old ((n2 nb + 1) * value_size + k)) as [b|] eqn:E4; [|discriminate].
    inversion Hv. subst v. exists nb, x, a, b. repeat split; auto.
  - destruct (Hpass (d_ p + 1) ltac:(lia)) as [[cur nxt] Ecur].
    rewrite Ecur. simpl.
    rewrite compute_unfold, built_resolved_size in Er by auto.
    rewrite Ecur in Er. exact Er.
Qed.
End BlurPass.

(** ** compute: what the blur reads for a neighbour that is not there *)

Section SentinelSlot.
Context {F : Type} {FA : FloatArith F} {FM : Fresh F}.

(** C7: on a lattice built by [init], for an input range within the
    points and sizes [(M_+2)*value_size] and [N*value_size] of type [int],
    splatting and the [j] passes before the pass along axis [j] run
    through, and the buffer that this pass reads holds zero in slot 0, in
    every channel; a neighbour that is not present (stored index -1, slot 0
    after the shift) therefore puts exactly zero into the blurred value. *)
Theorem sentinel_slot_reads_zero (stray : Z -> Z) (feature : list F)
    (feature_size N : Z) (p : Permutohedral F) (inp : list F)
    (value_size in_offset in_size j : Z) :
  init stray feature feature_size N = Some p ->
  0 <= value_size ->
  (M_ p + 2) * value_size <= 2147483647 -> N * value_size <= 2147483647 ->
  0 <= in_offset <= N ->
  in_offset + resolve_size N in_offset in_size <= N ->
  resolve_size N in_offset in_size * value_size <= len inp ->
  0 <= j <= d_ p ->
  exists values new_values,
    blurred p inp value_size in_offset in_size j = Some (values, new_values) /\
    (forall k, 0 <= k < value_size -> rd values k = Some f_zero) /\
    (forall i k nb, 0 <= i < M_ p -> 0 <= k < value_size ->
       table (blur_neighbors_ p) (j * M_ p + i) = Some nb ->
       (n1 nb = -1 -> rd values ((n1 nb + 1) * value_size + k) = Some f_zero) /\
       (n2 nb = -1 -> rd values ((n2 nb + 1) * value_size + k) = Some f_zero)).
Proof.
  intros Hinit Hvs0 HintM HintN Hio Hin Hinp Hj.
  apply init_built in Hinit. destruct Hinit as (Hb & _ & HN0). subst N.
  destruct (blurred_total p inp value_size in_offset in_size j Hb)
    as (values & new_values & E & _); auto; try lia.
  exists values, new_values. split; [exact E|].
  pose proof (built_M p Hb) as HM.
  destruct (built_offset p Hb) as (o & Ho & Hlo & Hro).
  assert (Hoff : forall i x, table (offset_ p) i = Some x -> 0 <= x).
  { intros i x Hx. unfold table in Hx. rewrite Ho in Hx.
    pose proof (rd_range _ _ _ Hx) as Hi. rewrite Hlo in Hi.
    destruct (Hro i Hi) as [y [Hy1 Hy2]]. rewrite Hx in Hy1. inversion Hy1. lia. }
  open_blurred E.
  destruct (alloc ((M_ p + 2) * value_size) (fresh_float 0)) as [v0|] eqn:A; [|discriminate].
  destruct (alloc ((M_ p + 2) * value_size) (fresh_float 1)) as [w0|] eqn:A'; [|discriminate].
  apply alloc_len in A, A'. destruct A as [Hl0 Hn], A' as [Hl0' _].
  assert (Hvs : 0 <= value_size) by nia.
  rewrite zero_scratch_spec in E by auto.
  set (zeros := repeat f_zero (Z.to_nat ((M_ p + 2) * value_size))) in E.
  assert (Hz : forall k, 0 <= k < value_size -> rd zeros k = Some f_zero).
  { intros k Hk. apply rd_repeat. nia. }
  destruct (splat _ _ _ _ _ zeros) as [v1|] eqn:Es; [|discriminate].
  apply splat_keeps_low_slots in Es; auto. destruct Es as [_ Hs].
  assert (Hboth :
    (forall k, 0 <= k < value_size -> rd values k = Some f_zero) /\
    (forall k, 0 <= k < value_size -> rd new_values k = Some f_zero)).
  { unfold blur_passes in E.
    apply (for_upto_inv_some
      (fun _ (t : list F * list F) =>
         (forall k, 0 <= k < value_size -> rd (fst t) k = Some f_zero) /\
         (forall k, 0 <= k < value_size -> rd (snd t) k = Some f_zero))
      0 j _ _ (values, new_values) E ltac:(lia)).
    - simpl. split; auto. intros k Hk. rewrite Hs by lia. auto.
    - intros a [t1 t2] [u1 u2] Ha [H1 H2] Hpass. simpl in *.
      apply blur_axis_spec in Hpass; auto.
      destruct Hpass as (Hn' & _ & _ & Hrest). subst u2. split; auto.
      intros k Hk. rewrite Hrest by nia. auto. }
  destruct Hboth as [Hv _]. split; auto.
  intros i k nb Hi Hk _. split; intros ->; apply Hv; lia.
Qed.
End SentinelSlot.

(** ** compute: an output range *)

Section RangeProps.
Context {F : Type} {FA : FloatArith F} {FM : Fresh F}.

Lemma blurred_value_size (p : Permutohedral F) (inp : list F)
    (value_size in_offset in_size j : Z) (st : list F * list F) :
  0 <= M_ p ->
  blurred p inp value_size in_offset in_size j = Some st -> 0 <= value_size.
Proof.
  intros HM E. open_blurred E.
  destruct (alloc ((M_ p + 2) * value_size) (fresh_float 0)) as [v0|] eqn:A; [|discriminate].
  apply alloc_len in A. nia.
Qed.

(** C5: on a lattice built by [init], with ranges within the points,
    arrays that hold them and sizes [(M_+2)*value_size] and [N*value_size]
    of type [int], a call of [compute] whose output range is the
    [out_size] points from [out_offset] on and the call over the full output
    range (same input, same input range) both return, and the first leaves
    in slot [i] of its output, in every channel, the value that the second
    leaves in the slot of point [out_offset + i]. *)
Theorem compute_output_range_matches_full (stray : Z -> Z) (feature : list F)
    (feature_size N : Z) (p : Permutohedral F) (out out_full inp : list F)
    (value_size in_offset in_size out_offset out_size : Z) :
  init stray feature feature_size N = Some p ->
  0 <= value_size ->
  (M_ p + 2) * value_size <= 2147483647 -> N * value_size <= 2147483647 ->
  0 <= in_offset <= N ->
  in_offset + resolve_size N in_offset in_size <= N ->
  resolve_size N in_offset in_size * value_size <= len inp ->
  0 <= out_offset -> 0 <= out_size -> out_offset + out_size <= N ->
  out_size * value_size <= len out -> N * value_size <= len out_full ->
  exists res res_full,
    compute p out inp value_size in_offset out_offset in_size out_size = Some res /\
    compute p out_full inp value_size in_offset 0 in_size (-1) = Some res_full /\
    forall i k, 0 <= i < out_size -> 0 <= k < value_size ->
      exists v, rd res (i * value_size + k) = Some v /\
                rd res_full ((out_offset + i) * value_size + k) = Some v.
Proof.
  intros Hinit Hvs0 HintM HintN Hio Hin Hinp Hoo Hos Hfit Hlo Hlf.
  apply init_built in Hinit. destruct Hinit as (Hb & _ & HN). subst N.
  pose proof (built_M p Hb) as HM. pose proof (built_d p Hb) as Hd.
  assert (Hsz : resolve_size (N_ p) out_offset out_size = out_size).
  { unfold resolve_size. destruct (Z.eqb_spec out_size (-1)); lia. }
  assert (Hall : resolve_size (N_ p) 0 (-1) = N_ p).
  { unfold resolve_size. simpl. lia. }
  pose proof (built_N p Hb) as HN.
  destruct (compute_total p out inp value_size in_offset out_offset in_size out_size)
    as [res E]; auto; try (rewrite Hsz; lia); try lia.
  destruct (compute_total p out_full inp value_size in_offset 0 in_size (-1))
    as [res_full Efull]; auto; try (rewrite Hall; lia); try lia.
  exists res, res_full. split; [exact E|]. split; [exact Efull|].
  intros i k Hi Hk.
  rewrite compute_unfold, built_resolved_size in E, Efull by (auto; lia).
  destruct (blurred p inp value_size in_offset in_size (d_ p + 1))
    as [[values scratch]|] eqn:Eb; [|discriminate].
  apply slice_spec in E; try lia. apply slice_spec in Efull; try lia.
  destruct E as (_ & Hrow & _). destruct Efull as (_ & Hfull & _).
  rewrite Hsz in Hrow. rewrite Hall in Hfull.
  destruct (Hrow i k Hi Hk) as (v & Hv & Hrd).
  destruct (Hfull (out_offset + i) k ltac:(lia) Hk) as (v' & Hv' & Hrd').
  rewrite Z.add_0_l in Hv'. assert (v' = v) by congruence. subst v'.
  exists v. split; assumption.
Qed.
End RangeProps.

(** ** Determinism *)

Lemma rd_firstn {A} (n : nat) (a : list A) (i : Z) :
  rd (firstn n a) i = if i <? Z.of_nat n then rd a i else None.
Proof.
  unfold rd. destruct (Z.ltb_spec i 0).
  - destruct (i <? Z.of_nat n); reflexivity.
  - destruct (Z.ltb_spec i (Z.of_nat n)).
    + rewrite nth_error_firstn.
      destruct (Nat.ltb_spec (Z.to_nat i) n); [reflexivity|lia].
    + apply nth_error_None. rewrite length_firstn. lia.
Qed.

Lemma both_bind {S1 S2 T1 T2} (R : S1 -> S2 -> Prop) (Q : T1 -> T2 -> Prop)
    (x : option S1) (y : option S2) (f : S1 -> option T1) (g : S2 -> option T2) :
  both R x y ->
  (forall a b, R a b -> both Q (f a) (g b)) ->
  both Q (a <- x ;; f a) (b <- y ;; g b).
Proof.
  intros Hxy Hfg. destruct x as [a|], y as [b|]; simpl in *; try contradiction; auto.
Qed.

Lemma both_eq {S1} (x y : option S1) : both eq x y -> x = y.
Proof. destruct x, y; simpl; intros H; try contradiction; congruence. Qed.

Lemma both_impl {S1 S2} (R Q : S1 -> S2 -> Prop) (x : option S1) (y : option S2) :
  (forall a b, R a b -> Q a b) -> both R x y -> both Q x y.
Proof. intros H. destruct x, y; simpl; auto. Qed.

(** Two runs of a loop from states related by [R lo]: when every
    iteration takes states related by [R i] to states related by [R (i+1)],
    or fails in both runs, the runs fail together or end in states related
    by [R hi]. *)
Lemma for_upto_rel {St T} (R : Z -> St -> T -> Prop) (lo hi : Z)
    (body1 : Z -> St -> option St) (body2 : Z -> T -> option T) (s : St) (t : T) :
  lo <= hi -> R lo s t ->
  (forall i a b, lo <= i < hi -> R i a b -> both (R (i + 1)) (body1 i a) (body2 i b)) ->
  both (R hi) (for_upto lo hi body1 s) (for_upto lo hi body2 t).
Proof.
  unfold for_upto. remember (Z.to_nat (hi - lo)) as n eqn:En.
  revert lo s t En. induction n as [|n IH]; intros lo s t En Hle H0 Hstep; simpl.
  - assert (hi = lo) by lia. subst hi. exact H0.
  - pose proof (Hstep lo s t ltac:(lia) H0) as Hb. unfold both in Hb.
    destruct (body1 lo s) as [a|], (body2 lo t) as [b|]; try contradiction; simpl; auto.
    apply IH; [lia|lia|auto|]. intros i x y Hi. apply Hstep. lia.
Qed.

Lemma for_downto_rel {St T} (R : Z -> St -> T -> Prop) (hi lo : Z)
    (body1 : Z -> St -> option St) (body2 : Z -> T -> option T) (s : St) (t : T) :
  lo <= hi -> R hi s t ->
  (forall i a b, lo < i <= hi -> R i a b -> both (R (i - 1)) (body1 i a) (body2 i b)) ->
  both (R lo) (for_downto hi lo body1 s) (for_downto hi lo body2 t).
Proof.
  unfold for_downto. remember (Z.to_nat (hi - lo)) as n eqn:En.
  revert hi s t En. induction n as [|n IH]; intros hi s t En Hle H0 Hstep; simpl.
  - assert (hi = lo) by lia. subst hi. exact H0.
  - pose proof (Hstep hi s t ltac:(lia) H0) as Hb. unfold both in Hb.
    destruct (body1 hi s) as [a|], (body2 hi t) as [b|]; try contradiction; simpl; auto.
    apply IH; [lia|lia|auto|]. intros i x y Hi. apply Hstep. lia.
Qed.

(** *** Arrays that are alike on a range *)

Lemma wr_both_len {A} (a b : list A) (i : Z) (v w : A) :
  len a = len b ->
  both (fun a' b' => len a' = len a /\ len b' = len b /\
                     rd a' i = Some v /\ rd b' i = Some w /\
                     forall idx, idx <> i -> rd a' idx = rd a idx /\ rd b' idx = rd b idx)
    (wr a i v) (wr b i w).
Proof.
  intros Hl. unfold both.
  destruct (wr a i v) as [a'|] eqn:Ea; destruct (wr b i w) as [b'|] eqn:Eb.
  - split; [apply (wr_len _ _ _ _ Ea)|]. split; [apply (wr_len _ _ _ _ Eb)|].
    split; [apply (rd_wr_same _ _ _ _ Ea)|]. split; [apply (rd_wr_same _ _ _ _ Eb)|].
    intros idx Hne. split; [apply (rd_wr_other _ _ _ _ _ Ea)|apply (rd_wr_other _ _ _ _ _ Eb)];
      auto.
  - apply wr_range in Ea. rewrite Hl in Ea.
    destruct (wr_some b i w Ea) as [? ?]. congruence.
  - apply wr_range in Eb. rewrite <- Hl in Eb.
    destruct (wr_some a i v Eb) as [? ?]. congruence.
  - exact I.
Qed.

(** Writing the same value at the same index: the arrays are alike on
    every range that the range they were alike on and the index cover. *)
Lemma alike_wr {A} (lo hi lo' hi' : Z) (a b : list A) (i : Z) (v : A) :
  alike lo hi a b ->
  (forall idx, lo' <= idx < hi' -> idx = i \/ lo <= idx < hi) ->
  both (alike lo' hi') (wr a i v) (wr b i v).
Proof.
  intros [Hl Hag] Hcover.
  eapply both_impl; [|apply (wr_both_len a b i v v Hl)].
  intros a' b' H. cbv beta in H. destruct H as (L1 & L2 & R1 & R2 & Hrest).
  split; [congruence|]. intros idx Hidx.
  destruct (Z.eq_dec idx i) as [->|Hne]; [congruence|].
  destruct (Hrest idx Hne) as [-> ->]. apply Hag.
  destruct (Hcover idx Hidx); [contradiction|assumption].
Qed.

(** Writing at an index outside the range. *)
Lemma alike_wr_outside {A} (lo hi : Z) (a b : list A) (i : Z) (v w : A) :
  alike lo hi a b -> ~ (lo <= i < hi) ->
  both (alike lo hi) (wr a i v) (wr b i w).
Proof.
  intros [Hl Hag] Hout.
  eapply both_impl; [|apply (wr_both_len a b i v w Hl)].
  intros a' b' H. cbv beta in H. destruct H as (L1 & L2 & R1 & R2 & Hrest).
  split; [congruence|]. intros idx Hidx.
  destruct (Hrest idx ltac:(lia)) as [-> ->]. now apply Hag.
Qed.

Lemma alike_start {A} (lo hi : Z) (a b : list A) :
  hi <= lo -> len a = len b -> alike lo hi a b.
Proof. intros Hle Hl. split; auto. intros idx Hidx. lia. Qed.

Lemma alike_eq {A} (n : Z) (a b : list A) :
  alike 0 n a b -> len a = n -> a = b.
Proof.
  intros [Hl Hag] Hn. apply rd_ext. intros i.
  destruct (Z_lt_ge_dec i 0) as [Hneg|Hpos].
  - unfold rd. destruct (Z.ltb_spec i 0); [reflexivity|lia].
  - destruct (Z_lt_ge_dec i n) as [Hin|Hout].
    + apply Hag. lia.
    + rewrite !rd_none; auto; lia.
Qed.

Lemma alike_firstn {A} (d : Z) (a b : list A) :
  alike 0 d a b -> firstn (Z.to_nat d) a = firstn (Z.to_nat d) b.
Proof.
  intros [Hl Hag]. apply rd_ext. intros i. rewrite !rd_firstn.
  destruct (Z.ltb_spec i (Z.of_nat (Z.to_nat d))); auto.
  destruct (Z_lt_ge_dec i 0) as [Hneg|Hpos].
  - unfold rd. destruct (Z.ltb_spec i 0); [reflexivity|lia].
  - apply Hag. lia.
Qed.

Lemma alloc_both {A} (n : Z) (first1 first2 : Z -> A) :
  both (fun a b => len a = n /\ len b = n) (alloc n first1) (alloc n first2).
Proof.
  unfold alloc. destruct (Z.ltb_spec n 0); simpl; auto.
  unfold len. rewrite !length_map, !length_seq. lia.
Qed.

Lemma both_alike_eq {A} (n : Z) (x y : option (list A)) :
  both (fun a b => alike 0 n a b /\ len a = n) x y -> x = y.
Proof.
  destruct x as [a|], y as [b|]; simpl; intros H; try contradiction; auto.
  destruct H as [Hal Hl]. f_equal. now apply (alike_eq n).
Qed.

Lemma alike_wr_next {A} (n i : Z) (a b : list A) (v : A) :
  alike 0 i a b /\ len a = n ->
  both (fun a' b' => alike 0 (i + 1) a' b' /\ len a' = n) (wr a i v) (wr b i v).
Proof.
  intros [Hab Hl].
  pose proof (alike_wr 0 i 0 (i + 1) a b i v Hab ltac:(intros; lia)) as Hw.
  destruct (wr a i v) as [a'|] eqn:Ea, (wr b i v) as [b'|]; simpl in *; auto.
  split; auto. rewrite (wr_len _ _ _ _ Ea). exact Hl.
Qed.

(** A loop that writes one cell after the other fills an array whatever
    it held. *)
Lemma fill_loop_fresh {A} (n : Z) (v : Z -> A) (a b : list A) :
  0 <= n -> len a = n -> len b = n ->
  for_upto 0 n (fun i a => wr a i (v i)) a = for_upto 0 n (fun i a => wr a i (v i)) b.
Proof.
  intros Hn Ha Hb. apply (both_alike_eq n).
  apply (for_upto_rel (fun i a' b' => alike 0 i a' b' /\ len a' = n)); auto.
  - split; auto. apply alike_start; lia.
  - intros i x y Hi Hxy. now apply alike_wr_next.
Qed.

Lemma alike_upto {A} (lo hi hi' : Z) (a b : list A) :
  hi' = hi -> alike lo hi a b -> alike lo hi' a b.
Proof. now intros ->. Qed.

Lemma both_alike_pair_eq {A B} (n : Z) (x y : option (list A * B)) :
  both (fun s t => (alike 0 n (fst s) (fst t) /\ len (fst s) = n) /\ snd s = snd t) x y ->
  x = y.
Proof.
  destruct x as [[a u]|], y as [[b w]|]; simpl; intros H; try contradiction; auto.
  destruct H as [[Hal Hl] ->]. f_equal. f_equal. now apply (alike_eq n).
Qed.

Lemma for_upto_len {A} (lo hi : Z) (body : Z -> list A -> option (list A)) (a a' : list A) :
  (forall i t t', lo <= i < hi -> body i t = Some t' -> len t' = len t) ->
  lo <= hi ->
  for_upto lo hi body a = Some a' -> len a' = len a.
Proof.
  intros Hbody Hle E.
  apply (for_upto_inv_some (fun _ t => len t = len a) lo hi _ _ _ E Hle); auto.
  intros i t t' Hi Ht Hb. rewrite (Hbody i t t' Hi Hb). exact Ht.
Qed.

(** *** The stages of [init] overwrite the arrays they are handed *)

Section FreshProps.
Context {F : Type} {FA : FloatArith F}.

Lemma canonical_simplex_fresh (d : Z) (c1 c2 : list Z) :
  0 <= d -> len c1 = (d + 1) * (d + 1) -> len c2 = (d + 1) * (d + 1) ->
  canonical_simplex d c1 = canonical_simplex d c2.
Proof.
  intros Hd H1 H2. apply (both_alike_eq ((d + 1) * (d + 1))).
  unfold canonical_simplex.
  apply (for_upto_rel
    (fun i a b => alike 0 (i * (d + 1)) a b /\ len a = (d + 1) * (d + 1))); [lia| |].
  { split; auto. apply alike_start; lia. }
  intros i a b Hi Hab.
  apply (both_bind
    (fun a b => alike 0 (i * (d + 1) + (d - i + 1)) a b /\ len a = (d + 1) * (d + 1))).
  - apply (for_upto_rel
      (fun j a b => alike 0 (i * (d + 1) + j) a b /\ len a = (d + 1) * (d + 1))); [lia| |].
    + destruct Hab as [Hab Hl]. split; auto. apply (alike_upto _ (i * (d + 1))); [lia|auto].
    + intros j x y Hj Hxy.
      eapply both_impl; [|apply (alike_wr_next _ _ _ _ _ Hxy)].
      intros x' y' [Hal Hl]. split; auto.
      apply (alike_upto _ (i * (d + 1) + j + 1)); [lia|auto].
  - intros a' b' Hab'.
    eapply both_impl;
      [|apply (for_upto_rel
          (fun j a b => alike 0 (i * (d + 1) + j) a b /\ len a = (d + 1) * (d + 1)));
        [lia|exact Hab'|]].
    + intros x y [Hal Hl]. split; auto.
      apply (alike_upto _ (i * (d + 1) + (d + 1))); [lia|auto].
    + intros j x y Hj Hxy.
      eapply both_impl; [|apply (alike_wr_next _ _ _ _ _ Hxy)].
      intros x' y' [Hal Hl]. split; auto.
      apply (alike_upto _ (i * (d + 1) + j + 1)); [lia|auto].
Qed.

Lemma scale_factors_fresh (d : Z) (s1 s2 : list F) :
  0 <= d -> len s1 = d -> len s2 = d ->
  scale_factors d s1 = scale_factors d s2.
Proof.
  intros Hd H1 H2. unfold scale_factors.
  apply (fill_loop_fresh d
    (fun i => f_mul (f_div f_one
                       (f_sqrt (f_mul (f_add (f_of_int i) (f_of_int 2))
                                      (f_add (f_of_int i) (f_of_int 1)))))
                    (f_mul (f_sqrt (f_div (f_of_int 2) (f_of_int 3))) (f_of_int (d + 1)))));
    auto.
Qed.

Lemma elevate_fresh (d : Z) (feature scale_factor : list F) (k : Z) (e1 e2 : list F) :
  0 <= d -> len e1 = d + 1 -> len e2 = d + 1 ->
  elevate d feature scale_factor k e1 = elevate d feature scale_factor k e2.
Proof.
  intros Hd H1 H2. apply (both_alike_eq (d + 1)). unfold elevate.
  apply (both_bind (fun s t : list F * F =>
           (alike 1 (d + 1) (fst s) (fst t) /\ len (fst s) = d + 1) /\ snd s = snd t)).
  - eapply both_impl;
      [|apply (for_downto_rel
          (fun j (s t : list F * F) =>
             (alike (j + 1) (d + 1) (fst s) (fst t) /\ len (fst s) = d + 1) /\
             snd s = snd t)); [exact Hd| |]].
    + intros s t H. exact H.
    + simpl. split; [split; [apply alike_start; [lia|congruence]|exact H1]|reflexivity].
    + intros j [x sx] [y sy] Hj [[Hxy Hl] Hs]. simpl in Hxy, Hl, Hs. subst sy.
      destruct (rd feature (k * d + (j - 1))) as [fj|]; [|exact I].
      destruct (rd scale_factor (j - 1)) as [sj|]; [|exact I].
      pose proof (alike_wr (j + 1) (d + 1) j (d + 1) x y j
                    (f_sub sx (f_mul (f_of_int j) (f_mul fj sj))) Hxy
                    ltac:(intros; lia)) as Hw.
      destruct (wr x j _) as [x'|] eqn:Ex, (wr y j _) as [y'|]; simpl in *; auto.
      repeat split; auto.
      * replace (j - 1 + 1) with j by lia. apply Hw.
      * replace (j - 1 + 1) with j by lia. apply Hw.
      * rewrite (wr_len _ _ _ _ Ex). exact Hl.
  - intros [x sx] [y sy] [[Hxy Hl] Hs]. simpl in Hxy, Hl, Hs. subst sy.
    pose proof (alike_wr 1 (d + 1) 0 (d + 1) x y 0 sx Hxy ltac:(intros; lia)) as Hw.
    destruct (wr x 0 sx) as [x'|] eqn:Ex, (wr y 0 sx) as [y'|]; simpl in *; auto.
    split; auto. rewrite (wr_len _ _ _ _ Ex). exact Hl.
Qed.

Lemma round_to_cell_fresh (d : Z) (elevated r1 r2 : list F) :
  0 <= d -> len r1 = d + 1 -> len r2 = d + 1 ->
  round_to_cell d elevated r1 = round_to_cell d elevated r2.
Proof.
  intros Hd H1 H2. apply (both_alike_pair_eq (d + 1)). unfold round_to_cell.
  apply (for_upto_rel
    (fun i (s t : list F * Z) =>
       (alike 0 i (fst s) (fst t) /\ len (fst s) = d + 1) /\ snd s = snd t)); [lia| |].
  - simpl. split; [split; [apply alike_start; [lia|congruence]|exact H1]|reflexivity].
  - intros i [x sx] [y sy] Hi [Hxy Hs]. simpl in Hxy, Hs. subst sy.
    destruct (rd elevated i) as [e|]; [|exact I].
    destruct (f_round _) as [z|]; [|exact I].
    pose proof (alike_wr_next (d + 1) i x y (f_mul (f_of_int z) (up_factor d)) Hxy) as Hw.
    destruct (wr x i _) as [x'|], (wr y i _) as [y'|]; simpl in *; try contradiction; auto.
    destruct (int_add sx z); simpl; auto.
Qed.

Lemma rank_residuals_fresh (d : Z) (elevated rem0 : list F) (r1 r2 : list Z) :
  0 <= d -> len r1 = d + 1 -> len r2 = d + 1 ->
  rank_residuals d elevated rem0 r1 = rank_residuals d elevated rem0 r2.
Proof.
  intros Hd H1 H2. unfold rank_residuals.
  rewrite (fill_loop_fresh (d + 1) (fun _ => 0) r1 r2) by (auto; lia). reflexivity.
Qed.

Lemma barycentric_coords_fresh (d : Z) (elevated rem0 : list F) (rank : list Z)
    (b1 b2 : list F) :
  0 <= d -> len b1 = d + 2 -> len b2 = d + 2 ->
  barycentric_coords d elevated rem0 rank b1 = barycentric_coords d elevated rem0 rank b2.
Proof.
  intros Hd H1 H2. unfold barycentric_coords.
  rewrite (fill_loop_fresh (d + 2) (fun _ => f_zero) b1 b2) by (auto; lia). reflexivity.
Qed.
End FreshProps.

(** *** The stages keep the sizes of the arrays *)

Section LengthProps.
Context {F : Type} {FA : FloatArith F}.

Lemma elevate_len (d : Z) (feature scale_factor : list F) (k : Z) (e e' : list F) :
  0 <= d -> elevate d feature scale_factor k e = Some e' -> len e' = len e.
Proof.
  intros Hd E. unfold elevate in E.
  match type of E with
  | match for_downto ?hi ?lo ?body ?s with _ => _ end = _ =>
      destruct (for_downto hi lo body s) as [[el sm]|] eqn:E1; [|discriminate]
  end.
  rewrite (wr_len _ _ _ _ E).
  apply (for_downto_inv_some (fun _ (t : list F * F) => len (fst t) = len e)
           d 0 _ _ _ E1 Hd); auto.
  intros j [t s0] [t' s'] Hj Ht Hb. simpl in *.
  destruct (rd feature _); [|discriminate]. destruct (rd scale_factor _); [|discriminate].
  destruct (wr t j _) as [t1|] eqn:Hw; [|discriminate].
  inversion Hb. subst. rewrite (wr_len _ _ _ _ Hw). exact Ht.
Qed.

Lemma round_to_cell_len (d : Z) (elevated r r' : list F) (sum : Z) :
  0 <= d -> round_to_cell d elevated r = Some (r', sum) -> len r' = len r.
Proof.
  intros Hd E. unfold round_to_cell in E.
  apply (for_upto_inv_some (fun _ (t : list F * Z) => len (fst t) = len r)
           0 (d + 1) _ _ _ E ltac:(lia)); auto.
  intros i [t s0] [t' s'] Hi Ht Hb. simpl in *.
  destruct (rd elevated i); [|discriminate]. destruct (f_round _); [|discriminate].
  destruct (wr t i _) as [t1|] eqn:Hw; [|discriminate].
  destruct (int_add s0 _); [|discriminate].
  inversion Hb. subst. rewrite (wr_len _ _ _ _ Hw). exact Ht.
Qed.

Lemma rank_residuals_len (d : Z) (elevated rem0 : list F) (r r' : list Z) :
  0 <= d -> rank_residuals d elevated rem0 r = Some r' -> len r' = len r.
Proof.
  intros Hd E. unfold rank_residuals in E.
  match type of E with
  | match for_upto ?lo ?hi ?body ?s with _ => _ end = _ =>
      destruct (for_upto lo hi body s) as [z|] eqn:Ez; [|discriminate]
  end.
  apply for_upto_len in Ez; [|intros i t t' _ Hw; apply (wr_len _ _ _ _ Hw)|lia].
  rewrite <- Ez. revert E. apply for_upto_len; [|exact Hd].
  intros i t t' Hi Hb.
  destruct (rd elevated i); [|discriminate]. destruct (rd rem0 i); [|discriminate].
  revert Hb. apply for_upto_len; [|lia].
  intros j u u' Hj Hb.
  destruct (rd elevated j); [|discriminate]. destruct (rd rem0 j); [|discriminate].
  destruct (f_lt _ _).
  - destruct (rd u i); [|discriminate]. apply (wr_len _ _ _ _ Hb).
  - destruct (rd u j); [|discriminate]. apply (wr_len _ _ _ _ Hb).
Qed.

Lemma plane_correct_len (d sum : Z) (rank rank' : list Z) (rem0 rem0' : list F) :
  0 <= d -> plane_correct d sum rank rem0 = Some (rank', rem0') ->
  len rank' = len rank /\ len rem0' = len rem0.
Proof.
  intros Hd E. unfold plane_correct in E.
  apply (for_upto_inv_some
    (fun _ (t : list Z * list F) => len (fst t) = len rank /\ len (snd t) = len rem0)
    0 (d + 1) _ _ _ E ltac:(lia)); auto.
  intros i [rk r0] [rk' r0'] Hi [H1 H2] Hb. cbn [fst snd] in *.
  destruct (rd rk i); [|discriminate]. destruct (int_add _ _); [|discriminate].
  destruct (wr rk i _) as [rk1|] eqn:W1; [|discriminate].
  destruct (rd rk1 i) as [x|]; [|discriminate].
  pose proof (wr_len _ _ _ _ W1) as L1.
  destruct (x <? 0).
  - destruct (wr rk1 i _) as [rk2|] eqn:W2; [|discriminate].
    destruct (rd r0 i); [|discriminate].
    destruct (wr r0 i _) as [r1|] eqn:W3; [|discriminate].
    inversion Hb. subst. rewrite (wr_len _ _ _ _ W2), (wr_len _ _ _ _ W3). split; congruence.
  - destruct (x >? d).
    + destruct (wr rk1 i _) as [rk2|] eqn:W2; [|discriminate].
      destruct (rd r0 i); [|discriminate].
      destruct (wr r0 i _) as [r1|] eqn:W3; [|discriminate].
      inversion Hb. subst. rewrite (wr_len _ _ _ _ W2), (wr_len _ _ _ _ W3).
      split; congruence.
    + inversion Hb. subst. split; congruence.
Qed.

Lemma barycentric_coords_len (d : Z) (elevated rem0 : list F) (rank : list Z)
    (b b' : list F) :
  0 <= d -> barycentric_coords d elevated rem0 rank b = Some b' -> len b' = len b.
Proof.
  intros Hd E. unfold barycentric_coords in E.
  match type of E with
  | match for_upto ?lo ?hi ?body ?s with _ => _ end = _ =>
      destruct (for_upto lo hi body s) as [b1|] eqn:E1; [|discriminate]
  end.
  apply for_upto_len in E1; [|intros i t t' _ Hw; apply (wr_len _ _ _ _ Hw)|lia].
  match type of E with
  | match for_upto ?lo ?hi ?body ?s with _ => _ end = _ =>
      destruct (for_upto lo hi body s) as [b2|] eqn:E2; [|discriminate]
  end.
  apply for_upto_len in E2; [| |lia].
  - destruct (rd b2 0); [|discriminate]. destruct (rd b2 (d + 1)); [|discriminate].
    rewrite (wr_len _ _ _ _ E). congruence.
  - intros i t t' Hi Hb.
    destruct (rd elevated i); [|discriminate]. destruct (rd rem0 i); [|discriminate].
    destruct (rd rank i); [|discriminate]. destruct (rd t _); [|discriminate].
    destruct (wr t _ _) as [t1|] eqn:W1; [|discriminate].
    destruct (rd t1 _); [|discriminate].
    rewrite (wr_len _ _ _ _ Hb). apply (wr_len _ _ _ _ W1).
Qed.
End LengthProps.

(** *** The loops of [init] in two runs *)

Section BuildFresh.
Context {F : Type} {FA : FloatArith F}.

Lemma resolve_corners_fresh (d : Z) (canonical : list Z) (k : Z)
    (rem0 : list F) (rank : list Z) (barycentric : list F)
    (s t : HashTable * list Z * list Z * list F) :
  0 <= d -> same_corners d (k * (d + 1)) s t ->
  both (same_corners d ((k + 1) * (d + 1)))
    (resolve_corners d canonical k rem0 rank barycentric s)
    (resolve_corners d canonical k rem0 rank barycentric t).
Proof.
  intros Hd Hst. unfold resolve_corners.
  eapply both_impl;
    [|apply (for_upto_rel (fun r s t => same_corners d (k * (d + 1) + r) s t));
      [lia| |]].
  - intros [[[h1 key1] o1] b1] [[[h2 key2] o2] b2] (H1 & H2 & H3 & H4 & H5).
    refine (conj H1 (conj H2 (conj H3 (conj _ _))));
      apply (alike_upto _ (k * (d + 1) + (d + 1))); auto; lia.
  - destruct s as [[[h1 key1] o1] b1], t as [[[h2 key2] o2] b2].
    destruct Hst as (H1 & H2 & H3 & H4 & H5).
    refine (conj H1 (conj H2 (conj H3 (conj _ _))));
      apply (alike_upto _ (k * (d + 1))); auto; lia.
  - clear s t Hst.
    intros r [[[h1 key1] o1] b1] [[[h2 key2] o2] b2] Hr (H1 & H2 & H3 & H4 & H5).
    subst h2.
    apply (both_bind (alike 0 d)).
    { apply (for_upto_rel (fun i a b => alike 0 i a b)); [exact Hd| |].
      - apply alike_start; [lia|exact H3].
      - intros i x y Hi Hxy.
        destruct (rd rem0 i); [|exact I]. destruct (rd rank i); [|exact I].
        destruct (rd canonical _); [|exact I]. destruct (f_to_short _); [|exact I].
        apply (alike_wr 0 i); auto. intros; lia. }
    intros key1' key2' Hkey.
    rewrite (find_prefix h1 key1' key2' true) by (rewrite H2; now apply alike_firstn).
    destruct (find h1 key2' true) as [h' o] eqn:Hfind.
    apply find_create in Hfind. destruct Hfind as (Hks & _ & _).
    apply (both_bind (alike 0 (k * (d + 1) + (r + 1)))).
    { apply (alike_wr 0 (k * (d + 1) + r)); auto. intros; lia. }
    intros o1' o2' Ho.
    destruct (rd barycentric r) as [b|]; [|exact I].
    apply (both_bind (alike 0 (k * (d + 1) + (r + 1)))).
    { apply (alike_wr 0 (k * (d + 1) + r)); auto. intros; lia. }
    intros b1' b2' Hb. simpl.
    refine (conj eq_refl (conj _ (conj (proj1 Hkey) (conj Ho Hb)))). congruence.
Qed.

Lemma locate_fresh (d : Z) (feature scale_factor : list F) (canonical : list Z)
    (k : Z) (s t : Build F) :
  0 <= d -> same_build d k s t ->
  both (same_build d (k + 1))
    (locate d feature scale_factor canonical k s)
    (locate d feature scale_factor canonical k t).
Proof.
  intros Hd (H1 & H2 & H3 & H4 & [E1 E2] & [R1 R2] & [B1 B2] & [K1 K2] & H9).
  unfold locate.
  rewrite (elevate_fresh d feature scale_factor k _ _ Hd E1 E2).
  destruct (elevate d feature scale_factor k (s_elevated t)) as [el|] eqn:Eel; [|exact I].
  pose proof (elevate_len _ _ _ _ _ _ Hd Eel) as Lel.
  rewrite (round_to_cell_fresh d el _ _ Hd R1 R2).
  destruct (round_to_cell d el (s_rem0 t)) as [[r0 sum]|] eqn:Er; [|exact I].
  pose proof (round_to_cell_len _ _ _ _ _ Hd Er) as Lr.
  rewrite (rank_residuals_fresh d el r0 _ _ Hd K1 K2).
  destruct (rank_residuals d el r0 (s_rank t)) as [rk|] eqn:Ek; [|exact I].
  pose proof (rank_residuals_len _ _ _ _ _ Hd Ek) as Lk.
  destruct (plane_correct d sum rk r0) as [[rk' r0']|] eqn:Ep; [|exact I].
  destruct (plane_correct_len _ _ _ _ _ _ Hd Ep) as [Lk' Lr'].
  rewrite (barycentric_coords_fresh d el r0' rk' _ _ Hd B1 B2).
  destruct (barycentric_coords d el r0' rk' (s_barycentric t)) as [bc|] eqn:Eb; [|exact I].
  pose proof (barycentric_coords_len _ _ _ _ _ _ Hd Eb) as Lb.
  apply (both_bind (same_corners d ((k + 1) * (d + 1)))).
  { apply resolve_corners_fresh; auto.
    exact (conj H1 (conj H2 (conj H9 (conj H3 H4)))). }
  intros [[[h1 key1] o1] b1] [[[h2 key2] o2] b2] (C1 & C2 & C3 & C4 & C5).
  simpl.
  refine (conj C1 (conj C2 (conj C4 (conj C5 (conj (conj _ _)
            (conj (conj _ _) (conj (conj _ _) (conj (conj _ _) C3))))))));
    simpl; congruence.
Qed.

Lemma find_neighbors_fresh (stray1 stray2 : Z -> Z) (d M : Z) (h : HashTable)
    (s t : list Z * list Z * list Neighbors) :
  0 <= d -> 0 <= M -> key_size_ h = d -> same_axes 0 s t ->
  both (same_axes ((d + 1) * M))
    (find_neighbors stray1 d M h s) (find_neighbors stray2 d M h t).
Proof.
  intros Hd HM Hks Hst. unfold find_neighbors.
  apply (for_upto_rel (fun j s t => same_axes (j * M) s t)); [lia|exact Hst|].
  clear s t Hst. intros j s t Hj Hst.
  eapply both_impl;
    [|apply (for_upto_rel (fun i s t => same_axes (j * M + i) s t)); [exact HM| |]].
  - intros [[a1 b1] nbs1] [[a2 b2] nbs2] (X1 & X2 & X3).
    refine (conj X1 (conj X2 _)). apply (alike_upto _ (j * M + M)); auto; lia.
  - destruct s as [[a1 b1] nbs1], t as [[a2 b2] nbs2]. destruct Hst as (X1 & X2 & X3).
    refine (conj X1 (conj X2 _)). apply (alike_upto _ (j * M)); auto; lia.
  - clear s t Hst.
    intros i [[a1 b1] nbs1] [[a2 b2] nbs2] Hi (Ha & Hb & Hn). simpl in Ha, Hb, Hn.
    destruct (getKey h i) as [key|]; [|exact I].
    apply (both_bind (fun s t : list Z * list Z =>
                        alike 0 d (fst s) (fst t) /\ alike 0 d (snd s) (snd t))).
    { apply (for_upto_rel (fun k (s t : list Z * list Z) =>
               alike 0 k (fst s) (fst t) /\ alike 0 k (snd s) (snd t))); [exact Hd| |].
      - split; apply alike_start; auto; lia.
      - intros k [x1 y1] [x2 y2] Hk [Hx Hy]. simpl in Hx, Hy.
        destruct (rd key k) as [x|]; [|exact I].
        apply (both_bind (alike 0 (k + 1))).
        { apply (alike_wr 0 k); auto. intros; lia. }
        intros x1' x2' Hx'.
        apply (both_bind (alike 0 (k + 1))).
        { apply (alike_wr 0 k); auto. intros; lia. }
        intros y1' y2' Hy'. split; assumption. }
    intros [a3 b3] [a3' b3'] [Ha3 Hb3]. simpl in Ha3, Hb3.
    assert (Hfinish : forall v w,
      (j < d -> v = w) ->
      both (same_axes (j * M + (i + 1)))
        (n1_ <- wr a3 j (to_short (v + d)) ;;
         n2_ <- wr b3 j (to_short (v - d)) ;;
         blur_neighbors <-
           wr nbs1 (j * M + i)
              {| n1 := snd (find h n1_ false); n2 := snd (find h n2_ false) |} ;;
         Some (n1_, n2_, blur_neighbors))
        (n1_ <- wr a3' j (to_short (w + d)) ;;
         n2_ <- wr b3' j (to_short (w - d)) ;;
         blur_neighbors <-
           wr nbs2 (j * M + i)
              {| n1 := snd (find h n1_ false); n2 := snd (find h n2_ false) |} ;;
         Some (n1_, n2_, blur_neighbors))).
    { intros v w Hvw.
      apply (both_bind (alike 0 d)).
      { destruct (Z_lt_ge_dec j d) as [Hlt|Hge].
        - rewrite (Hvw Hlt). apply (alike_wr 0 d); auto.
        - apply alike_wr_outside; auto; lia. }
      intros a4 a4' Ha4.
      apply (both_bind (alike 0 d)).
      { destruct (Z_lt_ge_dec j d) as [Hlt|Hge].
        - rewrite (Hvw Hlt). apply (alike_wr 0 d); auto.
        - apply alike_wr_outside; auto; lia. }
      intros b4 b4' Hb4.
      rewrite (find_prefix h a4 a4') by (rewrite Hks; now apply alike_firstn).
      rewrite (find_prefix h b4 b4') by (rewrite Hks; now apply alike_firstn).
      apply (both_bind (alike 0 (j * M + (i + 1)))).
      { apply (alike_wr 0 (j * M + i)); auto. intros; lia. }
      intros n n' Hn'. simpl. exact (conj (proj1 Ha4) (conj (proj1 Hb4) Hn')). }
    destruct (Z.ltb_spec j d) as [Hlt|Hge].
    + destruct (rd key j) as [v|]; [|exact I]. apply Hfinish. auto.
    + apply Hfinish. intros; lia.
Qed.
End BuildFresh.

(** *** Two runs of [init] and [compute] *)

Section Determinism.
Context {F : Type} {FA : FloatArith F}.

(** [init] does not depend on what the arrays it allocates hold, nor on
    the shorts it reads past the keys. *)
Lemma init_fresh (m1 m2 : Fresh F) (stray1 stray2 : Z -> Z) (feature : list F)
    (feature_size N : Z) :
  init (FM:=m1) stray1 feature feature_size N
  = init (FM:=m2) stray2 feature feature_size N.
Proof.
  apply both_eq. rewrite !init_unfold.
  set (d := feature_size).
  destruct (int_add d 1); [|exact I].
  destruct (int_mul N (d + 1)); [|exact I].
  destruct (int_mul (d + 1) N); [|exact I].
  destruct (int_add d 2); [|exact I].
  destruct (int_mul (d + 1) (d + 1)); [|exact I].
  apply (both_bind _ _ _ _ _ _ (alloc_both _ _ _)). intros offset1 offset2 [Lo1 Lo2].
  apply (both_bind _ _ _ _ _ _ (alloc_both _ _ _)). intros bary1 bary2 [Lb1 Lb2].
  apply (both_bind _ _ _ _ _ _ (alloc_both _ _ _)). intros sf1 sf2 [Ls1 Ls2].
  apply (both_bind _ _ _ _ _ _ (alloc_both _ _ _)). intros el1 el2 [Le1 Le2].
  apply (both_bind _ _ _ _ _ _ (alloc_both _ _ _)). intros r1 r2 [Lr1 Lr2].
  apply (both_bind _ _ _ _ _ _ (alloc_both _ _ _)). intros bc1 bc2 [Lc1 Lc2].
  apply (both_bind _ _ _ _ _ _ (alloc_both _ _ _)). intros rk1 rk2 [Lk1 Lk2].
  apply (both_bind _ _ _ _ _ _ (alloc_both _ _ _)). intros cn1 cn2 [Ln1 Ln2].
  apply (both_bind _ _ _ _ _ _ (alloc_both _ _ _)). intros ky1 ky2 [Ly1 Ly2].
  assert (Hd : 0 <= d) by (pose proof (len_nonneg sf1); lia).
  assert (HN : 0 <= N) by (pose proof (len_nonneg offset1); nia).
  rewrite (canonical_simplex_fresh d cn1 cn2 Hd Ln1 Ln2).
  destruct (canonical_simplex d cn2) as [cn|]; [|exact I].
  rewrite (scale_factors_fresh d sf1 sf2 Hd Ls1 Ls2).
  destruct (scale_factors d sf2) as [sf|]; [|exact I].
  match goal with
  | |- both _ (match for_upto 0 N ?body ?s1 with _ => _ end)
              (match for_upto 0 N ?body ?s2 with _ => _ end) =>
      assert (Hloop : both (same_build d N) (for_upto 0 N body s1) (for_upto 0 N body s2));
      [|destruct (for_upto 0 N body s1) as [st1|] eqn:L1;
        destruct (for_upto 0 N body s2) as [st2|] eqn:L2;
        simpl in Hloop; try contradiction; [|exact I]]
  end.
  { apply (for_upto_rel (fun k => same_build d k)); [exact HN| |].
    - refine (conj eq_refl (conj eq_refl (conj _ (conj _ _)))); simpl;
        try (apply alike_start; [lia|congruence]).
      repeat split; congruence.
    - intros k a b Hk. now apply locate_fresh. }
  destruct Hloop as (H1 & H2 & H3 & H4 & _).
  apply locate_all_spec in L1, L2; auto. simpl in L1, L2.
  destruct L1 as (_ & Lo1' & Lb1' & _), L2 as (_ & Lo2' & Lb2' & _).
  assert (Eo : s_offset st1 = s_offset st2).
  { apply (alike_eq ((d + 1) * N)); [|congruence].
    apply (alike_upto _ (N * (d + 1))); [lia|exact H3]. }
  assert (Eb : s_bary st1 = s_bary st2).
  { apply (alike_eq ((d + 1) * N)); [|congruence].
    apply (alike_upto _ (N * (d + 1))); [lia|exact H4]. }
  rewrite <- H1.
  set (M := size (s_hash_table st1)).
  assert (HM : 0 <= M) by apply len_nonneg.
  destruct (int_mul (d + 1) M); [|exact I].
  apply (both_bind _ _ _ _ _ _ (alloc_both _ _ _)). intros nbs1 nbs2 [Lnb1 Lnb2].
  apply (both_bind _ _ _ _ _ _ (alloc_both _ _ _)). intros na1 na2 [La1 La2].
  apply (both_bind _ _ _ _ _ _ (alloc_both _ _ _)). intros nb1 nb2 [Lb1'' Lb2''].
  assert (Hnb : both (same_axes ((d + 1) * M))
                  (find_neighbors stray1 d M (s_hash_table st1) (na1, nb1, nbs1))
                  (find_neighbors stray2 d M (s_hash_table st1) (na2, nb2, nbs2))).
  { apply find_neighbors_fresh; auto.
    refine (conj _ (conj _ _)); simpl; try congruence.
    apply alike_start; [lia|congruence]. }
  destruct (find_neighbors stray1 d M (s_hash_table st1) (na1, nb1, nbs1))
    as [[[a1' b1'] n1']|] eqn:F1;
    destruct (find_neighbors stray2 d M (s_hash_table st1) (na2, nb2, nbs2))
      as [[[a2' b2'] n2']|] eqn:F2; simpl in Hnb; try contradiction; [|exact I].
  destruct Hnb as (_ & _ & Hn).
  apply find_neighbors_spec in F1; auto. destruct F1 as [Ln1' _].
  simpl. rewrite Eo, Eb. do 2 f_equal.
  apply (alike_eq ((d + 1) * M)); [exact Hn|congruence].
Qed.


End Determinism.

(** ** init: ranks *)

Lemma to_short_small (z : Z) : -32768 <= z <= 32767 -> to_short z = z.
Proof.
  intros H. unfold to_short. rewrite Z.mod_small; lia.
Qed.

Section RankProps.
Context {F : Type} {FA : FloatArith F} {FM : Fresh F}.

(** The pairwise comparisons count, for every coordinate, how many of the
    comparisons it is part of it loses: the ranks lie in [0, d]. *)
Lemma rank_residuals_within (d : Z) (elevated rem0 : list F) (rank0 : list Z) :
  0 <= d <= 32767 ->
  len elevated = d + 1 -> len rem0 = d + 1 -> len rank0 = d + 1 ->
  exists rank, rank_residuals d elevated rem0 rank0 = Some rank /\
               entries_within d 0 d rank.
Proof.
  intros Hd Hle Hlr Hl0. unfold rank_residuals.
  destruct (for_upto_inv
    (fun i t => len t = d + 1 /\ forall x, 0 <= x < i -> rd t x = Some 0)
    0 (d + 1) (fun i rank => wr rank i 0) rank0 ltac:(lia)) as (z & Ez & Hlz & Hz).
  { split; auto. intros x Hx. lia. }
  { intros i t Hi [Hl Ht]. destruct (wr_some t i 0) as [t' Ht']; [lia|].
    exists t'. split; auto. split; [rewrite (wr_len _ _ _ _ Ht'); auto|].
    intros x Hx. destruct (Z.eq_dec x i) as [->|Hne].
    - apply (rd_wr_same _ _ _ _ Ht').
    - rewrite (rd_wr_other _ _ _ _ _ Ht') by auto. apply Ht. lia. }
  rewrite Ez. clear Ez rank0 Hl0.
  match goal with
  | |- context [for_upto 0 d ?body z] =>
      destruct (for_upto_inv
        (fun i t => len t = d + 1 /\
           forall x, 0 <= x <= d ->
             exists r, rd t x = Some r /\ 0 <= r <= pairs_before d i x)
        0 d body z ltac:(lia)) as (rank & Er & Hlk & Hk);
        [| |exists rank; split; [exact Er|]]
  end.
  - split; auto. intros x Hx. exists 0. split; [apply Hz; lia|].
    unfold pairs_before. destruct (Z.ltb_spec x 0); lia.
  - intros i t Hi [Hl Ht].
    destruct (rd_some elevated i) as [ei Hei]; [lia|].
    destruct (rd_some rem0 i) as [ri Hri]; [lia|].
    rewrite Hei, Hri.
    destruct (for_upto_inv
      (fun j u => len u = d + 1 /\
         forall x, 0 <= x <= d ->
           exists r, rd u x = Some r /\
             0 <= r <= pairs_before d i x
                       + (if x =? i then j - (i + 1) else 0)
                       + (if (i <? x) && (x <? j) then 1 else 0))
      (i + 1) (d + 1)
      (fun j rank =>
         ej <- rd elevated j ;;
         rj <- rd rem0 j ;;
         if f_lt (f_sub ei ri) (f_sub ej rj)
         then x <- rd rank i ;; wr rank i (to_short (x + 1))
         else x <- rd rank j ;; wr rank j (to_short (x + 1)))
      t ltac:(lia)) as (u & Eu & Hlu & Hu).
    + split; auto. intros x Hx. destruct (Ht x Hx) as (r & Hr1 & Hr2).
      exists r. split; auto.
      destruct (Z.eqb_spec x i); destruct (Z.ltb_spec i x); destruct (Z.ltb_spec x (i + 1));
        simpl; lia.
    + intros j u Hj [Hlu Hu].
      destruct (rd_some elevated j) as [ej Hej]; [lia|].
      destruct (rd_some rem0 j) as [rj Hrj]; [lia|].
      rewrite Hej, Hrj.
      assert (Hstep : forall c, (c = i \/ c = j) ->
        exists u', (x <- rd u c ;; wr u c (to_short (x + 1))) = Some u' /\
          len u' = d + 1 /\
          forall x, 0 <= x <= d ->
            exists r, rd u' x = Some r /\
              0 <= r <= pairs_before d i x
                        + (if x =? i then j + 1 - (i + 1) else 0)
                        + (if (i <? x) && (x <? j + 1) then 1 else 0)).
      { intros c Hc. destruct (Hu c ltac:(lia)) as (r & Hr1 & Hr2). rewrite Hr1.
        assert (Hrd : r + 1 <= d).
        { unfold pairs_before in Hr2.
          destruct (Z.eqb_spec c i); destruct (Z.ltb_spec i c); destruct (Z.ltb_spec c j);
            destruct (Z.ltb_spec c i); simpl in Hr2; lia. }
        rewrite to_short_small by lia.
        destruct (wr_some u c (r + 1)) as [u' Hu']; [lia|].
        exists u'. split; auto. split; [rewrite (wr_len _ _ _ _ Hu'); auto|].
        intros x Hx. destruct (Z.eq_dec x c) as [->|Hne].
        - exists (r + 1). split; [apply (rd_wr_same _ _ _ _ Hu')|].
          unfold pairs_before in *.
          destruct (Z.eqb_spec c i); destruct (Z.ltb_spec i c); destruct (Z.ltb_spec c j);
            destruct (Z.ltb_spec c (j + 1)); destruct (Z.ltb_spec c i);
            simpl in *; lia.
        - destruct (Hu x Hx) as (r' & Hr1' & Hr2').
          exists r'. split; [rewrite (rd_wr_other _ _ _ _ _ Hu') by auto; auto|].
          destruct (Z.eqb_spec x i); destruct (Z.ltb_spec i x); destruct (Z.ltb_spec x j);
            destruct (Z.ltb_spec x (j + 1)); simpl in *; lia. }
      destruct (f_lt (f_sub ei ri) (f_sub ej rj)); apply Hstep; auto.
    + exists u. split; [exact Eu|]. split; auto.
      intros x Hx. destruct (Hu x Hx) as (r & Hr1 & Hr2).
      exists r. split; auto. unfold pairs_before in *.
      destruct (Z.eqb_spec x i); destruct (Z.ltb_spec i x); destruct (Z.ltb_spec x (d + 1));
        destruct (Z.ltb_spec x i); destruct (Z.ltb_spec x (i + 1)); simpl in *; lia.
  - split; auto. intros x Hx. destruct (Hk x Hx) as (r & Hr1 & Hr2).
    exists r. split; auto. unfold pairs_before in Hr2.
    destruct (Z.ltb_spec x d); lia.
Qed.
End RankProps.

Section PlaneProps.
Context {F : Type} {FA : FloatArith F} {FM : Fresh F}.

Lemma plane_correct_within (d sum : Z) (rank : list Z) (rem0 : list F) :
  0 <= d -> 2 * d + 1 <= 32767 ->
  - (d + 1) <= sum <= d + 1 ->
  len rem0 = d + 1 -> entries_within d 0 d rank ->
  exists rank' rem0', plane_correct d sum rank rem0 = Some (rank', rem0') /\
                      len rem0' = d + 1 /\ entries_within d 0 d rank'.
Proof.
  intros Hd Hs Hsum Hlr Hrk. unfold plane_correct.
  match goal with
  | |- context [for_upto 0 (d + 1) ?body ?s] =>
      destruct (for_upto_inv
        (fun _ (t : list Z * list F) =>
           len (snd t) = d + 1 /\ entries_within d 0 d (fst t))
        0 (d + 1) body s ltac:(lia)) as ([rank' rem0'] & E & Hl & Hw)
  end.
  - split; assumption.
  - intros i [rk r0] Hi [Hl [Hlk Hk]]. simpl in Hl, Hlk, Hk.
    destruct (Hk i ltac:(lia)) as (x & Hx & Hxr). rewrite Hx.
    rewrite int_add_small by lia. rewrite to_short_small by lia.
    destruct (wr_some rk i (x + sum)) as [rk1 Hw1]; [lia|]. rewrite Hw1.
    rewrite (rd_wr_same _ _ _ _ Hw1).
    pose proof (wr_len _ _ _ _ Hw1) as Hl1.
    destruct (rd_some r0 i) as [r Hr]; [lia|].
    assert (Hfin : forall v (r0' : list F),
      -32768 <= v <= 32767 -> 0 <= v <= d -> len r0' = d + 1 ->
      exists t', (rank <- wr rk1 i v ;; Some (rank, r0')) = Some t' /\
                 len (snd t') = d + 1 /\ entries_within d 0 d (fst t')).
    { intros v r0' Hv1 Hv2 Hl'.
      destruct (wr_some rk1 i v) as [rk2 Hw2]; [lia|]. rewrite Hw2.
      eexists. split; [reflexivity|]. simpl. split; auto. split.
      - rewrite (wr_len _ _ _ _ Hw2). lia.
      - intros z Hz. destruct (Z.eq_dec z i) as [->|Hne].
        + exists v. split; [apply (rd_wr_same _ _ _ _ Hw2)|lia].
        + rewrite (rd_wr_other _ _ _ _ _ Hw2), (rd_wr_other _ _ _ _ _ Hw1) by auto.
          apply Hk. exact Hz. }
    destruct (Z.ltb_spec (x + sum) 0) as [Hneg|Hpos].
    + rewrite to_short_small by lia.
      destruct (wr_some rk1 i (x + sum + (d + 1))) as [rk2 Hw2]; [lia|].
      rewrite Hr.
      destruct (wr_some r0 i (f_add r (f_of_int (d + 1)))) as [r1 Hw3]; [lia|].
      destruct (Hfin (x + sum + (d + 1)) r1) as (t' & Et & Ht'); try lia.
      { rewrite (wr_len _ _ _ _ Hw3). exact Hl. }
      rewrite Hw2 in *. rewrite Hw3. exists t'. split; [|exact Ht'].
      inversion Et. reflexivity.
    + destruct (Z.gtb_spec (x + sum) d) as [Hbig|Hok].
      * rewrite to_short_small by lia.
        destruct (wr_some rk1 i (x + sum - (d + 1))) as [rk2 Hw2]; [lia|].
        rewrite Hr.
        destruct (wr_some r0 i (f_sub r (f_of_int (d + 1)))) as [r1 Hw3]; [lia|].
        destruct (Hfin (x + sum - (d + 1)) r1) as (t' & Et & Ht'); try lia.
        { rewrite (wr_len _ _ _ _ Hw3). exact Hl. }
        rewrite Hw2 in *. rewrite Hw3. exists t'. split; [|exact Ht'].
        inversion Et. reflexivity.
      * eexists. split; [reflexivity|]. simpl. split; auto. split; [lia|].
        intros z Hz. destruct (Z.eq_dec z i) as [->|Hne].
        -- exists (x + sum). split; [apply (rd_wr_same _ _ _ _ Hw1)|lia].
        -- rewrite (rd_wr_other _ _ _ _ _ Hw1) by auto. apply Hk. exact Hz.
  - exists rank', rem0'. split; [exact E|]. split; assumption.
Qed.

(** When the sum of the rounded coordinates lies between [-(d+1)] and
    [d+1] (and [2d+1] fits a [short]), the ranks are computed, the plane
    correction runs through, and afterwards every entry of [rank] lies in
    [0, d], so that the indices [d - rank[i]] and [d - rank[i] + 1] of the
    barycentric accumulation lie within [0 .. d+1]. *)
Lemma rank_correction_within (d sum : Z) (elevated rem0 : list F)
    (rank0 : list Z) :
  0 <= d -> 2 * d + 1 <= 32767 ->
  len elevated = d + 1 -> len rem0 = d + 1 -> len rank0 = d + 1 ->
  - (d + 1) <= sum <= d + 1 ->
  exists rank rank' rem0',
    rank_residuals d elevated rem0 rank0 = Some rank /\
    plane_correct d sum rank rem0 = Some (rank', rem0') /\
    forall i, 0 <= i <= d ->
      exists x, rd rank' i = Some x /\ 0 <= x <= d /\
                0 <= d - x <= d + 1 /\ 0 <= d - x + 1 <= d + 1.
Proof.
  intros Hd Hs Hle Hlr Hl0 Hsum.
  destruct (rank_residuals_within d elevated rem0 rank0) as (rank & Er & Hrk);
    auto; try lia.
  destruct (plane_correct_within d sum rank rem0) as (rank' & rem0' & Ep & _ & Hw);
    auto.
  exists rank, rank', rem0'. split; [exact Er|]. split; [exact Ep|].
  intros i Hi. destruct Hw as [_ Hw]. destruct (Hw i Hi) as (x & Hx & Hxr).
  exists x. split; [exact Hx|]. lia.
Qed.
End PlaneProps.

(** * The binary32 instance on concrete lattices *)

(** The runs of this part find zeros in the memory they do not initialise
    ([zeroed], [no_stray]); by [init_fresh] and [compute_fresh] the runs
    that find anything else end the same. *)

Section OnBinary32.
Import Binary32.

Lemma init_origin : init no_stray [zero] 1 1 = Some origin_lattice.
Proof. vm_compute. reflexivity. Qed.

Lemma init_pair : init no_stray [zero; tenth] 1 2 = Some pair_lattice.
Proof. vm_compute. reflexivity. Qed.

(** C1: the copy constructor sizes and copies the neighbour table by
    [(d+1)*N] where [init] built it with [(d+1)*M] entries.  The lattice of
    the single point [0.0] in one dimension has [N = 1] and [M = 2]: its
    neighbour table has four entries, the one of its copy the first two. *)
Theorem copy_truncates_neighbor_table :
  init no_stray [zero] 1 1 = Some origin_lattice /\
  blur_neighbors_ origin_lattice
  = Some [{| n1 := 1; n2 := -1 |}; {| n1 := -1; n2 := 0 |};
          {| n1 := -1; n2 := 1 |}; {| n1 := 0; n2 := -1 |}] /\
  exists q, Permutohedral_copy origin_lattice = Some q /\
            Permutohedral_assign [Permutohedral_new; origin_lattice] 0 1
            = Some [q; origin_lattice] /\
            offset_ q = offset_ origin_lattice /\
            barycentric_ q = barycentric_ origin_lattice /\
            M_ q = 2 /\
            blur_neighbors_ q = Some [{| n1 := 1; n2 := -1 |}; {| n1 := -1; n2 := 0 |}] /\
            table (blur_neighbors_ q) (1 * M_ q + 0) = None.
Proof.
  split; [exact init_origin|]. split; [reflexivity|].
  eexists. split; [vm_compute; reflexivity|]. repeat split.
Qed.



(** C4, as stated, fails: on the lattice of the single point [0.0] in one
    dimension the value [1.0] comes back as [13981014 * 2^-24], about
    [0.8333]. *)
Lemma single_point_is_not_identity :
  init no_stray [zero] 1 1 = Some origin_lattice /\
  N_ origin_lattice = 1 /\
  compute origin_lattice [zero] [one] 1 0 0 (-1) (-1)
  = Some [S754_finite false 13981014 (-24)] /\
  one = S754_finite false 8388608 (-23).
Proof. repeat split; vm_compute; reflexivity. Qed.


(** C10, as stated, fails in one point: the loop over the axes does not
    run zero times.  On a default-constructed object [d_] is 0 and the loop
    [for( j=0; j<=d_; j++ )] runs once; with [M_ = 0] it updates no vertex,
    but it swaps the two buffers, which zero iterations leave in place. *)
Lemma unbuilt_blur_runs_once :
  d_ (@Permutohedral_new spec_float) + 1 = 1 /\
  blur Permutohedral_new 1 ([one], [zero]) = Some ([zero], [one]) /\
  blur_passes Permutohedral_new 1 0 ([one], [zero]) = Some ([one], [zero]).
Proof. repeat split. Qed.

Lemma built_origin : built origin_lattice.
Proof. apply (init_built _ _ _ _ _ init_origin). Qed.

Lemma blur_pass_witness :
  exists (pass : Z -> list spec_float * list spec_float) (res : list spec_float),
    (forall j, 0 <= j <= 1 + 1 ->
       blurred origin_lattice [one] 1 0 (-1) j = Some (pass j)) /\
    (forall j, 0 <= j <= 1 ->
       snd (pass (j + 1)) = fst (pass j) /\
       forall i k, 0 <= i < M_ origin_lattice -> 0 <= k < 1 ->
         exists nb x a b,
           table (blur_neighbors_ origin_lattice) (j * M_ origin_lattice + i) = Some nb /\
           rd (fst (pass j)) ((i + 1) * 1 + k) = Some x /\
           rd (fst (pass j)) ((n1 nb + 1) * 1 + k) = Some a /\
           rd (fst (pass j)) ((n2 nb + 1) * 1 + k) = Some b /\
           rd (fst (pass (j + 1))) ((i + 1) * 1 + k)
           = Some (f_add x (f_mul f_half (f_add a b)))) /\
    compute origin_lattice [zero] [one] 1 0 0 (-1) (-1) = Some res /\
    slice origin_lattice (fst (pass (1 + 1))) 1 0 (resolve_size 1 0 (-1)) [zero]
    = Some res.
Proof.
  apply (blur_pass_updates_every_vertex no_stray [zero] 1 1 origin_lattice
           [zero] [one] 1 0 0 (-1) (-1)).
  - exact init_origin.
  - lia.
  - vm_compute. congruence.
  - lia.
  - lia.
  - vm_compute. congruence.
  - vm_compute. congruence.
  - lia.
  - vm_compute. congruence.
  - vm_compute. congruence.
Defined.

Lemma sentinel_slot_witness :
  exists values new_values,
    blurred origin_lattice [one] 1 0 (-1) 1 = Some (values, new_values) /\
    (forall k, 0 <= k < 1 -> rd values k = Some f_zero) /\
    (forall i k nb, 0 <= i < M_ origin_lattice -> 0 <= k < 1 ->
       table (blur_neighbors_ origin_lattice) (1 * M_ origin_lattice + i) = Some nb ->
       (n1 nb = -1 -> rd values ((n1 nb + 1) * 1 + k) = Some f_zero) /\
       (n2 nb = -1 -> rd values ((n2 nb + 1) * 1 + k) = Some f_zero)).
Proof.
  apply (sentinel_slot_reads_zero no_stray [zero] 1 1 origin_lattice [one] 1 0 (-1) 1).
  - exact init_origin.
  - lia.
  - vm_compute. congruence.
  - lia.
  - lia.
  - vm_compute. congruence.
  - vm_compute. congruence.
  - simpl. lia.
Defined.

Lemma compute_output_range_witness :
  exists res res_full,
    compute pair_lattice [zero] [one; zero] 1 0 1 (-1) 1 = Some res /\
    compute pair_lattice [zero; zero] [one; zero] 1 0 0 (-1) (-1) = Some res_full /\
    forall i k, 0 <= i < 1 -> 0 <= k < 1 ->
      exists v, rd res (i * 1 + k) = Some v /\
                rd res_full ((1 + i) * 1 + k) = Some v.
Proof.
  apply (compute_output_range_matches_full no_stray [zero; tenth] 1 2 pair_lattice
           [zero] [zero; zero] [one; zero] 1 0 (-1) 1 1).
  - exact init_pair.
  - lia.
  - vm_compute. congruence.
  - lia.
  - lia.
  - vm_compute. congruence.
  - vm_compute. congruence.
  - lia.
  - lia.
  - lia.
  - vm_compute. congruence.
  - vm_compute. congruence.
Defined.

End OnBinary32.

(** * Exact arithmetic *)

(** The arithmetic of [float] is that of the real numbers; what a run finds
    in the arrays it allocates is left open. *)

Section OnReals.
Import ExactReal.
Context {FM : Fresh R}.

Lemma skipn_set_nth_same {A} (n : nat) (v : A) (a : list A) :
  (n < length a)%nat -> skipn n (set_nth n v a) = v :: skipn (S n) a.
Proof.
  revert n. induction a as [|x t IH]; intros [|n] Hn; simpl in *; try lia; auto.
  apply IH. lia.
Qed.

Lemma wr_skipn_same {A} (a a' : list A) (i : Z) (v : A) :
  wr a i v = Some a' ->
  skipn (Z.to_nat i) a' = v :: skipn (Z.to_nat (i + 1)) a.
Proof.
  intros E. pose proof (wr_range _ _ _ _ E) as Hi. unfold wr in E.
  destruct (_ && _); [|discriminate]. inversion E.
  replace (Z.to_nat (i + 1)) with (S (Z.to_nat i)) by lia.
  apply skipn_set_nth_same. unfold len in Hi. lia.
Qed.

Lemma scale_factors_total (d : Z) (scale_factor0 : list R) :
  0 <= d -> len scale_factor0 = d ->
  exists scale_factor,
    scale_factors d scale_factor0 = Some scale_factor /\
    len scale_factor = d /\
    forall i, 0 <= i < d ->
      rd scale_factor i
      = Some (1 / sqrt ((IZR i + 2) * (IZR i + 1)) * (sqrt (2 / 3) * IZR (d + 1)))%R.
Proof.
  intros Hd Hl. unfold scale_factors.
  match goal with
  | |- context [for_upto 0 d ?body ?s] =>
      destruct (for_upto_inv
        (fun i t => len t = d /\
           forall i', 0 <= i' < i ->
             rd t i' = Some (1 / sqrt ((IZR i' + 2) * (IZR i' + 1))
                             * (sqrt (2 / 3) * IZR (d + 1)))%R)
        0 d body s Hd) as (sf & E & Hl' & Hv)
  end.
  - split; auto. intros i' Hi'. lia.
  - intros i t Hi [Hlt Ht].
    destruct (wr_some t i
      (f_mul (f_div f_one (f_sqrt (f_mul (f_add (f_of_int i) (f_of_int 2))
                                         (f_add (f_of_int i) (f_of_int 1)))))
             (f_mul (f_sqrt (f_div (f_of_int 2) (f_of_int 3))) (f_of_int (d + 1)))))
      as [t' Ht']; [lia|].
    exists t'. split; [exact Ht'|]. split; [rewrite (wr_len _ _ _ _ Ht'); auto|].
    intros i' Hi'. destruct (Z.eq_dec i' i) as [->|Hne].
    + rewrite (rd_wr_same _ _ _ _ Ht'). reflexivity.
    + rewrite (rd_wr_other _ _ _ _ _ Ht') by auto. apply Ht. lia.
  - exists sf. auto.
Qed.


Lemma Rsum_app (a b : list R) : Rsum (a ++ b) = (Rsum a + Rsum b)%R.
Proof. induction a as [|x t IH]; simpl; [lra|]. rewrite IH. lra. Qed.

Lemma Rsum_repeat_zero (n : nat) : Rsum (repeat 0%R n) = 0%R.
Proof. induction n as [|n IH]; simpl; [reflexivity|]. rewrite IH. lra. Qed.

Lemma Rsum_set_nth (n : nat) (x v : R) (a : list R) :
  nth_error a n = Some x -> Rsum (set_nth n v a) = (Rsum a - x + v)%R.
Proof.
  revert n. induction a as [|y t IH]; intros [|n] H; simpl in *; try discriminate.
  - inversion H. lra.
  - rewrite (IH n H). lra.
Qed.

Lemma Rsum_wr (a a' : list R) (i : Z) (x v : R) :
  rd a i = Some x -> wr a i v = Some a' -> Rsum a' = (Rsum a - x + v)%R.
Proof.
  intros Hx E. unfold rd in Hx. destruct (i <? 0); [discriminate|].
  unfold wr in E. destruct (_ && _); [|discriminate]. inversion E.
  now apply Rsum_set_nth.
Qed.

Lemma Rsum_split (n : nat) (a : list R) :
  Rsum a = (Rsum (firstn n a) + Rsum (skipn n a))%R.
Proof. rewrite <- Rsum_app. now rewrite firstn_skipn. Qed.

Lemma skipn_last (a : list R) (i : Z) (x : R) :
  rd a i = Some x -> len a = i + 1 -> skipn (Z.to_nat i) a = [x].
Proof.
  intros Hx Hl. unfold rd in Hx. destruct (Z.ltb_spec i 0); [discriminate|].
  unfold len in Hl.
  assert (Hlen : length (skipn (Z.to_nat i) a) = 1%nat) by (rewrite length_skipn; lia).
  destruct (skipn (Z.to_nat i) a) as [|y [|z t]] eqn:Es; simpl in Hlen; try lia.
  f_equal.
  assert (nth_error (skipn (Z.to_nat i) a) 0 = Some x).
  { rewrite nth_error_skipn. rewrite Nat.add_0_r. exact Hx. }
  rewrite Es in H0. simpl in H0. congruence.
Qed.

(** The barycentric coordinates of one point sum to 1. *)
Lemma barycentric_coords_sum (d : Z) (elevated rem0 : list R) (rank : list Z)
    (barycentric0 barycentric : list R) :
  0 <= d -> len barycentric0 = d + 2 ->
  barycentric_coords d elevated rem0 rank barycentric0 = Some barycentric ->
  len barycentric = d + 2 /\
  Rsum (firstn (Z.to_nat (d + 1)) barycentric) = 1%R.
Proof.
  intros Hd Hl0 E. unfold barycentric_coords in E.
  match type of E with
  | match for_upto ?lo ?hi ?body ?s with _ => _ end = _ =>
      destruct (for_upto lo hi body s) as [b1|] eqn:E1; [|discriminate]
  end.
  assert (H1 : len b1 = d + 2 /\ Rsum b1 = 0%R).
  { pose proof (for_upto_inv_some
      (fun i t => len t = d + 2 /\ forall k, 0 <= k < i -> rd t k = Some 0%R)
      0 (d + 2) _ _ _ E1 ltac:(lia)) as H.
    destruct H as [Hl Hz].
    - split; auto. intros k Hk. lia.
    - intros i t t' Hi [Hl Hz] Hw. split; [rewrite (wr_len _ _ _ _ Hw); auto|].
      intros k Hk. destruct (Z.eq_dec k i) as [->|Hne].
      + apply (rd_wr_same _ _ _ _ Hw).
      + rewrite (rd_wr_other _ _ _ _ _ Hw) by auto. apply Hz. lia.
    - split; auto. rewrite (rd_all_repeat b1 0%R (d + 2)); auto.
      apply Rsum_repeat_zero. }
  clear E1.
  match type of E with
  | match for_upto ?lo ?hi ?body ?s with _ => _ end = _ =>
      destruct (for_upto lo hi body s) as [b2|] eqn:E2; [|discriminate]
  end.
  assert (H2 : len b2 = d + 2 /\ Rsum b2 = 0%R).
  { apply (for_upto_inv_some (fun _ t => len t = d + 2 /\ Rsum t = 0%R)
             0 (d + 1) _ _ _ E2 ltac:(lia) H1).
    intros i t t' Hi [Hl Hs] Hb.
    destruct (rd elevated i) as [e|]; [|discriminate].
    destruct (rd rem0 i) as [r|]; [|discriminate].
    destruct (rd rank i) as [rk|]; [|discriminate].
    destruct (rd t (d - rk)) as [x|] eqn:Hx; [|discriminate].
    destruct (wr t (d - rk) _) as [t1|] eqn:Hw1; [|discriminate].
    destruct (rd t1 (d - rk + 1)) as [y|] eqn:Hy; [|discriminate].
    split.
    - rewrite (wr_len _ _ _ _ Hb), (wr_len _ _ _ _ Hw1). exact Hl.
    - rewrite (Rsum_wr _ _ _ _ _ Hy Hb), (Rsum_wr _ _ _ _ _ Hx Hw1), Hs.
      simpl. lra. }
  clear E2 H1. destruct H2 as [Hl2 Hs2].
  destruct (rd b2 0) as [b0|] eqn:Hb0; [|discriminate].
  destruct (rd b2 (d + 1)) as [bw|] eqn:Hbw; [|discriminate].
  split; [rewrite (wr_len _ _ _ _ E); exact Hl2|].
  pose proof (Rsum_wr _ _ _ _ _ Hb0 E) as Hs.
  rewrite (Rsum_split (Z.to_nat (d + 1)) barycentric) in Hs.
  rewrite (skipn_last barycentric (d + 1) bw) in Hs.
  - simpl in Hs. lra.
  - rewrite (rd_wr_other _ _ _ _ _ E) by lia. exact Hbw.
  - rewrite (wr_len _ _ _ _ E). lia.
Qed.

Lemma rd_skipn {A} (n : nat) (a : list A) (i : Z) :
  0 <= i -> rd (skipn n a) i = rd a (Z.of_nat n + i).
Proof.
  intros Hi. unfold rd.
  destruct (Z.ltb_spec i 0); [lia|]. destruct (Z.ltb_spec (Z.of_nat n + i) 0); [lia|].
  rewrite nth_error_skipn. f_equal. lia.
Qed.

Lemma rd_segment {A} (d : Z) (a : list A) (k i : Z) :
  0 <= d -> 0 <= k -> 0 <= i <= d ->
  rd (segment d a k) i = rd a (k * (d + 1) + i).
Proof.
  intros Hd Hk Hi. unfold segment. rewrite rd_firstn.
  destruct (Z.ltb_spec i (Z.of_nat (Z.to_nat (d + 1)))); [|lia].
  rewrite rd_skipn by lia. f_equal. nia.
Qed.

Lemma segment_ext {A} (d : Z) (a b : list A) (k k' : Z) :
  0 <= d -> 0 <= k -> 0 <= k' ->
  (forall i, 0 <= i <= d -> rd a (k * (d + 1) + i) = rd b (k' * (d + 1) + i)) ->
  segment d a k = segment d b k'.
Proof.
  intros Hd Hk Hk' H. apply rd_ext. intros i.
  destruct (Z_lt_ge_dec i 0) as [Hneg|Hpos].
  { unfold rd. destruct (Z.ltb_spec i 0); [reflexivity|lia]. }
  destruct (Z_le_gt_dec i d) as [Hin|Hout].
  - rewrite !rd_segment by lia. apply H. lia.
  - unfold segment. rewrite !rd_firstn.
    destruct (Z.ltb_spec i (Z.of_nat (Z.to_nat (d + 1)))); [lia|reflexivity].
Qed.

Lemma locate_all_weights (d N : Z) (feature scale_factor : list R) (canonical : list Z)
    (st st' : Build R) :
  0 <= d -> 0 <= N -> len (s_barycentric st) = d + 2 ->
  for_upto 0 N (locate d feature scale_factor canonical) st = Some st' ->
  forall k, 0 <= k < N -> Rsum (segment d (s_bary st') k) = 1%R.
Proof.
  intros Hd HN Hl E.
  apply (for_upto_inv_some
    (fun k (t : Build R) =>
       len (s_barycentric t) = d + 2 /\
       forall k', 0 <= k' < k -> Rsum (segment d (s_bary t) k') = 1%R)
    0 N _ _ _ E HN).
  - split; auto. intros k' Hk'. lia.
  - intros k t t' Hk [Hlb Hdone] Hb.
    apply locate_stages in Hb.
    destruct Hb as (el & r0 & sum & rk & rk' & r0' & bc & _ & _ & _ & _ & Hbc & Hres
                    & _ & _ & Hsb & _).
    apply barycentric_coords_sum in Hbc; auto. destruct Hbc as [Hlbc Hsum].
    apply resolve_corners_spec in Hres; auto.
    destruct Hres as (_ & _ & _ & _ & _ & _ & R7 & R8).
    split; [congruence|].
    intros k' Hk'. destruct (Z.eq_dec k' k) as [->|Hne].
    + rewrite <- Hsum. f_equal.
      change (firstn (Z.to_nat (d + 1)) bc) with
        (firstn (Z.to_nat (d + 1)) (skipn (Z.to_nat (0 * (d + 1))) bc)).
      apply (segment_ext d (s_bary t') bc k 0); try lia.
      intros i Hi. destruct (R7 i Hi) as (b & Hb1 & Hb2).
      rewrite Hb2. simpl. congruence.
    + rewrite <- (Hdone k') by lia. f_equal.
      apply segment_ext; try lia. intros i Hi. apply R8. nia.
Qed.

(** *** The weights of a point are not negative *)

(** *** The order of the residuals *)

Lemma before_irrefl (rho : Z -> R) (x : Z) : before rho x x = false.
Proof.
  unfold before. destruct (Rlt_dec (rho x) (rho x)) as [H|H]; [lra|].
  apply Z.ltb_irrefl.
Qed.

Lemma before_asym (rho : Z -> R) (i j : Z) :
  i <> j -> before rho i j = negb (before rho j i).
Proof.
  intros Hne. unfold before.
  destruct (Rlt_dec (rho j) (rho i)), (Rlt_dec (rho i) (rho j)); simpl; try lra; auto.
  destruct (Z.ltb_spec i j), (Z.ltb_spec j i); simpl; auto; lia.
Qed.

Lemma before_trans (rho : Z -> R) (k i j : Z) :
  before rho k i = true -> before rho i j = true -> before rho k j = true.
Proof.
  unfold before.
  destruct (Rlt_dec (rho i) (rho k)), (Rlt_dec (rho k) (rho i)),
    (Rlt_dec (rho j) (rho i)), (Rlt_dec (rho i) (rho j)),
    (Rlt_dec (rho j) (rho k)), (Rlt_dec (rho k) (rho j));
    try lra; try discriminate; auto.
  destruct (Z.ltb_spec k i), (Z.ltb_spec i j), (Z.ltb_spec k j); auto; try discriminate; lia.
Qed.

Lemma before_le (rho : Z -> R) (i j : Z) :
  before rho i j = true -> (rho j <= rho i)%R.
Proof.
  unfold before. destruct (Rlt_dec (rho j) (rho i)); [lra|].
  destruct (Rlt_dec (rho i) (rho j)); [discriminate|lra].
Qed.

(** *** Counting the coordinates that come before *)

Lemma count_below_bounds (P : Z -> bool) (n : nat) :
  0 <= count_below P n <= Z.of_nat n.
Proof.
  induction n as [|n IH]; simpl; [lia|]. destruct (P (Z.of_nat n)); lia.
Qed.

Lemma count_below_le (P Q : Z -> bool) (n : nat) :
  (forall k, 0 <= k < Z.of_nat n -> P k = true -> Q k = true) ->
  count_below P n <= count_below Q n.
Proof.
  induction n as [|n IH]; intros H; simpl; [lia|].
  assert (count_below P n <= count_below Q n) by (apply IH; intros k Hk; apply H; lia).
  destruct (P (Z.of_nat n)) eqn:HP; [rewrite (H (Z.of_nat n)) by (auto; lia); lia|].
  destruct (Q (Z.of_nat n)); lia.
Qed.

Lemma count_below_lt (P Q : Z -> bool) (n : nat) (k0 : Z) :
  (forall k, 0 <= k < Z.of_nat n -> P k = true -> Q k = true) ->
  0 <= k0 < Z.of_nat n -> P k0 = false -> Q k0 = true ->
  count_below P n < count_below Q n.
Proof.
  induction n as [|n IH]; intros H Hk HP HQ; simpl; [lia|].
  destruct (Z.eq_dec k0 (Z.of_nat n)) as [->|Hne].
  - rewrite HP, HQ.
    assert (count_below P n <= count_below Q n); [|lia].
    apply count_below_le. intros k Hk'. apply H. lia.
  - assert (count_below P n < count_below Q n).
    { apply IH; auto; try lia. intros k Hk'. apply H. lia. }
    destruct (P (Z.of_nat n)) eqn:HPn; [rewrite (H (Z.of_nat n)) by (auto; lia); lia|].
    destruct (Q (Z.of_nat n)); lia.
Qed.

Lemma ahead_succ (rho : Z -> R) (n x : Z) :
  0 <= n -> ahead rho (n + 1) x = ahead rho n x + (if before rho n x then 1 else 0).
Proof.
  intros Hn. unfold ahead.
  replace (Z.to_nat (n + 1)) with (S (Z.to_nat n)) by lia. simpl.
  rewrite Z2Nat.id by lia. reflexivity.
Qed.

Lemma ahead_bounds (rho : Z -> R) (n x : Z) : 0 <= n -> 0 <= ahead rho n x <= n.
Proof.
  intros Hn. unfold ahead.
  pose proof (count_below_bounds (fun j => before rho j x) (Z.to_nat n)). lia.
Qed.

Lemma ahead_mono (rho : Z -> R) (n i j : Z) :
  0 <= i < n -> before rho i j = true -> ahead rho n i < ahead rho n j.
Proof.
  intros Hi Hb. unfold ahead. apply (count_below_lt _ _ _ i).
  - intros k _ Hk. exact (before_trans rho k i j Hk Hb).
  - lia.
  - apply before_irrefl.
  - exact Hb.
Qed.

Lemma ahead_inj (rho : Z -> R) (n i j : Z) :
  0 <= i < n -> 0 <= j < n -> ahead rho n i = ahead rho n j -> i = j.
Proof.
  intros Hi Hj E. destruct (Z.eq_dec i j) as [|Hne]; auto.
  pose proof (before_asym rho i j Hne) as Ha.
  destruct (before rho i j) eqn:Hij.
  - pose proof (ahead_mono rho n i j Hi Hij). lia.
  - destruct (before rho j i) eqn:Hji; [|discriminate].
    pose proof (ahead_mono rho n j i Hj Hji). lia.
Qed.

Lemma ahead_order (rho : Z -> R) (n i j : Z) :
  0 <= i < n -> 0 <= j < n -> ahead rho n i < ahead rho n j -> (rho j <= rho i)%R.
Proof.
  intros Hi Hj Hlt. destruct (Z.eq_dec i j) as [->|Hne]; [lia|].
  pose proof (before_asym rho i j Hne) as Ha.
  destruct (before rho i j) eqn:Hij.
  - now apply before_le.
  - destruct (before rho j i) eqn:Hji; [|discriminate].
    pose proof (ahead_mono rho n j i Hj Hji). lia.
Qed.

(** *** Finite sums *)

Lemma Rsum_below_zero (f : Z -> R) (n : nat) :
  (forall i, 0 <= i < Z.of_nat n -> f i = 0%R) -> Rsum_below f n = 0%R.
Proof.
  induction n as [|n IH]; intros H; simpl; [reflexivity|].
  rewrite IH by (intros i Hi; apply H; lia). rewrite H by lia. lra.
Qed.

Lemma Rsum_below_single (f : Z -> R) (n : nat) (a : Z) :
  0 <= a < Z.of_nat n ->
  (forall i, 0 <= i < Z.of_nat n -> i <> a -> f i = 0%R) ->
  Rsum_below f n = f a.
Proof.
  induction n as [|n IH]; intros Ha H; simpl; [lia|].
  destruct (Z.eq_dec a (Z.of_nat n)) as [->|Hne].
  - rewrite Rsum_below_zero; [lra|]. intros i Hi. apply H; lia.
  - rewrite IH; [|lia|intros i Hi Hia; apply H; lia].
    rewrite (H (Z.of_nat n)) by lia. lra.
Qed.

Lemma Rsum_below_minus (f g : Z -> R) (n : nat) :
  Rsum_below (fun i => (f i - g i)%R) n = (Rsum_below f n - Rsum_below g n)%R.
Proof. induction n as [|n IH]; simpl; [lra|]. rewrite IH. lra. Qed.

(** *** A one-to-one map of [0..d] into itself is onto *)

Lemma onto_of_one_to_one (rk : Z -> Z) (d : Z) :
  0 <= d ->
  (forall i, 0 <= i <= d -> 0 <= rk i <= d) ->
  (forall i j, 0 <= i <= d -> 0 <= j <= d -> rk i = rk j -> i = j) ->
  forall t, 0 <= t <= d -> exists a, 0 <= a <= d /\ rk a = t.
Proof.
  intros Hd Hr Hinj t Ht.
  set (dom := map Z.of_nat (seq 0 (S (Z.to_nat d)))).
  assert (Hdom : forall x, In x dom <-> 0 <= x <= d).
  { intros x. unfold dom. rewrite in_map_iff. split.
    - intros (n & <- & Hn). apply in_seq in Hn. lia.
    - intros Hx. exists (Z.to_nat x). split; [lia|]. apply in_seq. lia. }
  assert (Hnd : NoDup dom).
  { unfold dom. apply NoDup_map_NoDup_ForallPairs; [|apply seq_NoDup].
    intros x y _ _ E. lia. }
  assert (Hnd' : NoDup (map rk dom)).
  { apply NoDup_map_NoDup_ForallPairs; auto.
    intros x y Hx Hy E. apply Hinj; auto; now apply Hdom. }
  assert (Hincl : incl (map rk dom) dom).
  { intros y Hy. apply in_map_iff in Hy. destruct Hy as (x & <- & Hx).
    apply Hdom. apply Hr. now apply Hdom. }
  assert (Hlen : (length dom <= length (map rk dom))%nat) by (rewrite length_map; lia).
  pose proof (NoDup_length_incl Hnd' Hlen Hincl) as Hback.
  assert (Hin : In t (map rk dom)) by (apply Hback; now apply Hdom).
  apply in_map_iff in Hin. destruct Hin as (a & Ha & Hina).
  exists a. split; auto. now apply Hdom.
Qed.

(** *** The elevated point lies on the plane *)

Lemma elevate_on_plane (d k : Z) (feature scale_factor elevated0 elevated : list R) :
  0 <= d -> len elevated0 = d + 1 ->
  elevate d feature scale_factor k elevated0 = Some elevated ->
  len elevated = d + 1 /\ Rsum elevated = 0%R.
Proof.
  intros Hd Hl E. unfold elevate in E.
  match type of E with
  | match for_downto ?hi ?lo ?body ?s with _ => _ end = _ =>
      destruct (for_downto hi lo body s) as [[el sm]|] eqn:E1; [|discriminate]
  end.
  pose proof (for_downto_inv_some
    (fun j (t : list R * R) =>
       len (fst t) = d + 1 /\
       (Rsum (skipn (Z.to_nat (j + 1)) (fst t)) + IZR (j + 1) * snd t = 0)%R)
    d 0 _ _ _ E1 Hd) as H.
  simpl in H. destruct H as [Hl1 Hs1].
  - split; auto. rewrite skipn_all2 by (unfold len in Hl; lia). simpl.
    change (@f_zero R Exact.arith) with 0%R. lra.
  - intros j [t sm0] [t' sm'] Hj [Hlt Hst] Hb. simpl in *.
    destruct (rd feature (k * d + (j - 1))) as [fj|]; [|discriminate].
    destruct (rd scale_factor (j - 1)) as [sj|]; [|discriminate].
    destruct (wr t j _) as [t1|] eqn:Hw; [|discriminate].
    inversion Hb. subst t' sm'. clear Hb.
    split; [rewrite (wr_len _ _ _ _ Hw); auto|].
    replace (j - 1 + 1) with j by lia.
    rewrite (wr_skipn_same _ _ _ _ Hw). simpl.
    rewrite plus_IZR in Hst. lra.
  - split; [rewrite (wr_len _ _ _ _ E); auto|].
    pose proof (wr_skipn_same _ _ _ _ E) as Hs. simpl in Hs.
    change (skipn (Z.to_nat 0) elevated) with elevated in Hs. rewrite Hs. simpl.
    simpl in Hs1. lra.
Qed.

(** *** Rounding to the nearest integer *)

Lemma round_away_near (x : R) :
  (- / 2 <= IZR (Exact.round_away x) - x <= / 2)%R.
Proof.
  unfold Exact.round_away. destruct (Rle_dec 0 x) as [Hx|Hx].
  - pose proof (base_Int_part (x + / 2)) as [H1 H2]. lra.
  - pose proof (base_Int_part (- x + / 2)) as [H1 H2]. rewrite opp_IZR. lra.
Qed.

Lemma round_int_near (x : R) (z : Z) :
  Exact.round_int x = Some z -> (- / 2 <= IZR z - x <= / 2)%R.
Proof.
  unfold Exact.round_int. destruct (_ && _); [|discriminate].
  intros E. inversion E. apply round_away_near.
Qed.

Lemma Rsum_firstn_succ (a : list R) (i : Z) (e : R) :
  rd a i = Some e ->
  Rsum (firstn (Z.to_nat (i + 1)) a) = (Rsum (firstn (Z.to_nat i) a) + e)%R.
Proof.
  intros H. pose proof (rd_range _ _ _ H) as Hi. unfold rd in H.
  destruct (Z.ltb_spec i 0); [lia|].
  replace (Z.to_nat (i + 1)) with (S (Z.to_nat i)) by lia.
  revert H. generalize (Z.to_nat i) as n. clear Hi H0.
  induction a as [|x t IH]; intros [|n] H; simpl in *; try discriminate.
  - inversion H. lra.
  - rewrite (IH n H). simpl. lra.
Qed.

Lemma round_to_cell_near (d : Z) (elevated rem00 rem0 : list R) (sum : Z) :
  0 <= d -> len elevated = d + 1 -> len rem00 = d + 1 ->
  round_to_cell d elevated rem00 = Some (rem0, sum) ->
  len rem0 = d + 1 /\
  (forall i, 0 <= i <= d ->
     exists e r, rd elevated i = Some e /\ rd rem0 i = Some r /\
       (- (IZR (d + 1) / 2) <= e - r <= IZR (d + 1) / 2)%R) /\
  (- (IZR (d + 1) / 2) <= IZR sum - Rsum elevated / IZR (d + 1) <= IZR (d + 1) / 2)%R.
Proof.
  intros Hd Hle Hl0 E. unfold round_to_cell in E.
  assert (HD : (0 < IZR (d + 1))%R) by (apply IZR_lt; lia).
  pose proof (for_upto_inv_some
    (fun i (t : list R * Z) =>
       len (fst t) = d + 1 /\
       (forall i', 0 <= i' < i ->
          exists e r, rd elevated i' = Some e /\ rd (fst t) i' = Some r /\
            (- (IZR (d + 1) / 2) <= e - r <= IZR (d + 1) / 2)%R) /\
       (- (IZR i / 2)
        <= IZR (snd t) - Rsum (firstn (Z.to_nat i) elevated) / IZR (d + 1)
        <= IZR i / 2)%R)
    0 (d + 1) _ _ _ E ltac:(lia)) as H.
  simpl in H. destruct H as (H1 & H2 & H3).
  - split; auto. split; [intros i' Hi'; lia|]. unfold Rdiv. lra.
  - intros i [t s] [t' s'] Hi (Hlt & Hdone & Hsum) Hb. simpl in *.
    destruct (rd elevated i) as [e|] eqn:He; [|discriminate].
    destruct (Exact.round_int _) as [z|] eqn:Hz; [|discriminate].
    destruct (wr t i _) as [t1|] eqn:Hw; [|discriminate].
    destruct (int_add s z) as [s1|] eqn:Hs; [|discriminate].
    inversion Hb. subst t' s'. clear Hb.
    apply round_int_near in Hz. apply int_add_some in Hs. subst s1.
    unfold down_factor, up_factor in *.
    change (@f_one R Exact.arith) with 1%R in *.
    change (@f_div R Exact.arith) with Rdiv in *.
    change (@f_mul R Exact.arith) with Rmult in *.
    change (@f_of_int R Exact.arith) with IZR in *.
    assert (Hx : (e = IZR (d + 1) * (1 / IZR (d + 1) * e))%R) by (field; lra).
    split; [rewrite (wr_len _ _ _ _ Hw); auto|]. split.
    + intros i' Hi'. destruct (Z.eq_dec i' i) as [->|Hne].
      * exists e, (IZR z * IZR (d + 1))%R. split; auto.
        split; [apply (rd_wr_same _ _ _ _ Hw)|].
        set (x := (1 / IZR (d + 1) * e)%R) in *. rewrite Hx. nra.
      * destruct (Hdone i' ltac:(lia)) as (e' & r' & He' & Hr' & Hb').
        exists e', r'. split; auto. split; auto.
        rewrite (rd_wr_other _ _ _ _ _ Hw) by auto. exact Hr'.
    + rewrite (Rsum_firstn_succ _ _ _ He). rewrite (plus_IZR s z), (plus_IZR i 1).
      set (x := (1 / IZR (d + 1) * e)%R) in *.
      assert ((Rsum (firstn (Z.to_nat i) elevated) + e) / IZR (d + 1)
              = Rsum (firstn (Z.to_nat i) elevated) / IZR (d + 1) + x)%R
        by (unfold x; field; lra).
      rewrite H. lra.
  - split; auto. split; [intros i Hi; apply H2; lia|].
    rewrite firstn_all2 in H3 by (unfold len in Hle; lia). exact H3.
Qed.

Lemma round_to_cell_sum (d : Z) (elevated rem00 rem0 : list R) (sum : Z) :
  0 <= d -> len elevated = d + 1 -> len rem00 = d + 1 ->
  Rsum elevated = 0%R ->
  round_to_cell d elevated rem00 = Some (rem0, sum) ->
  - (d + 1) <= sum <= d + 1.
Proof.
  intros Hd Hle Hl0 Hs E.
  destruct (round_to_cell_near _ _ _ _ _ Hd Hle Hl0 E) as (_ & _ & H).
  rewrite Hs in H. unfold Rdiv in H. rewrite Rmult_0_l in H.
  assert (HD : (0 < IZR (d + 1))%R) by (apply IZR_lt; lia).
  split.
  - apply le_IZR. rewrite opp_IZR. lra.
  - apply le_IZR. lra.
Qed.

(** *** The ranks count the coordinates that come before *)

Lemma rank_residuals_counts (d : Z) (elevated rem0 : list R) (rank0 rank : list Z)
    (rho : Z -> R) :
  0 <= d -> d + 2 <= 32767 -> len rank0 = d + 1 ->
  (forall i, 0 <= i <= d ->
     exists e r, rd elevated i = Some e /\ rd rem0 i = Some r /\ rho i = (e - r)%R) ->
  rank_residuals d elevated rem0 rank0 = Some rank ->
  len rank = d + 1 /\
  forall x, 0 <= x <= d -> rd rank x = Some (ahead rho (d + 1) x).
Proof.
  intros Hd Hs Hl0 Hrho E. unfold rank_residuals in E.
  match type of E with
  | match for_upto ?lo ?hi ?body ?s with _ => _ end = _ =>
      destruct (for_upto lo hi body s) as [z|] eqn:Ez; [|discriminate]
  end.
  assert (Hz : len z = d + 1 /\ forall x, 0 <= x <= d -> rd z x = Some 0).
  { pose proof (for_upto_inv_some
      (fun i t => len t = d + 1 /\ forall x, 0 <= x < i -> rd t x = Some 0)
      0 (d + 1) _ _ _ Ez ltac:(lia)) as H.
    destruct H as [H1 H2].
    - split; auto. intros x Hx. lia.
    - intros i t t' Hi [Hl Ht] Hw. split; [rewrite (wr_len _ _ _ _ Hw); auto|].
      intros x Hx. destruct (Z.eq_dec x i) as [->|Hne].
      + apply (rd_wr_same _ _ _ _ Hw).
      + rewrite (rd_wr_other _ _ _ _ _ Hw) by auto. apply Ht. lia.
    - split; auto. intros x Hx. apply H2. lia. }
  clear Ez. destruct Hz as [Hlz Hz].
  pose proof (for_upto_inv_some
    (fun i t => len t = d + 1 /\
       forall x, 0 <= x <= d ->
         rd t x = Some (ahead rho (if x <? i then d + 1 else i) x))
    0 d _ _ _ E Hd) as H.
  destruct H as [H1 H2].
  - split; auto. intros x Hx. destruct (Z.ltb_spec x 0); [lia|]. now apply Hz.
  - clear E. intros i t t' Hi [Hlt Ht] Hb.
    destruct (Hrho i ltac:(lia)) as (ei & ri & Hei & Hri & Hrhoi).
    rewrite Hei, Hri in Hb.
    pose proof (for_upto_inv_some
      (fun j u => len u = d + 1 /\
         forall x, 0 <= x <= d ->
           rd u x = Some (ahead rho (if x <? i then d + 1
                                     else if x =? i then j
                                     else if x <? j then i + 1 else i) x))
      (i + 1) (d + 1) _ _ _ Hb ltac:(lia)) as H.
    destruct H as [H1 H2].
    + split; auto. intros x Hx. rewrite (Ht x Hx).
      destruct (Z.ltb_spec x i); auto.
      destruct (Z.eqb_spec x i) as [->|Hne].
      * rewrite ahead_succ by lia. rewrite before_irrefl. f_equal. lia.
      * destruct (Z.ltb_spec x (i + 1)); [lia|reflexivity].
    + clear Hb. intros j u u' Hj [Hlu Hu] Hb.
      destruct (Hrho j ltac:(lia)) as (ej & rj & Hej & Hrj & Hrhoj).
      rewrite Hej, Hrj in Hb.
      change (@f_sub R Exact.arith) with Rminus in Hb.
      change (@f_lt R Exact.arith) with (fun x y : R => if Rlt_dec x y then true else false)
        in Hb.
      cbv beta in Hb. rewrite <- Hrhoi, <- Hrhoj in Hb.
      assert (Hij : before rho j i = (if Rlt_dec (rho i) (rho j) then true else false) /\
                    before rho i j = (if Rlt_dec (rho i) (rho j) then false else true)).
      { unfold before. destruct (Rlt_dec (rho i) (rho j)), (Rlt_dec (rho j) (rho i));
          try lra; auto.
        destruct (Z.ltb_spec j i), (Z.ltb_spec i j); auto; lia. }
      destruct Hij as [Hji Hij].
      pose proof (Hu i ltac:(lia)) as Hui. pose proof (Hu j ltac:(lia)) as Huj.
      destruct (Z.ltb_spec i i); [lia|]. rewrite Z.eqb_refl in Hui.
      destruct (Z.ltb_spec j i); [lia|]. destruct (Z.eqb_spec j i); [lia|].
      destruct (Z.ltb_spec j j); [lia|].
      pose proof (ahead_bounds rho j i ltac:(lia)) as Bi.
      pose proof (ahead_bounds rho i j ltac:(lia)) as Bj.
      destruct (Rlt_dec (rho i) (rho j)) as [Hless|Hge].
      * rewrite Hui in Hb. rewrite to_short_small in Hb by lia.
        split; [rewrite (wr_len _ _ _ _ Hb); auto|].
        intros x Hx. destruct (Z.eq_dec x i) as [->|Hne].
        -- rewrite (rd_wr_same _ _ _ _ Hb).
           destruct (Z.ltb_spec i i); [lia|]. rewrite Z.eqb_refl.
           rewrite ahead_succ by lia. rewrite Hji. reflexivity.
        -- rewrite (rd_wr_other _ _ _ _ _ Hb) by auto. rewrite (Hu x Hx).
           destruct (Z.ltb_spec x i); auto.
           destruct (Z.eqb_spec x i); [lia|].
           destruct (Z.ltb_spec x j), (Z.ltb_spec x (j + 1)); auto; try lia.
           assert (x = j) by lia. subst x.
           rewrite ahead_succ by lia. rewrite Hij. f_equal. lia.
      * rewrite Huj in Hb. rewrite to_short_small in Hb by lia.
        split; [rewrite (wr_len _ _ _ _ Hb); auto|].
        intros x Hx. destruct (Z.eq_dec x j) as [->|Hne].
        -- rewrite (rd_wr_same _ _ _ _ Hb).
           destruct (Z.ltb_spec j i); [lia|]. destruct (Z.eqb_spec j i); [lia|].
           destruct (Z.ltb_spec j (j + 1)); [|lia].
           rewrite ahead_succ by lia. rewrite Hij. reflexivity.
        -- rewrite (rd_wr_other _ _ _ _ _ Hb) by auto. rewrite (Hu x Hx).
           destruct (Z.ltb_spec x i); auto.
           destruct (Z.eqb_spec x i) as [->|Hni].
           ++ rewrite ahead_succ by lia. rewrite Hji. f_equal. lia.
           ++ destruct (Z.ltb_spec x j), (Z.ltb_spec x (j + 1)); auto; lia.
    + split; auto. intros x Hx. rewrite (H2 x Hx).
      destruct (Z.ltb_spec x i), (Z.ltb_spec x (i + 1)); auto; try lia.
      * destruct (Z.eqb_spec x i); [reflexivity|lia].
      * destruct (Z.eqb_spec x i); [lia|].
        destruct (Z.ltb_spec x (d + 1)); [reflexivity|lia].
  - split; auto. intros x Hx. rewrite (H2 x Hx).
    destruct (Z.ltb_spec x d); auto.
    assert (x = d) by lia. subst x.
    rewrite ahead_succ by lia. rewrite before_irrefl. f_equal. lia.
Qed.

(** *** The plane correction, coordinate by coordinate *)

Lemma plane_correct_cases (d sum : Z) (rank rank' : list Z) (rem0 rem0' : list R) :
  0 <= d -> 2 * d + 1 <= 32767 -> - (d + 1) <= sum <= d + 1 ->
  len rem0 = d + 1 -> entries_within d 0 d rank ->
  plane_correct d sum rank rem0 = Some (rank', rem0') ->
  len rank' = d + 1 /\ len rem0' = d + 1 /\
  forall i, 0 <= i <= d ->
    exists x r, rd rank i = Some x /\ rd rem0 i = Some r /\
      ((x + sum < 0 /\ rd rank' i = Some (x + sum + (d + 1)) /\
        rd rem0' i = Some (r + IZR (d + 1))%R) \/
       (x + sum > d /\ rd rank' i = Some (x + sum - (d + 1)) /\
        rd rem0' i = Some (r - IZR (d + 1))%R) \/
       (0 <= x + sum <= d /\ rd rank' i = Some (x + sum) /\ rd rem0' i = Some r)).
Proof.
  intros Hd Hs Hsum Hlr [Hlk Hrk] E. unfold plane_correct in E.
  pose proof (for_upto_inv_some
    (fun i (t : list Z * list R) =>
       len (fst t) = d + 1 /\ len (snd t) = d + 1 /\
       (forall i', i <= i' <= d -> rd (fst t) i' = rd rank i' /\ rd (snd t) i' = rd rem0 i') /\
       forall i', 0 <= i' < i ->
         exists x r, rd rank i' = Some x /\ rd rem0 i' = Some r /\
           ((x + sum < 0 /\ rd (fst t) i' = Some (x + sum + (d + 1)) /\
             rd (snd t) i' = Some (r + IZR (d + 1))%R) \/
            (x + sum > d /\ rd (fst t) i' = Some (x + sum - (d + 1)) /\
             rd (snd t) i' = Some (r - IZR (d + 1))%R) \/
            (0 <= x + sum <= d /\ rd (fst t) i' = Some (x + sum) /\ rd (snd t) i' = Some r)))
    0 (d + 1) _ _ _ E ltac:(lia)) as H.
  simpl in H. destruct H as (H1 & H2 & _ & H4).
  - repeat split; auto. intros i' Hi'. lia.
  - clear E. intros i [rk r0] [rk' r0'] Hi (Hl1 & Hl2 & Hrest & Hdone) Hb.
    cbn [fst snd] in *.
    destruct (Hrest i ltac:(lia)) as [Hki Hri].
    destruct (Hrk i ltac:(lia)) as (x & Hx & Hxr).
    destruct (rd_some rem0 i) as [r Hr]; [lia|].
    rewrite Hki, Hx in Hb.
    destruct (int_add x sum) as [y|] eqn:Hy; [|discriminate].
    apply int_add_some in Hy. subst y.
    rewrite to_short_small in Hb by lia.
    destruct (wr rk i (x + sum)) as [rk1|] eqn:Hw1; [|discriminate].
    rewrite (rd_wr_same _ _ _ _ Hw1) in Hb.
    change (@f_add R Exact.arith) with Rplus in Hb.
    change (@f_sub R Exact.arith) with Rminus in Hb.
    change (@f_of_int R Exact.arith) with IZR in Hb.
    assert (Hkeep : forall (rk2 : list Z) (r1 : list R) (v : Z) (w : R),
      (rk2 = rk1 \/ wr rk1 i v = Some rk2) -> (r1 = r0 \/ wr r0 i w = Some r1) ->
      len rk2 = d + 1 /\ len r1 = d + 1 /\
      (forall i', i + 1 <= i' <= d ->
         rd rk2 i' = rd rank i' /\ rd r1 i' = rd rem0 i') /\
      (forall i', 0 <= i' < i -> rd rk2 i' = rd rk i' /\ rd r1 i' = rd r0 i')).
    { intros rk2 r1 v w Hk2 Hr1.
      assert (Ha : len rk2 = d + 1 /\ forall i', i' <> i -> rd rk2 i' = rd rk i').
      { destruct Hk2 as [->|Hw2].
        - split; [rewrite (wr_len _ _ _ _ Hw1); auto|].
          intros i' Hne. apply (rd_wr_other _ _ _ _ _ Hw1). auto.
        - split; [rewrite (wr_len _ _ _ _ Hw2), (wr_len _ _ _ _ Hw1); auto|].
          intros i' Hne. rewrite (rd_wr_other _ _ _ _ _ Hw2) by auto.
          apply (rd_wr_other _ _ _ _ _ Hw1). auto. }
      assert (Hb' : len r1 = d + 1 /\ forall i', i' <> i -> rd r1 i' = rd r0 i').
      { destruct Hr1 as [->|Hw3].
        - split; auto.
        - split; [rewrite (wr_len _ _ _ _ Hw3); auto|].
          intros i' Hne. apply (rd_wr_other _ _ _ _ _ Hw3). auto. }
      destruct Ha as [Ha1 Ha2], Hb' as [Hb1 Hb2].
      repeat split; auto.
      - rewrite Ha2 by lia. apply Hrest. lia.
      - rewrite Hb2 by lia. apply Hrest. lia.
      - apply Ha2. lia.
      - apply Hb2. lia. }
    assert (Hfin : forall (rk2 : list Z) (r1 : list R),
      len rk2 = d + 1 /\ len r1 = d + 1 /\
      (forall i', i + 1 <= i' <= d ->
         rd rk2 i' = rd rank i' /\ rd r1 i' = rd rem0 i') /\
      (forall i', 0 <= i' < i -> rd rk2 i' = rd rk i' /\ rd r1 i' = rd r0 i') ->
      ((x + sum < 0 /\ rd rk2 i = Some (x + sum + (d + 1)) /\
        rd r1 i = Some (r + IZR (d + 1))%R) \/
       (x + sum > d /\ rd rk2 i = Some (x + sum - (d + 1)) /\
        rd r1 i = Some (r - IZR (d + 1))%R) \/
       (0 <= x + sum <= d /\ rd rk2 i = Some (x + sum) /\ rd r1 i = Some r)) ->
      len rk2 = d + 1 /\ len r1 = d + 1 /\
      (forall i', i + 1 <= i' <= d -> rd rk2 i' = rd rank i' /\ rd r1 i' = rd rem0 i') /\
      forall i', 0 <= i' < i + 1 ->
        exists x r, rd rank i' = Some x /\ rd rem0 i' = Some r /\
          ((x + sum < 0 /\ rd rk2 i' = Some (x + sum + (d + 1)) /\
            rd r1 i' = Some (r + IZR (d + 1))%R) \/
           (x + sum > d /\ rd rk2 i' = Some (x + sum - (d + 1)) /\
            rd r1 i' = Some (r - IZR (d + 1))%R) \/
           (0 <= x + sum <= d /\ rd rk2 i' = Some (x + sum) /\ rd r1 i' = Some r))).
    { intros rk2 r1 (K1 & K2 & K3 & K4) Hcase. repeat split; auto; try apply K3; auto.
      intros i' Hi'. destruct (Z.eq_dec i' i) as [->|Hne].
      - exists x, r. split; auto.
      - destruct (Hdone i' ltac:(lia)) as (x' & r' & Hx' & Hr' & Hc').
        exists x', r'. split; auto. split; auto.
        destruct (K4 i' ltac:(lia)) as [-> ->]. exact Hc'. }
    rewrite Hri, Hr in Hb.
    destruct (Z.ltb_spec (x + sum) 0) as [Hneg|Hpos].
    + rewrite to_short_small in Hb by lia.
      destruct (wr rk1 i _) as [rk2|] eqn:Hw2; [|discriminate].
      destruct (wr r0 i _) as [r1|] eqn:Hw3; [|discriminate].
      inversion Hb. subst rk' r0'. clear Hb.
      apply Hfin; [eapply Hkeep; eauto|].
      left. split; auto. split; [apply (rd_wr_same _ _ _ _ Hw2)|apply (rd_wr_same _ _ _ _ Hw3)].
    + destruct (Z.gtb_spec (x + sum) d) as [Hbig|Hok].
      * rewrite to_short_small in Hb by lia.
        destruct (wr rk1 i _) as [rk2|] eqn:Hw2; [|discriminate].
        destruct (wr r0 i _) as [r1|] eqn:Hw3; [|discriminate].
        inversion Hb. subst rk' r0'. clear Hb.
        apply Hfin; [eapply Hkeep; eauto|].
        right. left. split; [lia|].
        split; [apply (rd_wr_same _ _ _ _ Hw2)|apply (rd_wr_same _ _ _ _ Hw3)].
      * inversion Hb. subst rk' r0'. clear Hb.
        apply Hfin; [apply (Hkeep rk1 r0 0 0%R); auto|].
        right. right. split; [lia|].
        split; [apply (rd_wr_same _ _ _ _ Hw1)|congruence].
  - split; auto. split; auto. intros i Hi. apply H4. lia.
Qed.

(** *** What the accumulation leaves in every slot *)

Lemma barycentric_coords_shares (d : Z) (elevated rem0 : list R) (rank : list Z)
    (barycentric0 barycentric : list R) (rk : Z -> Z) (v : Z -> R) :
  0 <= d -> len barycentric0 = d + 2 ->
  (forall i, 0 <= i <= d ->
     exists e r, rd elevated i = Some e /\ rd rem0 i = Some r /\
       rd rank i = Some (rk i) /\ v i = ((e - r) * down_factor d)%R) ->
  barycentric_coords d elevated rem0 rank barycentric0 = Some barycentric ->
  (forall s, 1 <= s <= d ->
     rd barycentric s = Some (Rsum_below (share d rk v s) (Z.to_nat (d + 1)))) /\
  rd barycentric 0
  = Some (Rsum_below (share d rk v 0) (Z.to_nat (d + 1))
          + (1 + Rsum_below (share d rk v (d + 1)) (Z.to_nat (d + 1))))%R.
Proof.
  intros Hd Hl0 Hv E. unfold barycentric_coords in E.
  match type of E with
  | match for_upto ?lo ?hi ?body ?s with _ => _ end = _ =>
      destruct (for_upto lo hi body s) as [b1|] eqn:E1; [|discriminate]
  end.
  assert (H1 : len b1 = d + 2 /\ forall s, 0 <= s <= d + 1 -> rd b1 s = Some 0%R).
  { pose proof (for_upto_inv_some
      (fun i t => len t = d + 2 /\ forall k, 0 <= k < i -> rd t k = Some 0%R)
      0 (d + 2) _ _ _ E1 ltac:(lia)) as H.
    destruct H as [Hl Hz].
    - split; auto. intros k Hk. lia.
    - intros i t t' Hi [Hl Hz] Hw. split; [rewrite (wr_len _ _ _ _ Hw); auto|].
      intros k Hk. destruct (Z.eq_dec k i) as [->|Hne].
      + apply (rd_wr_same _ _ _ _ Hw).
      + rewrite (rd_wr_other _ _ _ _ _ Hw) by auto. apply Hz. lia.
    - split; auto. intros s Hs. apply Hz. lia. }
  clear E1. destruct H1 as [Hl1 Hz1].
  match type of E with
  | match for_upto ?lo ?hi ?body ?s with _ => _ end = _ =>
      destruct (for_upto lo hi body s) as [b2|] eqn:E2; [|discriminate]
  end.
  assert (H2 : len b2 = d + 2 /\
               forall s, 0 <= s <= d + 1 ->
                 rd b2 s = Some (Rsum_below (share d rk v s) (Z.to_nat (d + 1)))).
  { apply (for_upto_inv_some
      (fun i t => len t = d + 2 /\
         forall s, 0 <= s <= d + 1 ->
           rd t s = Some (Rsum_below (share d rk v s) (Z.to_nat i)))
      0 (d + 1) _ _ _ E2 ltac:(lia)).
    - split; auto.
    - clear E2 E. intros i t t' Hi [Hl Hs] Hb.
      destruct (Hv i ltac:(lia)) as (e & r & He & Hr & Hk & Hvi).
      rewrite He, Hr, Hk in Hb.
      change (@f_sub R Exact.arith) with Rminus in Hb.
      change (@f_add R Exact.arith) with Rplus in Hb.
      change (@f_mul R Exact.arith) with Rmult in Hb.
      rewrite <- Hvi in Hb.
      destruct (rd t (d - rk i)) as [x|] eqn:Hx; [|discriminate].
      destruct (wr t (d - rk i) _) as [t1|] eqn:Hw1; [|discriminate].
      destruct (rd t1 (d - rk i + 1)) as [y|] eqn:Hy; [|discriminate].
      pose proof (rd_range _ _ _ Hx) as Rx. pose proof (rd_range _ _ _ Hy) as Ry.
      rewrite (wr_len _ _ _ _ Hw1) in Ry.
      rewrite (rd_wr_other _ _ _ _ _ Hw1) in Hy by lia.
      rewrite Hs in Hx by lia. rewrite Hs in Hy by lia.
      inversion Hx. inversion Hy. clear Hx Hy.
      split; [rewrite (wr_len _ _ _ _ Hb), (wr_len _ _ _ _ Hw1); auto|].
      intros s Hs'.
      replace (Z.to_nat (i + 1)) with (S (Z.to_nat i)) by lia. simpl.
      rewrite Z2Nat.id by lia. unfold share at 2.
      destruct (Z.eq_dec s (d - rk i + 1)) as [->|Hne1].
      + rewrite (rd_wr_same _ _ _ _ Hb).
        destruct (Z.eqb_spec (d - rk i) (d - rk i + 1)); [lia|].
        rewrite Z.eqb_refl. f_equal. lra.
      + rewrite (rd_wr_other _ _ _ _ _ Hb) by auto.
        destruct (Z.eqb_spec (d - rk i + 1) s); [lia|].
        destruct (Z.eq_dec s (d - rk i)) as [->|Hne2].
        * rewrite (rd_wr_same _ _ _ _ Hw1). rewrite Z.eqb_refl. f_equal. lra.
        * rewrite (rd_wr_other _ _ _ _ _ Hw1) by auto.
          destruct (Z.eqb_spec (d - rk i) s); [lia|].
          rewrite Hs by lia. f_equal. lra. }
  clear E2. destruct H2 as [Hl2 Hs2].
  rewrite !Hs2 in E by lia.
  change (@f_add R Exact.arith) with Rplus in E.
  change (@f_one R Exact.arith) with 1%R in E.
  split.
  - intros s Hs. rewrite (rd_wr_other _ _ _ _ _ E) by lia. apply Hs2. lia.
  - apply (rd_wr_same _ _ _ _ E).
Qed.

Lemma rd_nth {A} (a : list A) (i : Z) (x dflt : A) :
  rd a i = Some x -> nth (Z.to_nat i) a dflt = x.
Proof.
  unfold rd. destruct (i <? 0); [discriminate|]. apply nth_error_nth.
Qed.

Lemma shares_nonneg (d : Z) (rk : Z -> Z) (rho v : Z -> R) :
  0 <= d ->
  (forall i, 0 <= i <= d -> 0 <= rk i <= d) ->
  (forall i j, 0 <= i <= d -> 0 <= j <= d -> rk i = rk j -> i = j) ->
  (forall i j, 0 <= i <= d -> 0 <= j <= d -> rk i < rk j -> (rho j <= rho i)%R) ->
  (forall i j, 0 <= i <= d -> 0 <= j <= d -> (rho i - rho j <= IZR (d + 1))%R) ->
  (forall i, 0 <= i <= d -> v i = (rho i * down_factor d)%R) ->
  (forall s, 1 <= s <= d ->
     (0 <= Rsum_below (share d rk v s) (Z.to_nat (d + 1)))%R) /\
  (0 <= Rsum_below (share d rk v 0) (Z.to_nat (d + 1))
        + (1 + Rsum_below (share d rk v (d + 1)) (Z.to_nat (d + 1))))%R.
Proof.
  intros Hd Hr Hinj Hord Hspread Hv.
  pose proof (onto_of_one_to_one rk d Hd Hr Hinj) as Honto.
  assert (HD : (0 < IZR (d + 1))%R) by (apply IZR_lt; lia).
  assert (Hdf : down_factor d = (/ IZR (d + 1))%R).
  { unfold down_factor. change (@f_div R Exact.arith) with Rdiv.
    change (@f_one R Exact.arith) with 1%R. change (@f_of_int R Exact.arith) with IZR.
    unfold Rdiv. lra. }
  assert (Hinv : (0 < / IZR (d + 1))%R) by (apply Rinv_0_lt_compat; exact HD).
  assert (Hsplit : forall s,
    Rsum_below (share d rk v s) (Z.to_nat (d + 1))
    = (Rsum_below (fun i => if d - rk i =? s then v i else 0%R) (Z.to_nat (d + 1))
       - Rsum_below (fun i => if d - rk i + 1 =? s then v i else 0%R) (Z.to_nat (d + 1)))%R).
  { intros s. rewrite <- Rsum_below_minus. reflexivity. }
  assert (Hone : forall t a, 0 <= a <= d -> rk a = t ->
    Rsum_below (fun i => if rk i =? t then v i else 0%R) (Z.to_nat (d + 1)) = v a).
  { intros t a Ha Hka. rewrite (Rsum_below_single _ _ a); [|lia|].
    - rewrite Hka, Z.eqb_refl. reflexivity.
    - intros i Hi Hne. destruct (Z.eqb_spec (rk i) t); auto.
      exfalso. apply Hne. apply Hinj; try lia. }
  assert (Hp : forall s a, 0 <= a <= d -> rk a = d - s ->
    Rsum_below (fun i => if d - rk i =? s then v i else 0%R) (Z.to_nat (d + 1)) = v a).
  { intros s a Ha Hka. rewrite <- (Hone (d - s) a Ha Hka).
    assert (E : forall n, Rsum_below (fun i => if d - rk i =? s then v i else 0%R) n
                        = Rsum_below (fun i => if rk i =? d - s then v i else 0%R) n).
    { induction n as [|n IH]; simpl; auto. rewrite IH. f_equal.
      destruct (Z.eqb_spec (d - rk (Z.of_nat n)) s), (Z.eqb_spec (rk (Z.of_nat n)) (d - s));
        auto; lia. }
    apply E. }
  assert (Hq : forall s a, 0 <= a <= d -> rk a = d - s + 1 ->
    Rsum_below (fun i => if d - rk i + 1 =? s then v i else 0%R) (Z.to_nat (d + 1)) = v a).
  { intros s a Ha Hka. rewrite <- (Hone (d - s + 1) a Ha Hka).
    assert (E : forall n, Rsum_below (fun i => if d - rk i + 1 =? s then v i else 0%R) n
                        = Rsum_below (fun i => if rk i =? d - s + 1 then v i else 0%R) n).
    { induction n as [|n IH]; simpl; auto. rewrite IH. f_equal.
      destruct (Z.eqb_spec (d - rk (Z.of_nat n) + 1) s),
        (Z.eqb_spec (rk (Z.of_nat n)) (d - s + 1)); auto; lia. }
    apply E. }
  split.
  - intros s Hs. rewrite Hsplit.
    destruct (Honto (d - s) ltac:(lia)) as (a & Ha & Hka).
    destruct (Honto (d - s + 1) ltac:(lia)) as (b & Hb & Hkb).
    rewrite (Hp s a Ha Hka), (Hq s b Hb Hkb).
    rewrite (Hv a Ha), (Hv b Hb), Hdf.
    pose proof (Hord a b Ha Hb ltac:(lia)). nra.
  - rewrite !Hsplit.
    destruct (Honto d ltac:(lia)) as (a & Ha & Hka).
    destruct (Honto 0 ltac:(lia)) as (b & Hb & Hkb).
    rewrite (Hp 0 a Ha ltac:(lia)), (Hq (d + 1) b Hb ltac:(lia)).
    rewrite (Rsum_below_zero (fun i => if d - rk i + 1 =? 0 then v i else 0%R)).
    2:{ intros i Hi. pose proof (Hr i ltac:(lia)).
        destruct (Z.eqb_spec (d - rk i + 1) 0); auto; lia. }
    rewrite (Rsum_below_zero (fun i => if d - rk i =? d + 1 then v i else 0%R)).
    2:{ intros i Hi. pose proof (Hr i ltac:(lia)).
        destruct (Z.eqb_spec (d - rk i) (d + 1)); auto; lia. }
    rewrite (Hv a Ha), (Hv b Hb), Hdf.
    pose proof (Hspread b a Hb Ha).
    assert ((rho b - rho a) * / IZR (d + 1) <= 1)%R.
    { apply (Rmult_le_reg_r (IZR (d + 1))); auto.
      rewrite Rmult_assoc, Rinv_l by lra. lra. }
    lra.
Qed.

Lemma point_weights_nonneg (d sum : Z) (elevated rem00 rem0 rem0' : list R)
    (rank0 rank rank' : list Z) (barycentric0 barycentric : list R) :
  0 <= d -> 2 * d + 1 <= 32767 ->
  len elevated = d + 1 -> Rsum elevated = 0%R ->
  len rem00 = d + 1 -> len rank0 = d + 1 -> len barycentric0 = d + 2 ->
  round_to_cell d elevated rem00 = Some (rem0, sum) ->
  rank_residuals d elevated rem0 rank0 = Some rank ->
  plane_correct d sum rank rem0 = Some (rank', rem0') ->
  barycentric_coords d elevated rem0' rank' barycentric0 = Some barycentric ->
  len rem0' = d + 1 /\ len rank' = d + 1 /\
  forall s, 0 <= s <= d -> exists b, rd barycentric s = Some b /\ (0 <= b)%R.
Proof.
  intros Hd Hs Hle Hplane Hl0 Hlk0 Hlb0 Eround Erank Eplane Ebary.
  assert (HD : (0 < IZR (d + 1))%R) by (apply IZR_lt; lia).
  pose proof (round_to_cell_sum _ _ _ _ _ Hd Hle Hl0 Hplane Eround) as Hsum.
  destruct (round_to_cell_near _ _ _ _ _ Hd Hle Hl0 Eround) as (Hlr & Hnear & _).
  set (rho := residual elevated rem0).
  assert (Hrho : forall i, 0 <= i <= d ->
    exists e r, rd elevated i = Some e /\ rd rem0 i = Some r /\ rho i = (e - r)%R).
  { intros i Hi. destruct (Hnear i Hi) as (e & r & He & Hr & _).
    exists e, r. split; auto. split; auto. unfold rho, residual.
    now rewrite (rd_nth _ _ _ 0%R He), (rd_nth _ _ _ 0%R Hr). }
  assert (Hbound : forall i, 0 <= i <= d ->
    (- (IZR (d + 1) / 2) <= rho i <= IZR (d + 1) / 2)%R).
  { intros i Hi. destruct (Hnear i Hi) as (e & r & He & Hr & Hb).
    unfold rho, residual.
    now rewrite (rd_nth _ _ _ 0%R He), (rd_nth _ _ _ 0%R Hr). }
  destruct (rank_residuals_counts _ _ _ _ _ rho Hd ltac:(lia) Hlk0 Hrho Erank)
    as [Hlk Hcount].
  assert (Hwithin : entries_within d 0 d rank).
  { destruct (rank_residuals_within d elevated rem0 rank0) as (rank2 & E2 & Hw);
      auto; try lia.
    rewrite Erank in E2. inversion E2. exact Hw. }
  assert (Hrange : forall i, 0 <= i <= d -> 0 <= ahead rho (d + 1) i <= d).
  { intros i Hi. destruct Hwithin as [_ Hw]. destruct (Hw i Hi) as (x & Hx & Hxr).
    rewrite (Hcount i Hi) in Hx. inversion Hx. lia. }
  destruct (plane_correct_cases _ _ _ _ _ _ Hd Hs Hsum Hlr Hwithin Eplane)
    as (Hlk' & Hlr' & Hcases).
  split; auto. split; auto.
  set (rk' := rank_at rank').
  set (rho' := residual elevated rem0').
  set (v := fun i => (rho' i * down_factor d)%R).
  assert (Hcase : forall i, 0 <= i <= d ->
    (ahead rho (d + 1) i + sum < 0 /\ rk' i = ahead rho (d + 1) i + sum + (d + 1) /\
     rho' i = (rho i - IZR (d + 1))%R) \/
    (ahead rho (d + 1) i + sum > d /\ rk' i = ahead rho (d + 1) i + sum - (d + 1) /\
     rho' i = (rho i + IZR (d + 1))%R) \/
    (0 <= ahead rho (d + 1) i + sum <= d /\ rk' i = ahead rho (d + 1) i + sum /\
     rho' i = rho i)).
  { intros i Hi. destruct (Hcases i Hi) as (x & r & Hx & Hr & Hc).
    destruct (Hrho i Hi) as (e & r2 & He & Hr2 & Hrhoi).
    rewrite Hr in Hr2. inversion Hr2. subst r2. clear Hr2.
    rewrite (Hcount i Hi) in Hx. inversion Hx. subst x. clear Hx.
    unfold rk', rho', rank_at, residual. rewrite (rd_nth _ _ _ 0%R He).
    destruct Hc as [(H1 & H2 & H3)|[(H1 & H2 & H3)|(H1 & H2 & H3)]];
      rewrite (rd_nth _ _ _ 0 H2), (rd_nth _ _ _ 0%R H3); [left|right; left|right; right];
      split; auto; split; auto; rewrite Hrhoi; lra. }
  assert (Hfacts : forall i j, 0 <= i <= d -> 0 <= j <= d ->
    0 <= rk' i <= d /\ (rk' i = rk' j -> i = j) /\
    (rk' i < rk' j -> (rho' j <= rho' i)%R) /\
    (rho' i - rho' j <= IZR (d + 1))%R).
  { intros i j Hi Hj.
    pose proof (Hrange i Hi) as Ri. pose proof (Hrange j Hj) as Rj.
    pose proof (Hbound i Hi) as Bi. pose proof (Hbound j Hj) as Bj.
    pose proof (ahead_inj rho (d + 1) i j ltac:(lia) ltac:(lia)) as Hinj.
    pose proof (ahead_order rho (d + 1) i j ltac:(lia) ltac:(lia)) as Hij.
    pose proof (ahead_order rho (d + 1) j i ltac:(lia) ltac:(lia)) as Hji.
    assert (HDz : IZR (d + 1) = IZR (d + 1)) by reflexivity.
    destruct (Hcase i Hi) as [(I1 & I2 & I3)|[(I1 & I2 & I3)|(I1 & I2 & I3)]];
      destruct (Hcase j Hj) as [(J1 & J2 & J3)|[(J1 & J2 & J3)|(J1 & J2 & J3)]];
      rewrite I2, I3, J2, J3;
      (split; [lia|]); (split; [intros; apply Hinj; lia|]);
      (split; [intros Hlt|]);
      try lia; try lra;
      try (assert (rho j <= rho i)%R by (apply Hij; lia); lra);
      try (assert (rho i <= rho j)%R by (apply Hji; lia); lra). }
  assert (Hv : forall i, 0 <= i <= d ->
    exists e r, rd elevated i = Some e /\ rd rem0' i = Some r /\
      rd rank' i = Some (rk' i) /\ v i = ((e - r) * down_factor d)%R).
  { intros i Hi. destruct (Hcases i Hi) as (x & r & Hx & Hr & Hc).
    destruct (Hrho i Hi) as (e & r2 & He & Hr2 & Hrhoi).
    assert (Hex : exists r' x', rd rem0' i = Some r' /\ rd rank' i = Some x').
    { destruct Hc as [(H1 & H2 & H3)|[(H1 & H2 & H3)|(H1 & H2 & H3)]]; eauto. }
    destruct Hex as (r' & x' & Hr' & Hx').
    exists e, r'. split; auto. split; auto.
    unfold v, rk', rho', rank_at, residual.
    rewrite (rd_nth _ _ _ 0%R He), (rd_nth _ _ _ 0%R Hr'), (rd_nth _ _ _ 0 Hx').
    split; auto. }
  destruct (barycentric_coords_shares _ _ _ _ _ _ rk' v Hd Hlb0 Hv Ebary) as [Hmid Hfirst].
  destruct (shares_nonneg d rk' rho' v Hd) as [Nmid Nfirst].
  - intros i Hi. apply (Hfacts i i Hi Hi).
  - intros i j Hi Hj. apply (Hfacts i j Hi Hj).
  - intros i j Hi Hj. apply (Hfacts i j Hi Hj).
  - intros i j Hi Hj. apply (Hfacts i j Hi Hj).
  - intros i Hi. reflexivity.
  - intros s Hs'. destruct (Z.eq_dec s 0) as [->|Hne].
    + eexists. split; [exact Hfirst|exact Nfirst].
    + eexists. split; [apply Hmid; lia|apply Nmid; lia].
Qed.

Lemma Forall_rd {A} (P : A -> Prop) (w : list A) :
  (forall i, 0 <= i < len w -> exists b, rd w i = Some b /\ P b) -> Forall P w.
Proof.
  intros H. apply Forall_forall. intros x Hx.
  apply In_nth_error in Hx. destruct Hx as [n Hn].
  assert (Hlt : (n < length w)%nat) by (apply nth_error_Some; congruence).
  destruct (H (Z.of_nat n)) as (b & Hb & HP); [unfold len; lia|].
  unfold rd in Hb. destruct (Z.ltb_spec (Z.of_nat n) 0); [lia|].
  rewrite Nat2Z.id in Hb. congruence.
Qed.

Lemma locate_all_nonneg (d N : Z) (feature scale_factor : list R) (canonical : list Z)
    (st st' : Build R) :
  0 <= d -> 2 * d + 1 <= 32767 -> 0 <= N ->
  len (s_elevated st) = d + 1 -> len (s_rem0 st) = d + 1 ->
  len (s_rank st) = d + 1 -> len (s_barycentric st) = d + 2 ->
  for_upto 0 N (locate d feature scale_factor canonical) st = Some st' ->
  forall idx, 0 <= idx < N * (d + 1) ->
    exists b, rd (s_bary st') idx = Some b /\ (0 <= b)%R.
Proof.
  intros Hd Hs HN L1 L2 L3 L4 E.
  apply (for_upto_inv_some
    (fun k (t : Build R) =>
       len (s_elevated t) = d + 1 /\ len (s_rem0 t) = d + 1 /\
       len (s_rank t) = d + 1 /\ len (s_barycentric t) = d + 2 /\
       forall idx, 0 <= idx < k * (d + 1) ->
         exists b, rd (s_bary t) idx = Some b /\ (0 <= b)%R)
    0 N _ _ _ E HN).
  - repeat split; auto. intros idx Hidx. lia.
  - intros k t t' Hk (K1 & K2 & K3 & K4 & Hdone) Hb.
    apply locate_stages in Hb.
    destruct Hb as (el & r0 & sum & rk & rk' & r0' & bc & Hel & Hround & Hrank & Hplane
                    & Hbc & Hres & S1 & S2 & S3 & S4).
    destruct (elevate_on_plane _ _ _ _ _ _ Hd K1 Hel) as [Lel Hzero].
    destruct (point_weights_nonneg _ _ _ _ _ _ _ _ _ _ _ Hd Hs Lel Hzero K2 K3 K4
                Hround Hrank Hplane Hbc) as (Lr' & Lk' & Hnn).
    destruct (barycentric_coords_sum _ _ _ _ _ _ Hd K4 Hbc) as [Lbc _].
    apply resolve_corners_spec in Hres; auto.
    destruct Hres as (_ & _ & _ & _ & _ & _ & R7 & R8).
    rewrite S1, S2, S3, S4. repeat split; auto.
    intros idx Hidx.
    destruct (Z_lt_ge_dec idx (k * (d + 1))) as [Hold|Hnew].
    + rewrite R8 by lia. apply Hdone. lia.
    + replace idx with (k * (d + 1) + (idx - k * (d + 1))) by lia.
      destruct (R7 (idx - k * (d + 1)) ltac:(lia)) as (b & Hb1 & Hb2).
      destruct (Hnn (idx - k * (d + 1)) ltac:(lia)) as (b' & Hb1' & Hb').
      exists b. split; auto. congruence.
Qed.


Lemma for_upto_1 {St} (lo hi : Z) (body : Z -> St -> option St) (s : St) :
  hi = lo + 1 -> for_upto lo hi body s = body lo s.
Proof. intros ->. apply for_upto_one. Qed.

Lemma for_upto_2 {St} (lo hi : Z) (body : Z -> St -> option St) (s : St) :
  hi = lo + 2 ->
  for_upto lo hi body s = (s1 <- body lo s ;; body (lo + 1) s1).
Proof.
  intros ->. replace (lo + 2) with (lo + 1 + 1) by lia.
  rewrite for_upto_last by lia. now rewrite for_upto_one.
Qed.

Lemma for_upto_3 {St} (lo hi : Z) (body : Z -> St -> option St) (s : St) :
  hi = lo + 3 ->
  for_upto lo hi body s
  = (s1 <- body lo s ;; s2 <- body (lo + 1) s1 ;; body (lo + 2) s2).
Proof.
  intros ->. replace (lo + 3) with (lo + 2 + 1) by lia.
  rewrite for_upto_last by lia. rewrite (for_upto_2 lo (lo + 2)) by lia.
  destruct (body lo s); reflexivity.
Qed.

Lemma for_downto_1 {St} (hi lo : Z) (body : Z -> St -> option St) (s : St) :
  hi = lo + 1 -> for_downto hi lo body s = body hi s.
Proof.
  intros ->. unfold for_downto. replace (Z.to_nat (lo + 1 - lo)) with 1%nat by lia.
  simpl. destruct (body (lo + 1) s); reflexivity.
Qed.

Lemma round_int_0 (x : R) : x = 0%R -> Exact.round_int x = Some 0.
Proof.
  intros ->. unfold Exact.round_int, Exact.round_away.
  destruct (Rle_dec 0 0) as [_|H]; [|exfalso; lra].
  replace (Int_part (0 + / 2)) with 0.
  - reflexivity.
  - apply Int_part_spec. simpl. lra.
Qed.

Lemma lt_same (x y : R) : x = y -> (if Rlt_dec x y then true else false) = false.
Proof. intros ->. destruct (Rlt_dec y y) as [H|H]; [exfalso; lra|reflexivity]. Qed.

Lemma Int_part_IZR (z : Z) : Int_part (IZR z) = z.
Proof. symmetry. apply Int_part_spec. lra. Qed.

Lemma trunc_short_IZR (x : R) (z : Z) :
  x = IZR z -> 0 <= z <= 32767 -> Exact.trunc_short x = Some z.
Proof.
  intros -> Hz. unfold Exact.trunc_short, Exact.trunc.
  destruct (Rle_dec 0 (IZR z)) as [_|H].
  - rewrite Int_part_IZR.
    destruct (Z.leb_spec (-32768) z); [|lia]. destruct (Z.leb_spec z 32767); [|lia].
    reflexivity.
  - exfalso. apply H. apply IZR_le. lia.
Qed.

Ltac exec :=
  repeat first
    [ rewrite for_upto_1 by reflexivity
    | rewrite for_upto_2 by reflexivity
    | rewrite for_upto_3 by reflexivity
    | rewrite for_downto_1 by reflexivity
    | rewrite round_int_0 by lra
    | rewrite lt_same by lra
    | rewrite (trunc_short_IZR _ 0) by (try lra; lia)
    | rewrite (trunc_short_IZR _ 1) by (try lra; lia)
    | progress (unfold rd, wr, len, int_add; simpl) ].

Lemma elevate_origin (s e0 e1 : R) :
  elevate (F:=R) 1 [0%R] [s] 0 [e0; e1] = Some [0%R; 0%R].
Proof. unfold elevate. exec. repeat f_equal; lra. Qed.

Lemma round_origin (r0 r1 : R) :
  round_to_cell (F:=R) 1 [0%R; 0%R] [r0; r1] = Some ([0%R; 0%R], 0).
Proof. unfold round_to_cell, down_factor, up_factor. exec. repeat f_equal; lra. Qed.

Lemma rank_origin (k0 k1 : Z) :
  rank_residuals (F:=R) 1 [0%R; 0%R] [0%R; 0%R] [k0; k1] = Some [0; 1].
Proof. unfold rank_residuals. exec. reflexivity. Qed.

Lemma plane_origin :
  plane_correct (F:=R) 1 0 [0; 1] [0%R; 0%R] = Some ([0; 1], [0%R; 0%R]).
Proof. unfold plane_correct. exec. reflexivity. Qed.

Lemma barycentric_origin (b0 b1 b2 : R) :
  barycentric_coords (F:=R) 1 [0%R; 0%R] [0%R; 0%R] [0; 1] [b0; b1; b2]
  = Some [1%R; 0%R; 0%R].
Proof. unfold barycentric_coords, down_factor. exec. repeat f_equal; lra. Qed.

Lemma corners_origin (k0 k1 o0 o1 : Z) (w0 w1 : R) :
  resolve_corners (F:=R) 1 [0; 0; 1; -1] 0 [0%R; 0%R] [0; 1] [1%R; 0%R; 0%R]
    (HashTable_new 1 2, [k0; k1], [o0; o1], [w0; w1])
  = Some ({| key_size_ := 1; keys_ := [[0]; [1]] |}, [1; k1], [0; 1], [1%R; 0%R]).
Proof. unfold resolve_corners. exec. reflexivity. Qed.

Lemma locate_origin (s : R) :
  locate (F:=R) 1 [0%R] [s] [0; 0; 1; -1] 0
    {| s_hash_table := HashTable_new 1 2; s_offset := [0; 0]; s_bary := [0%R; 0%R];
       s_elevated := [0%R; 0%R]; s_rem0 := [0%R; 0%R];
       s_barycentric := [0%R; 0%R; 0%R]; s_rank := [0; 0]; s_key := [0; 0] |}
  = Some
    {| s_hash_table := {| key_size_ := 1; keys_ := [[0]; [1]] |};
       s_offset := [0; 1]; s_bary := [1%R; 0%R];
       s_elevated := [0%R; 0%R]; s_rem0 := [0%R; 0%R];
       s_barycentric := [1%R; 0%R; 0%R]; s_rank := [0; 1]; s_key := [1; 0] |}.
Proof.
  unfold locate. cbv [s_hash_table s_offset s_bary s_elevated s_rem0 s_barycentric s_rank s_key].
  rewrite elevate_origin, round_origin, rank_origin, plane_origin, barycentric_origin,
    corners_origin.
  reflexivity.
Qed.

Lemma init_origin_exact (stray : Z -> Z) : init (F:=R) stray [0%R] 1 1 = Some origin_lattice.
Proof.
  rewrite (init_fresh FM zeroed stray (fun _ => 0)).
  rewrite init_unfold.
  change (int_add 1 1) with (Some 2).
  change (int_mul 1 (1 + 1)) with (Some 2).
  change (int_mul (1 + 1) 1) with (Some 2).
  change (int_add 1 2) with (Some 3).
  change (int_mul (1 + 1) (1 + 1)) with (Some 4).
  cbv beta iota.
  change (alloc ((1 + 1) * 1) (fresh_int (Fresh:=zeroed) 0)) with (Some [0; 0]).
  change (alloc ((1 + 1) * 1) (fresh_float (Fresh:=zeroed) 0)) with (Some [0%R; 0%R]).
  change (alloc 1 (fresh_float (Fresh:=zeroed) 1)) with (Some [0%R]).
  change (alloc (1 + 1) (fresh_float (Fresh:=zeroed) 2)) with (Some [0%R; 0%R]).
  change (alloc (1 + 1) (fresh_float (Fresh:=zeroed) 3)) with (Some [0%R; 0%R]).
  change (alloc (1 + 2) (fresh_float (Fresh:=zeroed) 4)) with (Some [0%R; 0%R; 0%R]).
  change (alloc (1 + 1) (fresh_int (Fresh:=zeroed) 1)) with (Some [0; 0]).
  change (alloc ((1 + 1) * (1 + 1)) (fresh_int (Fresh:=zeroed) 2))
    with (Some [0; 0; 0; 0]).
  change (alloc (1 + 1) (fresh_int (Fresh:=zeroed) 3)) with (Some [0; 0]).
  cbv beta iota.
  change (canonical_simplex 1 [0; 0; 0; 0]) with (Some [0; 0; 1; -1]).
  cbv beta iota.
  unfold scale_factors. rewrite for_upto_1 by reflexivity.
  change (wr [0%R] 0 ?v) with (Some [v]).
  cbv beta iota.
  rewrite for_upto_1 by reflexivity.
  change (HashTable_new 1 (1 * (1 + 1))) with (HashTable_new 1 2).
  rewrite locate_origin.
  cbv beta iota. cbv [s_hash_table s_offset s_bary].
  change (size {| key_size_ := 1; keys_ := [[0]; [1]] |}) with 2.
  change (int_mul (1 + 1) 2) with (Some 4).
  cbv beta iota.
  change (alloc ((1 + 1) * 2) (fun _ => Neighbors_new))
    with (Some (repeat {| n1 := 0; n2 := 0 |} 4)).
  change (alloc (1 + 1) (fresh_int (Fresh:=zeroed) 4)) with (Some [0; 0]).
  change (alloc (1 + 1) (fresh_int (Fresh:=zeroed) 5)) with (Some [0; 0]).
  cbv beta iota.
  reflexivity.
Qed.

Lemma built_origin_exact : built origin_lattice.
Proof. apply (init_built (fun _ => 0) [0%R] 1 1). apply init_origin_exact. Qed.

Lemma alpha_origin : alpha origin_lattice = (2 / 3)%R.
Proof. unfold alpha. simpl. lra. Qed.

Lemma rows_zeros (value_size : Z) :
  0 <= value_size ->
  rows value_size (repeat 0%R (Z.to_nat (4 * value_size))) (fun _ _ => 0%R).
Proof.
  intros Hvs v k Hv Hk. apply rd_repeat. nia.
Qed.

Lemma rd_channel (inp : list R) (k : Z) :
  0 <= k < len inp -> rd inp k = Some (channel inp k).
Proof.
  intros Hk. unfold rd, channel. destruct (Z.ltb_spec k 0); [lia|].
  apply nth_error_nth'. unfold len in Hk. lia.
Qed.

Lemma splat_origin (inp values values' : list R) (value_size : Z) :
  0 <= value_size -> len inp = value_size ->
  rows value_size values (fun _ _ => 0%R) ->
  splat origin_lattice inp value_size 0 1 values = Some values' ->
  rows value_size values' (fun v k => if v =? 1 then channel inp k else 0%R).
Proof.
  intros Hvs Hl Hz E. apply splat_some in E.
  rewrite for_upto_1 in E by reflexivity.
  rewrite for_upto_2 in E by reflexivity.
  change (table (offset_ origin_lattice) ((0 + 0) * (d_ origin_lattice + 1) + 0))
    with (Some 0) in E.
  change (table (barycentric_ origin_lattice) ((0 + 0) * (d_ origin_lattice + 1) + 0))
    with (Some 1%R) in E.
  change (table (offset_ origin_lattice) ((0 + 0) * (d_ origin_lattice + 1) + (0 + 1)))
    with (Some 1) in E.
  change (table (barycentric_ origin_lattice) ((0 + 0) * (d_ origin_lattice + 1) + (0 + 1)))
    with (Some 0%R) in E.
  cbv beta iota zeta in E.
  match type of E with
  | match for_upto ?lo ?hi ?body ?s with _ => _ end = _ =>
      destruct (for_upto lo hi body s) as [va|] eqn:Ea; [|discriminate]
  end.
  apply (row_loop_some ((0 + 1) * value_size) value_size _
           (fun k v => x <- rd inp (0 * value_size + k) ;; Some (f_add v (f_mul 1%R x))))
    in Ea; [|intros; apply splat_row_update].
  apply (row_loop_some ((1 + 1) * value_size) value_size _
           (fun k v => x <- rd inp (0 * value_size + k) ;; Some (f_add v (f_mul 0%R x))))
    in E; [|intros; apply splat_row_update].
  destruct Ea as (_ & Ha & Hra). destruct E as (_ & Hb & Hrb).
  intros v k Hv Hk.
  assert (Hx : rd inp (0 * value_size + k) = Some (channel inp k)).
  { replace (0 * value_size + k) with k by lia. apply rd_channel. lia. }
  assert (Hcase : v = 0 \/ v = 1 \/ v = 2 \/ v = 3) by lia.
  destruct Hcase as [H0|[H0|[H0|H0]]]; subst v; simpl (_ =? _).
  - rewrite Hrb by nia. rewrite Hra by nia. apply (Hz 0 k); lia.
  - rewrite Hrb by nia.
    destruct (Ha k Hk) as (x & y & Hx1 & Hy & Hrd).
    change ((0 + 1) * value_size) with (1 * value_size) in *.
    rewrite Hrd. rewrite (Hz 1 k) in Hx1 by lia. inversion Hx1. subst x.
    rewrite Hx in Hy. inversion Hy. simpl. f_equal. lra.
  - destruct (Hb k Hk) as (x & y & Hx1 & Hy & Hrd).
    change ((1 + 1) * value_size) with (2 * value_size) in *.
    rewrite Hrd. rewrite Hra in Hx1 by nia. rewrite (Hz 2 k) in Hx1 by lia.
    inversion Hx1. subst x. rewrite Hx in Hy. inversion Hy. simpl. f_equal. lra.
  - rewrite Hrb by nia. rewrite Hra by nia. apply (Hz 3 k); lia.
Qed.

Lemma blur_value_origin (value_size j i k : Z) (old : list R) (f : Z -> Z -> R) :
  0 <= j <= 1 -> 0 <= i <= 1 -> 0 <= k < value_size ->
  rows value_size old f ->
  blur_value origin_lattice value_size j old i k
  = Some (f (i + 1)%Z k
          + / 2 * (f (fst (origin_slots j i)) k + f (snd (origin_slots j i)) k))%R.
Proof.
  intros Hj Hi Hk Hf. unfold blur_value.
  assert (Hjc : j = 0 \/ j = 1) by lia. assert (Hic : i = 0 \/ i = 1) by lia.
  destruct Hjc as [Hj0|Hj0]; destruct Hic as [Hi0|Hi0]; subst j i;
    match goal with
    | |- context [table ?t ?ix] =>
        let nb := eval vm_compute in (table t ix) in
        change (table t ix) with nb
    end;
    cbv beta iota;
    match goal with
    | |- context [rd old (?a * value_size + k)] =>
        let a' := eval vm_compute in a in change a with a'
    end;
    rewrite (Hf _ k) by lia;
    match goal with
    | |- context [rd old ((n1 ?nb + 1) * value_size + k)] =>
        let a' := eval vm_compute in (n1 nb + 1) in change (n1 nb + 1) with a'
    end;
    rewrite (Hf _ k) by lia;
    match goal with
    | |- context [rd old ((n2 ?nb + 1) * value_size + k)] =>
        let a' := eval vm_compute in (n2 nb + 1) in change (n2 nb + 1) with a'
    end;
    rewrite (Hf _ k) by lia;
    reflexivity.
Qed.

Lemma blur_origin (value_size j : Z) (old newv cur nxt : list R) (f g : Z -> Z -> R) :
  0 <= value_size -> 0 <= j <= 1 ->
  rows value_size old f -> rows value_size newv g ->
  blur_axis origin_lattice value_size j (old, newv) = Some (cur, nxt) ->
  nxt = old /\
  rows value_size cur
    (fun v k =>
       if (1 <=? v) && (v <=? 2)
       then (f v k + / 2 * (f (fst (origin_slots j (v - 1)%Z)) k
                           + f (snd (origin_slots j (v - 1)%Z)) k))%R
       else g v k).
Proof.
  intros Hvs Hj Hf Hg E.
  apply blur_axis_spec in E; auto. destruct E as (Hn & _ & Hrow & Hrest).
  split; [exact Hn|]. intros v k Hv Hk.
  change (M_ origin_lattice) with 2 in *.
  destruct (Z.leb_spec 1 v); destruct (Z.leb_spec v 2); simpl.
  - destruct (Hrow (v - 1) k ltac:(lia) Hk) as (x & Hx & Hrd).
    replace (v - 1 + 1) with v in Hrd by lia. rewrite Hrd.
    rewrite (blur_value_origin value_size j (v - 1) k old f) in Hx; auto; try lia.
    replace (v - 1 + 1) with v in Hx by lia. congruence.
  - rewrite Hrest by nia. apply Hg; auto.
  - rewrite Hrest by nia. apply Hg; auto.
  - lia.
Qed.

Lemma slice_value_origin (value_size k : Z) (values : list R) (f : Z -> Z -> R) :
  0 <= k < value_size -> rows value_size values f ->
  slice_value origin_lattice values value_size (0 + 0) k
  = Some (0 + 1 * f 1%Z k * (2 / 3) + 0 * f 2%Z k * (2 / 3))%R.
Proof.
  intros Hk Hf. unfold slice_value, slice_partial.
  rewrite for_upto_2 by reflexivity.
  change (table (offset_ origin_lattice) ((0 + 0) * (d_ origin_lattice + 1) + 0))
    with (Some 0).
  change (table (barycentric_ origin_lattice) ((0 + 0) * (d_ origin_lattice + 1) + 0))
    with (Some 1%R).
  change (table (offset_ origin_lattice) ((0 + 0) * (d_ origin_lattice + 1) + (0 + 1)))
    with (Some 1).
  change (table (barycentric_ origin_lattice) ((0 + 0) * (d_ origin_lattice + 1) + (0 + 1)))
    with (Some 0%R).
  cbv beta iota.
  change (0 + 1) with 1. change (1 + 1) with 2.
  rewrite (Hf 1 k), (Hf 2 k) by lia.
  rewrite alpha_origin. reflexivity.
Qed.

(** On the lattice of the single one-dimensional feature point [0.0],
    over exact arithmetic, [compute] returns every value multiplied by [5/6]
    (the gain [5/4] of the two blur passes times [alpha = 2/3]), and leaves
    the rest of the output array alone. *)
Lemma origin_scales_values (stray : Z -> Z) (out inp : list R) (value_size : Z) :
  0 <= value_size -> 4 * value_size <= 2147483647 ->
  len inp = value_size -> value_size <= len out ->
  exists p res,
    init stray [0%R] 1 1 = Some p /\ N_ p = 1 /\
    compute p out inp value_size 0 0 (-1) (-1) = Some res /\
    len res = len out /\
    (forall k, 0 <= k < value_size ->
       exists x, rd inp k = Some x /\ rd res k = Some (5 / 6 * x)%R) /\
    (forall idx, value_size <= idx -> rd res idx = rd out idx).
Proof.
  intros Hvs Hint Hli Hlo. exists origin_lattice.
  destruct (compute_total origin_lattice out inp value_size 0 0 (-1) (-1) built_origin_exact)
    as [res E];
    try change (resolve_size (N_ origin_lattice) 0 (-1)) with 1;
    try change (N_ origin_lattice) with 1;
    try change (M_ origin_lattice + 2) with 4; try lia.
  exists res. split; [apply init_origin_exact|]. split; [reflexivity|]. split; [exact E|].
  rewrite compute_unfold, blurred_unfold in E.
  change (resolved_size (N_ origin_lattice) 0 (-1)) with (Some 1) in E.
  change (int_add (M_ origin_lattice) 2) with (Some 4) in E.
  change (M_ origin_lattice + 2) with 4 in E.
  rewrite int_mul_small in E by lia.
  cbv beta iota in E.
  change (resolve_size (N_ origin_lattice) 0 (-1)) with 1 in E.
  change (d_ origin_lattice + 1) with 2 in E.
  destruct (alloc (4 * value_size) (fresh_float 0)) as [a|] eqn:A; [|discriminate].
  destruct (alloc (4 * value_size) (fresh_float 1)) as [b|] eqn:A'; [|discriminate].
  apply alloc_len in A, A'. destruct A as [Hla _], A' as [Hlb _].
  rewrite zero_scratch_spec in E by (auto; lia).
  change (f_zero (F:=R)) with 0%R in E.
  pose proof (rows_zeros value_size Hvs) as Hz.
  destruct (splat origin_lattice inp value_size 0 1 _) as [v1|] eqn:Es; [|discriminate].
  apply splat_origin in Es; auto.
  unfold blur_passes in E. rewrite for_upto_2 in E by reflexivity.
  destruct (blur_axis origin_lattice value_size 0 _) as [[c1 n1']|] eqn:E1; [|discriminate].
  apply (blur_origin value_size 0 _ _ _ _ _ _ Hvs ltac:(lia) Es Hz) in E1.
  destruct E1 as [Hn1 Hc1]. subst n1'.
  destruct (blur_axis origin_lattice value_size (0 + 1) _) as [[c2 n2']|] eqn:E2;
    [|discriminate].
  apply (blur_origin value_size (0 + 1) _ _ _ _ _ _ Hvs ltac:(lia) Hc1 Es) in E2.
  destruct E2 as [_ Hc2].
  apply slice_spec in E; auto; [|simpl; lia].
  destruct E as (Hlr & Hrow & Hrest).
  split; [exact Hlr|]. split.
  - intros k Hk. exists (channel inp k). split; [apply rd_channel; lia|].
    destruct (Hrow 0 k ltac:(lia) Hk) as (v & Hv & Hrd).
    replace (0 * value_size + k) with k in Hrd by lia. rewrite Hrd.
    rewrite (slice_value_origin value_size k c2 _ Hk Hc2) in Hv.
    inversion Hv. simpl. f_equal. lra.
  - intros idx Hidx. apply Hrest. lia.
Qed.
End OnReals.

(** ** On the lattice of the point [0.0] *)

(** Runs that find zeros in the arrays they allocate. *)

Section OnRealsAtOrigin.
Import ExactReal.



End OnRealsAtOrigin.

(** * Further properties *)

Section CopyProps.
Context {F : Type} {FA : FloatArith F} {FM : Fresh F}.

Lemma memcpy_whole {A} (src : list A) (n : Z) (first : Z -> A) :
  len src = n ->
  (dst <- alloc n first ;; r <- memcpy dst src n ;; Some (Some r)) = Some (Some src).
Proof.
  intros Hl. pose proof (len_nonneg src) as Hn. unfold alloc.
  destruct (Z.ltb_spec n 0); [lia|]. unfold memcpy, len in *.
  rewrite length_map, length_seq.
  destruct (Z.leb_spec 0 n); [|lia].
  destruct (Z.leb_spec n (Z.of_nat (length src))); [|lia].
  destruct (Z.leb_spec n (Z.of_nat (Z.to_nat n))); [|lia]. simpl.
  rewrite firstn_all2 by lia. rewrite skipn_all2 by (rewrite length_map, length_seq; lia).
  now rewrite app_nil_r.
Qed.

Lemma memcpy_prefix {A} (src : list A) (n : Z) (first : Z -> A) :
  0 <= n <= len src ->
  (dst <- alloc n first ;; r <- memcpy dst src n ;; Some (Some r))
  = Some (Some (firstn (Z.to_nat n) src)).
Proof.
  intros Hn. unfold alloc.
  destruct (Z.ltb_spec n 0); [lia|]. unfold memcpy, len in *.
  rewrite length_map, length_seq.
  destruct (Z.leb_spec 0 n); [|lia].
  destruct (Z.leb_spec n (Z.of_nat (length src))); [|lia].
  destruct (Z.leb_spec n (Z.of_nat (Z.to_nat n))); [|lia]. simpl.
  rewrite skipn_all2 by (rewrite length_map, length_seq; lia).
  now rewrite app_nil_r.
Qed.

Lemma memcpy_past_source {A} (src : list A) (n : Z) (first : Z -> A) :
  len src < n ->
  (dst <- alloc n first ;; r <- memcpy dst src n ;; Some (Some r)) = None.
Proof.
  intros Hn. pose proof (len_nonneg src). unfold alloc.
  destruct (Z.ltb_spec n 0); [lia|]. unfold memcpy.
  destruct (Z.leb_spec 0 n); [|lia].
  destruct (Z.leb_spec n (len src)); [lia|]. reflexivity.
Qed.

(** X1: on a built lattice the copy constructor copies [offset_] and
    [barycentric_] in full, and of [blur_neighbors_] the first [(d+1)*N]
    of its [(d+1)*M] entries; with [M < N] it reads past the end of the
    source's table. *)
Theorem copy_of_built_lattice (p : Permutohedral F) :
  built p ->
  (N_ p <= M_ p ->
   exists q nbs,
     Permutohedral_copy p = Some q /\
     offset_ q = offset_ p /\ barycentric_ q = barycentric_ p /\
     N_ q = N_ p /\ M_ q = M_ p /\ d_ q = d_ p /\
     blur_neighbors_ p = Some nbs /\ len nbs = (d_ p + 1) * M_ p /\
     blur_neighbors_ q = Some (firstn (Z.to_nat ((d_ p + 1) * N_ p)) nbs)) /\
  (M_ p < N_ p -> Permutohedral_copy p = None).
Proof.
  intros Hb.
  pose proof (built_d p Hb) as Hd. pose proof (built_N p Hb) as HN.
  destruct (built_offset p Hb) as (o & Ho & Hlo & _).
  destruct (built_barycentric p Hb) as (b & Hbb & Hlb).
  destruct (built_neighbors p Hb) as (nbs & Hn & Hln & _).
  unfold Permutohedral_copy, clone_table. rewrite Ho, Hbb, Hn.
  rewrite copy_size_small by (destruct (built_sizes p Hb) as (? & ? & ? & ?); lia).
  cbv beta iota.
  rewrite (memcpy_whole b _ _ Hlb), (memcpy_whole o _ _ Hlo).
  split.
  - intros Hle. rewrite memcpy_prefix by nia.
    eexists. exists nbs. split; [reflexivity|]. simpl. repeat split; auto.
  - intros Hlt. rewrite memcpy_past_source by nia. reflexivity.
Qed.
End CopyProps.

Section TableProps.
Context {F : Type} {FA : FloatArith F} {FM : Fresh F}.

(** X2: [init] leaves [d_], [N_] and [M_] consistent with its three
    tables: [offset_] and [barycentric_] hold [(d+1)*N] entries, every
    offset is the index of a vertex, [blur_neighbors_] holds [(d+1)*M]
    entries, and every neighbour is a vertex or [-1]. *)
Theorem init_tables_consistent (stray : Z -> Z) (feature : list F) (feature_size N : Z)
    (p : Permutohedral F) :
  init stray feature feature_size N = Some p ->
  d_ p = feature_size /\ N_ p = N /\ 0 <= feature_size /\ 0 <= N /\ 0 <= M_ p /\
  (exists o, offset_ p = Some o /\ len o = (feature_size + 1) * N /\
     forall i, 0 <= i < (feature_size + 1) * N ->
       exists x, rd o i = Some x /\ 0 <= x < M_ p) /\
  (exists b, barycentric_ p = Some b /\ len b = (feature_size + 1) * N) /\
  (exists nbs, blur_neighbors_ p = Some nbs /\ len nbs = (feature_size + 1) * M_ p /\
     forall i, 0 <= i < (feature_size + 1) * M_ p ->
       exists nb, rd nbs i = Some nb /\ -1 <= n1 nb < M_ p /\ -1 <= n2 nb < M_ p).
Proof.
  intros E. destruct (init_built _ _ _ _ _ E) as (Hb & Hd & HN).
  pose proof (built_d p Hb). pose proof (built_N p Hb). pose proof (built_M p Hb).
  pose proof (built_offset p Hb) as Ho. pose proof (built_barycentric p Hb) as Hbb.
  pose proof (built_neighbors p Hb) as Hn.
  rewrite Hd, HN in *. repeat split; auto.
Qed.

(** X3: on a lattice that [init] built, [compute] stays within its arrays
    and within [int] for every input and output range inside the [N]
    points, when [in] and [out] hold the ranges and the sizes
    [(M+2)*value_size] and [N*value_size] are of type [int]; it leaves
    [out] its size and writes only the [out_size * value_size] first
    entries of it. *)
Theorem compute_defined_after_init (stray : Z -> Z) (feature : list F)
    (feature_size N : Z) (p : Permutohedral F) (out inp : list F)
    (value_size in_offset out_offset in_size out_size : Z) :
  init stray feature feature_size N = Some p ->
  0 <= value_size ->
  (M_ p + 2) * value_size <= 2147483647 -> N * value_size <= 2147483647 ->
  0 <= in_offset <= N ->
  in_offset + resolve_size N in_offset in_size <= N ->
  resolve_size N in_offset in_size * value_size <= len inp ->
  0 <= out_offset <= N ->
  out_offset + resolve_size N out_offset out_size <= N ->
  resolve_size N out_offset out_size * value_size <= len out ->
  exists res,
    compute p out inp value_size in_offset out_offset in_size out_size = Some res /\
    len res = len out /\
    forall idx, ~ (0 <= idx < resolve_size N out_offset out_size * value_size) ->
      rd res idx = rd out idx.
Proof.
  intros E Hvs HintM HintN H1 H2 H3 H4 H5 H6.
  destruct (init_built _ _ _ _ _ E) as (Hb & Hd & HN). subst N.
  destruct (compute_total p out inp value_size in_offset out_offset in_size out_size)
    as [res Er]; auto.
  exists res. split; [exact Er|].
  rewrite compute_unfold, built_resolved_size in Er by auto.
  destruct (blurred _ _ _ _ _ _) as [[values nv]|]; [|discriminate].
  pose proof (built_d p Hb).
  apply slice_spec in Er; auto; [|lia].
  destruct Er as (Hl & _ & Hrest). split; auto.
Qed.
(** X5: the lattice that [init] builds depends neither on what the arrays
    it allocates hold before they are written, nor on the [short] it reads
    at [key[d_]], one past the [d_] coordinates of a stored key (lines
    242-243, [j = d_]). *)
Theorem init_ignores_indeterminate_memory (m1 m2 : Fresh F) (stray1 stray2 : Z -> Z)
    (feature : list F) (feature_size N : Z) :
  init (FM:=m1) stray1 feature feature_size N
  = init (FM:=m2) stray2 feature feature_size N.
Proof. apply init_fresh. Qed.
End TableProps.

Section FurtherOnBinary32.
Import Binary32.

Lemma copy_of_built_lattice_witness :
  exists q nbs,
    Permutohedral_copy origin_lattice = Some q /\
    offset_ q = offset_ origin_lattice /\ barycentric_ q = barycentric_ origin_lattice /\
    N_ q = N_ origin_lattice /\ M_ q = M_ origin_lattice /\ d_ q = d_ origin_lattice /\
    blur_neighbors_ origin_lattice = Some nbs /\
    len nbs = (d_ origin_lattice + 1) * M_ origin_lattice /\
    blur_neighbors_ q
    = Some (firstn (Z.to_nat ((d_ origin_lattice + 1) * N_ origin_lattice)) nbs).
Proof.
  destruct (copy_of_built_lattice origin_lattice built_origin) as [H _].
  apply H. simpl. lia.
Defined.

Lemma init_tables_consistent_witness :
  d_ origin_lattice = 1 /\ N_ origin_lattice = 1 /\ 0 <= 1 /\ 0 <= 1 /\
  0 <= M_ origin_lattice /\
  (exists o, offset_ origin_lattice = Some o /\ len o = (1 + 1) * 1 /\
     forall i, 0 <= i < (1 + 1) * 1 ->
       exists x, rd o i = Some x /\ 0 <= x < M_ origin_lattice) /\
  (exists b, barycentric_ origin_lattice = Some b /\ len b = (1 + 1) * 1) /\
  (exists nbs, blur_neighbors_ origin_lattice = Some nbs /\
     len nbs = (1 + 1) * M_ origin_lattice /\
     forall i, 0 <= i < (1 + 1) * M_ origin_lattice ->
       exists nb, rd nbs i = Some nb /\
                  -1 <= n1 nb < M_ origin_lattice /\ -1 <= n2 nb < M_ origin_lattice).
Proof.
  apply (init_tables_consistent no_stray [zero] 1 1 origin_lattice). exact init_origin.
Defined.

Lemma compute_defined_after_init_witness :
  exists res,
    compute pair_lattice [zero; one; one] [one; zero] 1 0 1 (-1) (-1) = Some res /\
    len res = len [zero; one; one] /\
    forall idx, ~ (0 <= idx < resolve_size 2 1 (-1) * 1) ->
      rd res idx = rd [zero; one; one] idx.
Proof.
  apply (compute_defined_after_init no_stray [zero; tenth] 1 2 pair_lattice
           [zero; one; one] [one; zero] 1 0 1 (-1) (-1)).
  - exact init_pair.
  - lia.
  - vm_compute. congruence.
  - lia.
  - lia.
  - vm_compute. congruence.
  - vm_compute. congruence.
  - lia.
  - vm_compute. congruence.
  - vm_compute. congruence.
Defined.
End FurtherOnBinary32.

Section FurtherOnReals.

(** X4: over the reals, when the elevation and the rounding of a feature
    point run through, the sum of the rounded coordinates lies between
    [-(d+1)] and [d+1], the ranks are pairwise distinct, the plane
    correction runs through and leaves every rank in [0, d] (as long as
    [2d+1] fits a [short]). *)
Theorem exact_rank_within_bounds (d k : Z) (feature scale_factor : list R)
    (elevated0 rem00 : list R) (rank0 : list Z) (elevated rem0 : list R) (sum : Z) :
  0 <= d -> 2 * d + 1 <= 32767 ->
  len elevated0 = d + 1 -> len rem00 = d + 1 -> len rank0 = d + 1 ->
  elevate d feature scale_factor k elevated0 = Some elevated ->
  round_to_cell d elevated rem00 = Some (rem0, sum) ->
  - (d + 1) <= sum <= d + 1 /\
  exists rank rank' rem0',
    rank_residuals d elevated rem0 rank0 = Some rank /\
    plane_correct d sum rank rem0 = Some (rank', rem0') /\
    entries_within d 0 d rank' /\
    forall i j, 0 <= i <= d -> 0 <= j <= d -> rd rank i = rd rank j -> i = j.
Proof.
  intros Hd Hs L1 L2 L3 Eel Eround.
  destruct (elevate_on_plane _ _ _ _ _ _ Hd L1 Eel) as [Lel Hzero].
  pose proof (round_to_cell_sum _ _ _ _ _ Hd Lel L2 Hzero Eround) as Hsum.
  destruct (round_to_cell_near _ _ _ _ _ Hd Lel L2 Eround) as (Lr & Hnear & _).
  split; [exact Hsum|].
  destruct (rank_residuals_within d elevated rem0 rank0) as (rank & Er & Hrk);
    auto; try lia.
  destruct (plane_correct_within d sum rank rem0) as (rank' & rem0' & Ep & _ & Hw); auto.
  exists rank, rank', rem0'. split; [exact Er|]. split; [exact Ep|]. split; [exact Hw|].
  assert (Hrho : forall i, 0 <= i <= d ->
    exists e r, rd elevated i = Some e /\ rd rem0 i = Some r /\
                residual elevated rem0 i = (e - r)%R).
  { intros i Hi. destruct (Hnear i Hi) as (e & r & He & Hr & _).
    exists e, r. split; auto. split; auto. unfold residual.
    now rewrite (rd_nth _ _ _ 0%R He), (rd_nth _ _ _ 0%R Hr). }
  destruct (rank_residuals_counts _ _ _ _ _ _ Hd ltac:(lia) L3 Hrho Er) as [_ Hcount].
  intros i j Hi Hj E. rewrite (Hcount i Hi), (Hcount j Hj) in E. inversion E.
  apply (ahead_inj (residual elevated rem0) (d + 1)); auto; lia.
Qed.

Lemma exact_rank_within_bounds_witness :
  - (1 + 1) <= 0 <= 1 + 1 /\
  exists rank rank' rem0',
    rank_residuals 1 [0%R; 0%R] [0%R; 0%R] [7; 7] = Some rank /\
    plane_correct 1 0 rank [0%R; 0%R] = Some (rank', rem0') /\
    entries_within 1 0 1 rank' /\
    forall i j, 0 <= i <= 1 -> 0 <= j <= 1 -> rd rank i = rd rank j -> i = j.
Proof.
  apply (exact_rank_within_bounds 1 0 [0%R] [1%R] [0%R; 0%R] [0%R; 0%R] [7; 7]
           [0%R; 0%R] [0%R; 0%R] 0).
  - lia.
  - lia.
  - reflexivity.
  - reflexivity.
  - reflexivity.
  - apply elevate_origin.
  - apply round_origin.
Defined.
End FurtherOnReals.

(** * Further properties of [init], [compute] and the copies *)

(** ** More on loops *)

Lemma for_upto_rel_same {St T} (R : St -> T -> Prop) (lo hi : Z)
    (body1 : Z -> St -> option St) (body2 : Z -> T -> option T) (s : St) (t : T) :
  R s t ->
  (forall i a b, lo <= i < hi -> R a b -> both R (body1 i a) (body2 i b)) ->
  both R (for_upto lo hi body1 s) (for_upto lo hi body2 t).
Proof.
  intros H0 Hstep. destruct (Z_le_gt_dec lo hi) as [Hle|Hgt].
  - apply (for_upto_rel (fun _ => R)); auto.
  - rewrite !for_upto_empty by lia. exact H0.
Qed.

Lemma for_upto_keeps {St} (P : St -> Prop) (lo hi : Z)
    (body : Z -> St -> option St) (s s' : St) :
  for_upto lo hi body s = Some s' -> P s ->
  (forall i t t', lo <= i < hi -> P t -> body i t = Some t' -> P t') ->
  P s'.
Proof.
  intros E H0 Hstep. destruct (Z_le_gt_dec lo hi) as [Hle|Hgt].
  - apply (for_upto_inv_some (fun _ => P) lo hi body s s' E Hle H0). exact Hstep.
  - rewrite for_upto_empty in E by lia. inversion E. now subst.
Qed.

Lemma for_upto_sim {St T} (R : St -> T -> Prop) (lo hi : Z)
    (body1 : Z -> St -> option St) (body2 : Z -> T -> option T) (s s' : St) (t : T) :
  R s t ->
  (forall i a a' b, lo <= i < hi -> R a b -> body1 i a = Some a' ->
     exists b', body2 i b = Some b' /\ R a' b') ->
  for_upto lo hi body1 s = Some s' ->
  exists t', for_upto lo hi body2 t = Some t' /\ R s' t'.
Proof.
  unfold for_upto. remember (Z.to_nat (hi - lo)) as n eqn:En.
  revert lo s t En. induction n as [|n IH]; intros lo s t En H0 Hstep E; simpl in *.
  - inversion E. subst. eauto.
  - destruct (body1 lo s) as [a'|] eqn:Hb; [|discriminate].
    destruct (Hstep lo s a' t ltac:(lia) H0 Hb) as (b' & Hb' & HR).
    rewrite Hb'. apply (IH (lo + 1) a'); auto; try lia.
    intros i x x' y Hi. apply Hstep. lia.
Qed.

Lemma for_upto_single {St} (body : Z -> St -> option St) (s : St) :
  for_upto 0 1 body s = body 0 s.
Proof. apply (for_upto_one 0). Qed.

Lemma for_downto_ext {St} (hi lo : Z) (body1 body2 : Z -> St -> option St) (s : St) :
  (forall i t, lo < i <= hi -> body1 i t = body2 i t) ->
  for_downto hi lo body1 s = for_downto hi lo body2 s.
Proof.
  intros H. apply both_eq.
  destruct (Z_le_gt_dec lo hi) as [Hle|Hgt].
  - apply (for_downto_rel (fun _ => eq)); auto.
    intros i a b Hi <-. rewrite H by auto. destruct (body2 i a); simpl; auto.
  - unfold for_downto. replace (Z.to_nat (hi - lo)) with O by lia. reflexivity.
Qed.

(** ** The run of [init], stage by stage *)

Section InitStages.
Context {F : Type} {FA : FloatArith F} {FM : Fresh F}.

(** The run of [init], stage by stage. *)
Lemma init_stages (stray : Z -> Z) (feature : list F) (d N : Z) (p : Permutohedral F) :
  init stray feature d N = Some p ->
  0 <= d /\ 0 <= N /\
  exists canonical0 canonical scale_factor0 scale_factor st0 st nbs0 nbs na nb na' nb',
    len canonical0 = (d + 1) * (d + 1) /\
    canonical_simplex d canonical0 = Some canonical /\
    len scale_factor0 = d /\
    scale_factors d scale_factor0 = Some scale_factor /\
    s_hash_table st0 = HashTable_new d (N * (d + 1)) /\
    len (s_offset st0) = (d + 1) * N /\ len (s_bary st0) = (d + 1) * N /\
    len (s_elevated st0) = d + 1 /\ len (s_rem0 st0) = d + 1 /\
    len (s_barycentric st0) = d + 2 /\ len (s_rank st0) = d + 1 /\
    len (s_key st0) = d + 1 /\
    for_upto 0 N (locate d feature scale_factor canonical) st0 = Some st /\
    len nbs0 = (d + 1) * size (s_hash_table st) /\ len na = d + 1 /\ len nb = d + 1 /\
    find_neighbors stray d (size (s_hash_table st)) (s_hash_table st) (na, nb, nbs0)
    = Some (na', nb', nbs) /\
    p = {| offset_ := Some (s_offset st); barycentric_ := Some (s_bary st);
           blur_neighbors_ := Some nbs; N_ := N; M_ := size (s_hash_table st);
           d_ := d |}.
Proof.
  intros E. open_init E.
  destruct (alloc ((d + 1) * N) (fresh_int 0)) as [offset|] eqn:A1; [|discriminate].
  destruct (alloc ((d + 1) * N) (fresh_float 0)) as [bary|] eqn:A2; [|discriminate].
  destruct (alloc d (fresh_float 1)) as [sf|] eqn:A3; [|discriminate].
  destruct (alloc (d + 1) (fresh_float 2)) as [el|] eqn:A4; [|discriminate].
  destruct (alloc (d + 1) (fresh_float 3)) as [r0|] eqn:A5; [|discriminate].
  destruct (alloc (d + 2) (fresh_float 4)) as [bc|] eqn:A6; [|discriminate].
  destruct (alloc (d + 1) (fresh_int 1)) as [rk|] eqn:A7; [|discriminate].
  destruct (alloc ((d + 1) * (d + 1)) (fresh_int 2)) as [cn|] eqn:A8; [|discriminate].
  destruct (alloc (d + 1) (fresh_int 3)) as [ky|] eqn:A9; [|discriminate].
  destruct (canonical_simplex d cn) as [cn'|] eqn:Ecn; [|discriminate].
  destruct (scale_factors d sf) as [sf'|] eqn:Esf; [|discriminate].
  match type of E with
  | match for_upto ?lo ?hi ?body ?s with _ => _ end = _ =>
      destruct (for_upto lo hi body s) as [st|] eqn:Eloop; [|discriminate]
  end.
  open_neighbors E.
  destruct (alloc _ (fun _ => Neighbors_new)) as [nbs|] eqn:A10; [|discriminate].
  destruct (alloc (d + 1) (fresh_int 4)) as [na|] eqn:A11; [|discriminate].
  destruct (alloc (d + 1) (fresh_int 5)) as [nb|] eqn:A12; [|discriminate].
  destruct (find_neighbors _ _ _ _ _) as [[[a' b'] nbs']|] eqn:Enb; [|discriminate].
  inversion E. clear E.
  apply alloc_len in A1, A2, A3, A4, A5, A6, A7, A8, A9, A10, A11, A12.
  assert (Hd : 0 <= d) by lia. assert (HN : 0 <= N) by nia.
  split; [exact Hd|]. split; [exact HN|].
  exists cn, cn', sf, sf'.
  eexists. exists st, nbs, nbs', na, nb, a', b'.
  repeat split; try eassumption; simpl; try tauto.
Qed.
End InitStages.

(** ** [compute] on a copy *)

Section CopyCompute.
Context {F : Type} {FA : FloatArith F} {FM : Fresh F}.

Lemma copy_built_shape (p q : Permutohedral F) :
  built p -> Permutohedral_copy p = Some q ->
  N_ p <= M_ p /\
  offset_ q = offset_ p /\ barycentric_ q = barycentric_ p /\
  N_ q = N_ p /\ M_ q = M_ p /\ d_ q = d_ p /\
  exists nbs, blur_neighbors_ p = Some nbs /\ len nbs = (d_ p + 1) * M_ p /\
              blur_neighbors_ q = Some (firstn (Z.to_nat ((d_ p + 1) * N_ p)) nbs).
Proof.
  intros Hb.
  pose proof (built_d p Hb) as Hd. pose proof (built_N p Hb) as HN.
  destruct (built_offset p Hb) as (o & Ho & Hlo & _).
  destruct (built_barycentric p Hb) as (b & Hbb & Hlb).
  destruct (built_neighbors p Hb) as (nbs & Hn & Hln & _).
  unfold Permutohedral_copy, clone_table. rewrite Ho, Hbb, Hn.
  rewrite copy_size_small by (destruct (built_sizes p Hb) as (? & ? & ? & ?); lia).
  cbv beta iota.
  rewrite (memcpy_whole b _ _ Hlb), (memcpy_whole o _ _ Hlo).
  destruct (Z_le_gt_dec (N_ p) (M_ p)) as [Hle|Hlt].
  - rewrite memcpy_prefix by nia. intros E. inversion E. simpl.
    repeat split; auto. exists nbs. auto.
  - rewrite memcpy_past_source by nia. discriminate.
Qed.

Lemma blur_short_table (q : Permutohedral F) (nbs : list Neighbors) (value_size : Z)
    (st : list F * list F) :
  blur_neighbors_ q = Some nbs -> 0 <= d_ q -> 0 < M_ q ->
  len nbs < (d_ q + 1) * M_ q ->
  blur q value_size st = None.
Proof.
  intros Hn Hd HM Hl. unfold blur, blur_passes.
  apply (for_upto_fails 0 (d_ q + 1) (len nbs / M_ q)).
  - split; [apply Z.div_pos; [apply len_nonneg|lia]|].
    apply Z.div_lt_upper_bound; lia.
  - intros [values new_values]. unfold blur_axis.
    rewrite (for_upto_fails 0 (M_ q) (len nbs mod M_ q)); auto.
    + apply Z.mod_pos_bound. lia.
    + intros [v nv]. unfold table. rewrite Hn.
      rewrite rd_none; auto.
      pose proof (Z.div_mod (len nbs) (M_ q) ltac:(lia)). lia.
Qed.

(** X6: [compute] on a copy of a built lattice.  When the lattice has as
    many vertices as points the copy computes what the lattice computes;
    when it has more vertices than points, [compute] on the copy reads
    [blur_neighbors_] past its [(d+1)*N] entries (line 281), whatever its
    arguments are. *)
Theorem compute_on_copy (p q : Permutohedral F) (out inp : list F)
    (value_size in_offset out_offset in_size out_size : Z) :
  built p -> Permutohedral_copy p = Some q ->
  (N_ p = M_ p ->
   compute q out inp value_size in_offset out_offset in_size out_size
   = compute p out inp value_size in_offset out_offset in_size out_size) /\
  (N_ p < M_ p ->
   compute q out inp value_size in_offset out_offset in_size out_size = None).
Proof.
  intros Hb Hc.
  destruct (copy_built_shape p q Hb Hc)
    as (Hle & Ho & Hbb & HN & HM & Hd & nbs & Hn & Hln & Hq).
  pose proof (built_d p Hb) as Hd0. pose proof (built_N p Hb) as HN0.
  split.
  - intros E. rewrite E in Hq. rewrite <- Hln in Hq.
    unfold len in Hq. rewrite Nat2Z.id, firstn_all in Hq.
    assert (q = p); [|now subst].
    destruct p, q; simpl in *. congruence.
  - intros Hlt. rewrite compute_unfold, blurred_unfold.
    destruct (resolved_size _ out_offset _); [|reflexivity].
    destruct (resolved_size _ in_offset _); [|reflexivity].
    destruct (int_add _ _); [|reflexivity].
    destruct (int_mul _ _); [|reflexivity].
    destruct (alloc _ (fresh_float 0)) as [v|]; [|reflexivity].
    destruct (alloc _ (fresh_float 1)) as [nv|]; [|reflexivity].
    destruct (zero_scratch _ _) as [[v' nv']|]; [|reflexivity].
    destruct (splat _ _ _ _ _ _) as [v''|]; [|reflexivity].
    change (blur_passes q value_size (d_ q + 1) (v'', nv')) with (blur q value_size (v'', nv')).
    rewrite (blur_short_table q _ value_size (v'', nv') Hq); auto; try lia.
    rewrite Hd, HM. unfold len. rewrite length_firstn.
    pose proof (len_nonneg nbs). unfold len in *. nia.
Qed.
End CopyCompute.

(** ** [compute] overwrites its output *)

Lemma alike_rd {A} (lo hi : Z) (a b : list A) (i : Z) :
  alike lo hi a b -> lo <= i < hi -> rd a i = rd b i.
Proof. intros [_ H] Hi. now apply H. Qed.

Section OutputProps.
Context {F : Type} {FA : FloatArith F} {FM : Fresh F}.

Lemma slice_overwrites (p : Permutohedral F) (values : list F)
    (value_size out_offset out_size : Z) (out1 out2 : list F) :
  0 <= value_size -> len out1 = len out2 ->
  both (alike 0 (out_size * value_size))
    (slice p values value_size out_offset out_size out1)
    (slice p values value_size out_offset out_size out2).
Proof.
  intros Hvs Hl. unfold slice.
  destruct (Z_le_gt_dec out_size 0) as [Hn|Hn].
  { rewrite !for_upto_empty by lia. apply alike_start; auto. nia. }
  apply (for_upto_rel (fun i a b => alike 0 (i * value_size) a b)); try lia.
  { apply alike_start; auto. lia. }
  intros i a b Hi Hab.
  eapply both_bind.
  - apply (for_upto_rel (fun k a b => alike 0 (i * value_size + k) a b)); auto.
    + eapply alike_upto; [|exact Hab]. lia.
    + intros k x y Hk Hxy. open_row.
      apply (alike_wr _ _ _ _ _ _ _ _ Hxy). intros idx Hidx. lia.
  - intros a1 b1 H1.
    apply for_upto_rel_same.
    + eapply alike_upto; [|exact H1]. lia.
    + intros j a2 b2 Hj H2.
      destruct (table (offset_ p) _) as [o_|]; [|exact I].
      destruct (table (barycentric_ p) _) as [w|]; [|exact I].
      apply for_upto_rel_same; auto.
      intros k a3 b3 Hk H3. open_row.
      rewrite (alike_rd _ _ _ _ (i * value_size + k) H3) by nia.
      destruct (rd b3 _) as [x|]; [|exact I].
      destruct (rd values _) as [v|]; [|exact I].
      apply (alike_wr _ _ _ _ _ _ _ _ H3). intros idx Hidx. auto.
Qed.

(** X7: [compute] overwrites its output: two calls that differ only in
    what [out] holds before the call fail together or leave the same values
    in the [out_size * value_size] first entries of [out] (line 298 clears
    each row before line 303 accumulates into it). *)
Theorem compute_overwrites_output (p : Permutohedral F) (out1 out2 inp : list F)
    (value_size in_offset out_offset in_size out_size : Z) :
  0 <= value_size -> len out1 = len out2 ->
  both (alike 0 (resolve_size (N_ p) out_offset out_size * value_size))
    (compute p out1 inp value_size in_offset out_offset in_size out_size)
    (compute p out2 inp value_size in_offset out_offset in_size out_size).
Proof.
  intros Hvs Hl. rewrite !compute_unfold.
  destruct (resolved_size _ _ _); [|exact I].
  destruct (blurred _ _ _ _ _ _) as [[values nv]|]; [|exact I].
  now apply slice_overwrites.
Qed.
End OutputProps.

(** ** [compute] is linear in the values *)

Lemma all3_bind {S1 S2 S3 T1 T2 T3} (R : S1 -> S2 -> S3 -> Prop)
    (Q : T1 -> T2 -> T3 -> Prop)
    (x : option S1) (y : option S2) (z : option S3)
    (f : S1 -> option T1) (g : S2 -> option T2) (h : S3 -> option T3) :
  all3 R x y z ->
  (forall a b c, R a b c -> all3 Q (f a) (g b) (h c)) ->
  all3 Q (a <- x ;; f a) (b <- y ;; g b) (c <- z ;; h c).
Proof.
  intros Hxyz Hfgh.
  destruct x as [a|], y as [b|], z as [c|]; simpl in *; try contradiction; auto.
Qed.

Lemma for_upto_rel3 {S1 S2 S3} (R : S1 -> S2 -> S3 -> Prop) (lo hi : Z)
    (body1 : Z -> S1 -> option S1) (body2 : Z -> S2 -> option S2)
    (body3 : Z -> S3 -> option S3) (s1 : S1) (s2 : S2) (s3 : S3) :
  R s1 s2 s3 ->
  (forall i a b c, lo <= i < hi -> R a b c ->
     all3 R (body1 i a) (body2 i b) (body3 i c)) ->
  all3 R (for_upto lo hi body1 s1) (for_upto lo hi body2 s2) (for_upto lo hi body3 s3).
Proof.
  unfold for_upto. remember (Z.to_nat (hi - lo)) as n eqn:En.
  revert lo s1 s2 s3 En. induction n as [|n IH]; intros lo s1 s2 s3 En H0 Hstep; simpl.
  - exact H0.
  - pose proof (Hstep lo s1 s2 s3 ltac:(lia) H0) as Hb. unfold all3 in Hb.
    destruct (body1 lo s1) as [a|], (body2 lo s2) as [b|], (body3 lo s3) as [c|];
      try contradiction; simpl; auto.
    apply IH; [lia|auto|]. intros i x y z Hi. apply Hstep. lia.
Qed.

Lemma rd_defined_len {A B} (u : list A) (v : list B) (i : Z) :
  len u = len v -> (rd u i = None <-> rd v i = None).
Proof.
  intros Hl. split; intros H.
  - destruct (rd v i) as [y|] eqn:E; auto.
    apply rd_range in E. rewrite <- Hl in E. destruct (rd_some u i E). congruence.
  - destruct (rd u i) as [y|] eqn:E; auto.
    apply rd_range in E. rewrite Hl in E. destruct (rd_some v i E). congruence.
Qed.

Lemma combines_rd (a b : R) (u v w : list R) (i : Z) :
  combines a b u v w ->
  all3 (fun x y z => z = (a * x + b * y)%R) (rd u i) (rd v i) (rd w i).
Proof.
  intros (L1 & L2 & H). unfold all3.
  destruct (rd u i) as [x|] eqn:Eu, (rd v i) as [y|] eqn:Ev.
  - rewrite (H i x y Eu Ev). reflexivity.
  - apply rd_range in Eu. rewrite L1, <- L2 in Eu. destruct (rd_some v i Eu). congruence.
  - apply rd_range in Ev. rewrite L2, <- L1 in Ev. destruct (rd_some u i Ev). congruence.
  - apply (rd_defined_len u w i L1) in Eu. now rewrite Eu.
Qed.

Lemma combines_wr (a b : R) (u v w : list R) (i : Z) (x y z : R) :
  combines a b u v w -> z = (a * x + b * y)%R ->
  all3 (combines a b) (wr u i x) (wr v i y) (wr w i z).
Proof.
  intros (L1 & L2 & H) Hz. unfold all3.
  destruct (wr u i x) as [u'|] eqn:Eu, (wr v i y) as [v'|] eqn:Ev, (wr w i z) as [w'|] eqn:Ew;
    try exact I.
  - split; [rewrite (wr_len _ _ _ _ Eu), (wr_len _ _ _ _ Ew); exact L1|].
    split; [rewrite (wr_len _ _ _ _ Ev), (wr_len _ _ _ _ Ew); exact L2|].
    intros j x' y' Hx Hy. destruct (Z.eq_dec j i) as [->|Hne].
    + rewrite (rd_wr_same _ _ _ _ Eu) in Hx. rewrite (rd_wr_same _ _ _ _ Ev) in Hy.
      rewrite (rd_wr_same _ _ _ _ Ew). congruence.
    + rewrite (rd_wr_other _ _ _ _ _ Eu) in Hx by auto.
      rewrite (rd_wr_other _ _ _ _ _ Ev) in Hy by auto.
      rewrite (rd_wr_other _ _ _ _ _ Ew) by auto. now apply H.
  - apply wr_range in Eu. rewrite L1 in Eu. destruct (wr_some w i z Eu). congruence.
  - apply wr_range in Eu. rewrite L1, <- L2 in Eu. destruct (wr_some v i y Eu). congruence.
  - apply wr_range in Eu. rewrite L1, <- L2 in Eu. destruct (wr_some v i y Eu). congruence.
  - apply wr_range in Ev. rewrite L2, <- L1 in Ev. destruct (wr_some u i x Ev). congruence.
  - apply wr_range in Ev. rewrite L2, <- L1 in Ev. destruct (wr_some u i x Ev). congruence.
  - apply wr_range in Ew. rewrite <- L1 in Ew. destruct (wr_some u i x Ew). congruence.
Qed.

Lemma combines_zeros (a b : R) (n : nat) :
  combines a b (repeat 0%R n) (repeat 0%R n) (repeat 0%R n).
Proof.
  split; auto. split; auto. intros i x y Hx Hy.
  pose proof (rd_range _ _ _ Hx) as Hi. unfold len in Hi. rewrite repeat_length in Hi.
  rewrite rd_repeat in Hx, Hy |- * by lia.
  inversion Hx. inversion Hy. f_equal. ring.
Qed.

Section Linear.
Context {FM : Fresh R}.
Variables (a b : R).

Ltac step3 H :=
  eapply all3_bind; [apply (combines_rd a b _ _ _ _ H)|]; cbv beta.

Lemma splat_linear (p : Permutohedral R) (inp1 inp2 inp3 : list R)
    (value_size in_offset in_size : Z) (v1 v2 v3 : list R) :
  combines a b inp1 inp2 inp3 -> combines a b v1 v2 v3 ->
  all3 (combines a b)
    (splat p inp1 value_size in_offset in_size v1)
    (splat p inp2 value_size in_offset in_size v2)
    (splat p inp3 value_size in_offset in_size v3).
Proof.
  intros Hin Hv. unfold splat.
  apply for_upto_rel3; auto. intros i x1 x2 x3 Hi Hx.
  apply for_upto_rel3; auto. intros j y1 y2 y3 Hj Hy.
  destruct (table (offset_ p) _) as [o_|]; [|exact I].
  destruct (table (barycentric_ p) _) as [w|]; [|exact I].
  apply for_upto_rel3; auto. intros k z1 z2 z3 Hk Hz.
  step3 Hz. intros c1 c2 c3 Hc. open_row.
  step3 Hin. intros e1 e2 e3 He.
  apply combines_wr; auto. subst. simpl. ring.
Qed.

Lemma blur_axis_linear (p : Permutohedral R) (value_size j : Z)
    (s1 s2 s3 : list R * list R) :
  combines2 a b s1 s2 s3 ->
  all3 (combines2 a b) (blur_axis p value_size j s1) (blur_axis p value_size j s2)
    (blur_axis p value_size j s3).
Proof.
  intros Hs. unfold blur_axis.
  eapply all3_bind.
  - apply (for_upto_rel3 (combines2 a b)); [exact Hs|].
    intros i [x1 y1] [x2 y2] [x3 y3] Hi [Hx Hy]. simpl in Hx, Hy.
    destruct (table (blur_neighbors_ p) _) as [nb|]; [|exact I].
    eapply all3_bind.
    + apply (for_upto_rel3 (combines a b)); [exact Hy|].
      intros k z1 z2 z3 Hk Hz.
      step3 Hx. intros c1 c2 c3 Hc.
      step3 Hx. intros e1 e2 e3 He.
      step3 Hx. intros g1 g2 g3 Hg.
      apply combines_wr; auto. subst. simpl. ring.
    + intros z1 z2 z3 Hz. simpl. split; auto.
  - intros [x1 y1] [x2 y2] [x3 y3] [Hx Hy]. simpl. split; auto.
Qed.

Lemma slice_linear (p : Permutohedral R) (v1 v2 v3 : list R)
    (value_size out_offset out_size : Z) (out1 out2 out3 : list R) :
  combines a b v1 v2 v3 -> combines a b out1 out2 out3 ->
  all3 (combines a b)
    (slice p v1 value_size out_offset out_size out1)
    (slice p v2 value_size out_offset out_size out2)
    (slice p v3 value_size out_offset out_size out3).
Proof.
  intros Hv Hout. unfold slice.
  apply for_upto_rel3; auto. intros i x1 x2 x3 Hi Hx.
  eapply all3_bind.
  - apply (for_upto_rel3 (combines a b)); [exact Hx|].
    intros k z1 z2 z3 Hk Hz. open_row. apply combines_wr; auto. simpl. ring.
  - intros y1 y2 y3 Hy.
    apply for_upto_rel3; auto. intros j z1 z2 z3 Hj Hz.
    destruct (table (offset_ p) _) as [o_|]; [|exact I].
    destruct (table (barycentric_ p) _) as [w|]; [|exact I].
    apply for_upto_rel3; auto. intros k t1 t2 t3 Hk Ht. open_row.
    step3 Ht. intros c1 c2 c3 Hc.
    step3 Hv. intros e1 e2 e3 He.
    apply combines_wr; auto. subst. simpl. ring.
Qed.

End Linear.

Section LinearTheorem.
Context {FM : Fresh R}.

Lemma compute_combines (a b : R) (p : Permutohedral R)
    (out1 out2 out3 inp1 inp2 inp3 : list R)
    (value_size in_offset out_offset in_size out_size : Z) :
  combines a b inp1 inp2 inp3 -> combines a b out1 out2 out3 ->
  all3 (combines a b)
    (compute p out1 inp1 value_size in_offset out_offset in_size out_size)
    (compute p out2 inp2 value_size in_offset out_offset in_size out_size)
    (compute p out3 inp3 value_size in_offset out_offset in_size out_size).
Proof.
  intros Hin Hout. rewrite !compute_unfold, !blurred_unfold.
  destruct (resolved_size _ out_offset _); [|exact I].
  destruct (resolved_size _ in_offset _); [|exact I].
  destruct (int_add _ _); [|exact I].
  destruct (int_mul _ _); [|exact I].
  destruct (alloc _ (fresh_float 0)) as [v|] eqn:Ev; [|exact I].
  destruct (alloc _ (fresh_float 1)) as [nv|] eqn:Env; [|exact I].
  assert (Hn : 0 <= (M_ p + 2) * value_size).
  { unfold alloc in Ev. destruct (Z.ltb_spec ((M_ p + 2) * value_size) 0); [discriminate|lia]. }
  rewrite zero_scratch_spec;
    [|exact Hn|apply (alloc_len _ _ _ Ev)|apply (alloc_len _ _ _ Env)].
  change (@f_zero R Exact.arith) with 0%R.
  eapply all3_bind.
  - eapply all3_bind.
    + apply splat_linear; [exact Hin|apply combines_zeros].
    + intros x1 x2 x3 Hx. unfold blur_passes.
      apply (for_upto_rel3 (combines2 a b)).
      * split; simpl; auto. apply combines_zeros.
      * intros j s1 s2 s3 Hj Hs. now apply blur_axis_linear.
  - intros [x1 y1] [x2 y2] [x3 y3] [Hx Hy]. simpl in Hx.
    now apply slice_linear.
Qed.

(** X8: over the reals [compute] is linear in the values: when the input
    of a third call is [a*in1 + b*in2], entry by entry, and its output array
    [a*out1 + b*out2], then the three calls fail together or the third
    leaves [a*res1 + b*res2] in its output array. *)
Theorem compute_linear (a b : R) (p : Permutohedral R)
    (out1 out2 out3 inp1 inp2 inp3 : list R)
    (value_size in_offset out_offset in_size out_size : Z) :
  combines a b inp1 inp2 inp3 -> combines a b out1 out2 out3 ->
  all3 (combines a b)
    (compute p out1 inp1 value_size in_offset out_offset in_size out_size)
    (compute p out2 inp2 value_size in_offset out_offset in_size out_size)
    (compute p out3 inp3 value_size in_offset out_offset in_size out_size).
Proof. apply compute_combines. Qed.
End LinearTheorem.

(** ** [compute] keeps values that are not negative *)

Section Positivity.
Context {FM : Fresh R}.

Lemma init_weights_nonneg (stray : Z -> Z) (feature : list R) (d N : Z)
    (p : Permutohedral R) :
  init stray feature d N = Some p -> 2 * d + 1 <= 32767 ->
  forall i w, table (barycentric_ p) i = Some w -> (0 <= w)%R.
Proof.
  intros E Hs i w Hw.
  destruct (init_stages _ _ _ _ _ E)
    as (Hd & HN & cn0 & cn & sf0 & sf & st0 & st & nbs0 & nbs & na & nb & na' & nb'
        & _ & _ & _ & _ & _ & Lo & Lb & Le & Lr & Lc & Lk & _ & Eloop & _ & _ & _ & _ & Hp).
  subst p. simpl in Hw.
  pose proof (rd_range _ _ _ Hw) as Hi.
  destruct (locate_all_spec _ _ _ _ _ _ _ Hd HN Eloop) as (_ & _ & Lb' & _).
  destruct (locate_all_nonneg _ _ _ _ _ _ _ Hd Hs HN Le Lr Lk Lc Eloop i) as (b & Hb & Hnn).
  - rewrite Lb', Lb in Hi. lia.
  - congruence.
Qed.

Lemma nonneg_wr (a a' : list R) (i : Z) (v : R) :
  nonneg a -> (0 <= v)%R -> wr a i v = Some a' -> nonneg a'.
Proof.
  intros Ha Hv E j x Hx. destruct (Z.eq_dec j i) as [->|Hne].
  - rewrite (rd_wr_same _ _ _ _ E) in Hx. congruence.
  - rewrite (rd_wr_other _ _ _ _ _ E) in Hx by auto. eapply Ha; eauto.
Qed.

Lemma nonneg_zeros (n : nat) : nonneg (repeat 0%R n).
Proof.
  intros i x Hx. pose proof (rd_range _ _ _ Hx) as Hi.
  unfold len in Hi. rewrite repeat_length in Hi.
  rewrite rd_repeat in Hx by lia. inversion Hx. lra.
Qed.

Lemma splat_nonneg (p : Permutohedral R) (inp : list R)
    (value_size in_offset in_size : Z) (values values' : list R) :
  (forall i w, table (barycentric_ p) i = Some w -> (0 <= w)%R) ->
  nonneg inp -> nonneg values ->
  splat p inp value_size in_offset in_size values = Some values' ->
  nonneg values'.
Proof.
  intros Hw Hin Hv E. apply splat_some in E.
  apply (for_upto_keeps nonneg _ _ _ _ _ E Hv). clear E.
  intros i t t' Hi Ht E.
  apply (for_upto_keeps nonneg _ _ _ _ _ E Ht). clear E.
  intros j u u' Hj Hu E.
  destruct (table (offset_ p) _) as [o_|]; [|discriminate].
  destruct (table (barycentric_ p) _) as [w|] eqn:Ew; [|discriminate].
  apply (for_upto_keeps nonneg _ _ _ _ _ E Hu). clear E.
  intros k x x' Hk Hx E.
  destruct (rd x _) as [v|] eqn:Ev; [|discriminate].
  destruct (rd inp _) as [y|] eqn:Ey; [|discriminate].
  apply (nonneg_wr _ _ _ _ Hx) in E; auto. simpl.
  pose proof (Hw _ _ Ew). pose proof (Hx _ _ Ev). pose proof (Hin _ _ Ey). nra.
Qed.

Lemma blur_axis_nonneg (p : Permutohedral R) (value_size j : Z)
    (s s' : list R * list R) :
  nonneg (fst s) /\ nonneg (snd s) ->
  blur_axis p value_size j s = Some s' ->
  nonneg (fst s') /\ nonneg (snd s').
Proof.
  intros Hs E. unfold blur_axis in E.
  match type of E with
  | match for_upto ?lo ?hi ?body ?s with _ => _ end = _ =>
      destruct (for_upto lo hi body s) as [[v nv]|] eqn:Eloop; [|discriminate]
  end.
  inversion E. subst s'. clear E. simpl.
  apply and_comm.
  apply (for_upto_keeps (fun t : list R * list R => nonneg (fst t) /\ nonneg (snd t))
           _ _ _ _ _ Eloop Hs). clear Eloop.
  intros i [x y] [x' y'] Hi [Hx Hy] E. simpl in *.
  destruct (table (blur_neighbors_ p) _) as [nb|]; [|discriminate].
  match type of E with
  | match for_upto ?lo ?hi ?body ?s with _ => _ end = _ =>
      destruct (for_upto lo hi body s) as [y1|] eqn:Ek; [|discriminate]
  end.
  inversion E. subst x' y'. split; auto.
  apply (for_upto_keeps nonneg _ _ _ _ _ Ek Hy). clear Ek.
  intros k t t' Hk Ht Ew.
  destruct (rd x _) as [old|] eqn:E1; [|discriminate].
  destruct (rd x (_ * _ + _)) as [c1|] eqn:E2 in Ew; [|discriminate].
  destruct (rd x (_ * _ + _)) as [c2|] eqn:E3 in Ew; [|discriminate].
  apply (nonneg_wr _ _ _ _ Ht) in Ew; auto. simpl.
  pose proof (Hx _ _ E1). pose proof (Hx _ _ E2). pose proof (Hx _ _ E3). lra.
Qed.

Lemma alpha_pos (p : Permutohedral R) : (0 < alpha p)%R.
Proof.
  unfold alpha. simpl. unfold f_one. simpl.
  pose proof (powerRZ_lt 2 (- d_ p) ltac:(lra)).
  apply Rdiv_lt_0_compat; lra.
Qed.

Lemma slice_value_nonneg (p : Permutohedral R) (values : list R)
    (value_size pt k : Z) (v : R) :
  (forall i w, table (barycentric_ p) i = Some w -> (0 <= w)%R) ->
  nonneg values ->
  slice_value p values value_size pt k = Some v -> (0 <= v)%R.
Proof.
  intros Hw Hv E. unfold slice_value, slice_partial in E.
  apply (for_upto_keeps (fun x => (0 <= x)%R) _ _ _ _ _ E).
  - unfold f_zero. simpl. lra.
  - intros j t t' Hj Ht Eb.
    destruct (table (offset_ p) _) as [o_|]; [|discriminate].
    destruct (table (barycentric_ p) _) as [w|] eqn:Ew; [|discriminate].
    destruct (rd values _) as [x|] eqn:Ex; [|discriminate].
    pose proof (Hw _ _ Ew). pose proof (Hv _ _ Ex). pose proof (alpha_pos p).
    set (al := alpha p) in *. injection Eb as <-. simpl.
    assert (0 <= w * x * al)%R; [|lra].
    apply Rmult_le_pos; [apply Rmult_le_pos|]; lra.
Qed.

(** X9: over the reals, on a lattice that [init] built (with [2d+1]
    within a [short]), with ranges inside the points, arrays that hold
    them and sizes of type [int], [compute] takes values that are not
    negative to outputs that are not negative: every entry it writes is
    [>= 0]. *)
Theorem compute_keeps_nonnegative (stray : Z -> Z) (feature : list R)
    (feature_size N : Z) (p : Permutohedral R) (out inp : list R)
    (value_size in_offset out_offset in_size out_size : Z) :
  init stray feature feature_size N = Some p ->
  2 * feature_size + 1 <= 32767 ->
  0 <= value_size ->
  (M_ p + 2) * value_size <= 2147483647 -> N * value_size <= 2147483647 ->
  0 <= in_offset <= N ->
  in_offset + resolve_size N in_offset in_size <= N ->
  resolve_size N in_offset in_size * value_size <= len inp ->
  0 <= out_offset <= N ->
  out_offset + resolve_size N out_offset out_size <= N ->
  resolve_size N out_offset out_size * value_size <= len out ->
  nonneg inp ->
  exists res,
    compute p out inp value_size in_offset out_offset in_size out_size = Some res /\
    forall idx, 0 <= idx < resolve_size N out_offset out_size * value_size ->
      exists x, rd res idx = Some x /\ (0 <= x)%R.
Proof.
  intros E Hs Hvs HintM HintN H1 H2 H3 H4 H5 H6 Hin.
  pose proof (init_weights_nonneg _ _ _ _ _ E Hs) as Hw.
  destruct (init_built _ _ _ _ _ E) as (Hb & Hd & HN). subst N.
  destruct (compute_total p out inp value_size in_offset out_offset in_size out_size)
    as [res Er]; auto.
  exists res. split; [exact Er|].
  pose proof (built_d p Hb) as Hd0. pose proof (built_M p Hb) as HM.
  open_run Er.
  destruct (alloc _ (fresh_float 0)) as [v|] eqn:Ev; [|discriminate].
  destruct (alloc _ (fresh_float 1)) as [nv|] eqn:Env; [|discriminate].
  rewrite zero_scratch_spec in Er;
    [|nia|apply (alloc_len _ _ _ Ev)|apply (alloc_len _ _ _ Env)].
  change (@f_zero R Exact.arith) with 0%R in Er.
  destruct (splat _ _ _ _ _ _) as [v1|] eqn:Es; [|discriminate].
  apply splat_nonneg in Es; auto using nonneg_zeros.
  destruct (blur_passes _ _ _ _) as [[cur nxt]|] eqn:Eb; [|discriminate].
  assert (Hcur : nonneg cur).
  { unfold blur_passes in Eb.
    apply (for_upto_keeps (fun t : list R * list R => nonneg (fst t) /\ nonneg (snd t))
             _ _ _ _ _ Eb).
    - simpl. split; auto using nonneg_zeros.
    - intros j t t' Hj Ht. now apply blur_axis_nonneg. }
  apply slice_spec in Er; auto; [|lia].
  destruct Er as (_ & Hrow & _).
  intros idx Hidx.
  assert (Hvs' : 0 < value_size).
  { destruct (Z.eq_dec value_size 0) as [Hz|Hz]; [rewrite Hz in Hidx|]; lia. }
  destruct (Hrow (idx / value_size) (idx mod value_size)) as (x & Hx1 & Hx2).
  - split; [apply Z.div_pos; lia|]. apply Z.div_lt_upper_bound; lia.
  - apply Z.mod_pos_bound. lia.
  - exists x. rewrite (Z.mul_comm (idx / value_size)), <- Z.div_mod in Hx2 by lia.
    split; auto. eapply slice_value_nonneg; eauto.
Qed.
End Positivity.

(** ** [compute] works channel by channel *)

Lemma row_channel {A} (value_size c o : Z) (val : Z -> A -> option A)
    (body : Z -> list A -> option (list A)) (a a' b : list A) :
  0 <= c < value_size -> channel_view value_size c a b ->
  (forall k t, 0 <= k < value_size -> body k t = row_update (o * value_size) val k t) ->
  for_upto 0 value_size body a = Some a' ->
  exists x v b', rd b o = Some x /\ val c x = Some v /\ wr b o v = Some b' /\
                 channel_view value_size c a' b'.
Proof.
  intros Hc Hview Hbody E.
  destruct (row_loop_some _ _ _ _ _ _ Hbody E) as (Hl & Hrow & Hrest).
  destruct (Hrow c Hc) as (x & v & H1 & H2 & H3).
  assert (Hb : rd b o = Some x) by (rewrite Hview; exact H1).
  destruct (wr_some b o v (rd_range _ _ _ Hb)) as [b' Hw].
  exists x, v, b'. repeat split; auto.
  intros i. destruct (Z.eq_dec i o) as [->|Hne].
  - rewrite (rd_wr_same _ _ _ _ Hw). now rewrite H3.
  - rewrite (rd_wr_other _ _ _ _ _ Hw) by auto. rewrite Hview.
    symmetry. apply Hrest. nia.
Qed.

Section Channels.
Context {F : Type} {FA : FloatArith F} {FM : Fresh F}.
Variables (value_size c : Z).
Hypothesis Hc : 0 <= c < value_size.

Lemma view_zeros (n : Z) :
  0 <= n ->
  channel_view value_size c (repeat f_zero (Z.to_nat (n * value_size)))
    (repeat f_zero (Z.to_nat (n * 1))).
Proof.
  intros Hn i.
  destruct (Z_lt_ge_dec i 0) as [Hneg|Hpos].
  { unfold rd. destruct (Z.ltb_spec i 0); [|lia].
    destruct (Z.ltb_spec (i * value_size + c) 0); [reflexivity|nia]. }
  destruct (Z_lt_ge_dec i n) as [Hin|Hout].
  - rewrite !rd_repeat by nia. reflexivity.
  - rewrite !rd_none; auto; unfold len; rewrite repeat_length; nia.
Qed.

Lemma splat_channel (p : Permutohedral F) (inp inp1 : list F)
    (in_offset in_size : Z) (values values1 values' : list F) :
  channel_view value_size c inp inp1 -> channel_view value_size c values values1 ->
  splat p inp value_size in_offset in_size values = Some values' ->
  exists values1', splat p inp1 1 in_offset in_size values1 = Some values1' /\
                   channel_view value_size c values' values1'.
Proof.
  intros Hin Hv. unfold splat.
  apply for_upto_sim; auto. intros i a a' b Hi Hab.
  apply for_upto_sim; auto. intros j a2 a2' b2 Hj H2 E.
  destruct (table (offset_ p) _) as [o_|]; [|discriminate].
  destruct (table (barycentric_ p) _) as [w|]; [|discriminate].
  destruct (for_upto_ran _ _ c _ _ _ E Hc) as (t & t' & Ec).
  destruct (rd t _) as [y0|]; [|discriminate].
  unfold rd_row in Ec.
  destruct (int_index i value_size c) as [idx|] eqn:Eidx; [|discriminate].
  clear Ec.
  apply (for_upto_refines _ _ _
           (fun k values =>
              v <- rd values ((o_ + 1) * value_size + k) ;;
              x <- rd inp (i * value_size + k) ;;
              wr values ((o_ + 1) * value_size + k) (f_add v (f_mul w x)))) in E.
  2:{ intros k u u' Hk. destruct (rd u _) as [y|]; [|discriminate].
      destruct (rd_row inp i value_size k) as [x|] eqn:Ex; [|discriminate].
      now rewrite (rd_row_some _ _ _ _ _ Ex). }
  destruct (row_channel value_size c (o_ + 1) _ _ _ _ _ Hc H2
              (fun k t _ => splat_row_update inp value_size i (o_ + 1) w k t) E)
    as (x & v & b' & R1 & R2 & R3 & R4).
  exists b'. split; auto.
  rewrite for_upto_single. unfold rd_row.
  rewrite (int_index_channel _ _ _ _ (proj1 Hi) Hc Eidx). cbv beta iota.
  replace ((o_ + 1) * 1 + 0) with (o_ + 1) by lia.
  rewrite R1, Hin. destruct (rd inp _) as [y|]; [|discriminate].
  inversion R2. subst v. exact R3.
Qed.

Lemma blur_row_update (values : list F) (i n1_ n2_ k : Z) (t : list F) :
  (old <- rd values ((i + 1) * value_size + k) ;;
   a <- rd values (n1_ * value_size + k) ;;
   b <- rd values (n2_ * value_size + k) ;;
   wr t ((i + 1) * value_size + k) (f_add old (f_mul f_half (f_add a b))))
  = row_update ((i + 1) * value_size)
      (fun k _ => old <- rd values ((i + 1) * value_size + k) ;;
                  a <- rd values (n1_ * value_size + k) ;;
                  b <- rd values (n2_ * value_size + k) ;;
                  Some (f_add old (f_mul f_half (f_add a b)))) k t.
Proof.
  unfold row_update.
  destruct (rd values ((i + 1) * value_size + k)) as [old|];
    [|destruct (rd t _); reflexivity].
  destruct (rd values (n1_ * value_size + k)) as [a|];
    [|destruct (rd t _); reflexivity].
  destruct (rd values (n2_ * value_size + k)) as [b|];
    [|destruct (rd t _); reflexivity].
  destruct (rd t _) eqn:E; auto. now apply wr_rd_none.
Qed.

Lemma blur_axis_channel (p : Permutohedral F) (j : Z) (s s' t : list F * list F) :
  view2 value_size c s t ->
  blur_axis p value_size j s = Some s' ->
  exists t', blur_axis p 1 j t = Some t' /\ view2 value_size c s' t'.
Proof.
  intros Hst E. unfold blur_axis in *.
  match type of E with
  | match for_upto ?lo ?hi ?body ?s with _ => _ end = _ =>
      destruct (for_upto lo hi body s) as [[v nv]|] eqn:Eloop; [|discriminate]
  end.
  inversion E. subst s'. clear E.
  eapply (for_upto_sim (view2 value_size c)) in Eloop; [| exact Hst |].
  - destruct Eloop as ([v1 nv1] & E1 & Hv & Hnv). rewrite E1.
    eexists. split; [reflexivity|]. split; auto.
  - intros i [x y] [x' y'] [x1 y1] Hi [Hx Hy] E. simpl in Hx, Hy.
    destruct (table (blur_neighbors_ p) _) as [nb|]; [|discriminate].
    match type of E with
    | match for_upto ?lo ?hi ?body ?s with _ => _ end = _ =>
        destruct (for_upto lo hi body s) as [y2|] eqn:Ek; [|discriminate]
    end.
    inversion E. subst x' y'. clear E.
    destruct (row_channel value_size c (i + 1) _ _ _ _ _ Hc Hy
                (fun k t _ => blur_row_update x i (n1 nb + 1) (n2 nb + 1) k t) Ek)
      as (z & u & b' & R1 & R2 & R3 & R4).
    rewrite for_upto_single.
    replace ((i + 1) * 1 + 0) with (i + 1) by lia.
    replace ((n1 nb + 1) * 1 + 0) with (n1 nb + 1) by lia.
    replace ((n2 nb + 1) * 1 + 0) with (n2 nb + 1) by lia.
    rewrite !Hx. cbv beta in R2.
    destruct (rd x ((i + 1) * value_size + c)) as [old|]; [|discriminate].
    destruct (rd x ((n1 nb + 1) * value_size + c)) as [a1|]; [|discriminate].
    destruct (rd x ((n2 nb + 1) * value_size + c)) as [a2|]; [|discriminate].
    inversion R2. subst u. rewrite R3.
    eexists. split; [reflexivity|]. split; auto.
Qed.

Lemma slice_channel (p : Permutohedral F) (values values1 : list F)
    (out_offset out_size : Z) (out out1 out' : list F) :
  channel_view value_size c values values1 -> channel_view value_size c out out1 ->
  slice p values value_size out_offset out_size out = Some out' ->
  exists out1', slice p values1 1 out_offset out_size out1 = Some out1' /\
                channel_view value_size c out' out1'.
Proof.
  intros Hv Hout. unfold slice.
  apply for_upto_sim; auto. intros i a a' b Hi Hab E.
  match type of E with
  | match for_upto ?lo ?hi ?body ?s with _ => _ end = _ =>
      destruct (for_upto lo hi body s) as [a1|] eqn:Ez; [|discriminate]
  end.
  destruct (for_upto_ran _ _ c _ _ _ Ez Hc) as (t & t' & Ec).
  unfold wr_row in Ec.
  destruct (int_index i value_size c) as [idx|] eqn:Eidx; [|discriminate].
  clear Ec. pose proof (int_index_channel _ _ _ _ (proj1 Hi) Hc Eidx) as Ei.
  apply (for_upto_refines _ _ _
           (fun k out => wr out (i * value_size + k) f_zero)) in Ez;
    [|intros k u u' Hk; apply wr_row_some].
  destruct (row_channel value_size c i _ _ _ _ _ Hc Hab
              (fun k t _ => zero_row_update (i * value_size) k t) Ez)
    as (z & v & b1 & R1 & R2 & R3 & R4).
  rewrite for_upto_single. unfold wr_row at 1. rewrite Ei. cbv beta iota.
  inversion R2. subst v. rewrite R3.
  revert E. apply for_upto_sim; auto. intros j a2 a2' b2 Hj H2 E.
  destruct (table (offset_ p) _) as [o_|]; [|discriminate].
  destruct (table (barycentric_ p) _) as [w|]; [|discriminate].
  apply (for_upto_refines _ _ _
           (fun k out =>
              x <- rd out (i * value_size + k) ;;
              v <- rd values ((o_ + 1) * value_size + k) ;;
              wr out (i * value_size + k)
                (f_add x (f_mul (f_mul w v) (alpha p))))) in E.
  2:{ intros k u u' Hk.
      destruct (rd_row u i value_size k) as [x|] eqn:Ex; [|discriminate].
      rewrite (rd_row_some _ _ _ _ _ Ex).
      destruct (rd values _) as [y|]; [|discriminate].
      apply wr_row_some. }
  destruct (row_channel value_size c i _ _ _ _ _ Hc H2
              (fun k t _ => slice_row_update values value_size i (o_ + 1) w (alpha p) k t) E)
    as (x & v & b' & S1 & S2 & S3 & S4).
  exists b'. split; auto.
  rewrite for_upto_single. unfold rd_row, wr_row. rewrite Ei. cbv beta iota.
  replace ((o_ + 1) * 1 + 0) with (o_ + 1) by lia.
  rewrite S1, Hv. cbv beta in S2.
  destruct (rd values _) as [y|]; [|discriminate].
  inversion S2. subst v. exact S3.
Qed.

End Channels.

Section ChannelTheorem.
Context {F : Type} {FA : FloatArith F} {FM : Fresh F}.

(** Channel [c] of a run with [value_size] channels is the run with one
    channel on channel [c] of the arrays. *)
Lemma compute_channel (p : Permutohedral F) (out inp out1 inp1 res : list F)
    (value_size c in_offset out_offset in_size out_size : Z) :
  0 <= c < value_size ->
  channel_view value_size c inp inp1 -> channel_view value_size c out out1 ->
  compute p out inp value_size in_offset out_offset in_size out_size = Some res ->
  exists res1,
    compute p out1 inp1 1 in_offset out_offset in_size out_size = Some res1 /\
    channel_view value_size c res res1.
Proof.
  intros Hc Hin Hout E. rewrite compute_unfold, blurred_unfold. open_run E.
  match goal with
  | H : int_add (M_ p) 2 = Some _ |- _ => pose proof (int_add_in _ _ _ H) as Hfit
  end.
  rewrite (int_mul_small (M_ p + 2) 1) by lia. cbv beta iota.
  destruct (alloc ((M_ p + 2) * value_size) (fresh_float 0)) as [v|] eqn:Ev; [|discriminate].
  destruct (alloc ((M_ p + 2) * value_size) (fresh_float 1)) as [nv|] eqn:Env; [|discriminate].
  assert (HM : 0 <= M_ p + 2).
  { apply alloc_len in Ev. nia. }
  destruct (alloc_some ((M_ p + 2) * 1) (fresh_float 0)) as (v1 & Ev1 & Lv1); [lia|].
  destruct (alloc_some ((M_ p + 2) * 1) (fresh_float 1)) as (nv1 & Env1 & Lnv1); [lia|].
  rewrite Ev1, Env1.
  rewrite zero_scratch_spec in E;
    [|nia|apply (alloc_len _ _ _ Ev)|apply (alloc_len _ _ _ Env)].
  rewrite zero_scratch_spec; auto; try lia.
  destruct (splat _ _ _ _ _ _) as [s1|] eqn:Es; [|discriminate].
  destruct (splat_channel value_size c Hc _ _ _ _ _ _ _ _ Hin
              (view_zeros value_size c Hc (M_ p + 2) HM) Es)
    as (t1 & Et & Hst).
  rewrite Et.
  destruct (blur_passes _ _ _ _) as [[cur nxt]|] eqn:Eb; [|discriminate].
  unfold blur_passes in *.
  destruct (for_upto_sim (view2 value_size c) 0 (d_ p + 1) (blur_axis p value_size) (blur_axis p 1)
              (s1, repeat f_zero (Z.to_nat ((M_ p + 2) * value_size))) (cur, nxt)
              (t1, repeat f_zero (Z.to_nat ((M_ p + 2) * 1)))
              (conj Hst (view_zeros value_size c Hc (M_ p + 2) HM))
              (fun j a a' b _ H E => blur_axis_channel value_size c Hc p j a a' b H E) Eb)
    as ([cur1 nxt1] & Eb1 & Hcur & _).
  rewrite Eb1.
  simpl in Hcur. eapply (slice_channel value_size c Hc); eauto.
Qed.

(** X10: [compute] treats the [value_size] channels independently: when a
    call with [value_size] channels returns, the call with one channel on
    channel [c] of the input (and of the output array) returns channel [c]
    of its result, bit for bit. *)
Theorem compute_channelwise (p : Permutohedral F) (out inp out1 inp1 res : list F)
    (value_size c in_offset out_offset in_size out_size : Z) :
  0 <= c < value_size ->
  channel_view value_size c inp inp1 -> channel_view value_size c out out1 ->
  compute p out inp value_size in_offset out_offset in_size out_size = Some res ->
  exists res1,
    compute p out1 inp1 1 in_offset out_offset in_size out_size = Some res1 /\
    channel_view value_size c res res1.
Proof. apply compute_channel. Qed.
End ChannelTheorem.

(** ** The neighbour table is symmetric *)

Lemma to_short_add_l (a b : Z) : to_short (to_short a + b) = to_short (a + b).
Proof.
  unfold to_short. f_equal.
  replace ((a + 32768) mod 65536 - 32768 + b + 32768) with ((a + 32768) mod 65536 + b) by lia.
  rewrite Zplus_mod_idemp_l. f_equal. lia.
Qed.

Lemma nth_error_shift_key (d j s k : Z) (key : list Z) (n : nat) :
  nth_error (shift_key d j s k key) n
  = match nth_error key n with
    | Some x => Some (to_short (if k + Z.of_nat n =? j then x - s * d else x + s))
    | None => None
    end.
Proof.
  revert k n. induction key as [|x r IH]; intros k n.
  - destruct n; reflexivity.
  - destruct n as [|n]; simpl shift_key; simpl nth_error.
    + now rewrite Z.add_0_r.
    + rewrite IH. replace (k + 1 + Z.of_nat n) with (k + Z.of_nat (S n)) by lia.
      reflexivity.
Qed.

Lemma rd_shift_key (d j s k : Z) (key : list Z) (i : Z) :
  rd (shift_key d j s k key) i
  = match rd key i with
    | Some x => Some (to_short (if k + i =? j then x - s * d else x + s))
    | None => None
    end.
Proof.
  unfold rd. destruct (Z.ltb_spec i 0); [reflexivity|].
  rewrite nth_error_shift_key. now rewrite Z2Nat.id by lia.
Qed.

Lemma shift_key_len (d j s k : Z) (key : list Z) :
  len (shift_key d j s k key) = len key.
Proof.
  unfold len. f_equal. revert k. induction key as [|x r IH]; intros k; simpl; auto.
Qed.

Lemma rd_Forall {A} (P : A -> Prop) (a : list A) (i : Z) (x : A) :
  Forall P a -> rd a i = Some x -> P x.
Proof.
  intros Hall Hx. unfold rd in Hx. destruct (i <? 0); [discriminate|].
  apply nth_error_In in Hx. rewrite Forall_forall in Hall. auto.
Qed.

(** Going to the neighbour and back. *)
Lemma shift_key_back (d j s : Z) (key : list Z) :
  Forall is_short key ->
  shift_key d j (- s) 0 (shift_key d j s 0 key) = key.
Proof.
  intros Hall. apply rd_ext. intros i. rewrite !rd_shift_key.
  destruct (rd key i) as [x|] eqn:Ex; [|reflexivity].
  f_equal. pose proof (rd_Forall _ _ _ _ Hall Ex) as Hx.
  destruct (0 + i =? j).
  - replace (to_short (x - s * d) - - s * d) with (to_short (x - s * d) + s * d) by lia.
    rewrite to_short_add_l. replace (x - s * d + s * d) with x by lia.
    now apply to_short_small.
  - rewrite to_short_add_l. replace (x + s + - s) with x by lia.
    now apply to_short_small.
Qed.

Lemma key_index_rd (k : list Z) (ks : list (list Z)) (s i : Z) :
  key_index k ks s = Some i -> rd ks (i - s) = Some k.
Proof.
  revert s. induction ks as [|k' r IH]; intros s; simpl; [discriminate|].
  destruct (list_eq_dec Z.eq_dec k k') as [->|Hne].
  - intros E. inversion E. replace (i - i) with 0 by lia. reflexivity.
  - intros E. pose proof (key_index_range _ _ _ _ E) as Hr.
    apply IH in E. unfold rd in *. destruct (Z.ltb_spec (i - (s + 1)) 0); [discriminate|].
    destruct (Z.ltb_spec (i - s) 0); [lia|].
    replace (Z.to_nat (i - s)) with (S (Z.to_nat (i - (s + 1)))) by lia. exact E.
Qed.

Lemma key_index_none (k : list Z) (ks : list (list Z)) (s : Z) :
  key_index k ks s = None -> ~ In k ks.
Proof.
  revert s. induction ks as [|k' r IH]; intros s; simpl; [tauto|].
  destruct (list_eq_dec Z.eq_dec k k') as [->|Hne]; [discriminate|].
  intros E [H|H]; [congruence|]. exact (IH _ E H).
Qed.

Lemma key_index_nodup (k : list Z) (ks : list (list Z)) (s i : Z) :
  NoDup ks -> rd ks i = Some k -> key_index k ks s = Some (s + i).
Proof.
  revert s i. induction ks as [|k' r IH]; intros s i Hnd Hk.
  - unfold rd in Hk. destruct (i <? 0); [discriminate|]. destruct (Z.to_nat i); discriminate.
  - simpl. inversion Hnd as [|? ? Hnotin Hnd']. subst.
    pose proof (rd_range _ _ _ Hk) as Hi.
    unfold rd in Hk. destruct (Z.ltb_spec i 0); [lia|].
    destruct (Z.to_nat i) as [|n] eqn:En.
    + simpl in Hk. inversion Hk. subst k'.
      destruct (list_eq_dec Z.eq_dec k k); [|congruence]. f_equal. lia.
    + simpl in Hk.
      destruct (list_eq_dec Z.eq_dec k k') as [->|Hne].
      * apply nth_error_In in Hk. contradiction.
      * rewrite (IH (s + 1) (i - 1)); auto.
        -- f_equal. lia.
        -- unfold rd. destruct (Z.ltb_spec (i - 1) 0); [lia|].
           replace (Z.to_nat (i - 1)) with n by lia. exact Hk.
Qed.

Lemma find_is_lookup (h : HashTable) (arr : list Z) :
  snd (find h arr false) = lookup h (firstn (Z.to_nat (key_size_ h)) arr).
Proof.
  unfold find, lookup. destruct (key_index _ _ _); reflexivity.
Qed.

Lemma lookup_stored (d : Z) (h : HashTable) (key : list Z) (i : Z) :
  stored_keys_ok d h -> getKey h i = Some key -> lookup h key = i.
Proof.
  intros (_ & Hnd & _) Hk. unfold lookup, getKey in *.
  rewrite (key_index_nodup _ _ 0 i Hnd Hk). lia.
Qed.

Lemma lookup_found (h : HashTable) (key : list Z) :
  0 <= lookup h key ->
  0 <= lookup h key < size h /\ getKey h (lookup h key) = Some key.
Proof.
  unfold lookup, getKey. destruct (key_index key (keys_ h) 0) as [i|] eqn:E; [|lia].
  intros _. pose proof (key_index_range _ _ _ _ E). apply key_index_rd in E.
  rewrite Z.sub_0_r in E. split; [unfold size; lia|exact E].
Qed.

Lemma find_create_keys (d : Z) (h h' : HashTable) (arr : list Z) (o : Z) :
  stored_keys_ok d h -> 0 <= d <= len arr ->
  (forall i, 0 <= i < d -> exists x, rd arr i = Some x /\ is_short x) ->
  find h arr true = (h', o) ->
  stored_keys_ok d h'.
Proof.
  intros (Hks & Hnd & Hall) Hd Harr. unfold find. rewrite Hks.
  destruct (key_index _ (keys_ h) 0) as [i|] eqn:E; intros H; injection H as <- <-.
  - repeat split; auto; apply Hall; auto.
  - split; [reflexivity|]. simpl. split.
    + apply NoDup_app; [exact Hnd|repeat constructor; auto| ].
      intros k Hk [<-|[]]. apply key_index_none in E. contradiction.
    + intros key Hin. apply in_app_or in Hin. destruct Hin as [Hin|[<-|[]]]; [now apply Hall|].
      split.
      * unfold len in *. rewrite length_firstn. lia.
      * apply Forall_rd. intros i Hi.
        unfold len in Hi. rewrite length_firstn in Hi.
        destruct (Harr i ltac:(unfold len in Hd; lia)) as (x & Hx & Hs).
        exists x. split; auto. rewrite rd_firstn.
        destruct (Z.ltb_spec i (Z.of_nat (Z.to_nat d))); [exact Hx|lia].
Qed.

Section KeyProps.
Context {F : Type} {FA : FloatArith F} {FM : Fresh F}.
Hypothesis to_short_range : forall (x : F) (z : Z), f_to_short x = Some z -> is_short z.

Lemma resolve_corners_keys (d : Z) (canonical : list Z) (k : Z)
    (rem0 : list F) (rank : list Z) (barycentric : list F)
    (h h' : HashTable) (key key' offset offset' : list Z) (bary bary' : list F) :
  0 <= d -> stored_keys_ok d h -> d <= len key ->
  resolve_corners d canonical k rem0 rank barycentric (h, key, offset, bary)
  = Some (h', key', offset', bary') ->
  stored_keys_ok d h' /\ len key' = len key.
Proof.
  intros Hd Hok Hlen E. unfold resolve_corners in E.
  apply (for_upto_inv_some
    (fun r (t : HashTable * list Z * list Z * list F) =>
       let '(h1, key1, _, _) := t in
       stored_keys_ok d h1 /\ len key1 = len key)
    0 (d + 1) _ _ _ E ltac:(lia)); [split; auto|].
  clear E. intros r [[[h1 key1] offset1] bary1] [[[h2 key2] offset2] bary2] Hr [Hok1 Hl1] Hb.
  match type of Hb with
  | match for_upto ?lo ?hi ?body ?s with _ => _ end = _ =>
      destruct (for_upto lo hi body s) as [key3|] eqn:Ek; [|discriminate]
  end.
  destruct (find h1 key3 true) as [h3 o] eqn:Hfind.
  destruct (wr offset1 _ o) as [offset3|]; [|discriminate].
  destruct (rd barycentric r) as [b|]; [|discriminate].
  destruct (wr bary1 _ b) as [bary3|]; [|discriminate].
  inversion Hb. subst h2 key2 offset2 bary2. clear Hb.
  assert (Hk3 : len key3 = len key1 /\
                forall i, 0 <= i < d -> exists x, rd key3 i = Some x /\ is_short x).
  { apply (for_upto_inv_some
      (fun i (t : list Z) =>
         len t = len key1 /\ forall i', 0 <= i' < i -> exists x, rd t i' = Some x /\ is_short x)
      0 d _ _ _ Ek Hd).
    - split; auto. intros i' Hi'. lia.
    - intros i t t' Hi [Hl Hdone] Hw.
      destruct (rd rem0 i) as [r0|]; [|discriminate].
      destruct (rd rank i) as [rk|]; [|discriminate].
      destruct (rd canonical _) as [cn|]; [|discriminate].
      destruct (f_to_short _) as [s|] eqn:Es; [|discriminate].
      split; [rewrite (wr_len _ _ _ _ Hw); exact Hl|].
      intros i' Hi'. destruct (Z.eq_dec i' i) as [->|Hne].
      + exists s. split; [apply (rd_wr_same _ _ _ _ Hw)|eapply to_short_range; eauto].
      + rewrite (rd_wr_other _ _ _ _ _ Hw) by auto. apply Hdone. lia. }
  destruct Hk3 as [Hl3 Hs3]. split; [|congruence].
  apply (find_create_keys d h1 h3 key3 o Hok1); [lia|exact Hs3|exact Hfind].
Qed.

Lemma locate_all_keys (d N : Z) (feature scale_factor : list F) (canonical : list Z)
    (st st' : Build F) :
  0 <= d -> 0 <= N ->
  stored_keys_ok d (s_hash_table st) -> d <= len (s_key st) ->
  for_upto 0 N (locate d feature scale_factor canonical) st = Some st' ->
  stored_keys_ok d (s_hash_table st').
Proof.
  intros Hd HN Hok Hl E.
  apply (for_upto_inv_some
    (fun _ (t : Build F) => stored_keys_ok d (s_hash_table t) /\ d <= len (s_key t))
    0 N _ _ _ E HN); [split; auto|].
  intros k t t' Hk [H1 H2] Hb.
  apply locate_stages in Hb.
  destruct Hb as (el & r0 & sum & rk & rk' & r0' & bc & _ & _ & _ & _ & _ & Hres & _).
  apply resolve_corners_keys in Hres; auto. destruct Hres as [H3 H4]. split; auto. lia.
Qed.
End KeyProps.

(** The neighbours that [find_neighbors] stores for vertex [i] along axis
    [j] are the answers of the table for the two shifted keys. *)
Lemma find_neighbors_keys (stray : Z -> Z) (d M : Z) (h : HashTable)
    (a b a' b' : list Z) (nbs nbs' : list Neighbors) :
  0 <= d -> 0 <= M -> stored_keys_ok d h ->
  find_neighbors stray d M h (a, b, nbs) = Some (a', b', nbs') ->
  forall j i, 0 <= j <= d -> 0 <= i < M ->
    exists key, getKey h i = Some key /\
      rd nbs' (j * M + i)
      = Some {| n1 := lookup h (shift_key d j (-1) 0 key);
                n2 := lookup h (shift_key d j 1 0 key) |}.
Proof.
  intros Hd HM Hok E. unfold find_neighbors in E.
  assert (Hfinal : forall j' i, 0 <= j' < d + 1 -> 0 <= i < M ->
            exists key, getKey h i = Some key /\
              rd nbs' (j' * M + i)
              = Some {| n1 := lookup h (shift_key d j' (-1) 0 key);
                        n2 := lookup h (shift_key d j' 1 0 key) |});
    [|intros j i Hj Hi; apply Hfinal; lia].
  apply (for_upto_inv_some
    (fun j (t : list Z * list Z * list Neighbors) =>
       forall j' i, 0 <= j' < j -> 0 <= i < M ->
         exists key, getKey h i = Some key /\
           rd (snd t) (j' * M + i)
           = Some {| n1 := lookup h (shift_key d j' (-1) 0 key);
                     n2 := lookup h (shift_key d j' 1 0 key) |})
    0 (d + 1) _ _ _ E ltac:(lia)); clear E.
  - intros j' i' Hj'. lia.
  - intros j t t' Hj Hdone Hb.
    pose proof (for_upto_inv_some
      (fun i (u : list Z * list Z * list Neighbors) =>
         forall j' i', (0 <= j' < j /\ 0 <= i' < M) \/ (j' = j /\ 0 <= i' < i) ->
           exists key, getKey h i' = Some key /\
             rd (snd u) (j' * M + i')
             = Some {| n1 := lookup h (shift_key d j' (-1) 0 key);
                       n2 := lookup h (shift_key d j' 1 0 key) |})
      0 M _ _ _ Hb HM) as H.
    simpl in H.
    assert (Hall : forall j' i',
              (0 <= j' < j /\ 0 <= i' < M) \/ (j' = j /\ 0 <= i' < M) ->
              exists key, getKey h i' = Some key /\
                rd (snd t') (j' * M + i')
                = Some {| n1 := lookup h (shift_key d j' (-1) 0 key);
                          n2 := lookup h (shift_key d j' 1 0 key) |}).
    { apply H; clear H Hb.
      - intros j' i' [[H1 H2]|[H1 H2]]; [now apply Hdone|lia].
      - intros i [[a1 b1] nbs1] [[a2 b2] nbs2] Hi Hdone1 Hb. simpl in *.
        destruct (getKey h i) as [key|] eqn:Hkey; [|discriminate].
        match type of Hb with
        | match for_upto ?lo ?hi ?body ?s with _ => _ end = _ =>
            destruct (for_upto lo hi body s) as [[a3 b3]|] eqn:Ek; [|discriminate]
        end.
        destruct (if j <? d then rd key j else Some (stray i)) as [key_j|] eqn:Ej;
          [|discriminate].
        destruct (wr a3 j _) as [a4|] eqn:Wa; [|discriminate].
        destruct (wr b3 j _) as [b4|] eqn:Wb; [|discriminate].
        match type of Hb with
        | match wr nbs1 ?ix ?v with _ => _ end = _ =>
            destruct (wr nbs1 ix v) as [nbs3|] eqn:Hw; [|discriminate]
        end.
        inversion Hb. subst a2 b2 nbs2. clear Hb.
        assert (Hlk : len key = d).
        { destruct Hok as (_ & _ & Hall). apply Hall.
          unfold getKey, rd in Hkey. destruct (i <? 0); [discriminate|].
          eapply nth_error_In; eauto. }
        assert (H3 : forall k, 0 <= k < d ->
                  exists x, rd key k = Some x /\
                            rd a3 k = Some (to_short (x - 1)) /\
                            rd b3 k = Some (to_short (x + 1))).
        { apply (for_upto_inv_some
            (fun k (u : list Z * list Z) =>
               forall k', 0 <= k' < k ->
                 exists x, rd key k' = Some x /\
                           rd (fst u) k' = Some (to_short (x - 1)) /\
                           rd (snd u) k' = Some (to_short (x + 1)))
            0 d _ _ _ Ek Hd).
          - intros k' Hk'. lia.
          - intros k [u1 u2] [u1' u2'] Hk Hprev Hstep. simpl in *.
            destruct (rd key k) as [x|] eqn:Ex; [|discriminate].
            destruct (wr u1 k _) as [u3|] eqn:W1; [|discriminate].
            destruct (wr u2 k _) as [u4|] eqn:W2; [|discriminate].
            inversion Hstep. subst u1' u2'.
            intros k' Hk'. destruct (Z.eq_dec k' k) as [->|Hne].
            + exists x. split; auto.
              split; [apply (rd_wr_same _ _ _ _ W1)|apply (rd_wr_same _ _ _ _ W2)].
            + destruct (Hprev k' ltac:(lia)) as (x' & X1 & X2 & X3).
              exists x'. split; auto.
              rewrite (rd_wr_other _ _ _ _ _ W1), (rd_wr_other _ _ _ _ _ W2) by auto.
              auto. }
        assert (Hshift : forall s arr3 arr4,
                  (forall k, 0 <= k < d -> exists x, rd key k = Some x /\
                                                     rd arr3 k = Some (to_short (x + s))) ->
                  wr arr3 j (to_short (key_j - s * d)) = Some arr4 ->
                  firstn (Z.to_nat d) arr4 = shift_key d j s 0 key).
        { intros s arr3 arr4 Harr W. apply rd_ext. intros idx.
          rewrite rd_firstn, rd_shift_key.
          destruct (Z.ltb_spec idx (Z.of_nat (Z.to_nat d))).
          - destruct (Z_lt_ge_dec idx 0) as [Hneg|Hpos].
            { unfold rd. destruct (Z.ltb_spec idx 0); [reflexivity|lia]. }
            destruct (Harr idx ltac:(lia)) as (x & X1 & X2). rewrite X1.
            simpl. destruct (Z.eqb_spec idx j) as [->|Hne].
            + rewrite (rd_wr_same _ _ _ _ W).
              destruct (Z.ltb_spec j d); [|lia]. congruence.
            + rewrite (rd_wr_other _ _ _ _ _ W) by auto. exact X2.
          - rewrite rd_none; [reflexivity|lia]. }
        intros j' i' Hji.
        destruct (Z.eq_dec (j' * M + i') (j * M + i)) as [Heq|Hne].
        + assert (j' = j /\ i' = i) as [-> ->] by nia.
          exists key. split; auto. rewrite (rd_wr_same _ _ _ _ Hw).
          rewrite !find_is_lookup. destruct Hok as (Hks & _). rewrite Hks.
          f_equal. f_equal.
          * f_equal. apply (Hshift (-1) a3 a4).
            -- intros k Hk. destruct (H3 k Hk) as (x & X1 & X2 & _). exists x. auto.
            -- rewrite <- Wa. do 2 f_equal. lia.
          * f_equal. apply (Hshift 1 b3 b4).
            -- intros k Hk. destruct (H3 k Hk) as (x & X1 & _ & X3). exists x. auto.
            -- rewrite <- Wb. do 2 f_equal. lia.
        + rewrite (rd_wr_other _ _ _ _ _ Hw) by auto. apply Hdone1.
          destruct Hji as [?|[-> ?]]; [left; auto|right; split; auto].
          destruct (Z.eq_dec i' i) as [->|]; [contradiction|lia]. }
    intros j' i' Hj' Hi'. apply Hall.
    destruct (Z.eq_dec j' j) as [->|]; [right|left]; split; auto; lia.
Qed.

Section Symmetry.
Context {F : Type} {FA : FloatArith F} {FM : Fresh F}.

(** X11: the neighbour table that [init] builds is symmetric along every
    axis: when [n1] of vertex [i] along axis [j] is a vertex [i'] (not
    [-1]), then [n2] of [i'] along [j] is [i], and the same with [n1] and
    [n2] exchanged.  The conversion to [short] is assumed to give a value
    of type [short]. *)
Theorem neighbors_symmetric (stray : Z -> Z) (feature : list F) (feature_size N : Z)
    (p : Permutohedral F) (nbs : list Neighbors) (j i : Z) (nb : Neighbors) :
  (forall (x : F) (z : Z), f_to_short x = Some z -> -32768 <= z <= 32767) ->
  init stray feature feature_size N = Some p ->
  blur_neighbors_ p = Some nbs ->
  0 <= j <= feature_size -> 0 <= i < M_ p ->
  rd nbs (j * M_ p + i) = Some nb ->
  (0 <= n1 nb ->
   n1 nb < M_ p /\
   exists nb', rd nbs (j * M_ p + n1 nb) = Some nb' /\ n2 nb' = i) /\
  (0 <= n2 nb ->
   n2 nb < M_ p /\
   exists nb', rd nbs (j * M_ p + n2 nb) = Some nb' /\ n1 nb' = i).
Proof.
  intros Hshort E Hn Hj Hi Hnb.
  destruct (init_stages _ _ _ _ _ E)
    as (Hd & HN & cn0 & cn & sf0 & sf & st0 & st & nbs0 & nbs1 & na & nb0 & na' & nb0'
        & _ & _ & _ & _ & Hh & _ & _ & _ & _ & _ & _ & Lk & Eloop & _ & _ & _ & Enb & Hp).
  subst p. simpl in *. inversion Hn. subst nbs1. clear Hn.
  assert (Hok : stored_keys_ok feature_size (s_hash_table st)).
  { apply (locate_all_keys Hshort) in Eloop; auto; try lia.
    rewrite Hh. split; [reflexivity|]. split; [constructor|]. intros key []. }
  set (h := s_hash_table st) in *. set (M := size h) in *.
  assert (HM : 0 <= M) by apply len_nonneg.
  pose proof (find_neighbors_keys _ _ _ _ _ _ _ _ _ _ Hd HM Hok Enb) as Hkeys.
  destruct (Hkeys j i Hj Hi) as (key & Hkey & Hrd).
  rewrite Hrd in Hnb. inversion Hnb. subst nb. clear Hnb. simpl.
  assert (Hkshort : Forall is_short key).
  { destruct Hok as (_ & _ & Hall). apply Hall.
    unfold getKey, rd in Hkey. destruct (i <? 0); [discriminate|].
    eapply nth_error_In; eauto. }
  split; intros Hpos; apply lookup_found in Hpos; destruct Hpos as [Hr Hk'];
    (split; [fold M in Hr; lia|]);
    destruct (Hkeys j _ Hj Hr) as (key' & Hkey' & Hrd');
    rewrite Hk' in Hkey'; inversion Hkey'; subst key'; clear Hkey';
    eexists; (split; [exact Hrd'|]); simpl.
  - pose proof (shift_key_back feature_size j (-1) key Hkshort) as B. simpl Z.opp in B.
    rewrite B. apply (lookup_stored feature_size); auto.
  - pose proof (shift_key_back feature_size j 1 key Hkshort) as B. simpl Z.opp in B.
    rewrite B. apply (lookup_stored feature_size); auto.
Qed.
End Symmetry.

(** ** Every vertex is the corner of a simplex *)

Lemma find_create_size (h h' : HashTable) (k : list Z) (o : Z) :
  find h k true = (h', o) ->
  (size h' = size h /\ 0 <= o < size h) \/ (size h' = size h + 1 /\ o = size h).
Proof.
  unfold find, size.
  destruct (key_index _ (keys_ h) 0) as [i0|] eqn:E; intros H; injection H as <- <-.
  - left. apply key_index_range in E. split; [reflexivity|lia].
  - right. simpl. unfold len. rewrite length_app. simpl. lia.
Qed.

Section Corners.
Context {F : Type} {FA : FloatArith F} {FM : Fresh F}.

Lemma resolve_corners_new (d : Z) (canonical : list Z) (k : Z)
    (rem0 : list F) (rank : list Z) (barycentric : list F)
    (h h' : HashTable) (key key' offset offset' : list Z) (bary bary' : list F) :
  0 <= d ->
  resolve_corners d canonical k rem0 rank barycentric (h, key, offset, bary)
  = Some (h', key', offset', bary') ->
  size h' <= size h + (d + 1) /\
  forall v, size h <= v < size h' ->
    exists r, 0 <= r <= d /\ rd offset' (k * (d + 1) + r) = Some v.
Proof.
  intros Hd E. unfold resolve_corners in E.
  pose proof (for_upto_inv_some
    (fun r (t : HashTable * list Z * list Z * list F) =>
       let '(h1, _, offset1, _) := t in
       size h1 <= size h + r /\
       forall v, size h <= v < size h1 ->
         exists r', 0 <= r' < r /\ rd offset1 (k * (d + 1) + r') = Some v)
    0 (d + 1) _ _ _ E ltac:(lia)) as H.
  simpl in H. destruct H as [H1 H2].
  - split; [lia|]. intros v Hv. lia.
  - intros r [[[h1 key1] offset1] bary1] [[[h2 key2] offset2] bary2] Hr [H1 H2] Hb.
    match type of Hb with
    | match for_upto ?lo ?hi ?body ?s with _ => _ end = _ =>
        destruct (for_upto lo hi body s) as [key3|]; [|discriminate]
    end.
    destruct (find h1 key3 true) as [h3 o] eqn:Hfind.
    destruct (wr offset1 (k * (d + 1) + r) o) as [offset3|] eqn:Hwo; [|discriminate].
    destruct (rd barycentric r) as [b|]; [|discriminate].
    destruct (wr bary1 _ b) as [bary3|]; [|discriminate].
    inversion Hb. subst h2 key2 offset2 bary2. clear Hb.
    apply find_create_size in Hfind.
    split; [lia|]. intros v Hv.
    destruct (Z_lt_ge_dec v (size h1)) as [Hold|Hnew].
    + destruct (H2 v ltac:(lia)) as (r' & Hr' & Ho). exists r'. split; [lia|].
      rewrite (rd_wr_other _ _ _ _ _ Hwo) by lia. exact Ho.
    + exists r. split; [lia|]. rewrite (rd_wr_same _ _ _ _ Hwo). f_equal. lia.
  - split; [lia|]. intros v Hv. destruct (H2 v Hv) as (r & Hr & Ho).
    exists r. split; [lia|exact Ho].
Qed.

Lemma locate_all_new (d N : Z) (feature scale_factor : list F) (canonical : list Z)
    (st st' : Build F) :
  0 <= d -> 0 <= N ->
  for_upto 0 N (locate d feature scale_factor canonical) st = Some st' ->
  size (s_hash_table st') <= size (s_hash_table st) + N * (d + 1) /\
  forall v, size (s_hash_table st) <= v < size (s_hash_table st') ->
    exists idx, 0 <= idx < N * (d + 1) /\ rd (s_offset st') idx = Some v.
Proof.
  intros Hd HN E.
  apply (for_upto_inv_some
    (fun k (t : Build F) =>
       size (s_hash_table t) <= size (s_hash_table st) + k * (d + 1) /\
       forall v, size (s_hash_table st) <= v < size (s_hash_table t) ->
         exists idx, 0 <= idx < k * (d + 1) /\ rd (s_offset t) idx = Some v)
    0 N _ _ _ E HN).
  - split; [lia|]. intros v Hv. lia.
  - intros k t t' Hk [H1 H2] Hb.
    apply locate_stages in Hb.
    destruct Hb as (el & r0 & sum & rk & rk' & r0' & bc & _ & _ & _ & _ & _ & Hres & _).
    pose proof (resolve_corners_new _ _ _ _ _ _ _ _ _ _ _ _ _ _ Hd Hres) as [N1 N2].
    apply resolve_corners_spec in Hres; auto.
    destruct Hres as (_ & _ & _ & _ & _ & R6 & _ & _).
    split; [lia|]. intros v Hv.
    destruct (Z_lt_ge_dec v (size (s_hash_table t))) as [Hold|Hnew].
    + destruct (H2 v ltac:(lia)) as (idx & Hidx & Ho). exists idx. split; [lia|].
      rewrite R6 by lia. exact Ho.
    + destruct (N2 v ltac:(lia)) as (r & Hr & Ho). exists (k * (d + 1) + r).
      split; [lia|exact Ho].
Qed.

(** X12: after [init] every vertex is a corner of the simplex of some
    point: each index below [M_] occurs in [offset_].  So [M_] is at most
    [(d+1)*N], and at least 1 when there is a point. *)
Theorem vertices_are_corners (stray : Z -> Z) (feature : list F) (feature_size N : Z)
    (p : Permutohedral F) :
  init stray feature feature_size N = Some p ->
  M_ p <= (feature_size + 1) * N /\
  (1 <= N -> 1 <= M_ p) /\
  forall v, 0 <= v < M_ p ->
    exists idx, 0 <= idx < (feature_size + 1) * N /\ table (offset_ p) idx = Some v.
Proof.
  intros E.
  destruct (init_built _ _ _ _ _ E) as (Hb & Hbd & HbN).
  destruct (init_stages _ _ _ _ _ E)
    as (Hd & HN & cn0 & cn & sf0 & sf & st0 & st & nbs0 & nbs1 & na & nb0 & na' & nb0'
        & _ & _ & _ & _ & Hh & _ & _ & _ & _ & _ & _ & _ & Eloop & _ & _ & _ & _ & Hp).
  destruct (locate_all_new _ _ _ _ _ _ _ Hd HN Eloop) as [H1 H2].
  rewrite Hh in H1, H2. change (size (HashTable_new feature_size (N * (feature_size + 1))))
    with 0 in H1, H2.
  split; [subst p; simpl; lia|]. split.
  - intros HN1. destruct (built_offset p Hb) as (o & _ & _ & Ho).
    destruct (Ho 0) as (x & _ & Hx); [nia|lia].
  - subst p. simpl. intros v Hv. destruct (H2 v Hv) as (idx & Hidx & Ho).
    exists idx. split; [lia|exact Ho].
Qed.
End Corners.

(** ** Points with the same features *)

Lemma key_index_app (k : list Z) (ks more : list (list Z)) (s : Z) :
  key_index k (ks ++ more) s
  = match key_index k ks s with
    | Some i => Some i
    | None => key_index k more (s + len ks)
    end.
Proof.
  revert s. induction ks as [|k' r IH]; intros s; simpl.
  - unfold len. simpl. now rewrite Z.add_0_r.
  - destruct (list_eq_dec Z.eq_dec k k'); [reflexivity|].
    rewrite IH. replace (s + 1 + len r) with (s + len (k' :: r)); [reflexivity|].
    unfold len. simpl length. lia.
Qed.

Lemma key_index_in (k : list Z) (ks : list (list Z)) (s : Z) :
  In k ks -> exists i, key_index k ks s = Some i.
Proof.
  intros Hin. destruct (key_index k ks s) as [i|] eqn:E; eauto.
  apply key_index_none in E. contradiction.
Qed.

Lemma extends_refl (h : HashTable) : extends h h.
Proof. split; auto. exists []. now rewrite app_nil_r. Qed.

Lemma extends_trans (h1 h2 h3 : HashTable) :
  extends h1 h2 -> extends h2 h3 -> extends h1 h3.
Proof.
  intros [K1 [m1 E1]] [K2 [m2 E2]]. split; [congruence|].
  exists (m1 ++ m2). rewrite E2, E1. now rewrite app_assoc.
Qed.

Lemma lookup_extends (h h' : HashTable) (key : list Z) :
  extends h h' -> In key (keys_ h) ->
  lookup h' key = lookup h key /\ In key (keys_ h').
Proof.
  intros [_ [more E]] Hin. unfold lookup. rewrite E, key_index_app.
  destruct (key_index_in key (keys_ h) 0 Hin) as [i Hi]. rewrite Hi.
  split; auto. apply in_or_app. auto.
Qed.

Lemma find_create_lookup (h h' : HashTable) (arr : list Z) (o : Z) :
  find h arr true = (h', o) ->
  extends h h' /\
  In (firstn (Z.to_nat (key_size_ h)) arr) (keys_ h') /\
  o = lookup h' (firstn (Z.to_nat (key_size_ h)) arr).
Proof.
  unfold find. set (key := firstn (Z.to_nat (key_size_ h)) arr).
  destruct (key_index key (keys_ h) 0) as [i|] eqn:E; intros H; injection H as <- <-.
  - split; [apply extends_refl|]. split.
    + apply key_index_rd in E. unfold rd in E. destruct (i - 0 <? 0); [discriminate|].
      eapply nth_error_In; eauto.
    + unfold lookup. now rewrite E.
  - split; [split; [reflexivity|exists [key]; reflexivity]|]. simpl. split.
    + apply in_or_app. right. left. reflexivity.
    + unfold lookup. simpl. rewrite key_index_app, E. simpl.
      destruct (list_eq_dec Z.eq_dec key key); [|congruence]. unfold size. lia.
Qed.

Lemma len_repeat {A} (x : A) (n : Z) : 0 <= n -> len (repeat x (Z.to_nat n)) = n.
Proof. intros Hn. unfold len. rewrite repeat_length. lia. Qed.

Section SamePoint.
Context {F : Type} {FA : FloatArith F} {FM : Fresh F}.

Lemma elevate_row (d : Z) (feature scale_factor : list F) (k1 k2 : Z) (e : list F) :
  (forall j, 0 <= j < d -> rd feature (k1 * d + j) = rd feature (k2 * d + j)) ->
  elevate d feature scale_factor k1 e = elevate d feature scale_factor k2 e.
Proof.
  intros Hrow. unfold elevate.
  rewrite (for_downto_ext d 0 _
    (fun j '(elevated, sm) =>
       fj <- rd feature (k2 * d + (j - 1)) ;;
       sj <- rd scale_factor (j - 1) ;;
       let cf := f_mul fj sj in
       elevated <- wr elevated j (f_sub sm (f_mul (f_of_int j) cf)) ;;
       Some (elevated, f_add sm cf))); [reflexivity|].
  intros j [el sm] Hj. rewrite Hrow by lia. reflexivity.
Qed.

Lemma corner_row (d : Z) (feature scale_factor : list F) (canonical : list Z)
    (k1 k2 r : Z) :
  (forall j, 0 <= j < d -> rd feature (k1 * d + j) = rd feature (k2 * d + j)) ->
  corner d feature scale_factor canonical k1 r
  = corner d feature scale_factor canonical k2 r.
Proof.
  intros Hrow. unfold corner. now rewrite (elevate_row d feature scale_factor k1 k2).
Qed.

Lemma corner_key_fresh (d : Z) (canonical : list Z) (rem0 : list F) (rank : list Z)
    (r : Z) (key1 key2 : list Z) :
  0 <= d -> len key1 = len key2 ->
  corner_key d canonical rem0 rank r key1 = corner_key d canonical rem0 rank r key2.
Proof.
  intros Hd Hl. unfold corner_key.
  match goal with
  | |- match for_upto 0 d ?body key1 with _ => _ end = _ =>
      assert (H : both (alike 0 d) (for_upto 0 d body key1) (for_upto 0 d body key2));
      [|destruct (for_upto 0 d body key1) as [a|], (for_upto 0 d body key2) as [b|];
        simpl in H; try contradiction; auto]
  end.
  - apply (for_upto_rel (fun i a b => alike 0 i a b)); [exact Hd| |].
    + apply alike_start; [lia|exact Hl].
    + intros i x y Hi Hxy.
      destruct (rd rem0 i); [|exact I]. destruct (rd rank i); [|exact I].
      destruct (rd canonical _); [|exact I]. destruct (f_to_short _); [|exact I].
      apply (alike_wr 0 i); auto. intros; lia.
  - f_equal. now apply alike_firstn.
Qed.

Lemma corner_key_len (d : Z) (canonical : list Z) (rem0 : list F) (rank : list Z)
    (r : Z) (key key' : list Z) :
  0 <= d ->
  for_upto 0 d (fun i key =>
    r0 <- rd rem0 i ;;
    rk <- rd rank i ;;
    c <- rd canonical (r * (d + 1) + rk) ;;
    s <- f_to_short (f_add r0 (f_of_int c)) ;;
    wr key i s) key = Some key' ->
  len key' = len key.
Proof.
  intros Hd. apply for_upto_len; auto.
  intros i t t' Hi E.
  destruct (rd rem0 i); [|discriminate]. destruct (rd rank i); [|discriminate].
  destruct (rd canonical _); [|discriminate]. destruct (f_to_short _); [|discriminate].
  apply (wr_len _ _ _ _ E).
Qed.

(** The corners of one point, through the table. *)
Lemma resolve_corners_lookup (d : Z) (canonical : list Z) (k : Z)
    (rem0 : list F) (rank : list Z) (barycentric : list F)
    (h h' : HashTable) (key key' offset offset' : list Z) (bary bary' : list F) :
  0 <= d -> key_size_ h = d ->
  resolve_corners d canonical k rem0 rank barycentric (h, key, offset, bary)
  = Some (h', key', offset', bary') ->
  extends h h' /\ len key' = len key /\
  forall r, 0 <= r <= d ->
    exists kk b,
      corner_key d canonical rem0 rank r key = Some kk /\
      In kk (keys_ h') /\
      rd offset' (k * (d + 1) + r) = Some (lookup h' kk) /\
      rd barycentric r = Some b /\
      rd bary' (k * (d + 1) + r) = Some b.
Proof.
  intros Hd Hks E. unfold resolve_corners in E.
  pose proof (for_upto_inv_some
    (fun r (t : HashTable * list Z * list Z * list F) =>
       let '(h1, key1, offset1, bary1) := t in
       extends h h1 /\ len key1 = len key /\
       forall r', 0 <= r' < r ->
         exists kk b,
           corner_key d canonical rem0 rank r' key = Some kk /\
           In kk (keys_ h1) /\
           rd offset1 (k * (d + 1) + r') = Some (lookup h1 kk) /\
           rd barycentric r' = Some b /\
           rd bary1 (k * (d + 1) + r') = Some b)
    0 (d + 1) _ _ _ E ltac:(lia)) as H.
  simpl in H. destruct H as (H1 & H2 & H3).
  - split; [apply extends_refl|]. split; auto. intros r' Hr'. lia.
  - intros r [[[h1 key1] offset1] bary1] [[[h2 key2] offset2] bary2] Hr (H1 & H2 & H3) Hb.
    match type of Hb with
    | match for_upto ?lo ?hi ?body ?s with _ => _ end = _ =>
        destruct (for_upto lo hi body s) as [key3|] eqn:Ek; [|discriminate]
    end.
    destruct (find h1 key3 true) as [h3 o] eqn:Hfind.
    destruct (wr offset1 (k * (d + 1) + r) o) as [offset3|] eqn:Hwo; [|discriminate].
    destruct (rd barycentric r) as [b|] eqn:Hrb; [|discriminate].
    destruct (wr bary1 (k * (d + 1) + r) b) as [bary3|] eqn:Hwb; [|discriminate].
    inversion Hb. subst h2 key2 offset2 bary2. clear Hb.
    apply find_create_lookup in Hfind. destruct Hfind as (Hext & Hin & Ho).
    assert (Hks1 : key_size_ h1 = d) by (destruct H1; congruence).
    rewrite Hks1 in Hin, Ho.
    split; [eapply extends_trans; eauto|].
    split; [rewrite (corner_key_len _ _ _ _ _ _ _ Hd Ek); exact H2|].
    intros r' Hr'. destruct (Z.eq_dec r' r) as [->|Hne].
    + exists (firstn (Z.to_nat d) key3), b.
      split.
      * rewrite (corner_key_fresh d canonical rem0 rank r key key1) by (auto; lia).
        unfold corner_key. now rewrite Ek.
      * split; [exact Hin|]. split; [rewrite (rd_wr_same _ _ _ _ Hwo); congruence|].
        split; [exact Hrb|apply (rd_wr_same _ _ _ _ Hwb)].
    + destruct (H3 r' ltac:(lia)) as (kk & b' & C1 & C2 & C3 & C4 & C5).
      exists kk, b'. destruct (lookup_extends _ _ _ Hext C2) as [L1 L2].
      split; [exact C1|]. split; [exact L2|].
      split; [rewrite (rd_wr_other _ _ _ _ _ Hwo) by lia; congruence|].
      split; [exact C4|]. rewrite (rd_wr_other _ _ _ _ _ Hwb) by lia. exact C5.
  - split; auto. split; auto. intros r Hr. apply H3. lia.
Qed.

Lemma locate_corner (d : Z) (feature scale_factor : list F) (canonical : list Z)
    (k : Z) (st st' : Build F) :
  0 <= d -> key_size_ (s_hash_table st) = d -> local_sizes d st ->
  locate d feature scale_factor canonical k st = Some st' ->
  extends (s_hash_table st) (s_hash_table st') /\ local_sizes d st' /\
  forall r, 0 <= r <= d ->
    exists kk b,
      corner d feature scale_factor canonical k r = Some (kk, b) /\
      In kk (keys_ (s_hash_table st')) /\
      rd (s_offset st') (k * (d + 1) + r) = Some (lookup (s_hash_table st') kk) /\
      rd (s_bary st') (k * (d + 1) + r) = Some b.
Proof.
  intros Hd Hks (L1 & L2 & L3 & L4 & L5) E.
  apply locate_stages in E.
  destruct E as (el & r0 & sum & rk & rk' & r0' & bc & Hel & Hround & Hrank & Hplane
                 & Hbc & Hres & S1 & S2 & S3 & S4).
  pose proof (elevate_len _ _ _ _ _ _ Hd Hel) as Lel.
  pose proof (round_to_cell_len _ _ _ _ _ Hd Hround) as Lr.
  pose proof (rank_residuals_len _ _ _ _ _ Hd Hrank) as Lk.
  destruct (plane_correct_len _ _ _ _ _ _ Hd Hplane) as [Lk' Lr'].
  pose proof (barycentric_coords_len _ _ _ _ _ _ Hd Hbc) as Lb.
  destruct (resolve_corners_lookup _ _ _ _ _ _ _ _ _ _ _ _ _ _ Hd Hks Hres)
    as (Hext & Lkey & Hcorners).
  split; [exact Hext|]. split.
  { unfold local_sizes. rewrite S1, S2, S3, S4. repeat split; congruence. }
  intros r Hr. destruct (Hcorners r Hr) as (kk & b & C1 & C2 & C3 & C4 & C5).
  exists kk, b. split; [|auto].
  unfold corner.
  rewrite (elevate_fresh d feature scale_factor k _ (s_elevated st))
    by (auto using len_repeat; lia || (apply len_repeat; lia)).
  rewrite Hel.
  rewrite (round_to_cell_fresh d el _ (s_rem0 st)) by (auto; apply len_repeat; lia).
  rewrite Hround.
  rewrite (rank_residuals_fresh d el r0 _ (s_rank st)) by (auto; apply len_repeat; lia).
  rewrite Hrank, Hplane.
  rewrite (barycentric_coords_fresh d el r0' rk' _ (s_barycentric st))
    by (auto; apply len_repeat; lia).
  rewrite Hbc.
  rewrite (corner_key_fresh d canonical r0' rk' r _ (s_key st))
    by (auto; rewrite len_repeat; lia).
  now rewrite C1, C4.
Qed.

Lemma locate_all_corner (d N : Z) (feature scale_factor : list F) (canonical : list Z)
    (st st' : Build F) :
  0 <= d -> 0 <= N -> key_size_ (s_hash_table st) = d -> local_sizes d st ->
  for_upto 0 N (locate d feature scale_factor canonical) st = Some st' ->
  forall k r, 0 <= k < N -> 0 <= r <= d ->
    exists kk b,
      corner d feature scale_factor canonical k r = Some (kk, b) /\
      In kk (keys_ (s_hash_table st')) /\
      rd (s_offset st') (k * (d + 1) + r) = Some (lookup (s_hash_table st') kk) /\
      rd (s_bary st') (k * (d + 1) + r) = Some b.
Proof.
  intros Hd HN Hks Hsz E.
  assert (H : key_size_ (s_hash_table st') = d /\ local_sizes d st' /\
              forall k r, 0 <= k < N -> 0 <= r <= d ->
                exists kk b,
                  corner d feature scale_factor canonical k r = Some (kk, b) /\
                  In kk (keys_ (s_hash_table st')) /\
                  rd (s_offset st') (k * (d + 1) + r)
                  = Some (lookup (s_hash_table st') kk) /\
                  rd (s_bary st') (k * (d + 1) + r) = Some b).
  { apply (for_upto_inv_some
      (fun n (t : Build F) =>
         key_size_ (s_hash_table t) = d /\ local_sizes d t /\
         forall k r, 0 <= k < n -> 0 <= r <= d ->
           exists kk b,
             corner d feature scale_factor canonical k r = Some (kk, b) /\
             In kk (keys_ (s_hash_table t)) /\
             rd (s_offset t) (k * (d + 1) + r) = Some (lookup (s_hash_table t) kk) /\
             rd (s_bary t) (k * (d + 1) + r) = Some b)
      0 N _ _ _ E HN).
    - split; auto. split; auto. intros k r Hk. lia.
    - intros n t t' Hn (K1 & K2 & K3) Hb.
      destruct (locate_corner _ _ _ _ _ _ _ Hd K1 K2 Hb) as (Hext & Hsz' & Hnew).
      apply locate_stages in Hb.
      destruct Hb as (el & r0 & sum & rk & rk' & r0' & bc & _ & _ & _ & _ & _ & Hres & _).
      apply resolve_corners_spec in Hres; auto.
      destruct Hres as (_ & _ & _ & _ & _ & R6 & _ & R8).
      split; [destruct Hext; congruence|]. split; [exact Hsz'|].
      intros k r Hk Hr. destruct (Z.eq_dec k n) as [->|Hne]; [now apply Hnew|].
      destruct (K3 k r ltac:(lia) Hr) as (kk & b & C1 & C2 & C3 & C4).
      destruct (lookup_extends _ _ _ Hext C2) as [L1 L2].
      exists kk, b. split; [exact C1|]. split; [exact L2|].
      rewrite R6, R8 by nia. split; congruence. }
  destruct H as (_ & _ & H). exact H.
Qed.

Lemma init_same_rows (stray : Z -> Z) (feature : list F) (d N : Z)
    (p : Permutohedral F) (k1 k2 : Z) :
  init stray feature d N = Some p ->
  0 <= k1 < N -> 0 <= k2 < N ->
  (forall j, 0 <= j < d -> rd feature (k1 * d + j) = rd feature (k2 * d + j)) ->
  forall r, 0 <= r <= d ->
    table (offset_ p) (k1 * (d + 1) + r) = table (offset_ p) (k2 * (d + 1) + r) /\
    table (barycentric_ p) (k1 * (d + 1) + r) = table (barycentric_ p) (k2 * (d + 1) + r).
Proof.
  intros E Hk1 Hk2 Hrow r Hr.
  destruct (init_stages _ _ _ _ _ E)
    as (Hd & HN & cn0 & cn & sf0 & sf & st0 & st & nbs0 & nbs1 & na & nb0 & na' & nb0'
        & _ & _ & _ & _ & Hh & _ & _ & Le & Lr & Lc & Lk & Ly & Eloop & _ & _ & _ & _ & Hp).
  assert (Hsz : local_sizes d st0) by (repeat split; auto).
  assert (Hks : key_size_ (s_hash_table st0) = d) by (rewrite Hh; reflexivity).
  pose proof (locate_all_corner _ _ _ _ _ _ _ Hd HN Hks Hsz Eloop) as Hc.
  destruct (Hc k1 r Hk1 Hr) as (kk1 & b1 & A1 & _ & A2 & A3).
  destruct (Hc k2 r Hk2 Hr) as (kk2 & b2 & B1 & _ & B2 & B3).
  rewrite (corner_row d feature sf cn k1 k2 r Hrow) in A1.
  rewrite A1 in B1. inversion B1. subst kk2 b2.
  subst p. simpl. split; congruence.
Qed.

(** X13: two points with the same feature vector get the same [d+1]
    offsets and weights from [init], and so the same output row from every
    call of [compute] whose output range holds both. *)
Theorem equal_features_equal_outputs (stray : Z -> Z) (feature : list F)
    (feature_size N : Z) (p : Permutohedral F) (k1 k2 : Z) :
  init stray feature feature_size N = Some p ->
  0 <= k1 < N -> 0 <= k2 < N ->
  (forall j, 0 <= j < feature_size ->
     rd feature (k1 * feature_size + j) = rd feature (k2 * feature_size + j)) ->
  (forall r, 0 <= r <= feature_size ->
     table (offset_ p) (k1 * (feature_size + 1) + r)
     = table (offset_ p) (k2 * (feature_size + 1) + r) /\
     table (barycentric_ p) (k1 * (feature_size + 1) + r)
     = table (barycentric_ p) (k2 * (feature_size + 1) + r)) /\
  forall (out inp res : list F) (value_size in_offset out_offset in_size out_size : Z),
    0 <= value_size ->
    compute p out inp value_size in_offset out_offset in_size out_size = Some res ->
    0 <= k1 - out_offset < resolve_size N out_offset out_size ->
    0 <= k2 - out_offset < resolve_size N out_offset out_size ->
    forall c, 0 <= c < value_size ->
      rd res ((k1 - out_offset) * value_size + c)
      = rd res ((k2 - out_offset) * value_size + c).
Proof.
  intros E Hk1 Hk2 Hrow.
  pose proof (init_same_rows _ _ _ _ _ _ _ E Hk1 Hk2 Hrow) as Hsame.
  split; [exact Hsame|].
  destruct (init_built _ _ _ _ _ E) as (Hb & Hd & HN). rewrite <- Hd, <- HN in *.
  pose proof (built_d p Hb) as Hd0.
  intros out inp res value_size in_offset out_offset in_size out_size Hvs Ec H1 H2 c Hc.
  open_compute Ec.
  destruct (blurred _ _ _ _ _ _) as [[values nv]|]; [|discriminate].
  apply slice_spec in Ec; auto; [|lia].
  destruct Ec as (_ & Hrowv & _).
  destruct (Hrowv _ c H1 Hc) as (v1 & V1 & W1).
  destruct (Hrowv _ c H2 Hc) as (v2 & V2 & W2).
  rewrite W1, W2. rewrite <- V1, <- V2.
  replace (out_offset + (k1 - out_offset)) with k1 by lia.
  replace (out_offset + (k2 - out_offset)) with k2 by lia.
  unfold slice_value, slice_partial. apply for_upto_ext.
  intros j t Hj. destruct (Hsame j ltac:(lia)) as [-> ->]. reflexivity.
Qed.
End SamePoint.

(** ** [init] is defined on bounded features *)

(** A loop that writes the cells [base+lo .. base+hi-1] of an array. *)
Lemma fill_row_total {A} (base lo hi : Z) (v : Z -> A) (a : list A) :
  lo <= hi -> 0 <= base + lo -> base + hi <= len a ->
  exists a', for_upto lo hi (fun j a => wr a (base + j) (v j)) a = Some a' /\
             len a' = len a /\
             (forall j, lo <= j < hi -> rd a' (base + j) = Some (v j)) /\
             (forall idx, ~ (base + lo <= idx < base + hi) -> rd a' idx = rd a idx).
Proof.
  intros Hle Hlo Hhi.
  destruct (for_upto_inv
    (fun j t => len t = len a /\
       (forall j', lo <= j' < j -> rd t (base + j') = Some (v j')) /\
       (forall idx, ~ (base + lo <= idx < base + j) -> rd t idx = rd a idx))
    lo hi (fun j a => wr a (base + j) (v j)) a Hle) as (a' & E & H).
  - split; auto. split; [intros j' Hj'; lia|auto].
  - intros j t Hj (Hl & Hdone & Hrest).
    destruct (wr_some t (base + j) (v j)) as [t' Ht']; [lia|].
    exists t'. split; [exact Ht'|].
    split; [rewrite (wr_len _ _ _ _ Ht'); exact Hl|]. split.
    + intros j' Hj'. destruct (Z.eq_dec j' j) as [->|Hne].
      * apply (rd_wr_same _ _ _ _ Ht').
      * rewrite (rd_wr_other _ _ _ _ _ Ht') by lia. apply Hdone. lia.
    + intros idx Hidx. rewrite (rd_wr_other _ _ _ _ _ Ht') by lia. apply Hrest. lia.
  - exists a'. tauto.
Qed.

Lemma canonical_simplex_values (d : Z) (canonical0 : list Z) :
  0 <= d -> len canonical0 = (d + 1) * (d + 1) ->
  exists canonical,
    canonical_simplex d canonical0 = Some canonical /\
    len canonical = (d + 1) * (d + 1) /\
    forall i j, 0 <= i <= d -> 0 <= j <= d ->
      rd canonical (i * (d + 1) + j) = Some (canonical_entry d i j).
Proof.
  intros Hd Hl. unfold canonical_simplex.
  destruct (for_upto_inv
    (fun i t => len t = (d + 1) * (d + 1) /\
       forall i' j, 0 <= i' < i -> 0 <= j <= d ->
         rd t (i' * (d + 1) + j) = Some (canonical_entry d i' j))
    0 (d + 1)
    (fun i canonical =>
       canonical <- for_upto 0 (d - i + 1) (fun j canonical =>
                      wr canonical (i * (d + 1) + j) (to_short i)) canonical ;;
       for_upto (d - i + 1) (d + 1) (fun j canonical =>
         wr canonical (i * (d + 1) + j) (to_short (i - (d + 1)))) canonical)
    canonical0 ltac:(lia)) as (c & E & Hc).
  - split; auto. intros i' j Hi'. lia.
  - intros i t Hi (Hlt & Hdone).
    destruct (fill_row_total (i * (d + 1)) 0 (d - i + 1) (fun _ => to_short i) t)
      as (t1 & E1 & L1 & V1 & R1); try nia.
    rewrite E1.
    destruct (fill_row_total (i * (d + 1)) (d - i + 1) (d + 1)
                (fun _ => to_short (i - (d + 1))) t1)
      as (t2 & E2 & L2 & V2 & R2); try nia.
    exists t2. split; [exact E2|]. split; [congruence|].
    intros i' j Hi' Hj. destruct (Z.eq_dec i' i) as [->|Hne].
    + unfold canonical_entry. destruct (Z.leb_spec j (d - i)).
      * rewrite R2 by lia. apply V1. lia.
      * apply V2. lia.
    + rewrite R2, R1 by nia. apply Hdone; lia.
  - exists c. split; [exact E|]. split; [tauto|].
    intros i j Hi Hj. apply Hc; lia.
Qed.

Lemma canonical_entry_bounds (d i j : Z) :
  0 <= d -> 2 * d + 1 <= 32767 -> 0 <= i <= d ->
  - (d + 1) <= canonical_entry d i j <= d.
Proof.
  intros Hd Hs Hi. unfold canonical_entry.
  destruct (j <=? d - i); rewrite to_short_small; lia.
Qed.

Section ExactTotal.
Context {FM : Fresh R}.

Lemma scale_factor_bounds (d : Z) (scale_factor0 : list R) :
  0 <= d -> len scale_factor0 = d ->
  exists scale_factor,
    scale_factors d scale_factor0 = Some scale_factor /\
    len scale_factor = d /\
    forall i, 0 <= i < d ->
      exists s, rd scale_factor i = Some s /\ (0 <= s <= IZR (d + 1))%R.
Proof.
  intros Hd Hl.
  destruct (scale_factors_total d scale_factor0 Hd Hl) as (sf & E & L & Hv).
  exists sf. split; [exact E|]. split; [exact L|].
  intros i Hi. rewrite (Hv i Hi). eexists. split; [reflexivity|].
  assert (HD : (1 <= IZR (d + 1))%R) by (apply IZR_le; lia).
  assert (Hi0 : (0 <= IZR i)%R) by (apply IZR_le; lia).
  assert (Hs1 : (1 <= sqrt ((IZR i + 2) * (IZR i + 1)))%R).
  { rewrite <- sqrt_1 at 1. apply sqrt_le_1_alt. nra. }
  assert (Hs2 : (0 <= sqrt (2 / 3) <= 1)%R).
  { split; [apply sqrt_pos|]. rewrite <- sqrt_1. apply sqrt_le_1_alt. lra. }
  assert (Hinv : (0 < 1 / sqrt ((IZR i + 2) * (IZR i + 1)) <= 1)%R).
  { split.
    - apply Rdiv_lt_0_compat; lra.
    - apply (Rmult_le_reg_r (sqrt ((IZR i + 2) * (IZR i + 1)))); [lra|].
      unfold Rdiv. rewrite Rmult_assoc, Rinv_l by lra. lra. }
  split; [apply Rmult_le_pos; [lra|apply Rmult_le_pos; lra]|].
  assert (sqrt (2 / 3) * IZR (d + 1) <= IZR (d + 1))%R by nra.
  assert (0 <= sqrt (2 / 3) * IZR (d + 1))%R by nra.
  nra.
Qed.

Lemma elevate_bounded (d k : Z) (feature scale_factor elevated0 : list R) (B : R) :
  0 <= d -> (0 <= B)%R ->
  len elevated0 = d + 1 ->
  (forall j, 0 <= j < d ->
     exists x, rd feature (k * d + j) = Some x /\ (- B <= x <= B)%R) ->
  (forall i, 0 <= i < d ->
     exists s, rd scale_factor i = Some s /\ (0 <= s <= IZR (d + 1))%R) ->
  exists elevated,
    elevate d feature scale_factor k elevated0 = Some elevated /\
    len elevated = d + 1 /\
    forall i, 0 <= i <= d ->
      exists e, rd elevated i = Some e /\
                (- (IZR d * (B * IZR (d + 1))) <= e <= IZR d * (B * IZR (d + 1)))%R.
Proof.
  intros Hd HB Hl Hf Hs. unfold elevate.
  set (C := (B * IZR (d + 1))%R).
  assert (HD : (1 <= IZR (d + 1))%R) by (apply IZR_le; lia).
  assert (HC : (0 <= C)%R) by (unfold C; nra).
  destruct (for_downto_inv
    (fun j (t : list R * R) =>
       len (fst t) = d + 1 /\
       (- (IZR (d - j) * C) <= snd t <= IZR (d - j) * C)%R /\
       forall j', j < j' <= d ->
         exists e, rd (fst t) j' = Some e /\ (- (IZR d * C) <= e <= IZR d * C)%R)
    d 0
    (fun j '(elevated, sm) =>
       fj <- rd feature (k * d + (j - 1)) ;;
       sj <- rd scale_factor (j - 1) ;;
       let cf := f_mul fj sj in
       elevated <- wr elevated j (f_sub sm (f_mul (f_of_int j) cf)) ;;
       Some (elevated, f_add sm cf))
    (elevated0, f_zero) Hd) as ([el sm] & E & Lel & Hsm & Hel).
  - simpl. split; auto. split.
    + replace (d - d) with 0 by lia. unfold f_zero. simpl. lra.
    + intros j' Hj'. lia.
  - intros j [el sm] Hj (Lel & Hsm & Hel). simpl in Lel, Hsm, Hel.
    destruct (Hf (j - 1) ltac:(lia)) as (x & Ex & Hx).
    destruct (Hs (j - 1) ltac:(lia)) as (s & Es & Hsb).
    rewrite Ex, Es. cbv zeta.
    destruct (wr_some el j (f_sub sm (f_mul (f_of_int j) (f_mul x s)))) as [el' Ew]; [lia|].
    rewrite Ew. eexists. split; [reflexivity|]. simpl.
    assert (Hcf : (- C <= x * s <= C)%R) by (unfold C; nra).
    assert (Hj0 : (1 <= IZR j)%R) by (apply IZR_le; lia).
    assert (Hdj : IZR (d - j) = (IZR d - IZR j)%R) by apply minus_IZR.
    assert (Hdj1 : IZR (d - (j - 1)) = (IZR d - IZR j + 1)%R).
    { rewrite !minus_IZR. lra. }
    assert (Hdj0 : (0 <= IZR (d - j))%R) by (apply IZR_le; lia).
    split; [rewrite (wr_len _ _ _ _ Ew); exact Lel|]. split.
    + rewrite Hdj1. rewrite Hdj in Hsm. nra.
    + intros j' Hj'. destruct (Z.eq_dec j' j) as [->|Hne].
      * rewrite (rd_wr_same _ _ _ _ Ew). eexists. split; [reflexivity|].
        rewrite Hdj in Hsm. simpl.
        assert (- (IZR j * C) <= IZR j * (x * s) <= IZR j * C)%R by nra.
        lra.
      * rewrite (rd_wr_other _ _ _ _ _ Ew) by lia. apply Hel. lia.
  - simpl in Lel, Hsm, Hel. cbv zeta in E. rewrite E.
    destruct (wr_some el 0 sm) as [el' Ew]; [lia|].
    exists el'. split; [exact Ew|]. split; [rewrite (wr_len _ _ _ _ Ew); exact Lel|].
    intros i Hi. destruct (Z.eq_dec i 0) as [->|Hne].
    + rewrite (rd_wr_same _ _ _ _ Ew). eexists. split; [reflexivity|].
      replace (d - 0) with d in Hsm by lia. exact Hsm.
    + rewrite (rd_wr_other _ _ _ _ _ Ew) by lia. apply Hel. lia.
Qed.

Lemma IZR_bounded (z : Z) (b : Z) :
  (- IZR b <= IZR z <= IZR b)%R -> - b <= z <= b.
Proof.
  intros [H1 H2]. split; apply le_IZR; [rewrite opp_IZR|]; lra.
Qed.

Lemma round_to_cell_bounded (d : Z) (elevated rem00 : list R) (B : R) :
  0 <= d -> (0 <= B)%R ->
  ((IZR d * B + 3) * IZR (d + 1) <= 32767)%R ->
  len rem00 = d + 1 ->
  (forall i, 0 <= i <= d ->
     exists e, rd elevated i = Some e /\
               (- (IZR d * (B * IZR (d + 1))) <= e <= IZR d * (B * IZR (d + 1)))%R) ->
  exists rem0 sum,
    round_to_cell d elevated rem00 = Some (rem0, sum) /\
    len rem0 = d + 1 /\
    forall i, 0 <= i <= d ->
      exists m, rd rem0 i = Some (IZR m) /\
                (- ((IZR d * B + / 2) * IZR (d + 1)) <= IZR m
                 <= (IZR d * B + / 2) * IZR (d + 1))%R.
Proof.
  intros Hd HB Hfit Hl He. unfold round_to_cell.
  set (D := IZR (d + 1)). set (Q := (IZR d * B + / 2)%R).
  assert (HD : (1 <= D)%R) by (apply IZR_le; lia).
  assert (Hd0 : (0 <= IZR d)%R) by (apply IZR_le; lia).
  assert (HQ : (0 <= Q)%R) by (unfold Q; nra).
  assert (HQD : (Q * D <= 32767)%R) by (unfold Q; fold D in Hfit; nra).
  destruct (for_upto_inv
    (fun i (t : list R * Z) =>
       len (fst t) = d + 1 /\
       (- (IZR i * Q) <= IZR (snd t) <= IZR i * Q)%R /\
       forall i', 0 <= i' < i ->
         exists m, rd (fst t) i' = Some (IZR m) /\ (- (Q * D) <= IZR m <= Q * D)%R)
    0 (d + 1)
    (fun i '(rem0, sum) =>
       e <- rd elevated i ;;
       rd_ <- f_round (f_mul (down_factor d) e) ;;
       rem0 <- wr rem0 i (f_mul (f_of_int rd_) (up_factor d)) ;;
       sum <- int_add sum rd_ ;;
       Some (rem0, sum))
    (rem00, 0) ltac:(lia)) as ([rem0 sum] & E & Lr & _ & Hr).
  - simpl. split; auto. split; [lra|]. intros i' Hi'. lia.
  - intros i [rem0 sum] Hi (Lr & Hsum & Hdone). simpl in Lr, Hsum, Hdone.
    destruct (He i ltac:(lia)) as (e & Ee & Heb). rewrite Ee.
    set (x := f_mul (down_factor d) e).
    assert (Hx : (- (IZR d * B) <= x <= IZR d * B)%R).
    { unfold x, down_factor, f_one. simpl. fold D.
      assert (Hinv : (0 < / D)%R) by (apply Rinv_0_lt_compat; lra).
      assert (Hone : (/ D * D = 1)%R) by (apply Rinv_l; lra).
      unfold Rdiv. rewrite Rmult_1_l. fold D in Heb.
      split.
      - apply (Rmult_le_reg_r D); [lra|].
        replace (/ D * e * D)%R with (e * (/ D * D))%R by ring. rewrite Hone. nra.
      - apply (Rmult_le_reg_r D); [lra|].
        replace (/ D * e * D)%R with (e * (/ D * D))%R by ring. rewrite Hone. nra. }
    pose proof (round_away_near x) as Hnear.
    set (z := Exact.round_away x) in *.
    assert (Hz : (- Q <= IZR z <= Q)%R) by (unfold Q; lra).
    assert (Hzi : - 32767 <= z <= 32767).
    { apply (IZR_bounded z 32767). nra. }
    assert (Er : f_round x = Some z).
    { simpl. unfold Exact.round_int. fold z.
      destruct (Z.leb_spec (-2147483648) z); [|lia].
      destruct (Z.leb_spec z 2147483647); [|lia]. reflexivity. }
    rewrite Er.
    destruct (wr_some rem0 i (f_mul (f_of_int z) (up_factor d))) as [rem0' Ew]; [lia|].
    rewrite Ew.
    assert (Hi0 : (0 <= IZR i)%R) by (apply IZR_le; lia).
    assert (Hi1 : (IZR i + 1 <= D)%R).
    { unfold D. rewrite <- (plus_IZR i 1). apply IZR_le. lia. }
    assert (Hnew : (- (IZR (i + 1) * Q) <= IZR (sum + z) <= IZR (i + 1) * Q)%R).
    { rewrite !plus_IZR. nra. }
    assert (Hsi : - 32767 <= sum + z <= 32767).
    { apply (IZR_bounded (sum + z) 32767). rewrite plus_IZR in Hnew |- *. nra. }
    rewrite int_add_small by lia.
    eexists. split; [reflexivity|]. simpl.
    split; [rewrite (wr_len _ _ _ _ Ew); exact Lr|]. split; [exact Hnew|].
    intros i' Hi'. destruct (Z.eq_dec i' i) as [->|Hne].
    + rewrite (rd_wr_same _ _ _ _ Ew). exists (z * (d + 1)).
      split; [unfold up_factor; simpl; now rewrite mult_IZR|].
      rewrite mult_IZR. fold D. nra.
    + rewrite (rd_wr_other _ _ _ _ _ Ew) by lia. apply Hdone. lia.
  - exists rem0, sum. split; [exact E|]. split; [exact Lr|].
    intros i Hi. apply Hr. lia.
Qed.
End ExactTotal.

Section StageTotal.
Context {F : Type} {FA : FloatArith F} {FM : Fresh F}.

Lemma barycentric_coords_total (d : Z) (elevated rem0 : list F) (rank : list Z)
    (barycentric0 : list F) :
  0 <= d -> len elevated = d + 1 -> len rem0 = d + 1 ->
  entries_within d 0 d rank -> len barycentric0 = d + 2 ->
  exists barycentric,
    barycentric_coords d elevated rem0 rank barycentric0 = Some barycentric /\
    len barycentric = d + 2.
Proof.
  intros Hd Le Lr [Lk Hk] Lb. unfold barycentric_coords.
  destruct (for_upto_inv (fun _ (t : list F) => len t = d + 2) 0 (d + 2)
              (fun i barycentric => wr barycentric i f_zero) barycentric0 ltac:(lia) Lb)
    as (b1 & E1 & L1).
  { intros i t Hi Lt. destruct (wr_some t i f_zero) as [t' Ht']; [lia|].
    exists t'. split; auto. rewrite (wr_len _ _ _ _ Ht'). exact Lt. }
  rewrite E1.
  destruct (for_upto_inv (fun _ (t : list F) => len t = d + 2) 0 (d + 1)
              (fun i barycentric =>
                 e <- rd elevated i ;;
                 r <- rd rem0 i ;;
                 rk <- rd rank i ;;
                 let v := f_mul (f_sub e r) (down_factor d) in
                 x <- rd barycentric (d - rk) ;;
                 barycentric <- wr barycentric (d - rk) (f_add x v) ;;
                 y <- rd barycentric (d - rk + 1) ;;
                 wr barycentric (d - rk + 1) (f_sub y v))
              b1 ltac:(lia) L1) as (b2 & E2 & L2).
  { intros i t Hi Lt.
    destruct (rd_some elevated i ltac:(lia)) as [e He].
    destruct (rd_some rem0 i ltac:(lia)) as [r Hr].
    destruct (Hk i ltac:(lia)) as (rk & Hrk & Hb).
    rewrite He, Hr, Hrk. cbv zeta.
    destruct (rd_some t (d - rk) ltac:(lia)) as [x Hx]. rewrite Hx.
    destruct (wr_some t (d - rk) (f_add x (f_mul (f_sub e r) (down_factor d))))
      as [t1 Ht1]; [lia|].
    rewrite Ht1. pose proof (wr_len _ _ _ _ Ht1) as Lt1.
    destruct (rd_some t1 (d - rk + 1) ltac:(lia)) as [y Hy]. rewrite Hy.
    destruct (wr_some t1 (d - rk + 1) (f_sub y (f_mul (f_sub e r) (down_factor d))))
      as [t2 Ht2]; [lia|].
    exists t2. split; auto. rewrite (wr_len _ _ _ _ Ht2). lia. }
  cbv zeta in E2. rewrite E2.
  destruct (rd_some b2 0 ltac:(lia)) as [b0 Hb0].
  destruct (rd_some b2 (d + 1) ltac:(lia)) as [bw Hbw].
  rewrite Hb0, Hbw.
  destruct (wr_some b2 0 (f_add b0 (f_add f_one bw))) as [b3 Hb3]; [lia|].
  exists b3. split; auto. rewrite (wr_len _ _ _ _ Hb3). exact L2.
Qed.
End StageTotal.

(** ** The ranks of a feature point, over the reals *)






Section ExactRanks.







End ExactRanks.

Lemma trunc_short_int (z : Z) :
  -32768 <= z <= 32767 -> Exact.trunc_short (IZR z) = Some z.
Proof.
  intros Hz. unfold Exact.trunc_short.
  assert (E : Exact.trunc (IZR z) = z).
  { unfold Exact.trunc. destruct (Rle_dec 0 (IZR z)).
    - apply Int_part_IZR.
    - rewrite <- opp_IZR, Int_part_IZR. lia. }
  rewrite E.
  destruct (Z.leb_spec (-32768) z); [|lia].
  destruct (Z.leb_spec z 32767); [|lia]. reflexivity.
Qed.

Lemma exact_to_short_range (x : R) (z : Z) :
  f_to_short x = Some z -> -32768 <= z <= 32767.
Proof.
  simpl. unfold Exact.trunc_short.
  destruct (Z.leb_spec (-32768) (Exact.trunc x));
    destruct (Z.leb_spec (Exact.trunc x) 32767); simpl; try discriminate.
  intros E. inversion E. lia.
Qed.

Section ExactPoint.
Context {FM : Fresh R}.

Lemma plane_correct_bounded (d sum : Z) (rank : list Z) (rem0 : list R) (K : R) :
  0 <= d -> 2 * d + 1 <= 32767 -> - (d + 1) <= sum <= d + 1 ->
  len rem0 = d + 1 -> entries_within d 0 d rank ->
  (forall i, 0 <= i <= d ->
     exists m, rd rem0 i = Some (IZR m) /\ (- K <= IZR m <= K)%R) ->
  exists rank' rem0',
    plane_correct d sum rank rem0 = Some (rank', rem0') /\
    len rem0' = d + 1 /\ entries_within d 0 d rank' /\
    forall i, 0 <= i <= d ->
      exists m, rd rem0' i = Some (IZR m) /\
                (- (K + IZR (d + 1)) <= IZR m <= K + IZR (d + 1))%R.
Proof.
  intros Hd Hs Hsum Lr Hrk Hint.
  destruct (plane_correct_within d sum rank rem0) as (rank' & rem0' & E & Lr' & Hrk'); auto.
  exists rank', rem0'. split; [exact E|]. split; [exact Lr'|]. split; [exact Hrk'|].
  destruct (plane_correct_cases _ _ _ _ _ _ Hd Hs Hsum Lr Hrk E) as (_ & _ & Hcases).
  assert (HD : (1 <= IZR (d + 1))%R) by (apply IZR_le; lia).
  intros i Hi. destruct (Hcases i Hi) as (x & r & X1 & X2 & Hc).
  destruct (Hint i Hi) as (m & Hm & Hb). rewrite Hm in X2. inversion X2. subst r.
  destruct Hc as [(_ & _ & H)|[(_ & _ & H)|(_ & _ & H)]].
  - exists (m + (d + 1)). rewrite plus_IZR. split; [exact H|lra].
  - exists (m - (d + 1)). rewrite minus_IZR. split; [exact H|lra].
  - exists m. split; [exact H|lra].
Qed.

Lemma resolve_corners_total (d N : Z) (canonical : list Z) (k : Z)
    (rem0 : list R) (rank : list Z) (barycentric : list R) (K : R)
    (h : HashTable) (key offset : list Z) (bary : list R) :
  0 <= d -> 2 * d + 1 <= 32767 -> 0 <= k < N ->
  (forall i j, 0 <= i <= d -> 0 <= j <= d ->
     rd canonical (i * (d + 1) + j) = Some (canonical_entry d i j)) ->
  (K + IZR (d + 1) <= 32767)%R ->
  (forall i, 0 <= i <= d ->
     exists m, rd rem0 i = Some (IZR m) /\ (- K <= IZR m <= K)%R) ->
  entries_within d 0 d rank ->
  len barycentric = d + 2 -> len key = d + 1 ->
  len offset = (d + 1) * N -> len bary = (d + 1) * N ->
  exists h' key' offset' bary',
    resolve_corners d canonical k rem0 rank barycentric (h, key, offset, bary)
    = Some (h', key', offset', bary') /\
    len key' = d + 1 /\ len offset' = (d + 1) * N /\ len bary' = (d + 1) * N.
Proof.
  intros Hd Hs Hk Hcn HK Hint [Lk Hrk] Lb Lkey Lo Lby.
  assert (HD : (1 <= IZR (d + 1))%R) by (apply IZR_le; lia).
  unfold resolve_corners.
  destruct (for_upto_inv
    (fun _ (t : HashTable * list Z * list Z * list R) =>
       let '(_, key1, offset1, bary1) := t in
       len key1 = d + 1 /\ len offset1 = (d + 1) * N /\ len bary1 = (d + 1) * N)
    0 (d + 1)
    (fun remainder '(hash_table, key, offset, bary) =>
       key <- for_upto 0 d (fun i key =>
                r <- rd rem0 i ;;
                rk <- rd rank i ;;
                c <- rd canonical (remainder * (d + 1) + rk) ;;
                s <- f_to_short (f_add r (f_of_int c)) ;;
                wr key i s)
              key ;;
       let '(hash_table, o) := find hash_table key true in
       offset <- wr offset (k * (d + 1) + remainder) o ;;
       b <- rd barycentric remainder ;;
       bary <- wr bary (k * (d + 1) + remainder) b ;;
       Some (hash_table, key, offset, bary))
    (h, key, offset, bary) ltac:(lia)) as ([[[h' key'] offset'] bary'] & E & H).
  - auto.
  - intros r [[[h1 key1] offset1] bary1] Hr (L1 & L2 & L3).
    destruct (for_upto_inv (fun _ (t : list Z) => len t = d + 1) 0 d
                (fun i key =>
                   r0 <- rd rem0 i ;;
                   rk <- rd rank i ;;
                   c <- rd canonical (r * (d + 1) + rk) ;;
                   s <- f_to_short (f_add r0 (f_of_int c)) ;;
                   wr key i s)
                key1 Hd L1) as (key2 & Ek & Lk2).
    { intros i t Hi Lt.
      destruct (Hint i ltac:(lia)) as (m & Hm & Hmb).
      destruct (Hrk i ltac:(lia)) as (rk & Hr1 & Hr2).
      rewrite Hm, Hr1, (Hcn r rk) by lia.
      pose proof (canonical_entry_bounds d r rk Hd Hs ltac:(lia)) as Hc.
      set (c := canonical_entry d r rk) in *.
      assert (Hcr : (- IZR (d + 1) <= IZR c <= IZR (d + 1))%R).
      { split; [rewrite <- opp_IZR|]; apply IZR_le; lia. }
      assert (Hz : -32767 <= m + c <= 32767).
      { apply (IZR_bounded (m + c) 32767). rewrite plus_IZR. lra. }
      assert (Es : f_to_short (f_add (IZR m) (f_of_int c)) = Some (m + c)).
      { simpl. rewrite <- plus_IZR. apply trunc_short_int. lia. }
      rewrite Es.
      destruct (wr_some t i (m + c)) as [t' Ht']; [lia|].
      exists t'. split; auto. rewrite (wr_len _ _ _ _ Ht'). exact Lt. }
    rewrite Ek. destruct (find h1 key2 true) as [h2 o].
    destruct (wr_some offset1 (k * (d + 1) + r) o) as [offset2 Eo]; [nia|].
    rewrite Eo.
    destruct (rd_some barycentric r ltac:(lia)) as [b Hb]. rewrite Hb.
    destruct (wr_some bary1 (k * (d + 1) + r) b) as [bary2 Eb]; [nia|].
    rewrite Eb. eexists. split; [reflexivity|]. simpl.
    rewrite (wr_len _ _ _ _ Eo), (wr_len _ _ _ _ Eb). auto.
  - exists h', key', offset', bary'. split; [exact E|]. exact H.
Qed.

Lemma locate_total (d N k : Z) (feature scale_factor : list R) (canonical : list Z)
    (B : R) (st : Build R) :
  0 <= d -> 0 <= k < N -> (0 <= B)%R ->
  ((IZR d * B + 3) * IZR (d + 1) <= 32767)%R ->
  (forall i, 0 <= i < N * d ->
     exists x, rd feature i = Some x /\ (- B <= x <= B)%R) ->
  (forall i, 0 <= i < d ->
     exists s, rd scale_factor i = Some s /\ (0 <= s <= IZR (d + 1))%R) ->
  (forall i j, 0 <= i <= d -> 0 <= j <= d ->
     rd canonical (i * (d + 1) + j) = Some (canonical_entry d i j)) ->
  local_sizes d st ->
  len (s_offset st) = (d + 1) * N -> len (s_bary st) = (d + 1) * N ->
  exists st',
    locate d feature scale_factor canonical k st = Some st' /\
    local_sizes d st' /\
    len (s_offset st') = (d + 1) * N /\ len (s_bary st') = (d + 1) * N.
Proof.
  intros Hd Hk HB Hfit Hf Hsf Hcn (L1 & L2 & L3 & L4 & L5) Lo Lb.
  assert (HD : (1 <= IZR (d + 1))%R) by (apply IZR_le; lia).
  assert (Hd0 : (0 <= IZR d)%R) by (apply IZR_le; lia).
  assert (Hs : 2 * d + 1 <= 32767).
  { assert (HdB : (0 <= IZR d * B)%R) by nra.
    assert (H3 : (3 * IZR (d + 1) <= 32767)%R) by nra.
    assert (H4 : (IZR (3 * (d + 1)) <= IZR 32767)%R) by (rewrite mult_IZR; lra).
    apply le_IZR in H4. lia. }
  unfold locate.
  destruct (elevate_bounded d k feature scale_factor (s_elevated st) B Hd HB L1)
    as (el & Eel & Lel & Hel); auto.
  { intros j Hj. apply Hf. nia. }
  rewrite Eel.
  destruct (round_to_cell_bounded d el (s_rem0 st) B Hd HB Hfit L2 Hel)
    as (r0 & sum & Er & Lr & Hr).
  rewrite Er.
  destruct (elevate_on_plane _ _ _ _ _ _ Hd L1 Eel) as [_ Hzero].
  pose proof (round_to_cell_sum _ _ _ _ _ Hd Lel L2 Hzero Er) as Hsum.
  destruct (rank_residuals_within d el r0 (s_rank st)) as (rk & Ek & Hrk); auto; try lia.
  rewrite Ek.
  destruct (plane_correct_bounded d sum rk r0 ((IZR d * B + / 2) * IZR (d + 1))%R
              Hd Hs Hsum Lr Hrk Hr)
    as (rk' & r0' & Ep & Lr' & Hrk' & Hr').
  rewrite Ep.
  destruct (barycentric_coords_total d el r0' rk' (s_barycentric st))
    as (bc & Eb & Lbc); auto.
  rewrite Eb.
  destruct (resolve_corners_total d N canonical k r0' rk' bc
              ((IZR d * B + / 2) * IZR (d + 1) + IZR (d + 1))%R
              (s_hash_table st) (s_key st) (s_offset st) (s_bary st)
              Hd Hs Hk Hcn)
    as (h' & key' & offset' & bary' & Ec & Lk' & Lo' & Lb'); auto.
  { nra. }
  rewrite Ec. eexists. split; [reflexivity|]. simpl.
  destruct Hrk' as [Lrk' _].
  repeat split; auto.
Qed.

Lemma locate_all_total (d N : Z) (feature scale_factor : list R) (canonical : list Z)
    (B : R) (st : Build R) :
  0 <= d -> 0 <= N -> (0 <= B)%R ->
  ((IZR d * B + 3) * IZR (d + 1) <= 32767)%R ->
  (forall i, 0 <= i < N * d ->
     exists x, rd feature i = Some x /\ (- B <= x <= B)%R) ->
  (forall i, 0 <= i < d ->
     exists s, rd scale_factor i = Some s /\ (0 <= s <= IZR (d + 1))%R) ->
  (forall i j, 0 <= i <= d -> 0 <= j <= d ->
     rd canonical (i * (d + 1) + j) = Some (canonical_entry d i j)) ->
  local_sizes d st ->
  len (s_offset st) = (d + 1) * N -> len (s_bary st) = (d + 1) * N ->
  exists st', for_upto 0 N (locate d feature scale_factor canonical) st = Some st'.
Proof.
  intros Hd HN HB Hfit Hf Hsf Hcn Hsz Lo Lb.
  destruct (for_upto_inv
    (fun _ (t : Build R) =>
       local_sizes d t /\ len (s_offset t) = (d + 1) * N /\ len (s_bary t) = (d + 1) * N)
    0 N (locate d feature scale_factor canonical) st HN) as (st' & E & _).
  - auto.
  - intros k t Hk (H1 & H2 & H3).
    destruct (locate_total d N k feature scale_factor canonical B t) as (t' & Et & Ht);
      auto.
    exists t'. split; [exact Et|exact Ht].
  - exists st'. exact E.
Qed.
End ExactPoint.

Lemma find_neighbors_total (stray : Z -> Z) (d : Z) (h : HashTable)
    (a b : list Z) (nbs : list Neighbors) :
  0 <= d -> stored_keys_ok d h ->
  len a = d + 1 -> len b = d + 1 -> len nbs = (d + 1) * size h ->
  exists a' b' nbs', find_neighbors stray d (size h) h (a, b, nbs) = Some (a', b', nbs').
Proof.
  intros Hd (_ & _ & Hkeys) La Lb Ln. unfold find_neighbors.
  assert (HM : 0 <= size h) by apply len_nonneg.
  set (ok := fun (t : list Z * list Z * list Neighbors) =>
               len (fst (fst t)) = d + 1 /\ len (snd (fst t)) = d + 1 /\
               len (snd t) = (d + 1) * size h).
  destruct (for_upto_inv (fun _ => ok) 0 (d + 1)
    (fun j st =>
       for_upto 0 (size h) (fun i '(n1_, n2_, blur_neighbors) =>
         key <- getKey h i ;;
         '(n1_, n2_) <-
           for_upto 0 d (fun k '(n1_, n2_) =>
             x <- rd key k ;;
             n1_ <- wr n1_ k (to_short (x - 1)) ;;
             n2_ <- wr n2_ k (to_short (x + 1)) ;;
             Some (n1_, n2_))
           (n1_, n2_) ;;
         key_j <- (if j <? d then rd key j else Some (stray i)) ;;
         n1_ <- wr n1_ j (to_short (key_j + d)) ;;
         n2_ <- wr n2_ j (to_short (key_j - d)) ;;
         blur_neighbors <-
           wr blur_neighbors (j * size h + i)
              {| n1 := snd (find h n1_ false);
                 n2 := snd (find h n2_ false) |} ;;
         Some (n1_, n2_, blur_neighbors))
       st)
    (a, b, nbs) ltac:(lia)) as ([[a' b'] nbs'] & E & _).
  - unfold ok. simpl. auto.
  - intros j t Hj Ht.
    apply (for_upto_inv (fun _ => ok) 0 (size h)); [exact HM|exact Ht|].
    intros i [[a1 b1] nbs1] Hi (L1 & L2 & L3). simpl in L1, L2, L3.
    destruct (rd_some (keys_ h) i Hi) as [key Hkey].
    unfold getKey. rewrite Hkey.
    assert (Lkey : len key = d).
    { apply Hkeys. unfold rd in Hkey. destruct (i <? 0); [discriminate|].
      eapply nth_error_In; eauto. }
    destruct (for_upto_inv
      (fun _ (u : list Z * list Z) => len (fst u) = d + 1 /\ len (snd u) = d + 1) 0 d
      (fun k '(n1_, n2_) =>
         x <- rd key k ;;
         n1_ <- wr n1_ k (to_short (x - 1)) ;;
         n2_ <- wr n2_ k (to_short (x + 1)) ;;
         Some (n1_, n2_))
      (a1, b1) Hd) as ([a2 b2] & Ek & L4 & L5).
    + simpl. auto.
    + intros k [u1 u2] Hk [K1 K2]. simpl in K1, K2.
      destruct (rd_some key k ltac:(lia)) as [x Hx]. rewrite Hx.
      destruct (wr_some u1 k (to_short (x - 1))) as [u3 E3]; [lia|].
      destruct (wr_some u2 k (to_short (x + 1))) as [u4 E4]; [lia|].
      rewrite E3, E4. eexists. split; [reflexivity|]. simpl.
      rewrite (wr_len _ _ _ _ E3), (wr_len _ _ _ _ E4). auto.
    + rewrite Ek. simpl in L4, L5.
      assert (Hkj : exists key_j, (if j <? d then rd key j else Some (stray i)) = Some key_j).
      { destruct (Z.ltb_spec j d); [apply rd_some; lia|eauto]. }
      destruct Hkj as [key_j Hkj]. rewrite Hkj.
      destruct (wr_some a2 j (to_short (key_j + d))) as [a3 E3]; [lia|].
      destruct (wr_some b2 j (to_short (key_j - d))) as [b3 E4]; [lia|].
      rewrite E3, E4.
      match goal with
      | |- exists t', match wr nbs1 ?ix ?v with _ => _ end = _ /\ _ =>
          destruct (wr_some nbs1 ix v) as [nbs2 E5]; [nia|]; rewrite E5
      end.
      eexists. split; [reflexivity|]. unfold ok. simpl.
      rewrite (wr_len _ _ _ _ E3), (wr_len _ _ _ _ E4), (wr_len _ _ _ _ E5). auto.
  - exists a', b', nbs'. exact E.
Qed.

Section ExactInit.
Context {FM : Fresh R}.

(** X14: over the reals [init] is defined on bounded features: for [d >= 0]
    and [N >= 0] with [(d+1)*(d+1)*N] no more than [INT_MAX] (so that the
    sizes [(d_+1)*N_] and [(d_+1)*M_] are of type [int]), when the array
    holds the [N*d] features and each lies between [-B] and [B] with
    [(d*B + 3)*(d+1) <= 32767], every size that [init] computes is an
    [int], every array access of [init] is in bounds, every rounded
    coordinate fits an [int] and every key coordinate a [short], and [init]
    returns a lattice. *)
Theorem init_defined_on_bounded_features (stray : Z -> Z) (feature : list R)
    (feature_size N : Z) (B : R) :
  0 <= feature_size -> 0 <= N -> (0 <= B)%R ->
  (feature_size + 1) * (feature_size + 1) * N <= 2147483647 ->
  (forall i, 0 <= i < N * feature_size ->
     exists x, rd feature i = Some x /\ (- B <= x <= B)%R) ->
  ((IZR feature_size * B + 3) * IZR (feature_size + 1) <= 32767)%R ->
  exists p, init stray feature feature_size N = Some p.
Proof.
  intros Hd HN HB Hint Hf Hfit. rewrite init_unfold. set (d := feature_size) in *.
  assert (Hd3 : 3 * (d + 1) <= 32767).
  { apply le_IZR. rewrite mult_IZR.
    assert (H0 : (0 <= IZR d)%R) by (apply IZR_le; lia).
    assert (H1 : (0 <= IZR (d + 1))%R) by (apply IZR_le; lia).
    assert (H2 : (0 <= IZR d * B)%R) by nra.
    assert (H3 : (0 <= IZR d * B * IZR (d + 1))%R) by nra.
    nra. }
  rewrite (int_add_small d 1) by lia.
  rewrite (int_mul_small N (d + 1)) by nia.
  rewrite (int_mul_small (d + 1) N) by nia.
  rewrite (int_add_small d 2) by lia.
  rewrite (int_mul_small (d + 1) (d + 1)) by nia.
  cbv beta iota.
  destruct (alloc_some ((d + 1) * N) (fresh_int 0)) as (offset & E1 & L1); [nia|].
  destruct (alloc_some ((d + 1) * N) (fresh_float 0)) as (bary & E2 & L2); [nia|].
  destruct (alloc_some d (fresh_float 1)) as (sf0 & E3 & L3); [lia|].
  destruct (alloc_some (d + 1) (fresh_float 2)) as (el & E4 & L4); [lia|].
  destruct (alloc_some (d + 1) (fresh_float 3)) as (r0 & E5 & L5); [lia|].
  destruct (alloc_some (d + 2) (fresh_float 4)) as (bc & E6 & L6); [lia|].
  destruct (alloc_some (d + 1) (fresh_int 1)) as (rk & E7 & L7); [lia|].
  destruct (alloc_some ((d + 1) * (d + 1)) (fresh_int 2)) as (cn0 & E8 & L8); [nia|].
  destruct (alloc_some (d + 1) (fresh_int 3)) as (ky & E9 & L9); [lia|].
  rewrite E1, E2, E3, E4, E5, E6, E7, E8, E9.
  destruct (canonical_simplex_values d cn0 Hd L8) as (cn & Ecn & Lcn & Hcn).
  rewrite Ecn.
  destruct (scale_factor_bounds d sf0 Hd L3) as (sf & Esf & Lsf & Hsf).
  rewrite Esf.
  set (st0 := {| s_hash_table := HashTable_new d (N * (d + 1)); s_offset := offset;
                 s_bary := bary; s_elevated := el; s_rem0 := r0; s_barycentric := bc;
                 s_rank := rk; s_key := ky |}).
  assert (Hsz : local_sizes d st0) by (unfold local_sizes; simpl; auto).
  destruct (locate_all_total d N feature sf cn B st0) as (st & Eloop); auto.
  rewrite Eloop.
  assert (Hok : stored_keys_ok d (s_hash_table st)).
  { apply (locate_all_keys exact_to_short_range d N feature sf cn st0 st); auto.
    - split; [reflexivity|]. split; [constructor|]. intros key [].
    - simpl. lia. }
  pose proof (len_nonneg (keys_ (s_hash_table st))) as HM.
  fold (size (s_hash_table st)) in HM.
  destruct (locate_all_new d N feature sf cn st0 st Hd HN Eloop) as [Hnew _].
  change (size (s_hash_table st0)) with 0 in Hnew.
  rewrite (int_mul_small (d + 1) (size (s_hash_table st))) by nia.
  cbv beta iota.
  destruct (alloc_some ((d + 1) * size (s_hash_table st)) (fun _ => Neighbors_new))
    as (nbs & E10 & L10); [nia|].
  destruct (alloc_some (d + 1) (fresh_int 4)) as (na & E11 & L11); [lia|].
  destruct (alloc_some (d + 1) (fresh_int 5)) as (nb & E12 & L12); [lia|].
  rewrite E10, E11, E12.
  destruct (find_neighbors_total stray d (s_hash_table st) na nb nbs)
    as (a' & b' & nbs' & En); auto.
  rewrite En. eexists. reflexivity.
Qed.
End ExactInit.

(** ** Edge cases of [init] and [compute], and [operator=] *)

Lemma len_zero_nil {A} (a : list A) : len a = 0 -> a = [].
Proof. unfold len. destruct a; simpl; [reflexivity|lia]. Qed.

Lemma alloc_negative {A} (n : Z) (first : Z -> A) : n < 0 -> alloc n first = None.
Proof. intros Hn. unfold alloc. destruct (Z.ltb_spec n 0); [reflexivity|lia]. Qed.

Section EdgeProps.
Context {F : Type} {FA : FloatArith F} {FM : Fresh F}.

Lemma scale_factors_defined (d : Z) (scale_factor0 : list F) :
  0 <= d -> len scale_factor0 = d ->
  exists scale_factor, scale_factors d scale_factor0 = Some scale_factor.
Proof.
  intros Hd Hl. unfold scale_factors.
  destruct (for_upto_inv (fun _ (t : list F) => len t = d) 0 d
    (fun i scale_factor =>
       wr scale_factor i
          (f_mul (f_div f_one
                    (f_sqrt (f_mul (f_add (f_of_int i) (f_of_int 2))
                                   (f_add (f_of_int i) (f_of_int 1)))))
                 (f_mul (f_sqrt (f_div (f_of_int 2) (f_of_int 3))) (f_of_int (d + 1)))))
    scale_factor0 Hd Hl) as (sf & E & _).
  - intros i t Hi Lt.
    match goal with
    | |- exists t', wr t i ?v = Some t' /\ _ =>
        destruct (wr_some t i v) as [t' Ht']; [lia|]
    end.
    exists t'. split; [exact Ht'|]. rewrite (wr_len _ _ _ _ Ht'). exact Lt.
  - exists sf. exact E.
Qed.

Lemma find_neighbors_no_vertex (stray : Z -> Z) (d : Z) (h : HashTable)
    (st : list Z * list Z * list Neighbors) :
  0 <= d -> find_neighbors stray d 0 h st = Some st.
Proof.
  intros Hd. unfold find_neighbors.
  destruct (for_upto_inv (fun _ t => t = st) 0 (d + 1)
    (fun j st =>
       for_upto 0 0 (fun i '(n1_, n2_, blur_neighbors) =>
         key <- getKey h i ;;
         '(n1_, n2_) <-
           for_upto 0 d (fun k '(n1_, n2_) =>
             x <- rd key k ;;
             n1_ <- wr n1_ k (to_short (x - 1)) ;;
             n2_ <- wr n2_ k (to_short (x + 1)) ;;
             Some (n1_, n2_))
           (n1_, n2_) ;;
         key_j <- (if j <? d then rd key j else Some (stray i)) ;;
         n1_ <- wr n1_ j (to_short (key_j + d)) ;;
         n2_ <- wr n2_ j (to_short (key_j - d)) ;;
         blur_neighbors <-
           wr blur_neighbors (j * 0 + i)
              {| n1 := snd (find h n1_ false);
                 n2 := snd (find h n2_ false) |} ;;
         Some (n1_, n2_, blur_neighbors))
       st)
    st ltac:(lia) eq_refl) as (st' & E & ->).
  - intros j t Hj ->. exists st. split; [apply for_upto_empty; lia|reflexivity].
  - exact E.
Qed.

(** X15: for [d >= 0] with [(d+1)*(d+1)] no more than [INT_MAX] (the size
    of the canonical simplex, line 128), [init] on no point ([N = 0]) does
    not read [feature] and builds the empty lattice: no vertex ([M_ = 0])
    and three empty tables, on which [compute] with the default ranges and
    a scratch size [2*value_size] of type [int] returns and leaves [out] as
    it is.  For a negative [d] or [N], [init] does not return a lattice: a
    size is no [int] or an allocation has a negative size. *)
Theorem init_without_points (stray : Z -> Z) (feature : list F) (feature_size : Z) :
  (0 <= feature_size ->
   (feature_size + 1) * (feature_size + 1) <= 2147483647 ->
   exists p,
     init stray feature feature_size 0 = Some p /\
     N_ p = 0 /\ M_ p = 0 /\ d_ p = feature_size /\
     offset_ p = Some [] /\ barycentric_ p = Some [] /\ blur_neighbors_ p = Some [] /\
     forall (out inp : list F) (value_size : Z),
       0 <= value_size -> 2 * value_size <= 2147483647 ->
       compute p out inp value_size 0 0 (-1) (-1) = Some out) /\
  (forall N, feature_size < 0 \/ N < 0 -> init stray feature feature_size N = None).
Proof.
  split.
  - intros Hd Hint.
    assert (E : init stray feature feature_size 0
                = Some {| offset_ := Some []; barycentric_ := Some [];
                          blur_neighbors_ := Some []; N_ := 0; M_ := 0;
                          d_ := feature_size |}).
    { rewrite init_unfold. set (d := feature_size) in *.
      rewrite (int_add_small d 1) by nia.
      rewrite (int_mul_small 0 (d + 1)) by lia.
      rewrite (int_mul_small (d + 1) 0) by lia.
      rewrite (int_add_small d 2) by nia.
      rewrite (int_mul_small (d + 1) (d + 1)) by nia.
      cbv beta iota.
      destruct (alloc_some ((d + 1) * 0) (fresh_int 0)) as (offset & E1 & L1); [lia|].
      destruct (alloc_some ((d + 1) * 0) (fresh_float 0)) as (bary & E2 & L2); [lia|].
      destruct (alloc_some d (fresh_float 1)) as (sf0 & E3 & L3); [lia|].
      destruct (alloc_some (d + 1) (fresh_float 2)) as (el & E4 & L4); [lia|].
      destruct (alloc_some (d + 1) (fresh_float 3)) as (r0 & E5 & L5); [lia|].
      destruct (alloc_some (d + 2) (fresh_float 4)) as (bc & E6 & L6); [lia|].
      destruct (alloc_some (d + 1) (fresh_int 1)) as (rk & E7 & L7); [lia|].
      destruct (alloc_some ((d + 1) * (d + 1)) (fresh_int 2)) as (cn0 & E8 & L8); [nia|].
      destruct (alloc_some (d + 1) (fresh_int 3)) as (ky & E9 & L9); [lia|].
      rewrite E1, E2, E3, E4, E5, E6, E7, E8, E9.
      destruct (canonical_simplex_values d cn0 Hd L8) as (cn & Ecn & _).
      rewrite Ecn.
      destruct (scale_factors_defined d sf0 Hd L3) as (sf & Esf).
      rewrite Esf. rewrite for_upto_empty by lia. cbn [s_hash_table s_offset s_bary].
      change (size (HashTable_new d (0 * (d + 1)))) with 0.
      rewrite (int_mul_small (d + 1) 0) by lia. cbv beta iota.
      destruct (alloc_some ((d + 1) * 0) (fun _ => Neighbors_new)) as (nbs & E10 & L10);
        [lia|].
      destruct (alloc_some (d + 1) (fresh_int 4)) as (na & E11 & L11); [lia|].
      destruct (alloc_some (d + 1) (fresh_int 5)) as (nb & E12 & L12); [lia|].
      rewrite E10, E11, E12. rewrite find_neighbors_no_vertex by exact Hd.
      rewrite (len_zero_nil offset), (len_zero_nil bary), (len_zero_nil nbs) by lia.
      reflexivity. }
    eexists. split; [exact E|]. simpl. repeat split; auto.
    intros out inp value_size Hvs Hint2.
    destruct (init_built _ _ _ _ _ E) as (Hb & _ & _).
    destruct (compute_total _ out inp value_size 0 0 (-1) (-1) Hb Hvs) as [res Er];
      try (unfold resolve_size; simpl;
           pose proof (len_nonneg inp); pose proof (len_nonneg out); lia).
    rewrite Er. f_equal.
    open_compute Er.
    destruct (blurred _ _ _ _ _ _) as [[values nv]|]; [|discriminate].
    apply slice_spec in Er; auto; [|simpl; lia].
    destruct Er as (Hl & _ & Hrest). apply rd_ext. intros i. apply Hrest.
    simpl. lia.
  - intros N HdN. rewrite init_unfold.
    destruct (int_add feature_size 1); [|reflexivity].
    destruct (int_mul N _); [|reflexivity].
    destruct (int_mul _ N); [|reflexivity].
    destruct (int_add feature_size 2); [|reflexivity].
    destruct (int_mul _ _); [|reflexivity].
    cbv beta iota.
    destruct (alloc ((feature_size + 1) * N) (fresh_int 0)) as [offset|] eqn:E1;
      [|reflexivity].
    destruct (alloc ((feature_size + 1) * N) (fresh_float 0)) as [bary|]; [|reflexivity].
    apply alloc_len in E1.
    assert (Hd : feature_size < 0).
    { destruct HdN as [H|H]; [exact H|]. pose proof (len_nonneg offset). nia. }
    rewrite (alloc_negative feature_size) by exact Hd. reflexivity.
Qed.

(** Two runs of [compute] on inputs that agree on the input range. *)
Lemma compute_same_input (p : Permutohedral F) (out inp1 inp2 : list F)
    (value_size in_offset out_offset in_size out_size : Z) :
  (forall idx, 0 <= idx < resolve_size (N_ p) in_offset in_size * value_size ->
     rd inp1 idx = rd inp2 idx) ->
  compute p out inp1 value_size in_offset out_offset in_size out_size
  = compute p out inp2 value_size in_offset out_offset in_size out_size.
Proof.
  intros Hin. rewrite !compute_unfold, !blurred_unfold.
  destruct (resolved_size (N_ p) out_offset out_size); [|reflexivity].
  destruct (resolved_size (N_ p) in_offset in_size); [|reflexivity].
  destruct (int_add (M_ p) 2); [|reflexivity].
  destruct (int_mul (M_ p + 2) value_size); [|reflexivity].
  cbv beta iota.
  destruct (alloc _ (fresh_float 0)) as [v|]; [|reflexivity].
  destruct (alloc _ (fresh_float 1)) as [nv|]; [|reflexivity].
  destruct (zero_scratch _ _) as [[v' nv']|]; [|reflexivity].
  assert (Es : splat p inp1 value_size in_offset (resolve_size (N_ p) in_offset in_size) v'
               = splat p inp2 value_size in_offset (resolve_size (N_ p) in_offset in_size) v').
  { unfold splat. apply for_upto_ext. intros i t Hi.
    apply for_upto_ext. intros j u Hj.
    destruct (table (offset_ p) _) as [o_|]; [|reflexivity].
    destruct (table (barycentric_ p) _) as [w|]; [|reflexivity].
    apply for_upto_ext. intros k x Hk.
    unfold rd_row. destruct (int_index i value_size k) as [idx|] eqn:Eidx.
    - apply int_index_some in Eidx. subst idx. rewrite Hin by nia. reflexivity.
    - destruct (rd x _); reflexivity. }
  rewrite Es. reflexivity.
Qed.


(** X16: [compute] reads [in] only in the [in_size * value_size] first
    entries: two calls whose input arrays agree there (whatever their
    sizes and the rest of them) give the same result. *)
Theorem compute_reads_input_range (p : Permutohedral F) (out inp1 inp2 : list F)
    (value_size in_offset out_offset in_size out_size : Z) :
  (forall idx, 0 <= idx < resolve_size (N_ p) in_offset in_size * value_size ->
     rd inp1 idx = rd inp2 idx) ->
  compute p out inp1 value_size in_offset out_offset in_size out_size
  = compute p out inp2 value_size in_offset out_offset in_size out_size.
Proof. apply compute_same_input. Qed.
End EdgeProps.

(** ** The corners of a simplex are distinct *)

Lemma injection_bound (f : Z -> Z) (n m : Z) :
  0 <= n -> 0 <= m ->
  (forall i, 0 <= i < n -> 0 <= f i < m) ->
  (forall i j, 0 <= i < n -> 0 <= j < n -> f i = f j -> i = j) ->
  n <= m.
Proof.
  intros Hn Hm Hr Hinj.
  set (dom := map Z.of_nat (seq 0 (Z.to_nat n))).
  set (cod := map Z.of_nat (seq 0 (Z.to_nat m))).
  assert (Hdom : forall x, In x dom <-> 0 <= x < n).
  { intros x. unfold dom. rewrite in_map_iff. split.
    - intros (a & <- & Ha). apply in_seq in Ha. lia.
    - intros Hx. exists (Z.to_nat x). split; [lia|]. apply in_seq. lia. }
  assert (Hcod : forall x, 0 <= x < m -> In x cod).
  { intros x Hx. unfold cod. rewrite in_map_iff.
    exists (Z.to_nat x). split; [lia|]. apply in_seq. lia. }
  assert (Hnd : NoDup (map f dom)).
  { apply NoDup_map_NoDup_ForallPairs.
    - intros x y Hx Hy E. apply Hinj; auto; now apply Hdom.
    - unfold dom. apply NoDup_map_NoDup_ForallPairs; [|apply seq_NoDup].
      intros x y _ _ E. lia. }
  assert (Hincl : incl (map f dom) cod).
  { intros y Hy. apply in_map_iff in Hy. destruct Hy as (x & <- & Hx).
    apply Hcod. apply Hr. now apply Hdom. }
  pose proof (NoDup_incl_length Hnd Hincl) as Hlen.
  unfold dom, cod in Hlen. rewrite !length_map, !length_seq in Hlen. lia.
Qed.

Lemma canonical_entry_distinct (d r1 r2 rk : Z) :
  0 <= d -> 2 * d + 1 <= 32767 -> 0 <= r1 < r2 -> r2 <= d -> 0 <= rk <= d ->
  canonical_entry d r1 rk <> canonical_entry d r2 rk.
Proof.
  intros Hd Hs H1 H2 Hrk. unfold canonical_entry.
  destruct (Z.leb_spec rk (d - r1)); destruct (Z.leb_spec rk (d - r2));
    rewrite !to_short_small by lia; lia.
Qed.

Lemma lookup_member (h : HashTable) (k1 k2 : list Z) :
  In k1 (keys_ h) -> In k2 (keys_ h) -> lookup h k1 = lookup h k2 -> k1 = k2.
Proof.
  intros H1 H2 E.
  assert (P1 : 0 <= lookup h k1).
  { unfold lookup. destruct (key_index_in k1 (keys_ h) 0 H1) as [i Hi]. rewrite Hi.
    apply key_index_range in Hi. lia. }
  assert (P2 : 0 <= lookup h k2) by lia.
  destruct (lookup_found h k1 P1) as [_ G1].
  destruct (lookup_found h k2 P2) as [_ G2].
  rewrite E in G1. congruence.
Qed.

Section KeyEntries.
Context {F : Type} {FA : FloatArith F} {FM : Fresh F}.

Lemma corner_key_entry (d : Z) (canonical : list Z) (rem0 : list F) (rank : list Z)
    (r : Z) (key kk : list Z) (i : Z) :
  0 <= d -> d <= len key ->
  corner_key d canonical rem0 rank r key = Some kk -> 0 <= i < d ->
  exists r0 rk c s,
    rd rem0 i = Some r0 /\ rd rank i = Some rk /\
    rd canonical (r * (d + 1) + rk) = Some c /\
    f_to_short (f_add r0 (f_of_int c)) = Some s /\
    rd kk i = Some s.
Proof.
  intros Hd Hl E Hi. unfold corner_key in E.
  match type of E with
  | match for_upto ?lo ?hi ?body ?s with _ => _ end = _ =>
      destruct (for_upto lo hi body s) as [key'|] eqn:Ek; [|discriminate]
  end.
  inversion E. subst kk. clear E.
  pose proof (for_upto_inv_some
    (fun n (t : list Z) =>
       forall i', 0 <= i' < n ->
         exists r0 rk c s,
           rd rem0 i' = Some r0 /\ rd rank i' = Some rk /\
           rd canonical (r * (d + 1) + rk) = Some c /\
           f_to_short (f_add r0 (f_of_int c)) = Some s /\
           rd t i' = Some s)
    0 d _ _ _ Ek Hd) as H.
  destruct (H ltac:(intros i' Hi'; lia)) with (i' := i) as (r0 & rk & c & s & H1 & H2 & H3 & H4 & H5);
    auto.
  - intros n t t' Hn Hprev Hb.
    destruct (rd rem0 n) as [r0|] eqn:E1; [|discriminate].
    destruct (rd rank n) as [rk|] eqn:E2; [|discriminate].
    destruct (rd canonical _) as [c|] eqn:E3; [|discriminate].
    destruct (f_to_short _) as [s|] eqn:E4; [|discriminate].
    intros i' Hi'. destruct (Z.eq_dec i' n) as [->|Hne].
    + exists r0, rk, c, s. repeat split; auto. apply (rd_wr_same _ _ _ _ Hb).
    + destruct (Hprev i' ltac:(lia)) as (r0' & rk' & c' & s' & G1 & G2 & G3 & G4 & G5).
      exists r0', rk', c', s'. repeat split; auto.
      rewrite (rd_wr_other _ _ _ _ _ Hb) by auto. exact G5.
  - exists r0, rk, c, s. repeat split; auto.
    rewrite rd_firstn. destruct (Z.ltb_spec i (Z.of_nat (Z.to_nat d))); [exact H5|lia].
Qed.
End KeyEntries.

Section ExactCorners.
Context {FM : Fresh R}.

Lemma round_to_cell_integral (d : Z) (elevated rem00 rem0 : list R) (sum : Z) :
  0 <= d ->
  round_to_cell d elevated rem00 = Some (rem0, sum) ->
  forall i, 0 <= i <= d -> exists m, rd rem0 i = Some (IZR m).
Proof.
  intros Hd E. unfold round_to_cell in E.
  assert (H : forall i, 0 <= i < d + 1 -> exists m, rd rem0 i = Some (IZR m));
    [|intros i Hi; apply H; lia].
  apply (for_upto_inv_some
    (fun n (t : list R * Z) =>
       forall i, 0 <= i < n -> exists m, rd (fst t) i = Some (IZR m))
    0 (d + 1) _ _ _ E ltac:(lia)).
  - intros i' Hi'. lia.
  - intros n [r s] [r' s'] Hn Hprev Hb. simpl in *.
    destruct (rd elevated n) as [e|]; [|discriminate].
    destruct (Exact.round_int _) as [z|]; [|discriminate].
    destruct (wr r n _) as [r1|] eqn:Ew; [|discriminate].
    destruct (int_add s z) as [s1|]; [|discriminate].
    inversion Hb. subst r' s'.
    intros i Hi. destruct (Z.eq_dec i n) as [->|Hne].
    + rewrite (rd_wr_same _ _ _ _ Ew). exists (z * (d + 1)).
      unfold up_factor. simpl. now rewrite mult_IZR.
    + rewrite (rd_wr_other _ _ _ _ _ Ew) by auto. apply Hprev. lia.
Qed.

Lemma exact_to_short_int (m c s : Z) :
  f_to_short (f_add (IZR m) (f_of_int c)) = Some s -> s = m + c.
Proof.
  simpl. rewrite <- plus_IZR. unfold Exact.trunc_short.
  assert (E : Exact.trunc (IZR (m + c)) = m + c).
  { unfold Exact.trunc. destruct (Rle_dec 0 (IZR (m + c))).
    - apply Int_part_IZR.
    - rewrite <- opp_IZR, Int_part_IZR. lia. }
  rewrite E. destruct (_ && _); [|discriminate]. intros H. inversion H. reflexivity.
Qed.

Lemma corner_keys_differ (d : Z) (feature scale_factor : list R) (canonical : list Z)
    (k r1 r2 : Z) (kk1 kk2 : list Z) (b1 b2 : R) :
  2 * d + 1 <= 32767 -> 0 <= r1 < r2 -> r2 <= d ->
  (forall i j, 0 <= i <= d -> 0 <= j <= d ->
     rd canonical (i * (d + 1) + j) = Some (canonical_entry d i j)) ->
  corner d feature scale_factor canonical k r1 = Some (kk1, b1) ->
  corner d feature scale_factor canonical k r2 = Some (kk2, b2) ->
  kk1 <> kk2.
Proof.
  intros Hs Hr1 Hr2 Hcn E1 E2. assert (Hd : 0 <= d) by lia.
  unfold corner in E1, E2.
  destruct (elevate _ _ _ _ _) as [el|] eqn:Eel; [|discriminate].
  destruct (round_to_cell _ _ _) as [[r0 sum]|] eqn:Er; [|discriminate].
  destruct (rank_residuals _ _ _ _) as [rk|] eqn:Ek; [|discriminate].
  destruct (plane_correct _ _ _ _) as [[rk' r0']|] eqn:Ep; [|discriminate].
  destruct (barycentric_coords _ _ _ _ _) as [bc|]; [|discriminate].
  destruct (corner_key d canonical r0' rk' r1 _) as [ck1|] eqn:K1; [|discriminate].
  destruct (corner_key d canonical r0' rk' r2 _) as [ck2|] eqn:K2; [|discriminate].
  destruct (rd bc r1); [|discriminate]. destruct (rd bc r2); [|discriminate].
  injection E1 as -> _. injection E2 as -> _.
  assert (L0 : len (repeat (@f_zero R _) (Z.to_nat (d + 1))) = d + 1)
    by (apply len_repeat; lia).
  assert (LZ : len (repeat 0 (Z.to_nat (d + 1))) = d + 1) by (apply len_repeat; lia).
  destruct (elevate_on_plane _ _ _ _ _ _ Hd L0 Eel) as [Lel Hzero].
  pose proof (round_to_cell_sum _ _ _ _ _ Hd Lel L0 Hzero Er) as Hsum.
  pose proof (round_to_cell_len _ _ _ _ _ Hd Er) as Lr.
  pose proof (round_to_cell_integral _ _ _ _ _ Hd Er) as Hint.
  assert (Lr0 : len r0 = d + 1) by (rewrite Lr; exact L0).
  destruct (rank_residuals_within d el r0 (repeat 0 (Z.to_nat (d + 1)))
              ltac:(lia) Lel Lr0 LZ) as (rk0 & Ek0 & Hrk).
  rewrite Ek in Ek0. inversion Ek0. subst rk0. clear Ek0.
  destruct (plane_correct_cases _ _ _ _ _ _ Hd Hs Hsum Lr0 Hrk Ep) as (Lk' & Lr' & Hcases).
  destruct (plane_correct_within d sum rk r0) as (rk2 & r02 & Ep2 & _ & Hrk'); auto.
  rewrite Ep in Ep2. inversion Ep2. subst rk2 r02. clear Ep2.
  destruct (corner_key_entry d canonical r0' rk' r1 (repeat 0 (Z.to_nat (d + 1))) kk1 0 Hd
              ltac:(rewrite LZ; lia) K1 ltac:(lia))
    as (x1 & k1 & e1 & s1 & A1 & A2 & A3 & A4 & A5).
  destruct (corner_key_entry d canonical r0' rk' r2 (repeat 0 (Z.to_nat (d + 1))) kk2 0 Hd
              ltac:(rewrite LZ; lia) K2 ltac:(lia))
    as (x2 & k2 & e2 & s2 & B1 & B2 & B3 & B4 & B5).
  rewrite A1 in B1. inversion B1. subst x2. rewrite A2 in B2. inversion B2. subst k2.
  assert (Hk1 : 0 <= k1 <= d).
  { destruct Hrk' as [_ H]. destruct (H 0 ltac:(lia)) as (x & Hx & Hb). congruence. }
  rewrite Hcn in A3, B3 by lia. inversion A3. inversion B3. subst e1 e2.
  assert (Hm : exists m, x1 = IZR m).
  { destruct (Hcases 0 ltac:(lia)) as (x & y & _ & X2 & Hc).
    destruct (Hint 0 ltac:(lia)) as (m & Hm). rewrite Hm in X2. inversion X2. subst y.
    destruct Hc as [(_ & _ & H)|[(_ & _ & H)|(_ & _ & H)]]; rewrite A1 in H; inversion H.
    - exists (m + (d + 1)). rewrite (plus_IZR m (d + 1)). reflexivity.
    - exists (m - (d + 1)). rewrite (minus_IZR m (d + 1)). reflexivity.
    - exists m. reflexivity. }
  destruct Hm as [m ->].
  apply exact_to_short_int in A4, B4.
  pose proof (canonical_entry_distinct d r1 r2 k1 Hd Hs Hr1 Hr2 Hk1) as Hne.
  intros Heq. rewrite Heq in A5. rewrite A5 in B5. inversion B5. lia.
Qed.

(** X18: over the reals, with [2d+1] within a [short], the [d+1] corners
    of the simplex of a point are [d+1] different vertices: the offsets
    that [init] stores for a point are pairwise distinct.  So a lattice
    with a point has at least [d+1] vertices. *)
Theorem corners_are_distinct (stray : Z -> Z) (feature : list R) (feature_size N : Z)
    (p : Permutohedral R) (k : Z) :
  init stray feature feature_size N = Some p ->
  2 * feature_size + 1 <= 32767 ->
  0 <= k < N ->
  feature_size + 1 <= M_ p /\
  forall r1 r2, 0 <= r1 < r2 -> r2 <= feature_size ->
    exists o1 o2,
      table (offset_ p) (k * (feature_size + 1) + r1) = Some o1 /\
      table (offset_ p) (k * (feature_size + 1) + r2) = Some o2 /\
      o1 <> o2.
Proof.
  intros E Hs Hk.
  destruct (init_built _ _ _ _ _ E) as (Hb & Hbd & HbN).
  destruct (init_stages _ _ _ _ _ E)
    as (Hd & HN & cn0 & cn & sf0 & sf & st0 & st & nbs0 & nbs1 & na & nb0 & na' & nb0'
        & Lcn & Ecn & _ & _ & Hh & _ & _ & Le & Lr & Lc & Lk & Ly & Eloop & _ & _ & _ & _ & Hp).
  destruct (canonical_simplex_values feature_size cn0 Hd Lcn) as (cn' & Ecn' & _ & Hcn).
  rewrite Ecn in Ecn'. inversion Ecn'. subst cn'. clear Ecn'.
  assert (Hsz : local_sizes feature_size st0) by (repeat split; auto).
  assert (Hks : key_size_ (s_hash_table st0) = feature_size) by (rewrite Hh; reflexivity).
  pose proof (locate_all_corner _ _ _ _ _ _ _ Hd HN Hks Hsz Eloop) as Hc.
  assert (Hdist : forall r1 r2, 0 <= r1 < r2 -> r2 <= feature_size ->
            exists o1 o2,
              table (offset_ p) (k * (feature_size + 1) + r1) = Some o1 /\
              table (offset_ p) (k * (feature_size + 1) + r2) = Some o2 /\
              o1 <> o2).
  { intros r1 r2 Hr1 Hr2.
    destruct (Hc k r1 Hk ltac:(lia)) as (kk1 & b1 & A1 & A2 & A3 & _).
    destruct (Hc k r2 Hk ltac:(lia)) as (kk2 & b2 & B1 & B2 & B3 & _).
    subst p. simpl. rewrite A3, B3. eexists. eexists.
    split; [reflexivity|]. split; [reflexivity|].
    intros Heq. apply (lookup_member _ _ _ A2 B2) in Heq.
    exact (corner_keys_differ _ _ _ _ _ _ _ _ _ _ _ Hs Hr1 Hr2 Hcn A1 B1 Heq). }
  split; [|exact Hdist].
  destruct (built_offset p Hb) as (o & Ho & _ & Hrange).
  rewrite Hbd, HbN in Hrange.
  set (f := fun r => match rd o (k * (feature_size + 1) + r) with Some x => x | None => -1 end).
  apply (injection_bound f); [lia|apply (built_M p Hb)| |].
  - intros r Hr. unfold f. destruct (Hrange (k * (feature_size + 1) + r) ltac:(nia))
      as (x & Hx & Hxr). now rewrite Hx.
  - intros i j Hi Hj Hf. destruct (Z.lt_total i j) as [Hlt|[Heq|Hgt]]; [|exact Heq|].
    + destruct (Hdist i j ltac:(lia) ltac:(lia)) as (o1 & o2 & H1 & H2 & Hne).
      unfold f in Hf. rewrite Ho in H1, H2. simpl in H1, H2. rewrite H1, H2 in Hf.
      contradiction.
    + destruct (Hdist j i ltac:(lia) ltac:(lia)) as (o1 & o2 & H1 & H2 & Hne).
      unfold f in Hf. rewrite Ho in H1, H2. simpl in H1, H2. rewrite H1, H2 in Hf.
      congruence.
Qed.
End ExactCorners.

(** ** An input range is a padding with zeros *)

Lemma iter_up_app {St} (n m : nat) (i : Z) (body : Z -> St -> option St) (s : St) :
  iter_up (n + m) i body s
  = (s' <- iter_up n i body s ;; iter_up m (i + Z.of_nat n) body s').
Proof.
  revert i s. induction n as [|n IH]; intros i s.
  - simpl. now rewrite Z.add_0_r.
  - change (iter_up (S n + m) i body s)
      with (s' <- body i s ;; iter_up (n + m) (i + 1) body s').
    change (iter_up (S n) i body s) with (s' <- body i s ;; iter_up n (i + 1) body s').
    destruct (body i s) as [s1|]; [|reflexivity].
    rewrite IH. replace (i + 1 + Z.of_nat n) with (i + Z.of_nat (S n)) by lia.
    reflexivity.
Qed.

Lemma for_upto_split {St} (lo mid hi : Z) (body : Z -> St -> option St) (s : St) :
  lo <= mid <= hi ->
  for_upto lo hi body s = (s' <- for_upto lo mid body s ;; for_upto mid hi body s').
Proof.
  intros H. unfold for_upto.
  replace (Z.to_nat (hi - lo)) with (Z.to_nat (mid - lo) + Z.to_nat (hi - mid))%nat by lia.
  rewrite iter_up_app. replace (lo + Z.of_nat (Z.to_nat (mid - lo))) with mid by lia.
  reflexivity.
Qed.

Lemma iter_up_shift {St} (n : nat) (i c : Z) (body : Z -> St -> option St) (s : St) :
  iter_up n (i + c) body s = iter_up n i (fun j => body (j + c)) s.
Proof.
  revert i s. induction n as [|n IH]; intros i s; simpl; [reflexivity|].
  destruct (body (i + c) s) as [s1|]; [|reflexivity].
  replace (i + c + 1) with (i + 1 + c) by lia. apply IH.
Qed.

Lemma for_upto_shift {St} (lo hi c : Z) (body : Z -> St -> option St) (s : St) :
  for_upto (lo + c) (hi + c) body s = for_upto lo hi (fun j => body (j + c)) s.
Proof.
  unfold for_upto. replace (hi + c - (lo + c)) with (hi - lo) by lia.
  apply iter_up_shift.
Qed.

Lemma for_upto_idle {St} (P : St -> Prop) (lo hi : Z)
    (body : Z -> St -> option St) (s : St) :
  P s -> (forall i t, lo <= i < hi -> P t -> body i t = Some t) ->
  for_upto lo hi body s = Some s.
Proof.
  intros Hs Hbody. destruct (Z_le_gt_dec lo hi) as [Hle|Hgt].
  - destruct (for_upto_inv (fun _ t => t = s) lo hi body s Hle eq_refl) as (s' & E & ->).
    + intros i t Hi ->. exists s. split; [now apply Hbody|reflexivity].
    + exact E.
  - apply for_upto_empty. lia.
Qed.

Lemma wr_same {A} (a : list A) (i : Z) (v : A) :
  rd a i = Some v -> wr a i v = Some a.
Proof.
  intros H. destruct (wr_some a i v (rd_range _ _ _ H)) as [a' E]. rewrite E. f_equal.
  apply rd_ext. intros j. destruct (Z.eq_dec j i) as [->|Hne].
  - rewrite (rd_wr_same _ _ _ _ E). now rewrite H.
  - apply (rd_wr_other _ _ _ _ _ E). auto.
Qed.

Section Padding.
Context {FM : Fresh R}.

(** A point whose values are all zero leaves the buffer as it is. *)
Lemma splat_zero_point (p : Permutohedral R) (inp : list R)
    (value_size in_offset i : Z) (values : list R) :
  built p -> 0 <= value_size -> 0 <= in_offset + i < N_ p ->
  len values = (M_ p + 2) * value_size ->
  (forall k, 0 <= k < value_size -> rd inp (i * value_size + k) = Some 0%R) ->
  for_upto 0 (d_ p + 1) (fun j values =>
    o_ <- table (offset_ p) ((in_offset + i) * (d_ p + 1) + j) ;;
    let o := o_ + 1 in
    w <- table (barycentric_ p) ((in_offset + i) * (d_ p + 1) + j) ;;
    for_upto 0 value_size (fun k values =>
      v <- rd values (o * value_size + k) ;;
      x <- rd inp (i * value_size + k) ;;
      wr values (o * value_size + k) (f_add v (f_mul w x)))
    values)
  values = Some values.
Proof.
  intros Hb Hvs Hi Hl Hz.
  pose proof (built_d p Hb) as Hd. pose proof (built_M p Hb) as HM.
  apply (for_upto_idle (fun t => t = values)); [reflexivity|].
  intros j t Hj ->.
  destruct (built_offset_at p ((in_offset + i) * (d_ p + 1) + j) Hb ltac:(nia))
    as (o_ & Ho & Hor).
  destruct (built_barycentric_at p ((in_offset + i) * (d_ p + 1) + j) Hb ltac:(nia))
    as (w & Hw).
  rewrite Ho, Hw. cbv zeta.
  apply (for_upto_idle (fun t => t = values)); [reflexivity|].
  intros k t Hk ->.
  destruct (rd_some values ((o_ + 1) * value_size + k) ltac:(nia)) as [v Hv].
  rewrite Hv, (Hz k Hk). simpl.
  replace (v + w * 0)%R with v by ring. now apply wr_same.
Qed.

Lemma splat_len (p : Permutohedral R) (inp : list R)
    (value_size in_offset in_size : Z) (values values' : list R) :
  splat p inp value_size in_offset in_size values = Some values' ->
  len values' = len values.
Proof.
  intros E. apply splat_some in E.
  apply (for_upto_keeps (fun t => len t = len values) _ _ _ _ _ E); [reflexivity|].
  intros i t t' Hi Ht Ei. rewrite <- Ht.
  apply (for_upto_keeps (fun u => len u = len t) _ _ _ _ _ Ei); [reflexivity|].
  intros j u u' Hj Hu Ej. rewrite <- Hu.
  destruct (table (offset_ p) _) as [o_|]; [|discriminate].
  destruct (table (barycentric_ p) _) as [w|]; [|discriminate].
  apply (for_upto_keeps (fun x => len x = len u) _ _ _ _ _ Ej); [reflexivity|].
  intros k x x' Hk Hx Ek.
  destruct (rd x _) as [v|]; [|discriminate].
  destruct (rd inp _) as [y|]; [|discriminate].
  rewrite (wr_len _ _ _ _ Ek). exact Hx.
Qed.

(** X19: over the reals, restricting the input of [compute] to the points
    [in_offset .. in_offset+in_size-1] is the same as giving all [N] points
    with the values of the other points set to zero, when the [N*value_size]
    values of all points have indices of type [int]. *)
Theorem input_range_is_zero_padding (p : Permutohedral R) (out inp padded : list R)
    (value_size in_offset out_offset in_size out_size : Z) :
  built p -> 0 <= value_size -> N_ p * value_size <= 2147483647 ->
  0 <= in_offset -> 0 <= in_size -> in_offset + in_size <= N_ p ->
  (forall i k, 0 <= i < in_size -> 0 <= k < value_size ->
     rd padded ((in_offset + i) * value_size + k) = rd inp (i * value_size + k)) ->
  (forall i k, 0 <= i < N_ p -> ~ (in_offset <= i < in_offset + in_size) ->
     0 <= k < value_size -> rd padded (i * value_size + k) = Some 0%R) ->
  compute p out inp value_size in_offset out_offset in_size out_size
  = compute p out padded value_size 0 out_offset (-1) out_size.
Proof.
  intros Hb Hvs Hint Hoff Hsz Hfit Hrows Hzero.
  pose proof (built_M p Hb) as HM.
  rewrite !compute_unfold, !blurred_unfold.
  rewrite (built_resolved_size p in_offset in_size Hb) by lia.
  rewrite (built_resolved_size p 0 (-1) Hb) by lia.
  assert (R1 : resolve_size (N_ p) in_offset in_size = in_size).
  { unfold resolve_size. destruct (Z.eqb_spec in_size (-1)); [lia|reflexivity]. }
  assert (R2 : resolve_size (N_ p) 0 (-1) = N_ p).
  { unfold resolve_size. simpl. lia. }
  rewrite R1, R2.
  destruct (resolved_size (N_ p) out_offset out_size); [|reflexivity].
  destruct (int_add (M_ p) 2); [|reflexivity].
  destruct (int_mul (M_ p + 2) value_size); [|reflexivity].
  cbv beta iota.
  destruct (alloc _ (fresh_float 0)) as [v|] eqn:Ev; [|reflexivity].
  destruct (alloc _ (fresh_float 1)) as [nv|] eqn:Env; [|reflexivity].
  rewrite zero_scratch_spec;
    [|nia|apply (alloc_len _ _ _ Ev)|apply (alloc_len _ _ _ Env)].
  set (zeros := repeat f_zero (Z.to_nat ((M_ p + 2) * value_size))).
  assert (Lz : len zeros = (M_ p + 2) * value_size).
  { unfold zeros. apply len_repeat. nia. }
  assert (Es : splat p padded value_size 0 (N_ p) zeros
               = splat p inp value_size in_offset in_size zeros).
  { rewrite !splat_small by nia.
    rewrite (for_upto_split 0 in_offset (N_ p)) by lia.
    rewrite (for_upto_idle (fun t => t = zeros)); [|reflexivity|].
    2: { intros i t Hi ->. apply (splat_zero_point p padded value_size 0 i zeros); auto.
         - lia.
         - intros k Hk. apply Hzero; auto; lia. }
    rewrite (for_upto_split in_offset (in_offset + in_size) (N_ p)) by lia.
    replace in_offset with (0 + in_offset) at 1 by lia.
    rewrite (Z.add_comm in_offset in_size) at 1.
    rewrite for_upto_shift.
    rewrite (for_upto_ext 0 in_size _
      (fun i values =>
         for_upto 0 (d_ p + 1) (fun j values =>
           o_ <- table (offset_ p) ((in_offset + i) * (d_ p + 1) + j) ;;
           let o := o_ + 1 in
           w <- table (barycentric_ p) ((in_offset + i) * (d_ p + 1) + j) ;;
           for_upto 0 value_size (fun k values =>
             v <- rd values (o * value_size + k) ;;
             x <- rd inp (i * value_size + k) ;;
             wr values (o * value_size + k) (f_add v (f_mul w x)))
           values)
         values)).
    2: { intros i t Hi. apply for_upto_ext. intros j u Hj.
         replace (0 + (i + in_offset)) with (in_offset + i) by lia.
         destruct (table (offset_ p) _) as [o_|]; [|reflexivity].
         destruct (table (barycentric_ p) _) as [w|]; [|reflexivity].
         apply for_upto_ext. intros k x Hk.
         replace (i + in_offset) with (in_offset + i) by lia.
         rewrite Hrows by lia. reflexivity. }
    match goal with
    | |- match ?a with _ => _ end = ?b =>
        change b with a; destruct a as [v1|] eqn:Emid; [|reflexivity]
    end.
    apply (for_upto_idle (fun t => t = v1)); [reflexivity|].
    intros i t Hi ->.
    apply (splat_zero_point p padded value_size 0 i v1); auto.
    - lia.
    - rewrite <- (splat_small p inp value_size in_offset in_size zeros) in Emid by nia.
      rewrite (splat_len _ _ _ _ _ _ _ Emid). exact Lz.
    - intros k Hk. apply Hzero; auto; lia. }
  fold zeros. rewrite Es. reflexivity.
Qed.
End Padding.

(** ** Ranges and arrays that are too short *)

Lemma for_downto_fails_first {St} (hi lo : Z) (body : Z -> St -> option St) (s : St) :
  lo < hi -> body hi s = None -> for_downto hi lo body s = None.
Proof.
  intros Hlt Hb. unfold for_downto.
  destruct (Z.to_nat (hi - lo)) as [|n] eqn:En; [lia|].
  simpl. now rewrite Hb.
Qed.

Section RangeEdges.
Context {F : Type} {FA : FloatArith F} {FM : Fresh F}.

Lemma splat_out_of_range (p : Permutohedral F) (inp : list F)
    (value_size in_offset in_size : Z) (values : list F) :
  built p -> 0 < in_size ->
  in_offset < 0 \/ N_ p < in_offset + in_size ->
  splat p inp value_size in_offset in_size values = None.
Proof.
  intros Hb Hn Hout.
  pose proof (built_d p Hb) as Hd. pose proof (built_N p Hb) as HN.
  destruct (built_offset p Hb) as (o & Ho & Lo & _).
  unfold splat.
  assert (Hi : exists i, 0 <= i < in_size /\
                         (in_offset + i < 0 \/ N_ p <= in_offset + i)).
  { destruct Hout as [H|H]; [exists 0|exists (in_size - 1)]; lia. }
  destruct Hi as (i & Hi & Hbad).
  apply (for_upto_fails 0 in_size i); [exact Hi|].
  intros t. apply (for_upto_fails 0 (d_ p + 1) 0); [lia|].
  intros u. unfold table. rewrite Ho.
  assert (E : rd o ((in_offset + i) * (d_ p + 1) + 0) = None).
  { destruct Hbad as [H|H].
    - unfold rd. destruct (Z.ltb_spec ((in_offset + i) * (d_ p + 1) + 0) 0);
        [reflexivity|nia].
    - apply rd_none. nia. }
  now rewrite E.
Qed.

Lemma slice_out_of_range (p : Permutohedral F) (values : list F)
    (value_size out_offset out_size : Z) (out : list F) :
  built p -> 0 < out_size ->
  out_offset < 0 \/ N_ p < out_offset + out_size ->
  slice p values value_size out_offset out_size out = None.
Proof.
  intros Hb Hn Hout.
  pose proof (built_d p Hb) as Hd. pose proof (built_N p Hb) as HN.
  destruct (built_offset p Hb) as (o & Ho & Lo & _).
  unfold slice.
  assert (Hi : exists i, 0 <= i < out_size /\
                         (out_offset + i < 0 \/ N_ p <= out_offset + i)).
  { destruct Hout as [H|H]; [exists 0|exists (out_size - 1)]; lia. }
  destruct Hi as (i & Hi & Hbad).
  apply (for_upto_fails 0 out_size i); [exact Hi|].
  intros t.
  destruct (for_upto 0 value_size _ t) as [t1|]; [|reflexivity].
  apply (for_upto_fails 0 (d_ p + 1) 0); [lia|].
  intros u. unfold table. rewrite Ho.
  assert (E : rd o ((out_offset + i) * (d_ p + 1) + 0) = None).
  { destruct Hbad as [H|H].
    - unfold rd. destruct (Z.ltb_spec ((out_offset + i) * (d_ p + 1) + 0) 0);
        [reflexivity|nia].
    - apply rd_none. nia. }
  now rewrite E.
Qed.

(** X20: [compute] does not check its ranges: on a built lattice, when
    the input range or the output range is not empty and leaves the points
    [0 .. N-1], [compute] reads [offset_] outside its [(d+1)*N] entries
    (lines 269, 300). *)
Theorem compute_range_outside_points (p : Permutohedral F) (out inp : list F)
    (value_size in_offset out_offset in_size out_size : Z) :
  built p ->
  (0 < resolve_size (N_ p) in_offset in_size /\
   (in_offset < 0 \/ N_ p < in_offset + resolve_size (N_ p) in_offset in_size)) \/
  (0 < resolve_size (N_ p) out_offset out_size /\
   (out_offset < 0 \/ N_ p < out_offset + resolve_size (N_ p) out_offset out_size)) ->
  compute p out inp value_size in_offset out_offset in_size out_size = None.
Proof.
  intros Hb Hbad. rewrite compute_unfold, blurred_unfold.
  destruct (resolved_size (N_ p) out_offset out_size); [|reflexivity].
  destruct (resolved_size (N_ p) in_offset in_size); [|reflexivity].
  destruct (int_add (M_ p) 2); [|reflexivity].
  destruct (int_mul (M_ p + 2) value_size); [|reflexivity].
  cbv beta iota.
  destruct (alloc _ (fresh_float 0)) as [v|]; [|reflexivity].
  destruct (alloc _ (fresh_float 1)) as [nv|]; [|reflexivity].
  destruct (zero_scratch _ _) as [[v' nv']|]; [|reflexivity].
  destruct Hbad as [[Hn Hr]|[Hn Hr]].
  - now rewrite splat_out_of_range.
  - destruct (splat _ _ _ _ _ _) as [v1|]; [|reflexivity].
    destruct (blur_passes _ _ _ _) as [[cur nxt]|]; [|reflexivity].
    now apply slice_out_of_range.
Qed.

Lemma elevate_same_features (d : Z) (f1 f2 scale_factor : list F) (k : Z) (e : list F) :
  (forall j, 0 <= j < d -> rd f1 (k * d + j) = rd f2 (k * d + j)) ->
  elevate d f1 scale_factor k e = elevate d f2 scale_factor k e.
Proof.
  intros Hrow. unfold elevate.
  rewrite (for_downto_ext d 0 _
    (fun j '(elevated, sm) =>
       fj <- rd f2 (k * d + (j - 1)) ;;
       sj <- rd scale_factor (j - 1) ;;
       let cf := f_mul fj sj in
       elevated <- wr elevated j (f_sub sm (f_mul (f_of_int j) cf)) ;;
       Some (elevated, f_add sm cf))); [reflexivity|].
  intros j [el sm] Hj. rewrite Hrow by lia. reflexivity.
Qed.

Lemma elevate_short_features (d : Z) (feature scale_factor : list F) (k : Z) (e : list F) :
  0 < d -> len feature <= k * d + (d - 1) ->
  elevate d feature scale_factor k e = None.
Proof.
  intros Hd Hl. unfold elevate.
  rewrite for_downto_fails_first; [reflexivity|lia|].
  rewrite rd_none by lia. reflexivity.
Qed.

(** X21: [init] reads the [N * feature_size] first entries of [feature]
    and nothing else: two arrays that agree there give the same lattice,
    and an array with fewer entries is read past its end (line 153). *)
Theorem init_reads_features (stray : Z -> Z) (f1 f2 : list F) (feature_size N : Z) :
  ((forall idx, 0 <= idx < N * feature_size -> rd f1 idx = rd f2 idx) ->
   init stray f1 feature_size N = init stray f2 feature_size N) /\
  (len f1 < N * feature_size -> init stray f1 feature_size N = None).
Proof.
  split.
  - intros Hsame. rewrite !init_unfold.
    destruct (int_add feature_size 1); [|reflexivity].
    destruct (int_mul N _); [|reflexivity].
    destruct (int_mul _ N); [|reflexivity].
    destruct (int_add feature_size 2); [|reflexivity].
    destruct (int_mul _ _); [|reflexivity].
    cbv beta iota.
    destruct (alloc _ (fresh_int 0)) as [offset|]; [|reflexivity].
    destruct (alloc _ (fresh_float 0)) as [bary|]; [|reflexivity].
    destruct (alloc feature_size (fresh_float 1)) as [sf0|]; [|reflexivity].
    destruct (alloc _ (fresh_float 2)) as [el|]; [|reflexivity].
    destruct (alloc _ (fresh_float 3)) as [r0|]; [|reflexivity].
    destruct (alloc _ (fresh_float 4)) as [bc|]; [|reflexivity].
    destruct (alloc _ (fresh_int 1)) as [rk|]; [|reflexivity].
    destruct (alloc _ (fresh_int 2)) as [cn0|]; [|reflexivity].
    destruct (alloc _ (fresh_int 3)) as [ky|]; [|reflexivity].
    destruct (canonical_simplex _ _) as [cn|]; [|reflexivity].
    destruct (scale_factors _ _) as [sf|]; [|reflexivity].
    rewrite (for_upto_ext 0 N (locate feature_size f1 sf cn) (locate feature_size f2 sf cn));
      [reflexivity|].
    intros k t Hk. unfold locate.
    rewrite (elevate_same_features feature_size f1 f2); [reflexivity|].
    intros j Hj. apply Hsame. nia.
  - intros Hshort. rewrite init_unfold.
    destruct (int_add feature_size 1); [|reflexivity].
    destruct (int_mul N _); [|reflexivity].
    destruct (int_mul _ N); [|reflexivity].
    destruct (int_add feature_size 2); [|reflexivity].
    destruct (int_mul _ _); [|reflexivity].
    cbv beta iota.
    destruct (alloc _ (fresh_int 0)) as [offset|] eqn:E1; [|reflexivity].
    destruct (alloc _ (fresh_float 0)) as [bary|]; [|reflexivity].
    destruct (alloc feature_size (fresh_float 1)) as [sf0|] eqn:E3; [|reflexivity].
    destruct (alloc _ (fresh_float 2)) as [el|]; [|reflexivity].
    destruct (alloc _ (fresh_float 3)) as [r0|]; [|reflexivity].
    destruct (alloc _ (fresh_float 4)) as [bc|]; [|reflexivity].
    destruct (alloc _ (fresh_int 1)) as [rk|]; [|reflexivity].
    destruct (alloc _ (fresh_int 2)) as [cn0|]; [|reflexivity].
    destruct (alloc _ (fresh_int 3)) as [ky|]; [|reflexivity].
    destruct (canonical_simplex _ _) as [cn|]; [|reflexivity].
    destruct (scale_factors _ _) as [sf|]; [|reflexivity].
    apply alloc_len in E1, E3.
    pose proof (len_nonneg f1) as Hf.
    assert (Hd : 0 < feature_size) by nia.
    assert (HN : 0 < N) by nia.
    rewrite (for_upto_fails 0 N (N - 1)); [reflexivity|lia|].
    intros t. unfold locate.
    rewrite elevate_short_features; [reflexivity|exact Hd|nia].
Qed.
End RangeEdges.

(** ** Each point sees its own value *)

Lemma raised_start (n : Z) (t : list R) : len t = n -> nonneg t -> raised n 0 0 t.
Proof. intros Hl Hn. split; auto. split; auto. intros y Hy. exact (Hn _ _ Hy). Qed.

Lemma raised_add (n e : Z) (b : R) (t t' : list R) (idx : Z) (v a : R) :
  raised n e b t -> rd t idx = Some v -> (0 <= a)%R ->
  wr t idx (v + a)%R = Some t' -> raised n e b t'.
Proof.
  intros (Hl & Hn & Hc) Hv Ha E.
  split; [rewrite (wr_len _ _ _ _ E); exact Hl|]. split.
  - apply (nonneg_wr _ _ _ _ Hn) in E; auto. pose proof (Hn _ _ Hv). lra.
  - intros y Hy. destruct (Z.eq_dec e idx) as [->|Hne].
    + rewrite (rd_wr_same _ _ _ _ E) in Hy. inversion Hy. pose proof (Hc _ Hv). lra.
    + rewrite (rd_wr_other _ _ _ _ _ E) in Hy by auto. now apply Hc.
Qed.

Lemma positive_entry (l : list R) :
  (0 < Rsum l)%R -> exists i x, rd l i = Some x /\ (0 < x)%R.
Proof.
  induction l as [|a l IH]; simpl; intros H; [lra|].
  destruct (Rlt_dec 0 a) as [Ha|Ha].
  - exists 0, a. split; [reflexivity|exact Ha].
  - destruct IH as (i & x & Hx & Hpos); [lra|].
    pose proof (rd_range _ _ _ Hx) as Hi.
    exists (i + 1), x. split; [|exact Hpos].
    unfold rd in *. destruct (Z.ltb_spec i 0); [lia|].
    destruct (Z.ltb_spec (i + 1) 0); [lia|].
    replace (Z.to_nat (i + 1)) with (S (Z.to_nat i)) by lia. exact Hx.
Qed.

Section Diagonal.
Context {FM : Fresh R}.
Variables (p : Permutohedral R) (inp : list R) (value_size : Z).
Hypothesis Hw : forall i w, table (barycentric_ p) i = Some w -> (0 <= w)%R.
Hypothesis Hin : nonneg inp.

Lemma splat_cells_keep (n e : Z) (b : R) (i o : Z) (w : R) (lo hi : Z) (t t' : list R) :
  (0 <= w)%R ->
  for_upto lo hi (fun k values =>
    v <- rd values (o * value_size + k) ;;
    x <- rd inp (i * value_size + k) ;;
    wr values (o * value_size + k) (f_add v (f_mul w x))) t = Some t' ->
  raised n e b t -> raised n e b t'.
Proof.
  intros Hw0 E Ht. apply (for_upto_keeps _ _ _ _ _ _ E Ht).
  intros k u u' Hk Hu Eb.
  destruct (rd u _) as [v|] eqn:Ev; [|discriminate].
  destruct (rd inp _) as [x|] eqn:Ex; [|discriminate].
  apply (raised_add _ _ _ _ _ _ _ _ Hu Ev) in Eb; auto.
  pose proof (Hin _ _ Ex). simpl. nra.
Qed.

Lemma splat_corners_keep (n e : Z) (b : R) (pt i : Z) (lo hi : Z) (t t' : list R) :
  for_upto lo hi (fun j values =>
    o_ <- table (offset_ p) (pt * (d_ p + 1) + j) ;;
    let o := o_ + 1 in
    w <- table (barycentric_ p) (pt * (d_ p + 1) + j) ;;
    for_upto 0 value_size (fun k values =>
      v <- rd values (o * value_size + k) ;;
      x <- rd inp (i * value_size + k) ;;
      wr values (o * value_size + k) (f_add v (f_mul w x)))
    values) t = Some t' ->
  raised n e b t -> raised n e b t'.
Proof.
  intros E Ht. apply (for_upto_keeps _ _ _ _ _ _ E Ht).
  intros j u u' Hj Hu Eb.
  destruct (table (offset_ p) _) as [o_|]; [|discriminate].
  destruct (table (barycentric_ p) _) as [w|] eqn:Ew; [|discriminate].
  exact (splat_cells_keep n e b i (o_ + 1) w 0 value_size u u' (Hw _ _ Ew) Eb Hu).
Qed.

Lemma splat_points_keep (n e : Z) (b : R) (in_offset : Z) (lo hi : Z) (t t' : list R) :
  for_upto lo hi (fun i values =>
    for_upto 0 (d_ p + 1) (fun j values =>
      o_ <- table (offset_ p) ((in_offset + i) * (d_ p + 1) + j) ;;
      let o := o_ + 1 in
      w <- table (barycentric_ p) ((in_offset + i) * (d_ p + 1) + j) ;;
      for_upto 0 value_size (fun k values =>
        v <- rd values (o * value_size + k) ;;
        x <- rd inp (i * value_size + k) ;;
        wr values (o * value_size + k) (f_add v (f_mul w x)))
      values)
    values) t = Some t' ->
  raised n e b t -> raised n e b t'.
Proof.
  intros E Ht. apply (for_upto_keeps _ _ _ _ _ _ E Ht).
  intros i u u' Hi Hu Eb.
  exact (splat_corners_keep n e b (in_offset + i) i 0 (d_ p + 1) u u' Eb Hu).
Qed.

(** Splatting the positive value [x] of point [i] in channel [c] through
    the corner [r] leaves at least [w*x] in the cell of that corner. *)
Lemma splat_raises (in_offset in_size i r c : Z) (x : R) (values values' : list R) :
  0 <= i < in_size -> 0 <= r <= d_ p -> 0 <= c < value_size ->
  rd inp (i * value_size + c) = Some x ->
  nonneg values ->
  splat p inp value_size in_offset in_size values = Some values' ->
  exists o w y,
    table (offset_ p) ((in_offset + i) * (d_ p + 1) + r) = Some o /\
    table (barycentric_ p) ((in_offset + i) * (d_ p + 1) + r) = Some w /\
    rd values' ((o + 1) * value_size + c) = Some y /\ (w * x <= y)%R /\
    nonneg values' /\ len values' = len values.
Proof.
  intros Hi Hr Hc Hx Hv E. apply splat_some in E.
  set (n := len values).
  rewrite (for_upto_split 0 i in_size) in E by lia.
  match type of E with
  | match ?a with _ => _ end = _ => destruct a as [t1|] eqn:E1; [|discriminate]
  end.
  pose proof (splat_points_keep n 0 0 in_offset 0 i values t1 E1
                (raised_start n values eq_refl Hv)) as (L1 & N1 & _).
  rewrite (for_upto_split i (i + 1) in_size), for_upto_one in E by lia.
  match type of E with
  | match ?a with _ => _ end = _ => destruct a as [t2|] eqn:E2; [|discriminate]
  end.
  rewrite (for_upto_split 0 r (d_ p + 1)) in E2 by lia.
  match type of E2 with
  | match ?a with _ => _ end = _ => destruct a as [t3|] eqn:E3; [|discriminate]
  end.
  pose proof (splat_corners_keep n 0 0 (in_offset + i) i 0 r t1 t3 E3
                (raised_start n t1 L1 N1)) as (L3 & N3 & _).
  rewrite (for_upto_split r (r + 1) (d_ p + 1)), for_upto_one in E2 by lia.
  match type of E2 with
  | match ?a with _ => _ end = _ => destruct a as [t4|] eqn:E4; [|discriminate]
  end.
  destruct (table (offset_ p) _) as [o|] eqn:Eo; [|discriminate].
  destruct (table (barycentric_ p) _) as [w|] eqn:Ew; [|discriminate].
  cbv zeta in E4. pose proof (Hw _ _ Ew) as Hw0.
  rewrite (for_upto_split 0 c value_size) in E4 by lia.
  match type of E4 with
  | match ?a with _ => _ end = _ => destruct a as [t5|] eqn:E5; [|discriminate]
  end.
  pose proof (splat_cells_keep n 0 0 i (o + 1) w 0 c t3 t5 Hw0 E5
                (raised_start n t3 L3 N3)) as (L5 & N5 & _).
  rewrite (for_upto_split c (c + 1) value_size), for_upto_one in E4 by lia.
  match type of E4 with
  | match ?a with _ => _ end = _ => destruct a as [t6|] eqn:E6; [|discriminate]
  end.
  destruct (rd t5 _) as [v|] eqn:Ev; [|discriminate].
  rewrite Hx in E6.
  set (e := (o + 1) * value_size + c) in *.
  assert (R6 : raised n e (w * x) t6).
  { pose proof (rd_range _ _ _ Ev) as He.
    split; [rewrite (wr_len _ _ _ _ E6); exact L5|]. split.
    - apply (nonneg_wr _ _ _ _ N5) in E6; auto.
      pose proof (N5 _ _ Ev). pose proof (Hin _ _ Hx). simpl. nra.
    - intros y Hy. rewrite (rd_wr_same _ _ _ _ E6) in Hy. inversion Hy.
      pose proof (N5 _ _ Ev). simpl. lra. }
  pose proof (splat_cells_keep n e (w * x) i (o + 1) w (c + 1) value_size t6 t4 Hw0 E4 R6)
    as R4.
  pose proof (splat_corners_keep n e (w * x) (in_offset + i) i (r + 1) (d_ p + 1)
                t4 t2 E2 R4) as R2.
  pose proof (splat_points_keep n e (w * x) in_offset (i + 1) in_size t2 values' E R2)
    as (L & N & C).
  assert (He : 0 <= e < n).
  { pose proof (rd_range _ _ _ Ev). lia. }
  destruct (rd_some values' e ltac:(lia)) as [y Hy].
  exists o, w, y. repeat split; auto.
Qed.
End Diagonal.

Section DiagonalTheorem.
Context {FM : Fresh R}.

Lemma blur_axis_cell (p : Permutohedral R) (value_size j i c : Z) (b : R)
    (s s' : list R * list R) :
  0 <= value_size -> 0 <= i < M_ p -> 0 <= c < value_size ->
  nonneg (fst s) ->
  cell_ge ((i + 1) * value_size + c) b (fst s) ->
  blur_axis p value_size j s = Some s' ->
  cell_ge ((i + 1) * value_size + c) b (fst s').
Proof.
  intros Hvs Hi Hc Hn Hcell E. destruct s as [values nv], s' as [cur nxt].
  apply blur_axis_spec in E; auto. destruct E as (_ & _ & Hrow & _).
  destruct (Hrow i c Hi Hc) as (v & Hv & Hcur). simpl in *.
  intros y Hy. rewrite Hcur in Hy. inversion Hy. subst y. clear Hy.
  unfold blur_value in Hv.
  destruct (table (blur_neighbors_ p) _) as [nb|]; [|discriminate].
  destruct (rd values ((i + 1) * value_size + c)) as [x|] eqn:Ex; [|discriminate].
  destruct (rd values ((n1 nb + 1) * value_size + c)) as [a1|] eqn:E1; [|discriminate].
  destruct (rd values ((n2 nb + 1) * value_size + c)) as [a2|] eqn:E2; [|discriminate].
  inversion Hv. simpl.
  pose proof (Hcell _ Ex). pose proof (Hn _ _ E1). pose proof (Hn _ _ E2). lra.
Qed.

Lemma slice_value_positive (p : Permutohedral R) (values : list R)
    (value_size pt k r o : Z) (w b v : R) :
  (forall i w, table (barycentric_ p) i = Some w -> (0 <= w)%R) ->
  nonneg values -> 0 <= r <= d_ p ->
  table (offset_ p) (pt * (d_ p + 1) + r) = Some o ->
  table (barycentric_ p) (pt * (d_ p + 1) + r) = Some w ->
  (0 < w)%R -> (0 < b)%R ->
  cell_ge ((o + 1) * value_size + k) b values ->
  slice_value p values value_size pt k = Some v -> (0 < v)%R.
Proof.
  intros Hw Hv Hr Ho Hwr Hwpos Hbpos Hcell E.
  unfold slice_value, slice_partial in E.
  pose proof (alpha_pos p) as Hal. set (al := alpha p) in *.
  assert (Hkeep : forall (c0 : R) lo hi t t',
            for_upto lo hi (fun j x =>
              o_ <- table (offset_ p) (pt * (d_ p + 1) + j) ;;
              w <- table (barycentric_ p) (pt * (d_ p + 1) + j) ;;
              v <- rd values ((o_ + 1) * value_size + k) ;;
              Some (f_add x (f_mul (f_mul w v) al))) t = Some t' ->
            (c0 <= t)%R -> (c0 <= t')%R).
  { intros c0 lo hi t t' El Ht.
    apply (for_upto_keeps (fun y => (c0 <= y)%R) _ _ _ _ _ El Ht).
    intros j u u' Hj Hu Eb.
    destruct (table (offset_ p) (pt * (d_ p + 1) + j)) as [o_|]; [|discriminate].
    destruct (table (barycentric_ p) (pt * (d_ p + 1) + j)) as [w'|] eqn:Ew;
      [|discriminate].
    destruct (rd values ((o_ + 1) * value_size + k)) as [y|] eqn:Ey; [|discriminate].
    pose proof (Hw _ _ Ew). pose proof (Hv _ _ Ey).
    injection Eb as <-. simpl.
    assert (0 <= w' * y * al)%R; [|lra].
    apply Rmult_le_pos; [apply Rmult_le_pos|]; lra. }
  rewrite (for_upto_split 0 r (d_ p + 1)) in E by lia.
  match type of E with
  | match ?a with _ => _ end = _ => destruct a as [t1|] eqn:E1; [|discriminate]
  end.
  assert (H1 : (0 <= t1)%R).
  { apply (Hkeep 0%R _ _ _ _ E1). unfold f_zero. simpl. lra. }
  rewrite (for_upto_split r (r + 1) (d_ p + 1)), for_upto_one in E by lia.
  match type of E with
  | match ?a with _ => _ end = _ => destruct a as [t2|] eqn:E2; [|discriminate]
  end.
  rewrite Ho, Hwr in E2.
  destruct (rd values _) as [y|] eqn:Ey; [|discriminate].
  pose proof (Hcell _ Ey) as Hy. injection E2 as <-.
  assert (Hpos : (0 < w * y * al)%R).
  { apply Rmult_lt_0_compat; [apply Rmult_lt_0_compat|]; lra. }
  assert (w * y * al <= v)%R; [|lra].
  apply (Hkeep (w * y * al)%R _ _ _ _ E). simpl. lra.
Qed.

Lemma init_weights_positive (stray : Z -> Z) (feature : list R) (d N : Z)
    (p : Permutohedral R) (k : Z) :
  init stray feature d N = Some p -> 0 <= k < N ->
  exists r w, 0 <= r <= d /\ table (barycentric_ p) (k * (d + 1) + r) = Some w /\ (0 < w)%R.
Proof.
  intros E Hk.
  destruct (init_stages _ _ _ _ _ E)
    as (Hd & HN & cn0 & cn & sf0 & sf & st0 & st & nbs0 & nbs & na & nb & na' & nb'
        & _ & _ & _ & _ & _ & Lo & Lb & Le & Lr & Lc & Lk & _ & Eloop & _ & _ & _ & _ & Hp).
  pose proof (locate_all_weights _ _ _ _ _ _ _ Hd HN Lc Eloop k Hk) as Hsum.
  destruct (positive_entry (segment d (s_bary st) k)) as (i & x & Hx & Hpos); [lra|].
  assert (Hi : 0 <= i <= d).
  { pose proof (rd_range _ _ _ Hx) as Hr. unfold segment, len in Hr.
    rewrite length_firstn in Hr. lia. }
  rewrite rd_segment in Hx by lia.
  exists i, x. subst p. simpl. auto.
Qed.

(** On a lattice of [init], a positive input of a point gives a positive
    output of that point. *)
Lemma compute_positive (stray : Z -> Z) (feature : list R)
    (feature_size N : Z) (p : Permutohedral R) (out inp : list R)
    (value_size in_offset out_offset in_size out_size k c : Z) (x : R) :
  init stray feature feature_size N = Some p ->
  2 * feature_size + 1 <= 32767 ->
  (M_ p + 2) * value_size <= 2147483647 ->
  N * value_size <= 2147483647 ->
  0 <= in_offset ->
  in_offset + resolve_size N in_offset in_size <= N ->
  resolve_size N in_offset in_size * value_size <= len inp ->
  0 <= out_offset ->
  out_offset + resolve_size N out_offset out_size <= N ->
  resolve_size N out_offset out_size * value_size <= len out ->
  nonneg inp ->
  in_offset <= k < in_offset + resolve_size N in_offset in_size ->
  out_offset <= k < out_offset + resolve_size N out_offset out_size ->
  0 <= c < value_size ->
  rd inp ((k - in_offset) * value_size + c) = Some x -> (0 < x)%R ->
  exists res y,
    compute p out inp value_size in_offset out_offset in_size out_size = Some res /\
    rd res ((k - out_offset) * value_size + c) = Some y /\ (0 < y)%R.
Proof.
  intros E Hs HintM HintN H1 H2 H3 H4 H5 H6 Hin Hki Hko Hc Hx Hpos.
  pose proof (init_weights_nonneg _ _ _ _ _ E Hs) as Hw.
  destruct (init_weights_positive _ _ _ _ _ k E ltac:(lia)) as (r0 & w0 & Hr0 & Hw0 & Hw0pos).
  destruct (init_built _ _ _ _ _ E) as (Hb & Hd & HN). subst N feature_size.
  assert (Hvs : 0 <= value_size) by lia.
  destruct (compute_total p out inp value_size in_offset out_offset in_size out_size)
    as [res Er]; auto; try lia.
  exists res. pose proof Er as Er0.
  pose proof (built_d p Hb) as Hd0. pose proof (built_M p Hb) as HM.
  open_run Er.
  destruct (alloc _ (fresh_float 0)) as [v|] eqn:Ev; [|discriminate].
  destruct (alloc _ (fresh_float 1)) as [nv|] eqn:Env; [|discriminate].
  rewrite zero_scratch_spec in Er;
    [|nia|apply (alloc_len _ _ _ Ev)|apply (alloc_len _ _ _ Env)].
  change (@f_zero R Exact.arith) with 0%R in Er.
  destruct (splat _ _ _ _ _ _) as [v1|] eqn:Es; [|discriminate].
  destruct (blur_passes _ _ _ _) as [[cur nxt]|] eqn:Eb; [|discriminate].
  destruct (splat_raises p inp value_size Hw Hin in_offset
              (resolve_size (N_ p) in_offset in_size) (k - in_offset) r0 c x _ _
              ltac:(lia) Hr0 Hc Hx (nonneg_zeros _) Es)
    as (o & w & y & Ho & Hwr & Hy & Hle & Hn1 & Hl1).
  replace (in_offset + (k - in_offset)) with k in Ho, Hwr by lia.
  rewrite Hw0 in Hwr. injection Hwr as <-.
  destruct (built_offset_at p (k * (d_ p + 1) + r0) Hb ltac:(nia)) as (o' & Ho' & Hor).
  rewrite Ho in Ho'. injection Ho' as <-.
  assert (Hfin : nonneg cur /\ cell_ge ((o + 1) * value_size + c) (w0 * x) cur).
  { unfold blur_passes in Eb.
    assert (G : nonneg (fst (cur, nxt)) /\ nonneg (snd (cur, nxt)) /\
                cell_ge ((o + 1) * value_size + c) (w0 * x) (fst (cur, nxt)));
      [|simpl in G; tauto].
    apply (for_upto_keeps
      (fun t : list R * list R =>
         nonneg (fst t) /\ nonneg (snd t) /\
         cell_ge ((o + 1) * value_size + c) (w0 * x) (fst t)) _ _ _ _ _ Eb).
    - simpl. split; [exact Hn1|]. split; [apply nonneg_zeros|].
      intros y' Hy'. rewrite Hy in Hy'. injection Hy' as <-. exact Hle.
    - intros j [a b] [a' b'] Hj (G1 & G2 & G4) Ea.
      destruct (blur_axis_nonneg p value_size j (a, b) (a', b') (conj G1 G2) Ea)
        as [G1' G2'].
      pose proof (blur_axis_cell p value_size j o c (w0 * x) (a, b) (a', b')
                    Hvs Hor Hc G1 G4 Ea) as G4'.
      simpl in *. auto. }
  destruct Hfin as [Hncur Hcell].
  destruct (slice_spec p cur value_size out_offset _ out res Hvs ltac:(lia) Er)
    as (_ & Hrow & _).
  destruct (Hrow (k - out_offset) c ltac:(lia) Hc) as (v' & Hv' & Hres).
  replace (out_offset + (k - out_offset)) with k in Hv' by lia.
  exists v'. split; [exact Er0|]. split; [exact Hres|].
  apply (slice_value_positive p cur value_size k c r0 o w0 (w0 * x) v' Hw Hncur
           Hr0 Ho Hw0); auto.
  apply Rmult_lt_0_compat; lra.
Qed.

(** X22: over the reals, on a lattice that [init] built (with [2d+1]
    within a [short]), with both ranges inside the points, the arrays
    long enough and the sizes [(M_+2)*value_size] and [N*value_size] of
    type [int], [compute] on values that are not negative answers a
    strictly positive input with a strictly positive output: if point [k]
    lies in the input range and in the output range and its input value
    in channel [c] is [> 0], then the output of point [k] in channel [c]
    is [> 0]. *)
Theorem compute_positive_on_diagonal (stray : Z -> Z) (feature : list R)
    (feature_size N : Z) (p : Permutohedral R) (out inp : list R)
    (value_size in_offset out_offset in_size out_size k c : Z) (x : R) :
  init stray feature feature_size N = Some p ->
  2 * feature_size + 1 <= 32767 ->
  (M_ p + 2) * value_size <= 2147483647 ->
  N * value_size <= 2147483647 ->
  0 <= in_offset ->
  in_offset + resolve_size N in_offset in_size <= N ->
  resolve_size N in_offset in_size * value_size <= len inp ->
  0 <= out_offset ->
  out_offset + resolve_size N out_offset out_size <= N ->
  resolve_size N out_offset out_size * value_size <= len out ->
  nonneg inp ->
  in_offset <= k < in_offset + resolve_size N in_offset in_size ->
  out_offset <= k < out_offset + resolve_size N out_offset out_size ->
  0 <= c < value_size ->
  rd inp ((k - in_offset) * value_size + c) = Some x -> (0 < x)%R ->
  exists res y,
    compute p out inp value_size in_offset out_offset in_size out_size = Some res /\
    rd res ((k - out_offset) * value_size + c) = Some y /\ (0 < y)%R.
Proof. apply compute_positive. Qed.
End DiagonalTheorem.

(** ** On concrete lattices *)

Lemma channel_view_rows {A} (value_size c n : Z) (a b : list A) :
  0 <= c < value_size -> 0 <= n -> len a = n * value_size -> len b = n ->
  (forall i, 0 <= i < n -> rd b i = rd a (i * value_size + c)) ->
  channel_view value_size c a b.
Proof.
  intros Hc Hn La Lb H i.
  destruct (Z_lt_ge_dec i 0) as [Hneg|Hpos].
  { unfold rd. destruct (Z.ltb_spec i 0); [|lia].
    destruct (Z.ltb_spec (i * value_size + c) 0); [reflexivity|nia]. }
  destruct (Z_lt_ge_dec i n) as [Hin|Hout]; [apply H; lia|].
  rewrite !rd_none; auto; nia.
Qed.

Lemma combines_single (a b x y z : R) :
  z = (a * x + b * y)%R -> combines a b [x] [y] [z].
Proof.
  intros ->. split; [reflexivity|]. split; [reflexivity|]. intros i x' y' Hx Hy.
  pose proof (rd_range _ _ _ Hx) as Hi. unfold len in Hi. simpl in Hi.
  assert (i = 0) by lia. subst i. unfold rd in *. simpl in *. congruence.
Qed.

Lemma nonneg_single (x : R) : (0 <= x)%R -> nonneg [x].
Proof.
  intros Hx i y Hy. pose proof (rd_range _ _ _ Hy) as Hi. unfold len in Hi. simpl in Hi.
  assert (i = 0) by lia. subst i. unfold rd in Hy. simpl in Hy. congruence.
Qed.

(** ** A lattice of one point *)

Section SinglePoint.
Context {FM : Fresh R}.

(** What a run of [compute] leaves in [out]: the rows of the output range
    are read off the blurred values, the rest stays. *)
Lemma compute_rows (p : Permutohedral R) (out inp res : list R)
    (value_size in_offset out_offset in_size out_size : Z) :
  0 <= value_size -> 0 <= d_ p + 1 ->
  compute p out inp value_size in_offset out_offset in_size out_size = Some res ->
  exists values scratch,
    blurred p inp value_size in_offset in_size (d_ p + 1) = Some (values, scratch) /\
    len res = len out /\
    (forall i k, 0 <= i < resolve_size (N_ p) out_offset out_size -> 0 <= k < value_size ->
       exists v, slice_value p values value_size (out_offset + i) k = Some v /\
                 rd res (i * value_size + k) = Some v) /\
    (forall idx, ~ (0 <= idx < resolve_size (N_ p) out_offset out_size * value_size) ->
       rd res idx = rd out idx).
Proof.
  intros Hvs Hd E. open_compute E.
  destruct (blurred _ _ _ _ _ _) as [[values scratch]|]; [|discriminate].
  exists values, scratch. split; [reflexivity|].
  now apply slice_spec in E.
Qed.

(** C4: over the reals, on the lattice that [init] builds from a single
    feature point, in any dimension [d] and whatever the features,
    [compute] with the default ranges returns the value vector multiplied
    by a gain [g] that depends on the lattice only, not on the values, on
    their number or on the channel, and leaves the rest of [out] alone; [g]
    is positive when [2d+1] fits a [short].  The values are [value_size]
    numbers at the front of [in], and the scratch size
    [(M_+2)*value_size] is of type [int]. *)
Theorem single_point_scales_values (stray : Z -> Z) (feature : list R) (d : Z)
    (p : Permutohedral R) :
  1 <= d -> init stray feature d 1 = Some p ->
  exists g : R,
    (2 * d + 1 <= 32767 -> (0 < g)%R) /\
    forall (out inp : list R) (value_size : Z),
      0 <= value_size -> (M_ p + 2) * value_size <= 2147483647 ->
      value_size <= len inp -> value_size <= len out ->
      exists res,
        compute p out inp value_size 0 0 (-1) (-1) = Some res /\
        len res = len out /\
        (forall c x, 0 <= c < value_size -> rd inp c = Some x ->
           rd res c = Some (g * x)%R) /\
        (forall idx, ~ (0 <= idx < value_size) -> rd res idx = rd out idx).
Proof.
  intros Hd E.
  destruct (init_built _ _ _ _ _ E) as (Hb & Hbd & HbN).
  pose proof (built_M p Hb) as HM. pose proof (built_d p Hb) as Hd0.
  destruct (built_sizes p Hb) as (_ & HM2 & _ & _).
  assert (R1 : resolve_size (N_ p) 0 (-1) = 1) by (rewrite HbN; reflexivity).
  (* the answer to the value 1 *)
  destruct (compute_total p [0%R] [1%R] 1 0 0 (-1) (-1) Hb) as [rg Eg];
    try (rewrite R1); try (rewrite HbN); try (unfold len; simpl; lia).
  destruct (compute_rows p _ _ _ 1 0 0 (-1) (-1) ltac:(lia) ltac:(lia) Eg)
    as (vg & sg & _ & Lg & _ & _).
  destruct (rd_some rg 0) as [g Hg]; [rewrite Lg; unfold len; simpl; lia|].
  exists g. split.
  { intros Hs.
    destruct (compute_positive stray feature d 1 p [0%R] [1%R] 1 0 0 (-1) (-1) 0 0 1%R)
      as (r & y & Er & Hy & Hpos); auto;
      try (unfold resolve_size, len; simpl; lia).
    - apply nonneg_single. lra.
    - lra.
    - rewrite Eg in Er. injection Er as <-. simpl in Hy. rewrite Hg in Hy.
      injection Hy as <-. exact Hpos. }
  intros out inp value_size Hvs Hint Hli Hlo.
  destruct (compute_total p out inp value_size 0 0 (-1) (-1) Hb Hvs) as [res Er];
    try (rewrite R1); try (rewrite HbN); try lia.
  destruct (compute_rows p _ _ _ value_size 0 0 (-1) (-1) Hvs ltac:(lia) Er)
    as (values & scratch & Eb & Lr & Hrow & Hrest).
  rewrite R1 in Hrow, Hrest.
  exists res. split; [exact Er|]. split; [exact Lr|]. split.
  2:{ intros idx Hidx. apply Hrest. lia. }
  intros c x Hc Hx.
  set (inp' := firstn (Z.to_nat value_size) inp).
  set (out' := repeat 0%R (Z.to_nat value_size)).
  assert (Li : len inp' = value_size).
  { unfold inp', len. rewrite length_firstn. unfold len in Hli. lia. }
  assert (Lo : len out' = value_size) by (apply len_repeat; lia).
  (* the same values, alone in their arrays *)
  destruct (compute_total p out' inp' value_size 0 0 (-1) (-1) Hb Hvs) as [res' Er'];
    try (rewrite R1); try (rewrite HbN); try lia.
  assert (Esame : compute p out' inp value_size 0 0 (-1) (-1) = Some res').
  { rewrite <- Er'. apply compute_same_input. intros idx Hidx. rewrite R1 in Hidx.
    unfold inp'. rewrite rd_firstn.
    destruct (Z.ltb_spec idx (Z.of_nat (Z.to_nat value_size))); [reflexivity|lia]. }
  destruct (compute_rows p _ _ _ value_size 0 0 (-1) (-1) Hvs ltac:(lia) Esame)
    as (values' & scratch' & Eb' & _ & Hrow' & _).
  rewrite Eb in Eb'. injection Eb' as <- <-. rewrite R1 in Hrow'.
  destruct (Hrow 0 c ltac:(lia) Hc) as (v & Hv & Hres).
  destruct (Hrow' 0 c ltac:(lia) Hc) as (v' & Hv' & Hres').
  rewrite Hv in Hv'. injection Hv' as <-.
  replace (0 * value_size + c) with c in Hres, Hres' by lia.
  rewrite Hres. rewrite <- Hres'.
  (* channel [c] of them *)
  destruct (compute_channel p out' inp' [0%R] [x] res' value_size c 0 0 (-1) (-1) Hc)
    as (res1 & E1 & Hview); auto.
  { apply (channel_view_rows value_size c 1); auto; try lia.
    intros i Hi. assert (i = 0) by lia. subst i.
    replace (0 * value_size + c) with c by lia.
    unfold inp'. rewrite rd_firstn.
    destruct (Z.ltb_spec c (Z.of_nat (Z.to_nat value_size))); [|lia].
    now rewrite Hx. }
  { apply (channel_view_rows value_size c 1); auto; try lia.
    intros i Hi. assert (i = 0) by lia. subst i.
    unfold out'. rewrite rd_repeat by lia. reflexivity. }
  specialize (Hview 0). replace (0 * value_size + c) with c in Hview by lia.
  rewrite <- Hview.
  (* and the value [x] is [x] times the value 1 *)
  pose proof (compute_combines x 0 p [0%R] [0%R] [0%R] [1%R] [1%R] [x] 1 0 0 (-1) (-1)
                ltac:(apply combines_single; lra) ltac:(apply combines_single; lra))
    as Hlin.
  rewrite Eg, E1 in Hlin. destruct Hlin as (_ & _ & Hlin).
  rewrite (Hlin 0 g g Hg Hg). f_equal. lra.
Qed.
End SinglePoint.

Lemma binary32_to_short_range (x : spec_float) (z : Z) :
  f_to_short x = Some z -> -32768 <= z <= 32767.
Proof.
  simpl. unfold B32.trunc_short. destruct x as [s| | |s m e]; try discriminate.
  - intros E. inversion E. lia.
  - destruct (Z.leb_spec (-32768) (cond_Zopp s (B32.trunc_mag m e)));
      destruct (Z.leb_spec (cond_Zopp s (B32.trunc_mag m e)) 32767); simpl;
      try discriminate.
    intros E. inversion E. lia.
Qed.

Section MoreOnBinary32.
Import Binary32.

Lemma init_twin : init no_stray [zero; zero] 1 2 = Some twin_lattice.
Proof. vm_compute. reflexivity. Qed.

Lemma compute_on_copy_witness :
  exists q,
    Permutohedral_copy origin_lattice = Some q /\
    (N_ origin_lattice = M_ origin_lattice ->
     compute q [zero] [one] 1 0 0 (-1) (-1)
     = compute origin_lattice [zero] [one] 1 0 0 (-1) (-1)) /\
    (N_ origin_lattice < M_ origin_lattice ->
     compute q [zero] [one] 1 0 0 (-1) (-1) = None).
Proof.
  eexists. split; [reflexivity|].
  apply (compute_on_copy origin_lattice _ [zero] [one] 1 0 0 (-1) (-1) built_origin).
  reflexivity.
Defined.

Lemma compute_overwrites_output_witness :
  both (alike 0 (resolve_size (N_ pair_lattice) 0 (-1) * 1))
    (compute pair_lattice [zero; zero] [one; zero] 1 0 0 (-1) (-1))
    (compute pair_lattice [one; one] [one; zero] 1 0 0 (-1) (-1)).
Proof.
  apply (compute_overwrites_output pair_lattice [zero; zero] [one; one] [one; zero]
           1 0 0 (-1) (-1)).
  - lia.
  - reflexivity.
Defined.

Lemma compute_channelwise_witness :
  exists res1,
    compute pair_lattice [zero; zero] [zero; one] 1 0 0 (-1) (-1) = Some res1 /\
    channel_view 2 1
      [S754_finite false 15346828 (-24); S754_finite false 13658136 (-24);
       S754_finite false 14999120 (-24); S754_finite false 13409824 (-24)] res1.
Proof.
  apply (compute_channelwise pair_lattice [zero; zero; zero; zero] [one; zero; tenth; one]
           [zero; zero] [zero; one] _ 2 1 0 0 (-1) (-1)).
  - lia.
  - apply (channel_view_rows 2 1 2); [lia|lia|reflexivity|reflexivity|].
    intros i Hi. assert (i = 0 \/ i = 1) as [-> | ->] by lia; reflexivity.
  - apply (channel_view_rows 2 1 2); [lia|lia|reflexivity|reflexivity|].
    intros i Hi. assert (i = 0 \/ i = 1) as [-> | ->] by lia; reflexivity.
  - vm_compute. reflexivity.
Defined.

Lemma neighbors_symmetric_witness :
  (0 <= 1 ->
   1 < M_ origin_lattice /\
   exists nb',
     rd [{| n1 := 1; n2 := -1 |}; {| n1 := -1; n2 := 0 |};
         {| n1 := -1; n2 := 1 |}; {| n1 := 0; n2 := -1 |}]
        (0 * M_ origin_lattice + 1) = Some nb' /\ n2 nb' = 0) /\
  (0 <= -1 ->
   -1 < M_ origin_lattice /\
   exists nb',
     rd [{| n1 := 1; n2 := -1 |}; {| n1 := -1; n2 := 0 |};
         {| n1 := -1; n2 := 1 |}; {| n1 := 0; n2 := -1 |}]
        (0 * M_ origin_lattice + -1) = Some nb' /\ n1 nb' = 0).
Proof.
  apply (neighbors_symmetric no_stray [zero] 1 1 origin_lattice
           [{| n1 := 1; n2 := -1 |}; {| n1 := -1; n2 := 0 |};
            {| n1 := -1; n2 := 1 |}; {| n1 := 0; n2 := -1 |}]
           0 0 {| n1 := 1; n2 := -1 |}).
  - exact binary32_to_short_range.
  - exact init_origin.
  - reflexivity.
  - lia.
  - simpl. lia.
  - reflexivity.
Defined.

Lemma vertices_are_corners_witness :
  M_ pair_lattice <= (1 + 1) * 2 /\
  (1 <= 2 -> 1 <= M_ pair_lattice) /\
  forall v, 0 <= v < M_ pair_lattice ->
    exists idx, 0 <= idx < (1 + 1) * 2 /\ table (offset_ pair_lattice) idx = Some v.
Proof.
  apply (vertices_are_corners no_stray [zero; tenth] 1 2 pair_lattice). exact init_pair.
Defined.

Lemma equal_features_equal_outputs_witness :
  (forall r, 0 <= r <= 1 ->
     table (offset_ twin_lattice) (0 * (1 + 1) + r)
     = table (offset_ twin_lattice) (1 * (1 + 1) + r) /\
     table (barycentric_ twin_lattice) (0 * (1 + 1) + r)
     = table (barycentric_ twin_lattice) (1 * (1 + 1) + r)) /\
  forall (out inp res : list spec_float)
         (value_size in_offset out_offset in_size out_size : Z),
    0 <= value_size ->
    compute twin_lattice out inp value_size in_offset out_offset in_size out_size
    = Some res ->
    0 <= 0 - out_offset < resolve_size 2 out_offset out_size ->
    0 <= 1 - out_offset < resolve_size 2 out_offset out_size ->
    forall c, 0 <= c < value_size ->
      rd res ((0 - out_offset) * value_size + c)
      = rd res ((1 - out_offset) * value_size + c).
Proof.
  apply (equal_features_equal_outputs no_stray [zero; zero] 1 2 twin_lattice 0 1).
  - exact init_twin.
  - lia.
  - lia.
  - intros j Hj. assert (j = 0) by lia. subst j. reflexivity.
Defined.
Lemma init_without_points_witness :
  exists p,
    init no_stray [one] 1 0 = Some p /\
    N_ p = 0 /\ M_ p = 0 /\ d_ p = 1 /\
    offset_ p = Some [] /\ barycentric_ p = Some [] /\ blur_neighbors_ p = Some [] /\
    forall (out inp : list spec_float) (value_size : Z),
      0 <= value_size -> 2 * value_size <= 2147483647 ->
      compute p out inp value_size 0 0 (-1) (-1) = Some out.
Proof.
  apply (proj1 (init_without_points no_stray [one] 1)); simpl; lia.
Defined.

Lemma compute_reads_input_range_witness :
  compute pair_lattice [zero; zero] [one; zero] 1 0 0 (-1) (-1)
  = compute pair_lattice [zero; zero] [one; zero; one] 1 0 0 (-1) (-1).
Proof.
  apply (compute_reads_input_range pair_lattice [zero; zero] [one; zero] [one; zero; one]
           1 0 0 (-1) (-1)).
  intros idx Hidx. unfold resolve_size in Hidx. simpl in Hidx.
  assert (idx = 0 \/ idx = 1) as [-> | ->] by lia; reflexivity.
Defined.

Lemma compute_range_outside_points_witness :
  compute origin_lattice [zero; zero] [one; one] 1 0 0 2 (-1) = None.
Proof.
  apply (compute_range_outside_points origin_lattice [zero; zero] [one; one]
           1 0 0 2 (-1) built_origin).
  left. unfold resolve_size. simpl. lia.
Defined.

Lemma init_reads_features_witness :
  init no_stray [zero; one] 1 1 = init no_stray [zero] 1 1 /\
  init no_stray [] 1 1 = None.
Proof.
  split.
  - apply (proj1 (init_reads_features no_stray [zero; one] [zero] 1 1)).
    intros idx Hidx. assert (idx = 0) by lia. subst idx. reflexivity.
  - apply (proj2 (init_reads_features no_stray [] [] 1 1)). unfold len. simpl. lia.
Defined.
End MoreOnBinary32.

Section MoreOnReals.
Import ExactReal.

Lemma compute_linear_witness :
  all3 (combines 2 3)
    (compute origin_lattice [0%R] [1%R] 1 0 0 (-1) (-1))
    (compute origin_lattice [0%R] [0%R] 1 0 0 (-1) (-1))
    (compute origin_lattice [0%R] [2%R] 1 0 0 (-1) (-1)).
Proof.
  apply (compute_linear 2 3 origin_lattice [0%R] [0%R] [0%R] [1%R] [0%R] [2%R]
           1 0 0 (-1) (-1)).
  - apply combines_single. lra.
  - apply combines_single. lra.
Defined.

Lemma compute_keeps_nonnegative_witness :
  exists res,
    compute origin_lattice [0%R] [1%R] 1 0 0 (-1) (-1) = Some res /\
    forall idx, 0 <= idx < resolve_size 1 0 (-1) * 1 ->
      exists x, rd res idx = Some x /\ (0 <= x)%R.
Proof.
  apply (compute_keeps_nonnegative (fun _ => 0) [0%R] 1 1 origin_lattice [0%R] [1%R]
           1 0 0 (-1) (-1)).
  - apply init_origin_exact.
  - lia.
  - lia.
  - vm_compute. congruence.
  - lia.
  - lia.
  - vm_compute. congruence.
  - vm_compute. congruence.
  - lia.
  - vm_compute. congruence.
  - vm_compute. congruence.
  - apply nonneg_single. lra.
Defined.

Lemma compute_positive_on_diagonal_witness :
  exists res y,
    compute origin_lattice [0%R] [1%R] 1 0 0 (-1) (-1) = Some res /\
    rd res ((0 - 0) * 1 + 0) = Some y /\ (0 < y)%R.
Proof.
  apply (compute_positive_on_diagonal (fun _ => 0) [0%R] 1 1 origin_lattice [0%R] [1%R]
           1 0 0 (-1) (-1) 0 0 1%R).
  - apply init_origin_exact.
  - lia.
  - vm_compute. congruence.
  - lia.
  - lia.
  - vm_compute. congruence.
  - vm_compute. congruence.
  - lia.
  - vm_compute. congruence.
  - vm_compute. congruence.
  - apply nonneg_single. lra.
  - vm_compute. split; congruence.
  - vm_compute. split; congruence.
  - lia.
  - reflexivity.
  - lra.
Defined.

Lemma init_defined_on_bounded_features_witness :
  exists p, init (fun _ => 0) [(/ 2)%R; (- / 4)%R] 2 1 = Some p.
Proof.
  apply (init_defined_on_bounded_features (fun _ => 0) [(/ 2)%R; (- / 4)%R] 2 1 (/ 2)%R).
  - lia.
  - lia.
  - lra.
  - lia.
  - intros i Hi. assert (i = 0 \/ i = 1) as [-> | ->] by lia;
      (eexists; split; [reflexivity|lra]).
  - simpl. lra.
Defined.
Lemma corners_are_distinct_witness :
  1 + 1 <= M_ origin_lattice /\
  forall r1 r2, 0 <= r1 < r2 -> r2 <= 1 ->
    exists o1 o2,
      table (offset_ origin_lattice) (0 * (1 + 1) + r1) = Some o1 /\
      table (offset_ origin_lattice) (0 * (1 + 1) + r2) = Some o2 /\
      o1 <> o2.
Proof.
  apply (corners_are_distinct (fun _ => 0) [0%R] 1 1 origin_lattice 0).
  - apply init_origin_exact.
  - lia.
  - lia.
Defined.

Lemma built_twin_exact : built twin_lattice.
Proof.
  split; try (simpl; lia).
  - exists [0; 1; 0; 1]. split; [reflexivity|]. split; [reflexivity|].
    intros i Hi. simpl in Hi.
    assert (i = 0 \/ i = 1 \/ i = 2 \/ i = 3) as [-> | [-> | [-> | ->]]] by lia;
      (eexists; split; [reflexivity|simpl; lia]).
  - eexists. split; reflexivity.
  - eexists. split; [reflexivity|]. split; [reflexivity|].
    intros i Hi. simpl in Hi.
    assert (i = 0 \/ i = 1 \/ i = 2 \/ i = 3) as [-> | [-> | [-> | ->]]] by lia;
      (eexists; split; [reflexivity|simpl; lia]).
Qed.

Lemma single_point_scales_values_witness :
  exists g : R,
    (2 * 1 + 1 <= 32767 -> (0 < g)%R) /\
    forall (out inp : list R) (value_size : Z),
      0 <= value_size -> (M_ origin_lattice + 2) * value_size <= 2147483647 ->
      value_size <= len inp -> value_size <= len out ->
      exists res,
        compute origin_lattice out inp value_size 0 0 (-1) (-1) = Some res /\
        len res = len out /\
        (forall c x, 0 <= c < value_size -> rd inp c = Some x ->
           rd res c = Some (g * x)%R) /\
        (forall idx, ~ (0 <= idx < value_size) -> rd res idx = rd out idx).
Proof.
  apply (single_point_scales_values (fun _ => 0) [0%R] 1 origin_lattice).
  - lia.
  - apply init_origin_exact.
Defined.

Lemma input_range_is_zero_padding_witness :
  compute twin_lattice [5%R; 5%R] [7%R] 1 1 0 1 (-1)
  = compute twin_lattice [5%R; 5%R] [0%R; 7%R] 1 0 0 (-1) (-1).
Proof.
  apply (input_range_is_zero_padding twin_lattice [5%R; 5%R] [7%R] [0%R; 7%R]
           1 1 0 1 (-1)).
  - exact built_twin_exact.
  - lia.
  - simpl. lia.
  - lia.
  - lia.
  - simpl. lia.
  - intros i k Hi Hk. assert (i = 0) by lia. assert (k = 0) by lia. subst i k.
    reflexivity.
  - intros i k Hi Hn Hk. simpl in Hi.
    assert (i = 0) by lia. assert (k = 0) by lia. subst i k. reflexivity.
Defined.
End MoreOnReals.
